(** * A shallow embedding of the HolyChen/BPlusTree container

    The C++ template [BPlusTree<T, order, Compare>] of [src/BPlusTree.h] is
    embedded at the instantiation used by [src/example.cpp]: keys are
    integers compared with [std::less<int>].  The template parameter
    [order] stays a parameter of the development.

    Nodes live in a heap indexed by addresses; every raw pointer of the
    source is an [option addr] ([None] is [nullptr]).  The header sentinel
    [m_header] is a node like any other and sits at the reserved address
    [header].  Member functions are written in a state-and-failure monad
    over the whole tree object: a failing computation stands for undefined
    behaviour of the source (null or dangling dereference, dereferencing
    or stepping past [end()] of a record container, a loop that does not
    finish). *)

From stdpp Require Import gmap list sorting.
From Stdlib Require Import ZArith Lia.

Open Scope Z_scope.

(** ** Data model *)

Abbreviation key_type := Z (only parsing).
Abbreviation addr := nat (only parsing).
Abbreviation ptr := (option nat) (only parsing).
Abbreviation RecordPair := (Z * option nat)%type (only parsing).

(** [struct Node]: the record container is a [std::set] ordered on the key
    only; it is kept as the list of its elements in iteration order.  A
    record iterator is the index of its element in that list, [end()] is
    the length of the list. *)
Record Node := mkNode {
  records : list RecordPair;
  is_leaf : bool;
  next : ptr;
  pre : ptr;
  parent : ptr
}.

(** The address of the member [m_header]. *)
Definition header : addr := 0%nat.

(** The object state: [m_root], [m_size] and the node store, which holds
    [m_header] and every node obtained from [new].  [m_size] counts stored
    keys, each of which occupies a distinct record in the store, and is
    kept as a natural number. *)
Record tree := mkTree {
  m_root : ptr;
  m_size : nat;
  heap : gmap addr Node
}.

(** [BPlusTreeIterator]: [it_tree] tells whether the [tree] field is set
    (every iterator made by the container has it set). *)
Record iterator := mkIt {
  it_tree : bool;
  it_node : ptr;
  it_rec : nat
}.

Inductive EraseStrategy :=
  ROOT | REMOVE_DIRECTLY | MERGE_LEFT | MERGE_RIGHT | BORROW_LEFT | BORROW_RIGHT | SINGLE_CHILD.

Inductive erase_result :=
  | underflow_error
  | erased (it : iterator).

(** ** The monad of member functions *)

Definition M (A : Type) : Type := tree → option (A * tree).

Definition ret {A} (a : A) : M A := λ t, Some (a, t).
Definition bind {A B} (m : M A) (f : A → M B) : M B :=
  λ t, match m t with Some (a, t') => f a t' | None => None end.
Definition undefined {A} : M A := λ _, None.

Notation "x <- m ;; k" := (bind m (λ x, k))
  (at level 100, m at next level, right associativity).
Notation "m ;;; k" := (bind m (λ _, k))
  (at level 100, right associativity).

Definition when (b : bool) (m : M unit) : M unit := if b then m else ret tt.

(** Short-circuit conjunction: the right operand is evaluated only when
    the left one is true. *)
Definition andM (b : bool) (m : M bool) : M bool := if b then m else ret false.

Definition ptr_eqb (p q : ptr) : bool := bool_decide (p = q).

(** *** Store access *)

Definition with_heap (f : gmap addr Node → gmap addr Node) (t : tree) : tree :=
  mkTree (m_root t) (m_size t) (f (heap t)).

Definition load (p : ptr) : M Node := λ t,
  match p with
  | Some a => match heap t !! a with Some n => Some (n, t) | None => None end
  | None => None
  end.

Definition modify (p : ptr) (f : Node → Node) : M unit := λ t,
  match p with
  | Some a =>
      match heap t !! a with
      | Some n => Some (tt, with_heap <[a := f n]> t)
      | None => None
      end
  | None => None
  end.

Definition set_records (r : list RecordPair) (n : Node) : Node :=
  mkNode r (is_leaf n) (next n) (pre n) (parent n).
Definition set_is_leaf (b : bool) (n : Node) : Node :=
  mkNode (records n) b (next n) (pre n) (parent n).
Definition set_next (p : ptr) (n : Node) : Node :=
  mkNode (records n) (is_leaf n) p (pre n) (parent n).
Definition set_pre (p : ptr) (n : Node) : Node :=
  mkNode (records n) (is_leaf n) (next n) p (parent n).
Definition set_parent (p : ptr) (n : Node) : Node :=
  mkNode (records n) (is_leaf n) (next n) (pre n) p.

Definition get_root : M ptr := λ t, Some (m_root t, t).
Definition put_root (p : ptr) : M unit :=
  λ t, Some (tt, mkTree p (m_size t) (heap t)).
Definition get_size : M nat := λ t, Some (m_size t, t).
Definition put_size (n : nat) : M unit :=
  λ t, Some (tt, mkTree (m_root t) n (heap t)).

(** A bound on the number of iterations of any pointer-chasing loop: no
    path through distinct nodes is longer than the store. *)
Definition loop_bound : M nat := λ t, Some (S (base.size (heap t)), t).

(** [new node_type(m_innercomp)]: a node with the default member
    initialisers at an address that is not in use. *)
Definition make_node : M ptr := λ t,
  let a := fresh (dom (heap t)) in
  Some (Some a, with_heap <[a := mkNode [] true None None None]> t).

(** [delete p]. *)
Definition delete_node (p : ptr) : M unit := λ t,
  match p with
  | Some a =>
      match heap t !! a with
      | Some _ => Some (tt, with_heap (base.delete a) t)
      | None => None
      end
  | None => Some (tt, t)
  end.

(** ** The record container ([std::set<RecordPair, InnerCompare>]) *)

Definition keycomp (a b : key_type) : bool := a <? b.

(** Index of the first record whose key is not less than [k]. *)
Fixpoint lower_bound_idx (k : key_type) (l : list RecordPair) : nat :=
  match l with
  | [] => 0
  | r :: l' => if keycomp r.1 k then S (lower_bound_idx k l') else 0
  end%nat.

(** Index of the first record whose key is greater than [k]. *)
Fixpoint upper_bound_idx (k : key_type) (l : list RecordPair) : nat :=
  match l with
  | [] => 0
  | r :: l' => if keycomp k r.1 then 0 else S (upper_bound_idx k l')
  end%nat.

(** [records.find(k)]: the lower bound when its key is equivalent to [k],
    [end()] otherwise. *)
Definition find_idx (k : key_type) (l : list RecordPair) : nat :=
  let i := lower_bound_idx k l in
  match l !! i with
  | Some r => if keycomp k r.1 then length l else i
  | None => length l
  end.

(** [records.insert(r)] (with or without a position hint, which never
    changes the result): [r] goes before the first record with a greater
    key unless the record before that place has an equivalent key.  The
    result is the new container and the position of the record with that
    key. *)
Definition set_insert (r : RecordPair) (l : list RecordPair) : list RecordPair * nat :=
  let i := upper_bound_idx r.1 l in
  match i with
  | S j =>
      match l !! j with
      | Some q => if keycomp q.1 r.1 then (take i l ++ r :: drop i l, i) else (l, j)
      | None => (take i l ++ r :: drop i l, i)
      end
  | O => (r :: l, 0%nat)
  end.

(** The record an iterator designates; dereferencing [end()] is undefined. *)
Definition record_at (p : ptr) (i : nat) : M RecordPair :=
  n <- load p ;;
  match records n !! i with
  | Some r => ret r
  | None => undefined
  end.

(** [records.begin()] dereferenced. *)
Definition first_record (p : ptr) : M RecordPair := record_at p 0.

(** [--records.end()], undefined on an empty container. *)
Definition last_index (p : ptr) : M nat :=
  n <- load p ;;
  match length (records n) with
  | O => undefined
  | S j => ret j
  end.

Definition last_record (p : ptr) : M RecordPair :=
  j <- last_index p ;; record_at p j.

Definition records_size (p : ptr) : M nat :=
  n <- load p ;; ret (length (records n)).

(** [p->records.insert(r)], returning the position of the record. *)
Definition insert_record (p : ptr) (r : RecordPair) : M nat :=
  n <- load p ;;
  let '(l, i) := set_insert r (records n) in
  modify p (set_records l) ;;;
  ret i.

(** [p->records.erase(it)]. *)
Definition erase_record (p : ptr) (i : nat) : M unit :=
  n <- load p ;;
  match records n !! i with
  | Some _ => modify p (set_records (base.delete i (records n)))
  | None => undefined
  end.

(** [const_cast<key_type&>(it->first) = k]. *)
Definition overwrite_key (p : ptr) (i : nat) (k : key_type) : M unit :=
  n <- load p ;;
  match records n !! i with
  | Some r => modify p (set_records (<[i := (k, r.2)]> (records n)))
  | None => undefined
  end.

(** [const_cast<node_type*&>(it->second) = c]. *)
Definition overwrite_child (p : ptr) (i : nat) (c : ptr) : M unit :=
  n <- load p ;;
  match records n !! i with
  | Some r => modify p (set_records (<[i := (r.1, c)]> (records n)))
  | None => undefined
  end.

(** [if (c != nullptr) c->parent = p]. *)
Definition adopt (c : ptr) (p : ptr) : M unit :=
  match c with
  | Some _ => modify c (set_parent p)
  | None => ret tt
  end.

(** ** Iterators *)

Definition make_iterator_uncheck (node : ptr) (rit : nat) : iterator :=
  mkIt true node rit.

(** [make_iterator()]: the end iterator of this tree. *)
Definition make_end : iterator := mkIt true None 0.

(** [make_iterator(node, rit)]. *)
Definition make_iterator (node : ptr) (rit : nat) : M iterator :=
  n <- load node ;;
  if bool_decide (rit ≠ length (records n)) then ret (make_iterator_uncheck node rit)
  else if negb (ptr_eqb (next n) (Some header)) then
    load (next n) ;;;
    ret (mkIt true (next n) 0)
  else ret make_end.

(** [operator==]. *)
Definition it_eq (a b : iterator) : bool :=
  let a_end := negb (it_tree a) || ptr_eqb (it_node a) None in
  let b_end := negb (it_tree b) || ptr_eqb (it_node b) None in
  if a_end && b_end then true
  else if xorb a_end b_end then false
  else bool_decide (it_tree a = it_tree b) && ptr_eqb (it_node a) (it_node b)
       && bool_decide (it_rec a = it_rec b).

(** [operator*]. *)
Definition deref (it : iterator) : M key_type :=
  if negb (it_tree it) then undefined else
  r <- record_at (it_node it) (it_rec it) ;; ret r.1.

(** [operator++]. *)
Definition incr (it : iterator) : M iterator :=
  root <- get_root ;;
  if negb (it_tree it) || ptr_eqb root None then ret it else
  n <- load (it_node it) ;;
  if bool_decide (length (records n) ≤ it_rec it)%nat then undefined else
  let i := S (it_rec it) in
  if bool_decide (i = length (records n)) then
    if negb (ptr_eqb (next n) (Some header)) then
      load (next n) ;;;
      ret (mkIt true (next n) 0)
    else ret (mkIt true None i)
  else ret (mkIt true (it_node it) i).

(** [operator--]. *)
Definition decr (it : iterator) : M iterator :=
  root <- get_root ;;
  if negb (it_tree it) || ptr_eqb root None then ret it else
  hd <- load (Some header) ;;
  at_begin <- andM (ptr_eqb (it_node it) (next hd))
                (load (it_node it) ;;; ret (bool_decide (it_rec it = 0%nat))) ;;
  if at_begin then ret it else
  if ptr_eqb (it_node it) None then
    j <- last_index (pre hd) ;;
    ret (mkIt true (pre hd) j)
  else
    n <- load (it_node it) ;;
    match it_rec it with
    | O =>
        j <- last_index (pre n) ;;
        ret (mkIt true (pre n) j)
    | S i => ret (mkIt true (it_node it) i)
    end.

(** ** The container *)

Section BPlusTree.

(** The template parameter; [static_assert(order > 1u)] is a hypothesis of
    the theorems that need it. *)
Variable order : nat.

Definition half_order : nat := ((order + 1) / 2)%nat.

(** The state left by the constructors: [m_root] is null, [m_size] is
    zero and [clear()] has closed the header on itself. *)
Definition empty_tree : tree :=
  mkTree None 0 {[ header := mkNode [] true (Some header) (Some header) None ]}.

Definition reset_header : M unit :=
  modify (Some header) (set_next (Some header)) ;;;
  modify (Some header) (set_pre (Some header)).

(** *** Search *)

Fixpoint find_loop (fuel : nat) (key : key_type) (cur : ptr) : M iterator :=
  match cur with
  | None => ret make_end
  | Some _ =>
      match fuel with
      | O => undefined
      | S fuel' =>
          n <- load cur ;;
          if negb (is_leaf n) then
            let i := lower_bound_idx key (records n) in
            if bool_decide (i = length (records n)) then ret make_end
            else r <- record_at cur i ;; find_loop fuel' key r.2
          else
            let i := find_idx key (records n) in
            if bool_decide (i ≠ length (records n)) then ret (make_iterator_uncheck cur i)
            else ret make_end
      end
  end.

Definition find (key : key_type) : M iterator :=
  fuel <- loop_bound ;;
  root <- get_root ;;
  find_loop fuel key root.

Fixpoint lower_bound_loop (fuel : nat) (key : key_type) (cur : ptr) : M iterator :=
  match cur with
  | None => ret make_end
  | Some _ =>
      match fuel with
      | O => undefined
      | S fuel' =>
          n <- load cur ;;
          if negb (is_leaf n) then
            let i := lower_bound_idx key (records n) in
            if bool_decide (i = length (records n)) then ret make_end
            else r <- record_at cur i ;; lower_bound_loop fuel' key r.2
          else
            ret (make_iterator_uncheck cur (lower_bound_idx key (records n)))
      end
  end.

Definition lower_bound (key : key_type) : M iterator :=
  fuel <- loop_bound ;;
  root <- get_root ;;
  lower_bound_loop fuel key root.

Fixpoint upper_bound_loop (fuel : nat) (key : key_type) (cur : ptr) : M iterator :=
  match cur with
  | None => ret make_end
  | Some _ =>
      match fuel with
      | O => undefined
      | S fuel' =>
          n <- load cur ;;
          if negb (is_leaf n) then
            let i := upper_bound_idx key (records n) in
            if bool_decide (i = length (records n)) then ret make_end
            else r <- record_at cur i ;; upper_bound_loop fuel' key r.2
          else
            make_iterator cur (upper_bound_idx key (records n))
      end
  end.

Definition upper_bound (key : key_type) : M iterator :=
  fuel <- loop_bound ;;
  root <- get_root ;;
  upper_bound_loop fuel key root.

(** [equal_range]: [lb] is advanced in place and a second lower bound is
    taken for the first component. *)
Definition equal_range (key : key_type) : M (iterator * iterator) :=
  lb <- lower_bound key ;;
  lb' <- incr lb ;;
  fst_ <- lower_bound key ;;
  ret (fst_, lb').

Definition end_ : M iterator := ret make_end.

Definition begin : M iterator :=
  sz <- get_size ;;
  if bool_decide (sz = 0%nat) then end_
  else
    hd <- load (Some header) ;;
    load (next hd) ;;;
    ret (make_iterator_uncheck (next hd) 0).

Definition size : M nat := get_size.

Definition empty : M bool := sz <- get_size ;; ret (bool_decide (sz = 0%nat)).

(** *** Insertion *)

(** The loop of [split] that moves the first [half_order] records of
    [node] to [left]. *)
Fixpoint split_move (n : nat) (node left : ptr) : M unit :=
  match n with
  | O => ret tt
  | S n' =>
      r <- first_record node ;;
      adopt r.2 left ;;;
      insert_record left r ;;;
      erase_record node 0 ;;;
      split_move n' node left
  end.

(** [split(leaf_node)], returning the parent and the new left node. *)
Definition split (leaf_node : ptr) : M (ptr * ptr) :=
  left <- make_node ;;
  split_move half_order leaf_node left ;;;
  first_record leaf_node ;;;
  n <- load leaf_node ;;
  modify left (set_is_leaf (is_leaf n)) ;;;
  modify left (set_next leaf_node) ;;;
  when (negb (ptr_eqb (pre n) None))
    (modify left (set_pre (pre n)) ;;;
     modify (pre n) (set_next left)) ;;;
  modify leaf_node (set_pre left) ;;;
  parent_ <- (if ptr_eqb (parent n) None then
                p <- make_node ;;
                modify p (set_is_leaf false) ;;;
                put_root p ;;;
                r <- last_record leaf_node ;;
                insert_record p (r.1, leaf_node) ;;;
                ret p
              else ret (parent n)) ;;
  lr <- last_record left ;;
  insert_record parent_ (lr.1, left) ;;;
  modify leaf_node (set_parent parent_) ;;;
  modify left (set_parent parent_) ;;;
  ret (parent_, left).

(** [while (cur != nullptr && cur->records.size() > order) cur = split(cur).first;] *)
Fixpoint split_up (fuel : nat) (cur : ptr) : M unit :=
  match cur with
  | None => ret tt
  | Some _ =>
      sz <- records_size cur ;;
      if bool_decide (order < sz)%nat then
        match fuel with
        | O => undefined
        | S fuel' => pl <- split cur ;; split_up fuel' pl.1
        end
      else ret tt
  end.

Fixpoint insert_loop (fuel : nat) (key : key_type) (cur : ptr) : M (iterator * bool) :=
  match fuel with
  | O => undefined
  | S fuel' =>
      n <- load cur ;;
      if negb (is_leaf n) then
        let i := lower_bound_idx key (records n) in
        if bool_decide (i = length (records n)) then
          j <- last_index cur ;;
          overwrite_key cur j key ;;;
          r <- record_at cur j ;;
          insert_loop fuel' key r.2
        else
          r <- record_at cur i ;;
          insert_loop fuel' key r.2
      else
        let i := find_idx key (records n) in
        if bool_decide (i ≠ length (records n)) then
          ret (make_iterator_uncheck cur i, false)
        else
          pos <- insert_record cur (key, None) ;;
          sz <- get_size ;;
          put_size (S sz) ;;;
          sz' <- records_size cur ;;
          if bool_decide (sz' ≤ order)%nat then
            ret (make_iterator_uncheck cur pos, true)
          else
            up <- loop_bound ;;
            pl <- split cur ;;
            f <- first_record cur ;;
            let insert_node := if keycomp key f.1 then pl.2 else cur in
            m <- load insert_node ;;
            let find_result := find_idx key (records m) in
            split_up up pl.1 ;;;
            ret (make_iterator_uncheck insert_node find_result, true)
  end.

Definition insert (key : key_type) : M (iterator * bool) :=
  root <- get_root ;;
  if ptr_eqb root None then
    r <- make_node ;;
    put_root r ;;;
    modify r (set_is_leaf true) ;;;
    modify r (set_pre (Some header)) ;;;
    modify r (set_next (Some header)) ;;;
    modify (Some header) (set_next r) ;;;
    modify (Some header) (set_pre r) ;;;
    insert_record r (key, None) ;;;
    sz <- get_size ;;
    put_size (S sz) ;;;
    ret (make_iterator_uncheck r 0, true)
  else
    fuel <- loop_bound ;;
    insert_loop fuel key root.

(** *** Deletion *)

(** [node->records.size() - 1 + sibling->records.size() <= order], in the
    64-bit unsigned arithmetic of [size_type]. *)
Definition merge_fits (n s : nat) : bool :=
  ((Z.of_nat n - 1 + Z.of_nat s) mod 2 ^ 64 <=? Z.of_nat order).

Definition is_end (p : ptr) : bool := ptr_eqb p None || ptr_eqb p (Some header).

(** [has_left_slibing] and [has_right_slibing]. *)
Definition has_slibing (node : Node) (s : ptr) : M bool :=
  andM (negb (is_end s)) (sn <- load s ;; ret (ptr_eqb (parent sn) (parent node))).

Definition can_merge (has : bool) (node : Node) (s : ptr) : M bool :=
  andM has (sz <- records_size s ;; ret (merge_fits (length (records node)) sz)).

Definition can_borrow (s : ptr) : M bool :=
  andM (negb (is_end s)) (sz <- records_size s ;; ret (bool_decide (half_order < sz)%nat)).

(** [erase_strategy<true>]: the strategy for order 2. *)
Definition erase_strategy_eq_2 (node : ptr) (record_iterator : nat) : M EraseStrategy :=
  root <- get_root ;;
  if ptr_eqb node root then ret ROOT else
  n <- load node ;;
  let left := pre n in
  let right := next n in
  has_left_slibing <- has_slibing n left ;;
  has_right_slibing <- has_slibing n right ;;
  ml <- can_merge has_left_slibing n left ;;
  if ml then ret MERGE_LEFT else
  mr <- can_merge has_right_slibing n right ;;
  if mr then ret MERGE_RIGHT else
  if bool_decide (half_order < length (records n))%nat then ret REMOVE_DIRECTLY else
  br <- can_borrow right ;;
  if br then ret BORROW_RIGHT else
  bl <- can_borrow left ;;
  if bl then ret BORROW_LEFT else
  ret SINGLE_CHILD.

(** [erase_strategy<false>]: the strategy for orders greater than 2. *)
Definition erase_strategy_gt_2 (node : ptr) (record_iterator : nat) : M EraseStrategy :=
  root <- get_root ;;
  if ptr_eqb node root then ret ROOT else
  n <- load node ;;
  let left := pre n in
  let right := next n in
  has_left_slibing <- has_slibing n left ;;
  has_right_slibing <- has_slibing n right ;;
  if bool_decide (half_order < length (records n))%nat then ret REMOVE_DIRECTLY else
  br <- can_borrow right ;;
  if br then ret BORROW_RIGHT else
  bl <- can_borrow left ;;
  if bl then ret BORROW_LEFT else
  ml <- can_merge has_left_slibing n left ;;
  if ml then ret MERGE_LEFT else
  mr <- can_merge has_right_slibing n right ;;
  if mr then ret MERGE_RIGHT else
  ret SINGLE_CHILD.

(** [erase_strategy<order == 2>]. *)
Definition erase_strategy (node : ptr) (record_iterator : nat) : M EraseStrategy :=
  if bool_decide (order = 2%nat) then erase_strategy_eq_2 node record_iterator
  else erase_strategy_gt_2 node record_iterator.

(** The first loop of [fix_key_on_path]: up to the root. *)
Fixpoint fix_to_root (fuel : nat) (node : ptr) (new_key : key_type) : M unit :=
  match node with
  | None => ret tt
  | Some _ =>
      match fuel with
      | O => undefined
      | S fuel' =>
          j <- last_index node ;;
          overwrite_key node j new_key ;;;
          n <- load node ;;
          fix_to_root fuel' (parent n) new_key
      end
  end.

(** The second loop of [fix_key_on_path]: up to the ancestor shared with
    the right neighbour, which is returned. *)
Fixpoint fix_to_common (fuel : nat) (node right : ptr) (new_key : key_type) : M ptr :=
  if ptr_eqb node right then ret node else
  match fuel with
  | O => undefined
  | S fuel' =>
      j <- last_index node ;;
      overwrite_key node j new_key ;;;
      n <- load node ;;
      r <- load right ;;
      fix_to_common fuel' (parent n) (parent r) new_key
  end.

Definition fix_key_on_path (node : ptr) (old_key new_key : key_type) : M unit :=
  fuel <- loop_bound ;;
  n <- load node ;;
  if is_end (next n) then
    fix_to_root fuel (parent n) new_key
  else
    nx <- load (next n) ;;
    c <- fix_to_common fuel (parent n) (parent nx) new_key ;;
    cn <- load c ;;
    overwrite_key c (find_idx old_key (records cn)) new_key.

(** The loop of the MERGE_LEFT arm over the records of the left node, from
    the last to the first. *)
Fixpoint take_all (rs : list RecordPair) (node : ptr) : M unit :=
  match rs with
  | [] => ret tt
  | r :: rs' =>
      adopt r.2 node ;;;
      insert_record node r ;;;
      take_all rs' node
  end.

(** The loop of the MERGE_RIGHT arm, which empties [node] into [right]. *)
Fixpoint give_all (n : nat) (node right : ptr) : M unit :=
  match n with
  | O => ret tt
  | S n' =>
      r <- first_record node ;;
      adopt r.2 right ;;;
      insert_record right r ;;;
      erase_record node 0 ;;;
      give_all n' node right
  end.

(** [erase_helper(node, record_iterator)]: the result carries the two
    reference parameters after the call. *)
Definition erase_helper (node : ptr) (record_iterator : nat) : M (bool * (ptr * nat)) :=
  strategy <- erase_strategy node record_iterator ;;
  d <- record_at node record_iterator ;;
  let to_delete_key := d.1 in
  n0 <- load node ;;
  let left := pre n0 in
  let right := next n0 in
  match strategy with
  | ROOT =>
      erase_record node record_iterator ;;;
      ret (false, (node, record_iterator))
  | MERGE_LEFT =>
      let parent_ := parent n0 in
      j <- last_index node ;;
      let need_fix_pos_key_on_path := bool_decide (record_iterator = j) in
      erase_record node record_iterator ;;;
      lr <- last_record left ;;
      let left_key := lr.1 in
      pn <- load parent_ ;;
      let left_in_parent := find_idx left_key (records pn) in
      ln <- load left ;;
      take_all (rev (records ln)) node ;;;
      when need_fix_pos_key_on_path
        (r <- last_record node ;; fix_key_on_path node to_delete_key r.1) ;;;
      ln' <- load left ;;
      when (negb (ptr_eqb (pre ln') None)) (modify (pre ln') (set_next node)) ;;;
      ln'' <- load left ;;
      modify node (set_pre (pre ln'')) ;;;
      delete_node left ;;;
      overwrite_child parent_ left_in_parent None ;;;
      ret (true, (parent_, left_in_parent))
  | MERGE_RIGHT =>
      let parent_ := parent n0 in
      lr <- last_record node ;;
      let left_key := lr.1 in
      erase_record node record_iterator ;;;
      pn <- load parent_ ;;
      let left_in_parent := find_idx left_key (records pn) in
      sz <- records_size node ;;
      give_all sz node right ;;;
      n1 <- load node ;;
      when (negb (ptr_eqb (pre n1) None)) (modify (pre n1) (set_next right)) ;;;
      n2 <- load node ;;
      modify right (set_pre (pre n2)) ;;;
      delete_node node ;;;
      overwrite_child parent_ left_in_parent None ;;;
      ret (true, (parent_, left_in_parent))
  | REMOVE_DIRECTLY =>
      j <- last_index node ;;
      let need_fix_pos_key_on_path := bool_decide (record_iterator = j) in
      erase_record node record_iterator ;;;
      when need_fix_pos_key_on_path
        (r <- last_record node ;; fix_key_on_path node to_delete_key r.1) ;;;
      ret (false, (node, record_iterator))
  | BORROW_RIGHT =>
      lr <- last_record node ;;
      let old_key := lr.1 in
      rf <- first_record right ;;
      let new_key := rf.1 in
      fix_key_on_path node old_key new_key ;;;
      erase_record node record_iterator ;;;
      right_first <- first_record right ;;
      adopt right_first.2 node ;;;
      insert_record node right_first ;;;
      erase_record right 0 ;;;
      ret (false, (node, record_iterator))
  | BORROW_LEFT =>
      j <- last_index node ;;
      let need_fix_pos_key_on_path := bool_decide (record_iterator = j) in
      erase_record node record_iterator ;;;
      left_last_iter <- last_index left ;;
      left_last <- record_at left left_last_iter ;;
      let left_old_key := left_last.1 in
      adopt left_last.2 node ;;;
      insert_record node left_last ;;;
      erase_record left left_last_iter ;;;
      ll <- last_record left ;;
      let left_new_key := ll.1 in
      fix_key_on_path left left_old_key left_new_key ;;;
      when need_fix_pos_key_on_path
        (r <- last_record node ;; fix_key_on_path node to_delete_key r.1) ;;;
      ret (false, (node, record_iterator))
  | SINGLE_CHILD =>
      let parent_ := parent n0 in
      overwrite_child parent_ 0 None ;;;
      n1 <- load node ;;
      when (negb (ptr_eqb (pre n1) None))
        (modify (pre n1) (set_next right) ;;;
         when (negb (ptr_eqb right None))
           (n2 <- load node ;; modify right (set_pre (pre n2)))) ;;;
      n3 <- load node ;;
      when (negb (ptr_eqb (next n3) None))
        (modify (next n3) (set_pre left) ;;;
         when (negb (ptr_eqb left None))
           (n4 <- load node ;; modify left (set_next (next n4)))) ;;;
      delete_node node ;;;
      load parent_ ;;;
      ret (true, (parent_, 0%nat))
  end.

(** [while (erase_helper(node, record_iterator));] *)
Fixpoint erase_loop (fuel : nat) (node : ptr) (record_iterator : nat) : M unit :=
  match fuel with
  | O => undefined
  | S fuel' =>
      r <- erase_helper node record_iterator ;;
      if r.1 then erase_loop fuel' r.2.1 r.2.2 else ret tt
  end.

(** The loop of [erase] that replaces a root with a single record by its
    child. *)
Fixpoint shrink_root (fuel : nat) : M unit :=
  root <- get_root ;;
  rn <- load root ;;
  if negb (is_leaf rn) && bool_decide (length (records rn) = 1%nat) then
    match fuel with
    | O => undefined
    | S fuel' =>
        f <- first_record root ;;
        let tmp := f.2 in
        delete_node root ;;;
        put_root tmp ;;;
        modify tmp (set_parent None) ;;;
        shrink_root fuel'
    end
  else ret tt.

Fixpoint clear_helper (fuel : nat) (node : ptr) : M unit :=
  match node with
  | None => ret tt
  | Some _ =>
      match fuel with
      | O => undefined
      | S fuel' =>
          n <- load node ;;
          foldr (λ r k, clear_helper fuel' r.2 ;;; k) (ret tt) (records n) ;;;
          delete_node node
      end
  end.

Definition clear : M unit :=
  fuel <- loop_bound ;;
  root <- get_root ;;
  clear_helper fuel root ;;;
  put_root None ;;;
  reset_header ;;;
  put_size 0.

(** [erase(iterator pos)]; the exception is a result of its own, returned
    with the state in which it is thrown. *)
Definition erase (pos : iterator) : M erase_result :=
  sz <- get_size ;;
  if bool_decide (sz = 0%nat) then ret underflow_error else
  put_size (Nat.pred sz) ;;;
  if bool_decide (Nat.pred sz = 0%nat) then
    clear ;;;
    ret (erased make_end)
  else
    d <- record_at (it_node pos) (it_rec pos) ;;
    let to_delete_key := d.1 in
    fuel <- loop_bound ;;
    erase_loop fuel (it_node pos) (it_rec pos) ;;;
    shrink_root fuel ;;;
    it <- lower_bound to_delete_key ;;
    ret (erased it).

End BPlusTree.

(** ** The driver of [src/example.cpp]

    The two loops of [main]: insert every key read, then look every key up
    and erase it when it is found. *)

Fixpoint insert_keys (order : nat) (ks : list key_type) : M unit :=
  match ks with
  | [] => ret tt
  | k :: ks' => insert order k ;;; insert_keys order ks'
  end.

Definition erase_key (order : nat) (k : key_type) : M (option erase_result) :=
  it <- find k ;;
  if negb (it_eq it make_end) then r <- erase order it ;; ret (Some r)
  else ret None.

Fixpoint erase_keys (order : nat) (ks : list key_type) : M unit :=
  match ks with
  | [] => ret tt
  | k :: ks' => erase_key order k ;;; erase_keys order ks'
  end.

(** The range-based [for] of the driver: the keys met from [begin()] until
    the iterator compares equal to [end()]. *)
Fixpoint walk (fuel : nat) (it : iterator) : M (list key_type) :=
  match fuel with
  | O => undefined
  | S fuel' =>
      if it_eq it make_end then ret []
      else
        k <- deref it ;;
        it' <- incr it ;;
        ks <- walk fuel' it' ;;
        ret (k :: ks)
  end.

Definition traverse : M (list key_type) :=
  sz <- get_size ;;
  it <- begin ;;
  walk (S sz) it.

(** The result of a computation, without the final state. *)
Definition result {A} (m : M A) (t : tree) : option A := fst <$> m t.

(** ** The strategy classifier as a function of the store *)

Section ClassifierDefs.

Variable order : nat.

Definition node_at (t : tree) (p : ptr) : option Node := p ≫= (heap t !!.).

(** A neighbour pointer that the classifier can follow: an end marker or
    the address of a node of the store. *)
Definition followable (t : tree) (p : ptr) : Prop :=
  is_end p = true ∨ is_Some (node_at t p).

Definition is_slibing (t : tree) (n : Node) (s : ptr) : bool :=
  negb (is_end s) &&
  match node_at t s with
  | Some sn => ptr_eqb (parent sn) (parent n)
  | None => false
  end.

Definition fits (t : tree) (n : Node) (s : ptr) : bool :=
  is_slibing t n s &&
  match node_at t s with
  | Some sn => merge_fits order (length (records n)) (length (records sn))
  | None => false
  end.

Definition lends (t : tree) (s : ptr) : bool :=
  negb (is_end s) &&
  match node_at t s with
  | Some sn => bool_decide (half_order order < length (records sn))%nat
  | None => false
  end.

Definition classify (t : tree) (n : Node) : EraseStrategy :=
  if bool_decide (order = 2%nat) then
    if fits t n (pre n) then MERGE_LEFT
    else if fits t n (next n) then MERGE_RIGHT
    else if bool_decide (half_order order < length (records n))%nat then REMOVE_DIRECTLY
    else if lends t (next n) then BORROW_RIGHT
    else if lends t (pre n) then BORROW_LEFT
    else SINGLE_CHILD
  else
    if bool_decide (half_order order < length (records n))%nat then REMOVE_DIRECTLY
    else if lends t (next n) then BORROW_RIGHT
    else if lends t (pre n) then BORROW_LEFT
    else if fits t n (pre n) then MERGE_LEFT
    else if fits t n (next n) then MERGE_RIGHT
    else SINGLE_CHILD.

End ClassifierDefs.

(** ** Sample states *)

(** The state a computation leaves when it is run from [t]. *)
Definition state_after {A} (m : M A) (t : tree) : tree :=
  match m t with Some (_, t') => t' | None => t end.

(** Order 2 after the insertion of 1, 8, 9: the leaf at address 1 holds
    8 and 9, its left sibling at address 2 holds 1. *)
Definition sample_2 : tree := state_after (insert_keys 2 [1; 8; 9]) empty_tree.

(** Order 4 after the insertion of 1, 2, 7, 8, 9: the leaf at address 1
    holds 7, 8, 9, its left sibling at address 2 holds 1 and 2. *)
Definition sample_4 : tree := state_after (insert_keys 4 [1; 2; 7; 8; 9]) empty_tree.

(** Order 3 after the insertion of 1 and 2: a single leaf, the root, at
    address 1. *)
Definition sample_leaf : tree := state_after (insert_keys 3 [1; 2]) empty_tree.

(** Order 3 after the insertion of 8, 9, 17, 14, 1, 19, 6, 15, 12: a root
    (address 7) over two internal nodes (6 and 3); the leaves under 6 are
    at 4 (keys 1, 6) and 2 (keys 8, 9), the leaves under 3 are at 5 (keys
    12, 14, 15) and 1 (keys 17, 19). *)
Definition sample_cousins : tree :=
  state_after (insert_keys 3 [8; 9; 17; 14; 1; 19; 6; 15; 12]) empty_tree.

(** The parent pointer and the records of the node at an address. *)
Definition parent_of (t : tree) (a : addr) : option ptr := parent <$> heap t !! a.
Definition records_of (t : tree) (a : addr) : option (list RecordPair) :=
  records <$> heap t !! a.

(** ** Reading the store

    The node at an address, and its members; an address outside the store
    reads as a blank node. *)
Definition blank : Node := mkNode [] true None None None.
Definition nd (t : tree) (a : addr) : Node := default blank (heap t !! a).
Definition recs (t : tree) (a : addr) : list RecordPair := records (nd t a).
Definition nxt (t : tree) (a : addr) : ptr := next (nd t a).
Definition prv (t : tree) (a : addr) : ptr := pre (nd t a).
Definition par (t : tree) (a : addr) : ptr := parent (nd t a).
Definition leaf (t : tree) (a : addr) : bool := is_leaf (nd t a).
Definition live (t : tree) (a : addr) : Prop := is_Some (heap t !! a).

(** The state after [f] has been applied to the node at [a]. *)
Definition wr (a : addr) (f : Node → Node) (t : tree) : tree :=
  with_heap <[a := f (nd t a)]> t.

(** The state after [new] has returned [a]. *)
Definition alloc (a : addr) (t : tree) : tree := with_heap <[a := blank]> t.

(** The state after [delete] of the node at [a]. *)
Definition free (a : addr) (t : tree) : tree := with_heap (base.delete a) t.

Definition with_root (p : ptr) (t : tree) : tree := mkTree p (m_size t) (heap t).
Definition with_size (n : nat) (t : tree) : tree := mkTree (m_root t) n (heap t).

(** The state after [adopt c p]. *)
Definition adopted (c : ptr) (p : ptr) (t : tree) : tree :=
  match c with Some a => wr a (set_parent p) t | None => t end.

(** ** The representation invariant

    A tree is described by its levels, the leaves first and the root
    last: each level is the list of the addresses of its nodes from left
    to right. *)

Definition keys (l : list RecordPair) : list key_type := l.*1.
Definition kids (l : list RecordPair) : list ptr := l.*2.
Definition last_key (l : list RecordPair) : option key_type := fst <$> last l.

(** The last key of the node at [c], as the store has it. *)
Definition alk (t : tree) (c : addr) : option key_type := last_key (recs t c).

(** During [erase] one record of one node is due for removal: the records
    of a node without that record. *)
Definition erecs (h : option (addr * nat)) (t : tree) (a : addr) : list RecordPair :=
  match h with
  | Some (p, i) => if decide (a = p) then base.delete i (recs t a) else recs t a
  | None => recs t a
  end.

(** The doubly linked chain of a level: [p] precedes its first node and
    [e] follows its last. *)
Fixpoint chain_from (t : tree) (p : ptr) (L : list addr) (e : ptr) : Prop :=
  match L with
  | [] => True
  | a :: L' =>
      prv t a = p ∧ nxt t a = from_option Some e (head L') ∧ chain_from t (Some a) L' e
  end.

(** The chain of leaves is closed through the header, the chains of the
    other levels end in null pointers. *)
Definition endp (j : nat) : ptr := match j with O => Some header | S _ => None end.

(** The pointer structure. *)
Record shape (t : tree) (Ls : list (list addr)) : Prop := {
  sh_nodup : ∀ j L, Ls !! j = Some L → NoDup L;
  sh_disj : ∀ i i' L L' a,
      Ls !! i = Some L → Ls !! i' = Some L' → a ∈ L → a ∈ L' → i = i';
  sh_live : ∀ j L a, Ls !! j = Some L → a ∈ L → live t a;
  sh_header : live t header;
  sh_not_header : ∀ j L, Ls !! j = Some L → header ∉ L;
  sh_nonempty : ∀ j L, Ls !! j = Some L → L ≠ [];
  sh_root : m_root t = last Ls ≫= head;
  sh_top : ∀ L, last Ls = Some L → length L = 1%nat;
  sh_root_par : ∀ r, m_root t = Some r → par t r = None;
  sh_leaf : ∀ j L a, Ls !! j = Some L → a ∈ L → leaf t a = bool_decide (j = 0%nat);
  sh_chain : ∀ j L, Ls !! j = Some L → chain_from t (endp j) L (endp j);
  sh_hdr_next : nxt t header = from_option Some (Some header) (Ls !! 0%nat ≫= head);
  sh_hdr_pre : prv t header = from_option Some (Some header) (Ls !! 0%nat ≫= last)
}.

(** A level [up] and the level [lo] below it: the children of the nodes
    of [up], in order, are the nodes of [lo]; every child points back to
    its parent and the key of its record is the last key [lk] of the
    child. *)
Record fam (t : tree) (h : option (addr * nat)) (lk : addr → option key_type)
    (up lo : list addr) : Prop := {
  fam_kids : concat ((λ a, kids (erecs h t a)) <$> up) = Some <$> lo;
  fam_rec : ∀ a r c, a ∈ up → r ∈ erecs h t a → r.2 = Some c →
      par t c = Some a ∧ lk c = Some r.1
}.

(** The bounds on the number of records: [over] may hold one record more
    than [order], an internal root holds at least [rmin] records. *)
Definition fill_ok (order : nat) (over : option addr) (rmin : nat)
    (t : tree) (Ls : list (list addr)) : Prop :=
  ∀ j L a, Ls !! j = Some L → a ∈ L →
    (length (recs t a) ≤ if decide (over = Some a) then S order else order)%nat ∧
    (if decide (m_root t = Some a)
     then (match j with O => 1 | S _ => rmin end ≤ length (recs t a))%nat
     else (half_order order ≤ length (recs t a))%nat).

(** The record due for removal has a null child, and the last keys of
    the nodes of its level are in order. *)
Definition hole_ok (h : option (addr * nat)) (t : tree) (Ls : list (list addr)) : Prop :=
  match h with
  | Some (p, i) =>
      (∃ j L, Ls !! j = Some L ∧ p ∈ L ∧ StronglySorted Z.lt (omap (alk t) L)) ∧
      (∃ k, recs t p !! i = Some (k, None))
  | None => True
  end.

(** The keys of a level, without the record due for removal. *)
Definition level_keys (h : option (addr * nat)) (t : tree) (L : list addr) : list key_type :=
  concat ((λ a, keys (erecs h t a)) <$> L).

(** The records: [K] is the list of the stored keys. *)
Record content (order : nat) (h : option (addr * nat)) (over : option addr) (rmin : nat)
    (t : tree) (Ls : list (list addr)) (K : list key_type) : Prop := {
  ct_fam : ∀ j up lo, Ls !! S j = Some up → Ls !! j = Some lo → fam t h (alk t) up lo;
  ct_leaves : ∀ L a r, Ls !! 0%nat = Some L → a ∈ L → r ∈ recs t a → r.2 = None;
  ct_keys : level_keys h t (default [] (Ls !! 0%nat)) = K;
  ct_sorted : StronglySorted Z.lt K;
  ct_size : m_size t = length K;
  ct_fill : fill_ok order over rmin t Ls;
  ct_hole : hole_ok h t Ls
}.

(** The invariant between calls of member functions. *)
Definition WF (order : nat) (t : tree) (Ls : list (list addr)) (K : list key_type) : Prop :=
  shape t Ls ∧ content order None None 2 t Ls K.

(** The levels above level [j] as [fix_key_on_path] needs them: the
    records that lead to the nodes of level [j] carry the keys [lk], the
    records further up carry the last keys of the store. *)
Definition above (t : tree) (Ls : list (list addr)) (j : nat)
    (lk : addr → option key_type) : Prop :=
  ∀ i up lo, (j ≤ i)%nat → Ls !! S i = Some up → Ls !! i = Some lo →
    fam t None (if decide (i = j) then lk else alk t) up lo.

(** The nodes of the levels above level [j]. *)
Definition upper (Ls : list (list addr)) (j : nat) (a : addr) : Prop :=
  ∃ i L, (j < i)%nat ∧ Ls !! i = Some L ∧ a ∈ L.

(** [t'] differs from [t] in keys of records only. *)
Record keys_only (t t' : tree) : Prop := {
  ko_root : m_root t' = m_root t;
  ko_size : m_size t' = m_size t;
  ko_live : ∀ a, live t' a ↔ live t a;
  ko_nxt : ∀ a, nxt t' a = nxt t a;
  ko_prv : ∀ a, prv t' a = prv t a;
  ko_par : ∀ a, par t' a = par t a;
  ko_leaf : ∀ a, leaf t' a = leaf t a;
  ko_kids : ∀ a, kids (recs t' a) = kids (recs t a)
}.

(** The last keys [lk] with the one of [c] replaced by [v]. *)
Definition upd (lk : addr → option key_type) (c : addr) (v : key_type) :
    addr → option key_type :=
  λ x, if decide (x = c) then Some v else lk x.

(** Every node above level [j] has a record. *)
Definition nonempty_above (t : tree) (Ls : list (list addr)) (j : nat) : Prop :=
  ∀ a, upper Ls j a → recs t a ≠ [].

(** [t'] has the links of [t]: root, size, the nodes of the store and
    every pointer member are the same; records may differ. *)
Record same_links (t t' : tree) : Prop := {
  sl_root : m_root t' = m_root t;
  sl_size : m_size t' = m_size t;
  sl_live : ∀ a, live t' a ↔ live t a;
  sl_nxt : ∀ a, nxt t' a = nxt t a;
  sl_prv : ∀ a, prv t' a = prv t a;
  sl_par : ∀ a, par t' a = par t a;
  sl_leaf : ∀ a, leaf t' a = leaf t a
}.

(** The state in which [erase_helper] is entered: the record at position
    [i] of the node [P] of level [j] is due for removal and [K] is the
    list of the keys that stay. *)
Definition holed (order : nat) (t : tree) (Ls : list (list addr)) (K : list key_type)
    (j : nat) (P : addr) (i : nat) : Prop :=
  shape t Ls ∧ content order (Some (P, i)) None 2 t Ls K ∧
  (∃ L, Ls !! j = Some L ∧ P ∈ L) ∧ (2 ≤ order)%nat ∧ K ≠ [].

(** The states of a deletion repair: [erase_helper] is about to run on
    the record at position [i] of the node [P], on some level of a tree
    that is well formed but for that record. *)
Definition repairing (order : nat) (t : tree) (P : addr) (i : nat) : Prop :=
  ∃ Ls K j, holed order t Ls K j P i.

(** [t'] is [t] with the parent pointer of the children [cs] set to [p];
    the records are related separately. *)
Record reparented (t t' : tree) (cs : list ptr) (p : addr) : Prop := {
  rp_root : m_root t' = m_root t;
  rp_size : m_size t' = m_size t;
  rp_live : ∀ a, live t' a ↔ live t a;
  rp_nxt : ∀ a, nxt t' a = nxt t a;
  rp_prv : ∀ a, prv t' a = prv t a;
  rp_leaf : ∀ a, leaf t' a = leaf t a;
  rp_par : ∀ a, par t' a = if decide (Some a ∈ cs) then Some p else par t a
}.

(** [a] is the first node of the level [L] whose last key is not less
    than [k]: the node of the level in which a search for [k] continues. *)
Definition first_ge (t : tree) (L : list addr) (k : key_type) (a : addr) : Prop :=
  ∃ l1 l2 ka, L = l1 ++ a :: l2 ∧ alk t a = Some ka ∧ k ≤ ka ∧
    ∀ x kx, x ∈ l1 → alk t x = Some kx → kx < k.

(** What [find] returns for [k] on the tree with the levels [Ls] and the
    keys [K]: the position of [k] in a leaf, or the end. *)
Definition finds (t : tree) (Ls : list (list addr)) (K : list key_type)
    (k : key_type) (it : iterator) : Prop :=
  (k ∈ K ∧ ∃ P i L0, it = mkIt true (Some P) i ∧ Ls !! 0%nat = Some L0 ∧ P ∈ L0 ∧
     recs t P !! i = Some (k, None)) ∨
  (k ∉ K ∧ it = make_end).

(** The ancestor [n] levels above [x], by the parent pointers. *)
Fixpoint anc (t : tree) (n : nat) (x : addr) : option addr :=
  match n with
  | O => Some x
  | S n' => par t x ≫= anc t n'
  end.

(** [x] is [a], which is on the level [j], or one of its descendants. *)
Definition under (t : tree) (Ls : list (list addr)) (j : nat) (a x : addr) : Prop :=
  ∃ i L, (i ≤ j)%nat ∧ Ls !! i = Some L ∧ x ∈ L ∧ anc t (j - i) x = Some a.

(** [t'] is [t] with the new node [left] put before [a] in the list of
    the level of [a], as [split] leaves it: [left] has the parent [pp]
    and the children [cs] have the parent [left]; the records are
    related separately. *)
Record split_from (t t' : tree) (a left : addr) (pp : ptr) (cs : list ptr) : Prop := {
  sf_root : m_root t' = m_root t;
  sf_size : m_size t' = m_size t;
  sf_live : ∀ x, live t' x ↔ x = left ∨ live t x;
  sf_nxt : ∀ x, nxt t' x = if decide (x = left) then Some a
                           else if decide (prv t a = Some x) then Some left else nxt t x;
  sf_prv : ∀ x, prv t' x = if decide (x = left) then prv t a
                           else if decide (x = a) then Some left else prv t x;
  sf_leaf : ∀ x, leaf t' x = if decide (x = left) then leaf t a else leaf t x;
  sf_par : ∀ x, par t' x = if decide (x = left) then pp
                           else if decide (Some x ∈ cs) then Some left else par t x
}.

(** ** The states of a program

    The states a program reaches from a newly constructed tree by calls
    of [insert], of [erase] at a handle that [find] returned and that is
    not the end, and of [clear]; the set is the set of the keys that were
    inserted and not erased since. *)
Inductive reach (order : nat) : tree → gset key_type → Prop :=
  | reach_empty : reach order empty_tree ∅
  | reach_insert t S k r t' :
      reach order t S → insert order k t = Some (r, t') → reach order t' ({[k]} ∪ S)
  | reach_erase t S k it r t' :
      reach order t S → find k t = Some (it, t) → it_eq it make_end = false →
      erase order it t = Some (r, t') → reach order t' (S ∖ {[k]})
  | reach_clear t S t' :
      reach order t S → clear t = Some (tt, t') → reach order t' ∅.

(** The nodes of the tree: the root and the children of the records of
    the nodes. *)
Inductive in_tree (t : tree) : addr → Prop :=
  | in_tree_root r : m_root t = Some r → in_tree t r
  | in_tree_child a r c : in_tree t a → r ∈ recs t a → r.2 = Some c → in_tree t c.

(** The iterator [it] designates the record number [n] of the leaves
    [L], counted from the first record of the first leaf. *)
Definition at_pos (t : tree) (L : list addr) (n : nat) (it : iterator) : Prop :=
  ∃ l1 P l2 i, L = l1 ++ P :: l2 ∧ it = mkIt true (Some P) i ∧
    (i < length (recs t P))%nat ∧ n = (length (level_keys None t l1) + i)%nat.

(** The node at [a] is [d] child pointers below the root. *)
Inductive depth (t : tree) : addr → nat → Prop :=
  | depth_root r : m_root t = Some r → depth t r 0
  | depth_child a d r c :
      depth t a d → r ∈ recs t a → r.2 = Some c → depth t c (S d).

(** * Verification *)

(** ** Executing the monad *)

Lemma bind_Some {A B} (m : M A) (f : A → M B) t r t' :
  bind m f t = Some (r, t') ↔ ∃ a t1, m t = Some (a, t1) ∧ f a t1 = Some (r, t').
Proof.
  unfold bind. destruct (m t) as [[a t1]|]; split.
  - intros H. eauto.
  - intros (a' & t1' & [= <- <-] & H). done.
  - done.
  - intros (? & ? & ? & _). done.
Qed.

Lemma bind_run {A B} (m : M A) (f : A → M B) t a t1 :
  m t = Some (a, t1) → bind m f t = f a t1.
Proof. unfold bind. by intros ->. Qed.

Lemma load_Some p t n t' :
  load p t = Some (n, t') ↔ ∃ a, p = Some a ∧ heap t !! a = Some n ∧ t' = t.
Proof.
  unfold load. destruct p as [a|]; [destruct (heap t !! a) as [m|] eqn:E|]; split;
    try done.
  - intros [= <- <-]. eauto.
  - intros (a' & [= <-] & H & ->). congruence.
  - intros (a' & [= <-] & H & _). congruence.
  - intros (? & ? & _). done.
Qed.

Lemma load_run a t n : heap t !! a = Some n → load (Some a) t = Some (n, t).
Proof. unfold load. by intros ->. Qed.

(** ** Computations that do not write *)

Definition readonly {A} (m : M A) : Prop :=
  ∀ t r t', m t = Some (r, t') → t' = t.

Lemma readonly_ret {A} (a : A) : readonly (ret a).
Proof. intros t r t'. unfold ret. by intros [= _ <-]. Qed.

Lemma readonly_undefined {A} : readonly (@undefined A).
Proof. intros t r t'. done. Qed.

Lemma readonly_bind {A B} (m : M A) (f : A → M B) :
  readonly m → (∀ a, readonly (f a)) → readonly (bind m f).
Proof.
  intros Hm Hf t r t' (a & t1 & H1 & H2)%bind_Some.
  apply Hm in H1 as ->. by apply Hf in H2.
Qed.

Lemma readonly_load p : readonly (load p).
Proof. intros t r t' (a & _ & _ & ->)%load_Some. done. Qed.

Lemma readonly_get_root : readonly get_root.
Proof. intros t r t'. unfold get_root. by intros [= _ <-]. Qed.

Lemma readonly_get_size : readonly get_size.
Proof. intros t r t'. unfold get_size. by intros [= _ <-]. Qed.

Lemma readonly_loop_bound : readonly loop_bound.
Proof. intros t r t'. unfold loop_bound. by intros [= _ <-]. Qed.

Lemma readonly_andM b m : readonly m → readonly (andM b m).
Proof. destruct b; [done|]. intros _. apply readonly_ret. Qed.

Lemma readonly_record_at p i : readonly (record_at p i).
Proof.
  apply readonly_bind; [apply readonly_load|]. intros n.
  destruct (records n !! i); [apply readonly_ret | apply readonly_undefined].
Qed.

Lemma readonly_last_index p : readonly (last_index p).
Proof.
  apply readonly_bind; [apply readonly_load|]. intros n.
  destruct (length (records n)); [apply readonly_undefined | apply readonly_ret].
Qed.

Lemma readonly_records_size p : readonly (records_size p).
Proof. apply readonly_bind; [apply readonly_load|]. intros n. apply readonly_ret. Qed.

Create HintDb readonly discriminated.
#[local] Hint Resolve readonly_ret readonly_undefined readonly_load
  readonly_get_root readonly_get_size readonly_loop_bound readonly_andM
  readonly_record_at readonly_last_index readonly_records_size : readonly.

(** Splits a goal [readonly m] along the binds and conditionals of [m]. *)
Ltac readonly_step :=
  match goal with
  | |- readonly (bind _ _) => apply readonly_bind; [|intros ?]
  | |- readonly (andM _ _) => apply readonly_andM
  | |- readonly (if ?b then _ else _) => destruct b
  | |- readonly (match ?x with _ => _ end) => destruct x
  | |- readonly _ => solve [auto with readonly]
  end.

Lemma readonly_make_iterator node rit : readonly (make_iterator node rit).
Proof. unfold make_iterator. repeat readonly_step. Qed.

Lemma readonly_incr it : readonly (incr it).
Proof. unfold incr. repeat readonly_step. Qed.

Lemma readonly_decr it : readonly (decr it).
Proof. unfold decr. repeat readonly_step. Qed.

Lemma readonly_deref it : readonly (deref it).
Proof. unfold deref. repeat readonly_step. Qed.

Lemma readonly_find_loop fuel key cur : readonly (find_loop fuel key cur).
Proof.
  revert cur. induction fuel as [|fuel IH]; intros [a|]; simpl;
    repeat readonly_step; apply IH.
Qed.

Lemma readonly_lower_bound_loop fuel key cur : readonly (lower_bound_loop fuel key cur).
Proof.
  revert cur. induction fuel as [|fuel IH]; intros [a|]; simpl;
    repeat readonly_step; apply IH.
Qed.

Lemma readonly_upper_bound_loop fuel key cur : readonly (upper_bound_loop fuel key cur).
Proof.
  revert cur. induction fuel as [|fuel IH]; intros [a|]; simpl;
    repeat readonly_step; try apply IH; apply readonly_make_iterator.
Qed.

Lemma readonly_find key : readonly (find key).
Proof. unfold find. repeat readonly_step. apply readonly_find_loop. Qed.

Lemma readonly_lower_bound key : readonly (lower_bound key).
Proof. unfold lower_bound. repeat readonly_step. apply readonly_lower_bound_loop. Qed.

Lemma readonly_upper_bound key : readonly (upper_bound key).
Proof. unfold upper_bound. repeat readonly_step. apply readonly_upper_bound_loop. Qed.

Lemma readonly_equal_range key : readonly (equal_range key).
Proof.
  unfold equal_range.
  repeat readonly_step; auto using readonly_lower_bound, readonly_incr.
Qed.

Lemma readonly_begin : readonly begin.
Proof. unfold begin, end_. repeat readonly_step. Qed.

(** ** The strategy classifier *)

Section Classifier.

Variable order : nat.

Lemma node_at_load t p n : node_at t p = Some n → load p t = Some (n, t).
Proof. destruct p as [a|]; [|done]. simpl. apply load_run. Qed.

Lemma has_slibing_run t n s :
  followable t s → has_slibing n s t = Some (is_slibing t n s, t).
Proof.
  intros [He|[sn Hs]]; unfold has_slibing, is_slibing.
  - by rewrite He.
  - destruct (is_end s); [done|]. simpl.
    rewrite (bind_run _ _ _ _ _ (node_at_load _ _ _ Hs)), Hs. done.
Qed.

Lemma can_merge_run t n s :
  followable t s →
  can_merge order (is_slibing t n s) n s t = Some (fits order t n s, t).
Proof.
  intros [He|[sn Hs]]; unfold can_merge, fits, is_slibing.
  - by rewrite He.
  - destruct (is_end s); [done|]. simpl. rewrite Hs.
    destruct (ptr_eqb (parent sn) (parent n)); [|done]. simpl.
    unfold records_size.
    rewrite (bind_run _ _ _ _ _ (bind_run _ _ _ _ _ (node_at_load _ _ _ Hs))). done.
Qed.

Lemma can_borrow_run t s :
  followable t s → can_borrow order s t = Some (lends order t s, t).
Proof.
  intros [He|[sn Hs]]; unfold can_borrow, lends.
  - by rewrite He.
  - destruct (is_end s); [done|]. simpl. rewrite Hs. unfold records_size.
    rewrite (bind_run _ _ _ _ _ (bind_run _ _ _ _ _ (node_at_load _ _ _ Hs))). done.
Qed.

(** On a node of the store other than the root, whose two neighbour
    pointers can be followed, [erase_strategy] returns [classify] and
    leaves the state as it is. *)
Lemma erase_strategy_run t a n rit :
  heap t !! a = Some n → m_root t ≠ Some a →
  followable t (pre n) → followable t (next n) →
  erase_strategy order (Some a) rit t = Some (classify order t n, t).
Proof.
  intros Ha Hroot Hl Hr.
  assert (Hrt : ptr_eqb (Some a) (m_root t) = false).
  { unfold ptr_eqb. apply bool_decide_eq_false. congruence. }
  unfold erase_strategy, classify, erase_strategy_eq_2, erase_strategy_gt_2.
  destruct (bool_decide (order = 2%nat));
    (erewrite bind_run by reflexivity; rewrite Hrt;
     rewrite (bind_run _ _ _ _ _ (load_run _ _ _ Ha));
     rewrite (bind_run _ _ _ _ _ (has_slibing_run _ _ _ Hl));
     rewrite (bind_run _ _ _ _ _ (has_slibing_run _ _ _ Hr))).
  - rewrite (bind_run _ _ _ _ _ (can_merge_run _ _ _ Hl)).
    destruct (fits order t n (pre n)); [done|].
    rewrite (bind_run _ _ _ _ _ (can_merge_run _ _ _ Hr)).
    destruct (fits order t n (next n)); [done|].
    destruct (bool_decide (half_order order < length (records n))%nat); [done|].
    rewrite (bind_run _ _ _ _ _ (can_borrow_run _ _ Hr)).
    destruct (lends order t (next n)); [done|].
    rewrite (bind_run _ _ _ _ _ (can_borrow_run _ _ Hl)).
    destruct (lends order t (pre n)); done.
  - destruct (bool_decide (half_order order < length (records n))%nat); [done|].
    rewrite (bind_run _ _ _ _ _ (can_borrow_run _ _ Hr)).
    destruct (lends order t (next n)); [done|].
    rewrite (bind_run _ _ _ _ _ (can_borrow_run _ _ Hl)).
    destruct (lends order t (pre n)); [done|].
    rewrite (bind_run _ _ _ _ _ (can_merge_run _ _ _ Hl)).
    destruct (fits order t n (pre n)); [done|].
    rewrite (bind_run _ _ _ _ _ (can_merge_run _ _ _ Hr)).
    destruct (fits order t n (next n)); done.
Qed.

End Classifier.

(** ** Erasing from an empty tree *)

(** C8: [erase] on a tree whose size counter is zero throws
    [std::underflow_error] and the state at the throw is the state before
    the call: root, size counter and every node of the store, the header
    links among them, are unchanged. *)
Theorem erase_empty_throws_underflow (order : nat) (t : tree) (pos : iterator) :
  m_size t = 0%nat → erase order pos t = Some (underflow_error, t).
Proof.
  intros Hz. unfold erase.
  erewrite bind_run by reflexivity. rewrite Hz. done.
Qed.

Lemma erase_empty_throws_underflow_witness :
  m_size empty_tree = 0%nat ∧
  erase 3 make_end empty_tree = Some (underflow_error, empty_tree).
Proof.
  split; [reflexivity|].
  apply (erase_empty_throws_underflow 3 empty_tree make_end). reflexivity.
Defined.

(** ** The order of the tests in the classifier *)

Section Classifier_order.

Variable order : nat.

(** C6: on a node other than the root for which a merge with a
    same-parent neighbour fits in [order] records, the classifier for
    order 2 answers with a merge, whatever the size of the node, whereas
    for an order above 2 a node with more than [half_order] records is
    removed from directly although the merge would fit. *)
Theorem merge_tested_first_only_for_order_2 (t : tree) (a : addr) (n : Node) (rit : nat) :
  heap t !! a = Some n → m_root t ≠ Some a →
  followable t (pre n) → followable t (next n) →
  fits order t n (pre n) || fits order t n (next n) = true →
  (order = 2%nat →
     erase_strategy order (Some a) rit t =
       Some (if fits order t n (pre n) then MERGE_LEFT else MERGE_RIGHT, t)) ∧
  ((2 < order)%nat → (half_order order < length (records n))%nat →
     erase_strategy order (Some a) rit t = Some (REMOVE_DIRECTLY, t)).
Proof.
  intros Ha Hroot Hl Hr Hfit.
  rewrite (erase_strategy_run order t a n rit Ha Hroot Hl Hr).
  unfold classify. split.
  - intros ->. rewrite bool_decide_eq_true_2 by done.
    destruct (fits 2 t n (pre n)); [done|].
    simpl in Hfit. by rewrite Hfit.
  - intros Ho Hsz. rewrite bool_decide_eq_false_2 by lia.
    by rewrite bool_decide_eq_true_2.
Qed.

End Classifier_order.

Lemma merge_tested_first_only_for_order_2_witness :
  let n2 := mkNode [(8, None); (9, None)] true (Some header) (Some 2%nat) (Some 3%nat) in
  let n4 := mkNode [(7, None); (8, None); (9, None)] true (Some header) (Some 2%nat) (Some 3%nat) in
  ((half_order 2 < length (records n2))%nat ∧ fits 2 sample_2 n2 (pre n2) = true ∧
   erase_strategy 2 (Some 1%nat) 0 sample_2 =
     Some (if fits 2 sample_2 n2 (pre n2) then MERGE_LEFT else MERGE_RIGHT, sample_2)) ∧
  (fits 4 sample_4 n4 (pre n4) = true ∧
   erase_strategy 4 (Some 1%nat) 0 sample_4 = Some (REMOVE_DIRECTLY, sample_4)).
Proof.
  intros n2 n4. split; [split; [|split]|split].
  - vm_compute. lia.
  - vm_compute. reflexivity.
  - apply (merge_tested_first_only_for_order_2 2 sample_2 1%nat n2 0).
    + vm_compute. reflexivity.
    + vm_compute. discriminate.
    + right. vm_compute. eexists. reflexivity.
    + left. reflexivity.
    + vm_compute. reflexivity.
    + reflexivity.
  - vm_compute. reflexivity.
  - apply (merge_tested_first_only_for_order_2 4 sample_4 1%nat n4 0).
    + vm_compute. reflexivity.
    + vm_compute. discriminate.
    + right. vm_compute. eexists. reflexivity.
    + left. reflexivity.
    + vm_compute. reflexivity.
    + lia.
    + vm_compute. lia.
Defined.

(** ** Queries leave the tree alone *)

(** C10: [find], [lower_bound], [upper_bound], [equal_range], [size] and
    [empty] return the tree state they were called on: root, size counter
    and every node of the store (records and links) are the same after the
    call. *)
Theorem queries_leave_tree_unchanged (key : key_type) :
  readonly (find key) ∧ readonly (lower_bound key) ∧ readonly (upper_bound key) ∧
  readonly (equal_range key) ∧ readonly size ∧ readonly empty.
Proof.
  split; [apply readonly_find|].
  split; [apply readonly_lower_bound|].
  split; [apply readonly_upper_bound|].
  split; [apply readonly_equal_range|].
  split; [apply readonly_get_size|].
  unfold empty. repeat readonly_step.
Qed.

(** ** Borrowing *)

Section Borrow.

Variable order : nat.

(** On a node other than the root, in any state in which the neighbour
    pointers can be followed, the classifier answers BORROW_RIGHT
    (BORROW_LEFT) only when the [next] ([pre]) neighbour in the level
    chain is neither null nor the header and holds more than
    [half_order] records; the parent of that neighbour is not looked
    at. *)
Lemma classifier_borrows_from_a_lending_neighbour
    (t t' : tree) (a : addr) (n : Node) (rit : nat) (s : EraseStrategy) :
  heap t !! a = Some n → m_root t ≠ Some a →
  followable t (pre n) → followable t (next n) →
  erase_strategy order (Some a) rit t = Some (s, t') →
  (s = BORROW_RIGHT → lends order t (next n) = true) ∧
  (s = BORROW_LEFT → lends order t (pre n) = true).
Proof.
  intros Ha Hroot Hl Hr.
  rewrite (erase_strategy_run order t a n rit Ha Hroot Hl Hr).
  intros [= <- <-]. unfold classify.
  repeat match goal with
         | |- context [if ?b then _ else _] => destruct b eqn:?
         end; split; intros; (done || congruence).
Qed.

End Borrow.

(** ** The handle returned by [erase] *)

(** C4 fails on the code: in the single-leaf tree holding 1 and 2,
    erasing the handle of 2 leaves key 1 alone, so no remaining key is at
    least 2, yet the handle returned is the leaf with the record position
    [end()], which does not compare equal to [end()] of the tree. *)
Lemma erase_of_the_maximum_of_a_leaf_root_is_not_end :
  result (it <- find 2 ;; erase 3 it) sample_leaf
    = Some (erased (mkIt true (Some 1%nat) 1)) ∧
  it_eq (mkIt true (Some 1%nat) 1) make_end = false ∧
  result traverse (state_after (it <- find 2 ;; erase 3 it) sample_leaf) = Some [1] ∧
  result (lower_bound 2) (state_after (it <- find 2 ;; erase 3 it) sample_leaf)
    = Some (mkIt true (Some 1%nat) 1) ∧
  result (upper_bound 2) (state_after (it <- find 2 ;; erase 3 it) sample_leaf)
    = Some make_end.
Proof. vm_compute. repeat split. Qed.

(** ** Reading and writing the store *)

#[global] Arguments nd : simpl never.
#[global] Arguments recs : simpl never.
#[global] Arguments nxt : simpl never.
#[global] Arguments prv : simpl never.
#[global] Arguments par : simpl never.
#[global] Arguments leaf : simpl never.
#[global] Arguments wr : simpl never.
#[global] Arguments alloc : simpl never.
#[global] Arguments free : simpl never.
#[global] Arguments erecs : simpl never.
#[global] Arguments alk : simpl never.
#[global] Arguments level_keys : simpl never.

(** Without a record due for removal, [erecs] is [recs]. *)
Ltac erecs_none :=
  repeat match goal with
         | H : context [erecs None ?t ?a] |- _ => change (erecs None t a) with (recs t a) in H
         | |- context [erecs None ?t ?a] => change (erecs None t a) with (recs t a)
         end.

Lemma nd_lookup t a n : heap t !! a = Some n → nd t a = n.
Proof. unfold nd. by intros ->. Qed.

Lemma live_lookup t a : live t a → heap t !! a = Some (nd t a).
Proof. unfold live, nd. by intros [n ->]. Qed.

Lemma nd_wr a f t b : nd (wr a f t) b = if decide (a = b) then f (nd t a) else nd t b.
Proof.
  unfold nd at 1, wr. simpl. case_decide as E.
  - subst. by rewrite lookup_insert_eq.
  - by rewrite lookup_insert_ne.
Qed.

Lemma nd_wr_eq a f t : nd (wr a f t) a = f (nd t a).
Proof. rewrite nd_wr. by rewrite decide_True. Qed.

Lemma nd_wr_ne a f t b : a ≠ b → nd (wr a f t) b = nd t b.
Proof. intros. rewrite nd_wr. by rewrite decide_False. Qed.

Lemma live_wr a f t b : live t a → live (wr a f t) b ↔ live t b.
Proof.
  intros Ha. unfold live, wr. simpl. destruct (decide (a = b)) as [->|E].
  - rewrite lookup_insert_eq. split; eauto.
  - by rewrite lookup_insert_ne.
Qed.

Lemma live_wr_2 a f t b : live t b → live (wr a f t) b.
Proof.
  unfold live, wr. simpl. destruct (decide (a = b)) as [->|E].
  - rewrite lookup_insert_eq. eauto.
  - by rewrite lookup_insert_ne.
Qed.

Lemma nd_alloc a t b : nd (alloc a t) b = if decide (a = b) then blank else nd t b.
Proof.
  unfold nd at 1, alloc. simpl. case_decide as E.
  - subst. by rewrite lookup_insert_eq.
  - by rewrite lookup_insert_ne.
Qed.

Lemma live_alloc a t b : live (alloc a t) b ↔ a = b ∨ live t b.
Proof.
  unfold live, alloc. simpl. destruct (decide (a = b)) as [->|E].
  - rewrite lookup_insert_eq. split; eauto.
  - rewrite lookup_insert_ne by done. naive_solver.
Qed.

Lemma nd_free a t b : a ≠ b → nd (free a t) b = nd t b.
Proof. intros. unfold nd, free. simpl. by rewrite lookup_delete_ne. Qed.

Lemma live_free a t b : live (free a t) b ↔ a ≠ b ∧ live t b.
Proof.
  unfold live, free. simpl. destruct (decide (a = b)) as [->|E].
  - rewrite lookup_delete_eq. split; [by intros [? ?]|by intros [? _]].
  - rewrite lookup_delete_ne by done. naive_solver.
Qed.

Lemma nd_with_root p t a : nd (with_root p t) a = nd t a.
Proof. done. Qed.

Lemma nd_with_size n t a : nd (with_size n t) a = nd t a.
Proof. done. Qed.

Lemma live_with_root p t a : live (with_root p t) a ↔ live t a.
Proof. done. Qed.

Lemma live_with_size n t a : live (with_size n t) a ↔ live t a.
Proof. done. Qed.

(** *** The primitives, run *)

Lemma load_live t a : live t a → load (Some a) t = Some (nd t a, t).
Proof. intros H. apply load_run, live_lookup, H. Qed.

Lemma modify_live t a f : live t a → modify (Some a) f t = Some (tt, wr a f t).
Proof.
  intros H. unfold modify. rewrite (live_lookup _ _ H). done.
Qed.

Lemma make_node_run t :
  let a := fresh (dom (heap t)) in
  make_node t = Some (Some a, alloc a t) ∧ ¬ live t a.
Proof.
  intros a. split; [done|]. unfold live. rewrite <- elem_of_dom. apply is_fresh.
Qed.

Lemma delete_node_live t a : live t a → delete_node (Some a) t = Some (tt, free a t).
Proof. intros H. unfold delete_node. rewrite (live_lookup _ _ H). done. Qed.

Lemma record_at_run t a i r :
  live t a → recs t a !! i = Some r → record_at (Some a) i t = Some (r, t).
Proof.
  intros H Hr. unfold record_at. rewrite (bind_run _ _ _ _ _ (load_live _ _ H)).
  unfold recs in Hr. by rewrite Hr.
Qed.

Lemma records_size_run t a :
  live t a → records_size (Some a) t = Some (length (recs t a), t).
Proof.
  intros H. unfold records_size. by rewrite (bind_run _ _ _ _ _ (load_live _ _ H)).
Qed.

Lemma last_index_run t a :
  live t a → recs t a ≠ [] →
  last_index (Some a) t = Some (Nat.pred (length (recs t a)), t).
Proof.
  intros H Hne. unfold last_index. rewrite (bind_run _ _ _ _ _ (load_live _ _ H)).
  fold (recs t a). destruct (recs t a); done.
Qed.

Lemma last_record_run t a r :
  live t a → last (recs t a) = Some r → last_record (Some a) t = Some (r, t).
Proof.
  intros H Hl. unfold last_record.
  assert (recs t a ≠ []) as Hne by (intros E; by rewrite E in Hl).
  rewrite (bind_run _ _ _ _ _ (last_index_run _ _ H Hne)).
  apply record_at_run; [done|]. by rewrite <- last_lookup.
Qed.

Lemma insert_record_run t a r :
  live t a →
  insert_record (Some a) r t =
    Some ((set_insert r (recs t a)).2, wr a (set_records (set_insert r (recs t a)).1) t).
Proof.
  intros H. unfold insert_record. rewrite (bind_run _ _ _ _ _ (load_live _ _ H)).
  fold (recs t a). destruct (set_insert r (recs t a)) as [l i].
  by rewrite (bind_run _ _ _ _ _ (modify_live _ _ _ H)).
Qed.

Lemma erase_record_run t a i :
  live t a → (i < length (recs t a))%nat →
  erase_record (Some a) i t = Some (tt, wr a (set_records (base.delete i (recs t a))) t).
Proof.
  intros H Hi. unfold erase_record. rewrite (bind_run _ _ _ _ _ (load_live _ _ H)).
  fold (recs t a). destruct (lookup_lt_is_Some_2 _ _ Hi) as [r ->].
  by apply modify_live.
Qed.

Lemma overwrite_key_run t a i r k :
  live t a → recs t a !! i = Some r →
  overwrite_key (Some a) i k t = Some (tt, wr a (set_records (<[i := (k, r.2)]> (recs t a))) t).
Proof.
  intros H Hr. unfold overwrite_key. rewrite (bind_run _ _ _ _ _ (load_live _ _ H)).
  fold (recs t a). rewrite Hr. by apply modify_live.
Qed.

Lemma overwrite_child_run t a i r c :
  live t a → recs t a !! i = Some r →
  overwrite_child (Some a) i c t = Some (tt, wr a (set_records (<[i := (r.1, c)]> (recs t a))) t).
Proof.
  intros H Hr. unfold overwrite_child. rewrite (bind_run _ _ _ _ _ (load_live _ _ H)).
  fold (recs t a). rewrite Hr. by apply modify_live.
Qed.

Lemma adopt_run t c p :
  (∀ a, c = Some a → live t a) → adopt c p t = Some (tt, adopted c p t).
Proof.
  intros H. destruct c as [a|]; [|done]. simpl. apply modify_live. by apply H.
Qed.

(** ** The record container on ordered lists *)

Lemma keycomp_true a b : a < b → keycomp a b = true.
Proof. unfold keycomp. apply Z.ltb_lt. Qed.

Lemma keycomp_false a b : b ≤ a → keycomp a b = false.
Proof. unfold keycomp. apply Z.ltb_ge. Qed.

Lemma keycomp_spec a b : reflect (a < b) (keycomp a b).
Proof. unfold keycomp. apply Z.ltb_spec0. Qed.

Lemma keycomp_true_iff a b : keycomp a b = true ↔ a < b.
Proof. unfold keycomp. apply Z.ltb_lt. Qed.

Lemma keycomp_false_iff a b : keycomp a b = false ↔ b ≤ a.
Proof. unfold keycomp. apply Z.ltb_ge. Qed.

#[global] Arguments keycomp : simpl never.

Lemma lower_bound_idx_le k l : (lower_bound_idx k l ≤ length l)%nat.
Proof. induction l as [|r l IH]; simpl; [lia|]. destruct (keycomp r.1 k); simpl; lia. Qed.

Lemma upper_bound_idx_le k l : (upper_bound_idx k l ≤ length l)%nat.
Proof. induction l as [|r l IH]; simpl; [lia|]. destruct (keycomp k r.1); simpl; lia. Qed.

Lemma lower_bound_idx_app k (l1 l2 : list RecordPair) :
  Forall (λ r, r.1 < k) l1 →
  lower_bound_idx k (l1 ++ l2) = (length l1 + lower_bound_idx k l2)%nat.
Proof.
  induction 1 as [|r l1 Hr _ IH]; simpl; [done|].
  rewrite keycomp_true by done. by rewrite IH.
Qed.

Lemma lower_bound_idx_hit k (r : RecordPair) l : k ≤ r.1 → lower_bound_idx k (r :: l) = 0%nat.
Proof. intros H. simpl. by rewrite keycomp_false. Qed.

Lemma lower_bound_idx_split k (l1 : list RecordPair) r l2 :
  Forall (λ r, r.1 < k) l1 → k ≤ r.1 →
  lower_bound_idx k (l1 ++ r :: l2) = length l1.
Proof.
  intros H1 H2. rewrite lower_bound_idx_app by done.
  rewrite lower_bound_idx_hit by done. lia.
Qed.

Lemma lower_bound_idx_all k (l : list RecordPair) :
  Forall (λ r, r.1 < k) l → lower_bound_idx k l = length l.
Proof.
  intros H. rewrite <- (app_nil_r l) at 1. rewrite lower_bound_idx_app by done.
  simpl. lia.
Qed.

(** Every record before the lower bound is below the key; the record at
    the lower bound, when there is one, is not. *)
Lemma lower_bound_idx_before k l i r :
  l !! i = Some r → (i < lower_bound_idx k l)%nat → r.1 < k.
Proof.
  revert i. induction l as [|q l IH]; intros i Hi Hlt; [done|].
  simpl in Hlt. destruct (keycomp q.1 k) eqn:E; [|lia].
  destruct i as [|i]; simpl in Hi.
  - injection Hi as ->. by apply keycomp_true_iff.
  - apply (IH i); [done|lia].
Qed.

Lemma lower_bound_idx_at k l r :
  l !! lower_bound_idx k l = Some r → k ≤ r.1.
Proof.
  induction l as [|q l IH]; [done|]. simpl.
  destruct (keycomp q.1 k) eqn:E; simpl.
  - apply IH.
  - intros [= <-]. by apply keycomp_false_iff.
Qed.

Lemma take_lower_bound_idx k l :
  Forall (λ r, r.1 < k) (take (lower_bound_idx k l) l).
Proof.
  apply Forall_forall. intros r [i Hi]%list_elem_of_lookup.
  apply lookup_take_Some in Hi as [Hi Hlt].
  by eapply lower_bound_idx_before.
Qed.

Lemma upper_bound_idx_app k (l1 l2 : list RecordPair) :
  Forall (λ r, r.1 ≤ k) l1 →
  upper_bound_idx k (l1 ++ l2) = (length l1 + upper_bound_idx k l2)%nat.
Proof.
  induction 1 as [|r l1 Hr _ IH]; simpl; [done|].
  rewrite keycomp_false by done. by rewrite IH.
Qed.

Lemma upper_bound_idx_hit k (l : list RecordPair) :
  match l with r :: _ => k < r.1 | [] => True end → upper_bound_idx k l = 0%nat.
Proof.
  destruct l as [|r l]; [done|]. intros H. simpl. by rewrite keycomp_true.
Qed.

(** [records.find]. *)
Lemma find_idx_le k l : (find_idx k l ≤ length l)%nat.
Proof.
  unfold find_idx. pose proof (lower_bound_idx_le k l).
  destruct (l !! _) as [r|]; [destruct (keycomp k r.1)|]; lia.
Qed.

Lemma find_idx_found k (l1 : list RecordPair) c l2 :
  Forall (λ r, r.1 < k) l1 → find_idx k (l1 ++ (k, c) :: l2) = length l1.
Proof.
  intros H. unfold find_idx.
  rewrite lower_bound_idx_split by (done || simpl; lia).
  rewrite list_lookup_middle by done. simpl.
  by rewrite keycomp_false by lia.
Qed.

Lemma find_idx_Some k l i :
  find_idx k l = i → (i < length l)%nat → ∃ c, l !! i = Some (k, c).
Proof.
  unfold find_idx. intros Hi Hlt.
  destruct (l !! lower_bound_idx k l) as [r|] eqn:E; [|lia].
  pose proof (lower_bound_idx_at _ _ _ E) as Hge.
  destruct (keycomp_spec k r.1) as [Ek|Ek]; [lia|]. subst i.
  destruct r as [k' c]. simpl in *.
  exists c. rewrite E. f_equal. f_equal. lia.
Qed.

Lemma find_idx_missing k (l : list RecordPair) :
  StronglySorted Z.lt l.*1 → k ∉ l.*1 → find_idx k l = length l.
Proof.
  intros Hs Hk. unfold find_idx.
  destruct (l !! lower_bound_idx k l) as [r|] eqn:E; [|done].
  pose proof (lower_bound_idx_at _ _ _ E) as Hge.
  destruct (keycomp_spec k r.1) as [?|Hn]; [done|].
  exfalso. apply Hk. assert (k = r.1) as -> by lia.
  apply list_elem_of_fmap. exists r. split; [done|]. by eapply list_elem_of_lookup_2.
Qed.

(** [records.insert]. *)
Lemma set_insert_split r (l1 l2 : list RecordPair) :
  Forall (λ q, q.1 < r.1) l1 →
  match l2 with q :: _ => r.1 < q.1 | [] => True end →
  set_insert r (l1 ++ l2) = (l1 ++ r :: l2, length l1).
Proof.
  intros H1 H2. unfold set_insert.
  rewrite upper_bound_idx_app by (eapply Forall_impl; [done|]; intros; simpl in *; lia).
  rewrite upper_bound_idx_hit by done. rewrite Nat.add_0_r.
  destruct l1 as [|q1 l1 _] using rev_ind; [done|].
  rewrite length_app. simpl. rewrite Nat.add_1_r.
  rewrite lookup_app_l by (rewrite length_app; simpl; lia).
  rewrite lookup_app_r by done. rewrite Nat.sub_diag. simpl.
  apply Forall_app in H1 as [_ Hq%Forall_inv].
  rewrite keycomp_true by done.
  replace (S (length l1)) with (length (l1 ++ [q1])) by (rewrite length_app; simpl; lia).
  by rewrite take_app_length, drop_app_length.
Qed.

Lemma set_insert_end r (l : list RecordPair) :
  Forall (λ q, q.1 < r.1) l → set_insert r l = (l ++ [r], length l).
Proof.
  intros H. rewrite <- (app_nil_r l) at 1. by apply set_insert_split.
Qed.

Lemma set_insert_front r (l : list RecordPair) :
  match l with q :: _ => r.1 < q.1 | [] => True end → set_insert r l = (r :: l, 0%nat).
Proof. intros H. by apply (set_insert_split r [] l). Qed.

(** ** Lists of lists *)

Lemma concat_snoc_inv {A} (ls : list (list A)) l c :
  concat ls = l ++ [c] → Forall (λ k, k ≠ []) ls →
  ∃ ls' k, ls = ls' ++ [k ++ [c]] ∧ l = concat ls' ++ k.
Proof.
  intros Hc Hne. destruct ls as [|kl ls' _] using rev_ind.
  - simpl in Hc. by destruct l.
  - apply Forall_app in Hne as [_ Hk%Forall_inv].
    rewrite concat_app in Hc. simpl in Hc. rewrite app_nil_r in Hc.
    destruct kl as [|x kl' _] using rev_ind; [done|].
    rewrite app_assoc in Hc. apply app_inj_tail in Hc as [<- ->].
    by exists ls', kl'.
Qed.

Lemma concat_cons_inv {A} (ls : list (list A)) l c :
  concat ls = c :: l → Forall (λ k, k ≠ []) ls →
  ∃ k ls', ls = (c :: k) :: ls' ∧ l = k ++ concat ls'.
Proof.
  intros Hc Hne. destruct ls as [|kl ls']; [done|].
  apply Forall_cons in Hne as [Hk _]. simpl in Hc.
  destruct kl as [|x kl]; [done|]. simpl in Hc. injection Hc as -> <-.
  by exists kl, ls'.
Qed.

Lemma concat_middle_inv {A} (ls : list (list A)) l1 c l2 :
  concat ls = l1 ++ c :: l2 →
  ∃ u1 k1 k2 u2, ls = u1 ++ (k1 ++ c :: k2) :: u2 ∧
    l1 = concat u1 ++ k1 ∧ l2 = k2 ++ concat u2.
Proof.
  revert l1. induction ls as [|k ls IH]; intros l1 Hc.
  - by destruct l1.
  - simpl in Hc. apply app_eq_inv in Hc as [(x & -> & Hx)|(x & -> & Hx)].
    + destruct x as [|c' x].
      * simpl in Hx. destruct (IH [] (eq_sym Hx)) as (u1 & k1 & k2 & u2 & -> & E & ->).
        exists (l1 :: u1), k1, k2, u2. simpl. rewrite app_nil_r.
        split; [done|]. split; [|done].
        symmetry in E. apply app_eq_nil in E as [-> ->]. by rewrite !app_nil_r.
      * injection Hx as <- ->. exists [], l1, x, ls. done.
    + destruct (IH _ Hx) as (u1 & k1 & k2 & u2 & -> & -> & ->).
      exists (k :: u1), k1, k2, u2. simpl. by rewrite (assoc_L (++)).
Qed.

Lemma concat_adjacent_inv {A} (ls : list (list A)) l1 c c' l2 :
  concat ls = l1 ++ c :: c' :: l2 → Forall (λ k, k ≠ []) ls →
  (∃ u1 k1 k2 u2, ls = u1 ++ (k1 ++ c :: c' :: k2) :: u2 ∧
     l1 = concat u1 ++ k1 ∧ l2 = k2 ++ concat u2) ∨
  (∃ u1 k1 k2 u2, ls = u1 ++ (k1 ++ [c]) :: (c' :: k2) :: u2 ∧
     l1 = concat u1 ++ k1 ∧ l2 = k2 ++ concat u2).
Proof.
  intros Hc Hne.
  destruct (concat_middle_inv _ _ _ _ Hc) as (u1 & k1 & k2 & u2 & -> & -> & E).
  apply Forall_app in Hne as [_ [_ Hne]%Forall_cons].
  destruct k2 as [|x k2].
  - right. simpl in E. symmetry in E.
    destruct (concat_cons_inv _ _ _ E Hne) as (k & ls' & -> & ->).
    by exists u1, k1, k, ls'.
  - left. injection E as <- ->. by exists u1, k1, k2, u2.
Qed.

(** ** A level and the level below it *)

Section Families.

Context (t : tree) (h : option (nat * nat)) (lk : nat → option Z).

Lemma kids_nonempty (up : list nat) :
  (∀ a, a ∈ up → erecs h t a ≠ []) →
  Forall (λ k, k ≠ []) ((λ a, kids (erecs h t a)) <$> up).
Proof.
  intros Hne. apply Forall_fmap, Forall_forall. intros a Ha. simpl.
  unfold kids. intros E%fmap_nil_inv. by apply (Hne a).
Qed.

Lemma concat_fmap_inv {A B} (f : A → list B) (up : list A) u1 k u2 :
  f <$> up = u1 ++ k :: u2 →
  ∃ v1 p v2, up = v1 ++ p :: v2 ∧ u1 = f <$> v1 ∧ k = f p ∧ u2 = f <$> v2.
Proof.
  intros (v1 & v2' & -> & (p & v2 & -> & -> & ->)%eq_sym%fmap_cons_inv & ->)%fmap_app_inv.
  by exists v1, p, v2.
Qed.

Lemma kids_middle_inv (rs : list (Z * option nat)) k1 c k2 :
  kids rs = k1 ++ Some c :: k2 →
  ∃ rs1 k rs2, rs = rs1 ++ (k, Some c) :: rs2 ∧ k1 = kids rs1 ∧ k2 = kids rs2.
Proof.
  unfold kids.
  intros (rs1 & rs2' & -> & ([k c'] & rs2 & [= <-] & -> & ->)%eq_sym%fmap_cons_inv & ->)%fmap_app_inv.
  by exists rs1, k, rs2.
Qed.

Lemma fam_child up lo c :
  fam t h lk up lo → c ∈ lo →
  ∃ p rs1 k rs2, p ∈ up ∧ erecs h t p = rs1 ++ (k, Some c) :: rs2 ∧
    par t c = Some p ∧ lk c = Some k.
Proof.
  intros [Hk Hr] (l1 & l2 & ->)%list_elem_of_split.
  rewrite fmap_app, fmap_cons in Hk.
  apply concat_middle_inv in Hk as (u1 & k1 & k2 & u2 & Hup & _ & _).
  apply concat_fmap_inv in Hup as (v1 & p & v2 & -> & _ & Hp & _).
  symmetry in Hp. apply kids_middle_inv in Hp as (rs1 & k & rs2 & Hp & _ & _).
  assert (p ∈ v1 ++ p :: v2) as Hin by set_solver.
  destruct (Hr p (k, Some c) c Hin) as [? ?]; [rewrite Hp; set_solver|done|].
  by exists p, rs1, k, rs2.
Qed.

Lemma fam_last up lo l c :
  fam t h lk up lo → (∀ a, a ∈ up → erecs h t a ≠ []) → lo = l ++ [c] →
  ∃ u p rs k, up = u ++ [p] ∧ erecs h t p = rs ++ [(k, Some c)] ∧
    par t c = Some p ∧ lk c = Some k.
Proof.
  intros [Hk Hr] Hne ->. rewrite fmap_app in Hk. simpl in Hk.
  apply concat_snoc_inv in Hk as (ls' & k1 & Hup & _); [|by apply kids_nonempty].
  apply concat_fmap_inv in Hup as (v1 & p & v2 & -> & _ & Hp & ->%eq_sym%fmap_nil_inv).
  symmetry in Hp. apply kids_middle_inv in Hp as (rs1 & k & rs2 & Hp & _ & ->%eq_sym%fmap_nil_inv).
  assert (p ∈ v1 ++ [p]) as Hin by set_solver.
  destruct (Hr p (k, Some c) c Hin) as [? ?]; [rewrite Hp; set_solver|done|].
  by exists v1, p, rs1, k.
Qed.

Lemma fam_adjacent up lo l1 c c' l2 :
  fam t h lk up lo → (∀ a, a ∈ up → erecs h t a ≠ []) → lo = l1 ++ c :: c' :: l2 →
  (∃ u1 p u2 rs1 k k' rs2, up = u1 ++ p :: u2 ∧
     erecs h t p = rs1 ++ (k, Some c) :: (k', Some c') :: rs2 ∧
     par t c = Some p ∧ par t c' = Some p ∧ lk c = Some k ∧ lk c' = Some k') ∨
  (∃ u1 p p' u2 rs1 k k' rs2, up = u1 ++ p :: p' :: u2 ∧
     erecs h t p = rs1 ++ [(k, Some c)] ∧ erecs h t p' = (k', Some c') :: rs2 ∧
     par t c = Some p ∧ par t c' = Some p' ∧ lk c = Some k ∧ lk c' = Some k').
Proof.
  intros [Hk Hr] Hne ->. rewrite fmap_app, !fmap_cons in Hk.
  apply concat_adjacent_inv in Hk as [(u1 & k1 & k2 & u2 & Hup & _)|(u1 & k1 & k2 & u2 & Hup & _)];
    [| |by apply kids_nonempty].
  - left. apply concat_fmap_inv in Hup as (v1 & p & v2 & -> & _ & Hp & _).
    symmetry in Hp. apply kids_middle_inv in Hp as (rs1 & k & rs2' & Hp & _ & Hp2).
    symmetry in Hp2. apply (kids_middle_inv _ []) in Hp2 as (rs0 & k' & rs2 & -> & ->%eq_sym%fmap_nil_inv & _).
    simpl in Hp.
    assert (p ∈ v1 ++ p :: v2) as Hin by set_solver.
    destruct (Hr p (k, Some c) c Hin) as [? ?]; [rewrite Hp; set_solver|done|].
    destruct (Hr p (k', Some c') c' Hin) as [? ?]; [rewrite Hp; set_solver|done|].
    exists v1, p, v2, rs1, k, k', rs2. done.
  - right. apply concat_fmap_inv in Hup as (v1 & p & v2' & -> & _ & Hp & Hv).
    symmetry in Hv. apply (concat_fmap_inv _ _ []) in Hv as (v0 & p' & v2 & -> & ->%eq_sym%fmap_nil_inv & Hp' & _).
    simpl in *.
    symmetry in Hp. apply kids_middle_inv in Hp as (rs1 & k & rs0 & Hp & _ & ->%eq_sym%fmap_nil_inv).
    symmetry in Hp'. apply (kids_middle_inv _ []) in Hp' as (rs0 & k' & rs2 & Hp' & ->%eq_sym%fmap_nil_inv & _).
    simpl in Hp'.
    assert (p ∈ v1 ++ p :: p' :: v2) as Hin by set_solver.
    assert (p' ∈ v1 ++ p :: p' :: v2) as Hin' by set_solver.
    destruct (Hr p (k, Some c) c Hin) as [? ?]; [rewrite Hp; set_solver|done|].
    destruct (Hr p' (k', Some c') c' Hin') as [? ?]; [rewrite Hp'; set_solver|done|].
    exists v1, p, p', v2, rs1, k, k', rs2. done.
Qed.

End Families.

Lemma elem_of_concat {A} (x : A) (ls : list (list A)) :
  x ∈ concat ls ↔ ∃ l, x ∈ l ∧ l ∈ ls.
Proof.
  induction ls as [|k ls IH]; simpl.
  - set_solver.
  - rewrite elem_of_app, IH. set_solver.
Qed.

(** ** Frames *)

Lemma recs_wr a f t b :
  recs (wr a f t) b = if decide (a = b) then records (f (nd t a)) else recs t b.
Proof. unfold recs. rewrite nd_wr. by case_decide. Qed.

Lemma recs_wr_set a l t b :
  recs (wr a (set_records l) t) b = if decide (a = b) then l else recs t b.
Proof. by rewrite recs_wr. Qed.

Lemma keys_only_refl t : keys_only t t.
Proof. by split. Qed.

Lemma keys_only_trans t1 t2 t3 : keys_only t1 t2 → keys_only t2 t3 → keys_only t1 t3.
Proof.
  intros [] []. split; intros; etrans; eauto.
Qed.

Lemma keys_only_overwrite t p q r k :
  live t p → recs t p !! q = Some r →
  keys_only t (wr p (set_records (<[q := (k, r.2)]> (recs t p))) t).
Proof.
  intros Hl Hq. split; try done.
  - intros a. by apply live_wr.
  - intros a. unfold nxt. rewrite nd_wr. by case_decide; subst.
  - intros a. unfold prv. rewrite nd_wr. by case_decide; subst.
  - intros a. unfold par. rewrite nd_wr. by case_decide; subst.
  - intros a. unfold leaf. rewrite nd_wr. by case_decide; subst.
  - intros a. rewrite recs_wr_set. case_decide; subst; [|done].
    unfold kids. rewrite list_fmap_insert. simpl.
    apply list_insert_id. rewrite list_lookup_fmap, Hq. done.
Qed.

Lemma chain_from_keys_only t t' p L e :
  keys_only t t' → chain_from t p L e → chain_from t' p L e.
Proof.
  intros Hk. revert p. induction L as [|a L IH]; intros p; simpl; [done|].
  intros (Hp & Hn & Hc). rewrite (ko_prv _ _ Hk), (ko_nxt _ _ Hk). eauto.
Qed.

Lemma shape_keys_only t t' Ls : keys_only t t' → shape t Ls → shape t' Ls.
Proof.
  intros Hk [H1 H2 H3 H4 H5 H6 H7 H8 H9 H10 H11 H12 H13]. split; try done.
  - intros j L a ? ?. apply (ko_live _ _ Hk). eauto.
  - by apply (ko_live _ _ Hk).
  - by rewrite (ko_root _ _ Hk).
  - intros r. rewrite (ko_root _ _ Hk), (ko_par _ _ Hk). apply H9.
  - intros j L a ? ?. rewrite (ko_leaf _ _ Hk). eauto.
  - intros j L ?. eapply chain_from_keys_only; eauto.
  - by rewrite (ko_nxt _ _ Hk).
  - by rewrite (ko_prv _ _ Hk).
Qed.

(** ** Levels *)

Section Levels.

Context (t : tree) (Ls : list (list nat)) (Hsh : shape t Ls).

Lemma level_live i L a : Ls !! i = Some L → a ∈ L → live t a.
Proof. apply (sh_live _ _ Hsh). Qed.

Lemma level_not_header i L a : Ls !! i = Some L → a ∈ L → a ≠ header.
Proof. intros Hi Ha ->. by apply (sh_not_header _ _ Hsh _ _ Hi). Qed.

Lemma level_NoDup i L : Ls !! i = Some L → NoDup L.
Proof. apply (sh_nodup _ _ Hsh). Qed.

Lemma level_disjoint i i' L L' a :
  Ls !! i = Some L → Ls !! i' = Some L' → a ∈ L → a ∈ L' → i = i'.
Proof. apply (sh_disj _ _ Hsh). Qed.

Lemma not_upper_level i L a : Ls !! i = Some L → a ∈ L → ¬ upper Ls i a.
Proof.
  intros Hi Ha (i' & L' & Hlt & Hi' & Ha').
  pose proof (level_disjoint _ _ _ _ _ Hi Hi' Ha Ha'). lia.
Qed.

Lemma upper_S i a : upper Ls (S i) a → upper Ls i a.
Proof. intros (i' & L' & ? & ? & ?). exists i', L'. split; [lia|done]. Qed.

Lemma upper_level i L a : Ls !! S i = Some L → a ∈ L → upper Ls i a.
Proof. intros. exists (S i), L. split; [lia|done]. Qed.

(** A level that is not the top one has a level above it. *)
Lemma top_level i L : Ls !! i = Some L → length Ls = S i →
  ∃ r, L = [r] ∧ m_root t = Some r ∧ par t r = None.
Proof.
  intros Hi Hlen.
  assert (last Ls = Some L) as Hl.
  { rewrite last_lookup. by rewrite Hlen. }
  pose proof (sh_top _ _ Hsh _ Hl) as H1.
  destruct L as [|r [|? ?]]; try done. exists r. split; [done|].
  assert (m_root t = Some r) as Hr.
  { rewrite (sh_root _ _ Hsh), Hl. done. }
  split; [done|]. by apply (sh_root_par _ _ Hsh).
Qed.

End Levels.

(** ** Families under a change of state *)

Lemma fam_kid_in t h lk up lo a r c :
  fam t h lk up lo → a ∈ up → r ∈ erecs h t a → r.2 = Some c → c ∈ lo.
Proof.
  intros [Hk _] Ha Hr Hc.
  assert (Some c ∈ Some <$> lo) as Hin.
  { rewrite <- Hk. apply elem_of_concat. exists (kids (erecs h t a)). split.
    - unfold kids. rewrite <- Hc. by apply list_elem_of_fmap_2.
    - apply list_elem_of_fmap. by exists a. }
  apply list_elem_of_fmap in Hin as (c' & [= <-] & ?). done.
Qed.

Lemma fam_ext t t' h h' lk lk' up lo :
  (∀ a, a ∈ up → erecs h' t' a = erecs h t a) →
  (∀ c, c ∈ lo → par t' c = par t c) →
  (∀ c, c ∈ lo → lk' c = lk c) →
  fam t h lk up lo → fam t' h' lk' up lo.
Proof.
  intros He Hp Hl Hf. split.
  - rewrite <- (fam_kids _ _ _ _ _ Hf). f_equal. apply list_fmap_ext.
    intros i a Hi. simpl. rewrite He; [done|]. by eapply list_elem_of_lookup_2.
  - intros a r c Ha Hr Hc. rewrite He in Hr by done.
    assert (c ∈ lo) by (by eapply fam_kid_in).
    rewrite Hp, Hl by done. by eapply fam_rec.
Qed.

(** In a family without repeated children a child occurs in one record
    of one parent. *)
Lemma fam_unique t h lk up lo p rs1 k c rs2 :
  fam t h lk up lo → NoDup lo → NoDup up →
  p ∈ up → erecs h t p = rs1 ++ (k, Some c) :: rs2 →
  Some c ∉ kids rs1 ∧ Some c ∉ kids rs2 ∧
  ∀ a, a ∈ up → a ≠ p → Some c ∉ kids (erecs h t a).
Proof.
  intros [Hk _] Hn Hnu Hp Hrs.
  apply list_elem_of_split in Hp as (u1 & u2 & ->).
  assert (NoDup (Some <$> lo)) as Hn' by (by apply (NoDup_fmap_2 _)).
  rewrite <- Hk, fmap_app, fmap_cons, concat_app in Hn'. simpl in Hn'.
  rewrite Hrs in Hn'. unfold kids at 2 in Hn'. rewrite fmap_app, fmap_cons in Hn'.
  simpl in Hn'. fold (kids rs1) (kids rs2) in Hn'.
  apply NoDup_app in Hn' as (_ & Hd1 & Hn').
  rewrite <- (assoc_L (++)) in Hn'. simpl in Hn'.
  apply NoDup_app in Hn' as (_ & Hd2 & Hn').
  apply NoDup_cons in Hn' as [Hd3 _].
  split; [|split].
  - intros Hin. apply (Hd2 _ Hin). set_solver.
  - intros Hin. apply Hd3. set_solver.
  - intros a Ha Hne Hin.
    apply NoDup_app in Hnu as (_ & _ & Hnp). apply NoDup_cons in Hnp as [Hnp _].
    apply elem_of_app in Ha as [Ha|Ha].
    + apply (Hd1 (Some c)); [|set_solver].
      apply elem_of_concat. eexists. split; [exact Hin|].
      apply list_elem_of_fmap. by exists a.
    + apply elem_of_cons in Ha as [->|Ha]; [done|].
      apply Hd3. apply elem_of_app. right.
      apply elem_of_concat. eexists. split; [exact Hin|].
      apply list_elem_of_fmap. by exists a.
Qed.

(** ** [fix_key_on_path] *)

Lemma insert_middle {A} (l1 l2 : list A) x y :
  <[length l1 := y]> (l1 ++ x :: l2) = l1 ++ y :: l2.
Proof. rewrite insert_app_r_alt by lia. by rewrite Nat.sub_diag. Qed.

Section FixPath.

Context (Ls : list (list nat)) (old new : Z).

Lemma above_top t i lk : (length Ls ≤ S i)%nat → above t Ls i lk.
Proof. intros Hlen i' up lo Hle Hup%lookup_lt_Some. lia. Qed.

Lemma above_split t i lk :
  above t Ls i lk ↔
  (∀ up lo, Ls !! S i = Some up → Ls !! i = Some lo → fam t None lk up lo) ∧
  above t Ls (S i) (alk t).
Proof.
  split.
  - intros H. split.
    + intros up lo Hup Hlo. specialize (H i up lo (Nat.le_refl _) Hup Hlo).
      by rewrite decide_True in H.
    + intros i' up lo Hle Hup Hlo. specialize (H i' up lo (Nat.lt_le_incl _ _ Hle) Hup Hlo).
      rewrite decide_False in H by lia. by destruct (decide (i' = S i)).
  - intros [H1 H2] i' up lo Hle Hup Hlo. case_decide as E.
    + subst. eauto.
    + specialize (H2 i' up lo). destruct (decide (i' = S i)); apply H2; (done || lia).
Qed.

Lemma above_ext t i lk lk' :
  (∀ L a, Ls !! i = Some L → a ∈ L → lk' a = lk a) →
  above t Ls i lk → above t Ls i lk'.
Proof.
  intros He H i' up lo Hle Hup Hlo. specialize (H i' up lo Hle Hup Hlo).
  case_decide; [|done]. subst. eapply fam_ext; [done|done| |exact H].
  intros c Hc. by eapply He.
Qed.

Lemma above_frame t t' i lk :
  shape t Ls →
  (∀ a, upper Ls i a → recs t' a = recs t a) →
  (∀ a, par t' a = par t a) →
  (∀ a, upper Ls i a → alk t' a = alk t a) →
  above t Ls i lk → above t' Ls i lk.
Proof.
  intros Hsh Hr Hp Hl H i' up lo Hle Hup Hlo. specialize (H i' up lo Hle Hup Hlo).
  eapply fam_ext; [| | |exact H].
  - intros a Ha. erecs_none. apply Hr. exists (S i'), up. split; [lia|done].
  - intros c _. apply Hp.
  - intros c Hc. case_decide; [done|]. apply Hl. exists i', lo. split; [lia|done].
Qed.

(** The key of the record that leads from [p] to [c] is overwritten. *)
Lemma overwrite_router t i lk up lo c p rs1 rs2 :
  shape t Ls → above t Ls i lk →
  Ls !! S i = Some up → Ls !! i = Some lo →
  p ∈ up → recs t p = rs1 ++ (old, Some c) :: rs2 →
  let t1 := wr p (set_records (rs1 ++ (new, Some c) :: rs2)) t in
  keys_only t t1 ∧ (∀ a, a ≠ p → recs t1 a = recs t a) ∧
  recs t1 p = rs1 ++ (new, Some c) :: rs2 ∧
  fam t1 None (upd lk c new) up lo ∧ above t1 Ls (S i) (alk t).
Proof.
  intros Hsh Hab Hup Hlo Hp Hrs t1.
  assert (live t p) as Hlp by exact (level_live _ _ Hsh _ _ _ Hup Hp).
  assert (keys_only t t1) as Hko.
  { pose proof (keys_only_overwrite t p (length rs1) (old, Some c) new Hlp) as Hk.
    rewrite Hrs, insert_middle in Hk. apply Hk. by apply list_lookup_middle. }
  assert (∀ a, a ≠ p → recs t1 a = recs t a) as Hne.
  { intros a Ha. unfold t1. rewrite recs_wr_set. by rewrite decide_False. }
  assert (recs t1 p = rs1 ++ (new, Some c) :: rs2) as Hp1.
  { unfold t1. rewrite recs_wr_set. by rewrite decide_True. }
  split; [done|]. split; [done|]. split; [done|].
  apply above_split in Hab as [Hf Hab]. specialize (Hf _ _ Hup Hlo).
  split.
  - destruct (fam_unique _ _ _ _ _ _ _ _ _ _ Hf
      (level_NoDup _ _ Hsh _ _ Hlo) (level_NoDup _ _ Hsh _ _ Hup) Hp Hrs) as (Hu1 & Hu2 & Hu3).
    split.
    + rewrite <- (fam_kids _ _ _ _ _ Hf). f_equal. apply list_fmap_ext.
      intros ? a _. simpl. apply (ko_kids _ _ Hko).
    + intros a r c0 Ha Hr Hc0. erecs_none. rewrite (ko_par _ _ Hko).
      destruct (decide (a = p)) as [->|Hap].
      * rewrite Hp1 in Hr. unfold upd.
        apply elem_of_app in Hr as [Hr|[->|Hr]%elem_of_cons].
        -- assert (c0 ≠ c) as Hcc.
           { intros ->. apply Hu1. unfold kids. rewrite <- Hc0. by apply list_elem_of_fmap_2. }
           rewrite decide_False by done.
           apply (fam_rec _ _ _ _ _ Hf p r c0 Hp); [|done]. erecs_none. rewrite Hrs. set_solver.
        -- simpl in Hc0. injection Hc0 as <-. rewrite decide_True by done.
           split; [|done].
           apply (fam_rec _ _ _ _ _ Hf p (old, Some c) c Hp); [|done]. erecs_none. rewrite Hrs. set_solver.
        -- assert (c0 ≠ c) as Hcc.
           { intros ->. apply Hu2. unfold kids. rewrite <- Hc0. by apply list_elem_of_fmap_2. }
           rewrite decide_False by done.
           apply (fam_rec _ _ _ _ _ Hf p r c0 Hp); [|done]. erecs_none. rewrite Hrs. set_solver.
      * rewrite Hne in Hr by done.
        assert (c0 ≠ c) as Hcc.
        { intros ->. apply (Hu3 a Ha Hap). unfold kids. rewrite <- Hc0.
          by apply list_elem_of_fmap_2. }
        unfold upd. rewrite decide_False by done.
        by apply (fam_rec _ _ _ _ _ Hf a r c0 Ha).
  - intros i' up' lo' Hle Hup' Hlo'. specialize (Hab i' up' lo' Hle Hup' Hlo').
    assert (fam t None (alk t) up' lo') as Hf' by (by destruct (decide (i' = S i))).
    assert (fam t1 None (alk t) up' lo') as Hf1.
    { eapply fam_ext; [| | |exact Hf'].
      - intros a Ha. erecs_none. apply Hne. intros ->.
        pose proof (level_disjoint _ _ Hsh _ _ _ _ _ Hup Hup' Hp Ha). lia.
      - intros c0 _. apply (ko_par _ _ Hko).
      - done. }
    case_decide; [done|].
    eapply fam_ext; [done|done| |exact Hf1].
    intros c0 Hc0. unfold alk. rewrite Hne; [done|]. intros ->.
    pose proof (level_disjoint _ _ Hsh _ _ _ _ _ Hup Hlo' Hp Hc0). lia.
Qed.

End FixPath.

(** ** Order of the keys of a level *)

Lemma sorted_lasts {A} (f : A → list (Z * option nat)) (up : list A) :
  StronglySorted Z.lt (concat ((λ a, keys (f a)) <$> up)) →
  StronglySorted Z.lt (omap (λ a, last_key (f a)) up).
Proof.
  induction up as [|a up IH]; [constructor|].
  rewrite fmap_cons. simpl concat.
  intros [Hlt [Hs1 Hs2]]%StronglySorted_app.
  change (omap (λ a, last_key (f a)) (a :: up)) with
    (match last_key (f a) with
     | Some y => y :: omap (λ a, last_key (f a)) up
     | None => omap (λ a, last_key (f a)) up
     end).
  destruct (last_key (f a)) as [k|] eqn:Ek; [|by apply IH].
  constructor; [by apply IH|].
  apply Forall_forall. intros k' Hk'.
  apply Hlt.
  - unfold last_key in Ek. destruct (last (f a)) as [r|] eqn:Er; [|done].
    injection Ek as <-. apply list_elem_of_fmap_2. by apply last_Some_elem_of.
  - apply list_elem_of_omap in Hk' as (a' & Ha' & Ek').
    apply elem_of_concat. exists (keys (f a')). split.
    + unfold last_key in Ek'. destruct (last (f a')) as [r|] eqn:Er; [|done].
      injection Ek' as <-. apply list_elem_of_fmap_2. by apply last_Some_elem_of.
    + apply list_elem_of_fmap. by exists a'.
Qed.

Lemma keys_of_kids (lk : nat → option Z) (rs : list (Z * option nat)) lo :
  kids rs = Some <$> lo →
  (∀ r c, r ∈ rs → r.2 = Some c → lk c = Some r.1) →
  keys rs = omap lk lo.
Proof.
  revert lo. induction rs as [|[k c] rs IH]; intros lo Hk Hr.
  - symmetry in Hk. apply fmap_nil_inv in Hk as ->. done.
  - destruct lo as [|c0 lo]; [done|]. injection Hk as -> Hk. simpl.
    rewrite (Hr (k, Some c0) c0) by (done || set_solver). simpl.
    f_equal. apply IH; [done|]. intros r c ? ?. apply Hr; [set_solver|done].
Qed.

Lemma level_keys_eq t h lk up lo :
  fam t h lk up lo →
  concat ((λ a, keys (erecs h t a)) <$> up) = omap lk lo.
Proof.
  intros [Hk Hr]. revert lo Hk Hr. induction up as [|a up IH]; intros lo Hk Hr.
  - simpl in Hk. symmetry in Hk. apply fmap_nil_inv in Hk as ->. done.
  - simpl in Hk. symmetry in Hk. apply fmap_app_inv in Hk as (lo1 & lo2 & Hk1 & Hk2 & ->).
    simpl. rewrite omap_app. f_equal.
    + apply keys_of_kids; [done|]. intros r c ? ?. eapply Hr; [|done..]. set_solver.
    + apply IH; [done|]. intros a' r c ? ? ?. split.
      * eapply Hr; [|done..]. set_solver.
      * eapply Hr; [|done..]. set_solver.
Qed.

Lemma node_keys_sorted t h lk up lo a :
  fam t h lk up lo → StronglySorted Z.lt (omap lk lo) → a ∈ up →
  StronglySorted Z.lt (keys (erecs h t a)).
Proof.
  intros Hf Hs (u1 & u2 & ->)%list_elem_of_split.
  rewrite <- (level_keys_eq _ _ _ _ _ Hf) in Hs.
  rewrite fmap_app, fmap_cons, concat_app in Hs. simpl in Hs.
  apply StronglySorted_app_1_r in Hs. by apply StronglySorted_app_1_l in Hs.
Qed.

Lemma lasts_sorted t h lk up lo :
  fam t h lk up lo → StronglySorted Z.lt (omap lk lo) →
  StronglySorted Z.lt (omap (λ a, last_key (erecs h t a)) up).
Proof.
  intros Hf Hs. rewrite <- (level_keys_eq _ _ _ _ _ Hf) in Hs.
  by apply sorted_lasts.
Qed.

Lemma sorted_keys_before (rs1 : list (Z * option nat)) r rs2 :
  StronglySorted Z.lt (keys (rs1 ++ r :: rs2)) → Forall (λ q, q.1 < r.1) rs1.
Proof.
  unfold keys. rewrite fmap_app, fmap_cons. intros [Hlt _]%StronglySorted_app.
  apply Forall_forall. intros q Hq. apply Hlt; [by apply list_elem_of_fmap_2|set_solver].
Qed.

Lemma sorted_keys_after (rs1 : list (Z * option nat)) r rs2 :
  StronglySorted Z.lt (keys (rs1 ++ r :: rs2)) → Forall (λ q, r.1 < q.1) rs2.
Proof.
  unfold keys. rewrite fmap_app, fmap_cons.
  intros (_ & _ & [Hlt _]%StronglySorted_cons)%StronglySorted_app.
  apply Forall_forall. intros q Hq.
  rewrite Forall_forall in Hlt. apply Hlt. by apply list_elem_of_fmap_2.
Qed.

(** ** The number of levels *)

Lemma levels_NoDup (Ls : list (list nat)) :
  (∀ j L, Ls !! j = Some L → NoDup L) →
  (∀ i i' L L' a, Ls !! i = Some L → Ls !! i' = Some L' → a ∈ L → a ∈ L' → i = i') →
  NoDup (concat Ls).
Proof.
  induction Ls as [|L Ls IH]; intros Hn Hd; simpl; [constructor|].
  apply NoDup_app. split; [by apply (Hn 0%nat)|]. split.
  - intros a Ha (L' & Ha' & [i Hi]%list_elem_of_lookup)%elem_of_concat.
    by specialize (Hd 0%nat (S i) L L' a eq_refl Hi Ha Ha').
  - apply IH.
    + intros j L' Hj. by apply (Hn (S j)).
    + intros i i' L1 L2 a H1 H2 H3 H4.
      pose proof (Hd (S i) (S i') L1 L2 a H1 H2 H3 H4). lia.
Qed.

Lemma levels_bound t Ls : shape t Ls → (length Ls < base.size (heap t))%nat.
Proof.
  intros Hsh.
  assert (length Ls ≤ length (concat Ls))%nat as H1.
  { pose proof (sh_nonempty _ _ Hsh) as Hne. clear Hsh.
    induction Ls as [|L Ls IH]; simpl; [lia|].
    rewrite length_app.
    assert (L ≠ []) by (by apply (Hne 0%nat)).
    assert (length Ls ≤ length (concat Ls))%nat.
    { apply IH. intros j L' Hj. by apply (Hne (S j)). }
    destruct L; [done|]. simpl. lia. }
  assert (length (header :: concat Ls) ≤ base.size (dom (heap t)))%nat as H2.
  { rewrite <- (size_list_to_set (C := gset nat)).
    - apply subseteq_size. intros a Ha. apply elem_of_dom.
      apply elem_of_list_to_set in Ha. apply elem_of_cons in Ha as [->|Ha].
      + apply (sh_header _ _ Hsh).
      + apply elem_of_concat in Ha as (L & Ha & [j Hj]%list_elem_of_lookup).
        by apply (sh_live _ _ Hsh j L).
    - apply NoDup_cons. split.
      + intros (L & Ha & [j Hj]%list_elem_of_lookup)%elem_of_concat.
        by apply (sh_not_header _ _ Hsh j L).
      + apply levels_NoDup; [apply (sh_nodup _ _ Hsh)|apply (sh_disj _ _ Hsh)]. }
  rewrite size_dom in H2. simpl in H2. lia.
Qed.

(** ** The two loops of [fix_key_on_path] *)

Section FixLoops.

Context (Ls : list (list nat)) (old new : Z).

Lemma nonempty_above_S t i : nonempty_above t Ls i → nonempty_above t Ls (S i).
Proof. intros H a Ha. apply H. destruct Ha as (i' & L & ? & ? & ?). exists i', L. split; [lia|done]. Qed.

Lemma above_lift t t1 t2 i lk up lo c p rs :
  shape t Ls → Ls !! S i = Some up → Ls !! i = Some lo → p ∈ up →
  (∀ a, a ≠ p → recs t1 a = recs t a) →
  recs t1 p = rs ++ [(new, Some c)] →
  fam t1 None (upd lk c new) up lo →
  (∀ a, par t2 a = par t1 a) →
  (∀ a, ¬ upper Ls (S i) a → recs t2 a = recs t1 a) →
  above t2 Ls (S i) (upd (alk t) p new) →
  above t2 Ls i (upd lk c new).
Proof.
  intros Hsh Hup Hlo Hp Hfr Hp1 Hf1 Hpar Hfr' Hab'.
  apply above_split. split.
  - intros up' lo' Hup' Hlo'. simplify_eq.
    eapply fam_ext; [| | |exact Hf1]; [|intros; apply Hpar|done].
    intros a Ha. erecs_none. apply Hfr'. by eapply not_upper_level.
  - eapply above_ext; [|exact Hab'].
    intros L a HL Ha. simplify_eq. unfold upd, alk. case_decide as E.
    + subst. rewrite Hfr' by (by eapply not_upper_level).
      rewrite Hp1. unfold last_key. by rewrite last_snoc.
    + rewrite Hfr' by (by eapply not_upper_level). by rewrite Hfr.
Qed.

Lemma fix_to_root_spec n : ∀ i t lk l c fuel,
  length Ls = (S i + n)%nat → (n ≤ fuel)%nat →
  shape t Ls → above t Ls i lk → nonempty_above t Ls i →
  Ls !! i = Some (l ++ [c]) → lk c = Some old →
  ∃ t', fix_to_root fuel (par t c) new t = Some (tt, t') ∧ keys_only t t' ∧
        (∀ a, ¬ upper Ls i a → recs t' a = recs t a) ∧
        above t' Ls i (upd lk c new).
Proof.
  induction n as [|n IH]; intros i t lk l c fuel Hlen Hfuel Hsh Hab Hne Hi Hlk.
  - destruct (top_level _ _ Hsh _ _ Hi) as (r & Hr & _ & Hpar); [lia|].
    destruct l as [|? [|? ?]]; simplify_eq/=.
    rewrite Hpar. exists t. destruct fuel; simpl;
      (split; [done|]); (split; [apply keys_only_refl|]); (split; [done|]);
      apply above_top; lia.
  - destruct (lookup_lt_is_Some_2 Ls (S i)) as [up Hup]; [lia|].
    pose proof (proj1 (above_split _ _ _ _) Hab) as [Hf _].
    specialize (Hf _ _ Hup Hi).
    destruct (fam_last t None lk up (l ++ [c]) l c Hf)
      as (u & p & rs & k & -> & Hrs & Hpar & Hk); [|done|].
    { intros a Ha. apply Hne. by eapply upper_level. }
    erecs_none. assert (k = old) as -> by congruence.
    assert (p ∈ u ++ [p]) as Hp by set_solver.
    assert (live t p) as Hlp by exact (level_live _ _ Hsh _ _ _ Hup Hp).
    destruct (overwrite_router Ls old new t i lk _ _ c p rs [] Hsh Hab Hup Hi Hp Hrs)
      as (Hko & Hfr & Hp1 & Hf1 & Hab1).
    set (t1 := wr p (set_records (rs ++ [(new, Some c)])) t) in *.
    assert (shape t1 Ls) as Hsh1 by (by eapply shape_keys_only).
    destruct fuel as [|fuel]; [lia|].
    destruct (IH (S i) t1 (alk t) u p fuel) as (t' & Hrun & Hko' & Hfr' & Hab'); try done.
    { lia. } { lia. }
    { intros a Ha. rewrite Hfr; [by apply Hne, upper_S|].
      intros ->. by eapply not_upper_level. }
    { unfold alk. rewrite Hrs. unfold last_key. by rewrite last_snoc. }
    exists t'. split; [|split; [|split]].
    + rewrite Hpar. simpl.
      rewrite (bind_run _ _ _ _ _ (last_index_run _ _ Hlp ltac:(rewrite Hrs; by destruct rs))).
      rewrite Hrs, length_app. simpl. rewrite Nat.add_1_r. simpl.
      erewrite bind_run; last first.
      { apply overwrite_key_run; [done|]. rewrite Hrs. by apply list_lookup_middle. }
      rewrite Hrs. simpl. rewrite (insert_middle rs []). fold t1.
      rewrite (bind_run _ _ _ _ _ (load_live _ _ (proj2 (ko_live _ _ Hko p) Hlp))).
      change (parent (nd t1 p)) with (par t1 p). exact Hrun.
    + by eapply keys_only_trans.
    + intros a Ha. rewrite Hfr'.
      * apply Hfr. intros ->. apply Ha. by eapply upper_level.
      * intros Hu. by apply Ha, upper_S.
    + exact (above_lift t t1 _ i lk _ _ c p rs Hsh Hup Hi Hp Hfr Hp1 Hf1 (ko_par _ _ Hko') Hfr' Hab').
Qed.

Lemma fix_to_common_spec n : ∀ i t lk l1 c c' l2 fuel,
  length Ls = (S i + n)%nat → (n ≤ fuel)%nat →
  shape t Ls → above t Ls i lk → nonempty_above t Ls i →
  Ls !! i = Some (l1 ++ c :: c' :: l2) → lk c = Some old →
  StronglySorted Z.lt (omap lk (l1 ++ c :: c' :: l2)) →
  ∃ t1 pc r,
    fix_to_common fuel (par t c) (par t c') new t = Some (Some pc, t1) ∧
    live t1 pc ∧ recs t1 pc !! find_idx old (recs t1 pc) = Some r ∧
    let t2 := wr pc (set_records (<[find_idx old (recs t1 pc) := (new, r.2)]> (recs t1 pc))) t1 in
    keys_only t t2 ∧ (∀ a, ¬ upper Ls i a → recs t2 a = recs t a) ∧
    above t2 Ls i (upd lk c new).
Proof.
  induction n as [|n IH]; intros i t lk l1 c c' l2 fuel Hlen Hfuel Hsh Hab Hne Hi Hlk Hs.
  - destruct (top_level _ _ Hsh _ _ Hi) as (r & Hr & _); [lia|].
    apply (f_equal length) in Hr. rewrite length_app in Hr. simpl in Hr. lia.
  - destruct (lookup_lt_is_Some_2 Ls (S i)) as [up Hup]; [lia|].
    pose proof (proj1 (above_split _ _ _ _) Hab) as [Hf _].
    specialize (Hf _ _ Hup Hi).
    assert (∀ a, a ∈ up → erecs None t a ≠ []) as Hne'.
    { intros a Ha. apply Hne. by eapply upper_level. }
    destruct (fam_adjacent t None lk up _ l1 c c' l2 Hf Hne' eq_refl)
      as [(u1 & p & u2 & rs1 & k & k' & rs2 & -> & Hrs & Hpar & Hpar' & Hk & Hk')
         |(u1 & p & p' & u2 & rs1 & k & k' & rs2 & -> & Hrs & Hrs' & Hpar & Hpar' & Hk & Hk')];
      erecs_none; (assert (k = old) as -> by congruence).
    + assert (p ∈ u1 ++ p :: u2) as Hp by set_solver.
      assert (live t p) as Hlp by exact (level_live _ _ Hsh _ _ _ Hup Hp).
      assert (find_idx old (recs t p) = length rs1) as Hfi.
      { rewrite Hrs. apply find_idx_found.
        pose proof (node_keys_sorted _ _ _ _ _ _ Hf Hs Hp) as Hsp. erecs_none.
        rewrite Hrs in Hsp. by apply sorted_keys_before in Hsp. }
      exists t, p, (old, Some c). rewrite Hpar, Hpar'.
      split.
      { destruct fuel; simpl; unfold ptr_eqb; by rewrite bool_decide_eq_true_2. }
      split; [done|]. rewrite Hfi. split; [rewrite Hrs; by apply list_lookup_middle|].
      simpl. rewrite Hrs, insert_middle.
      destruct (overwrite_router Ls old new t i lk _ _ c p rs1 ((k', Some c') :: rs2)
        Hsh Hab Hup Hi Hp Hrs) as (Hko & Hfr & Hp1 & Hf1 & Hab1).
      split; [done|]. split.
      { intros a Ha. apply Hfr. intros ->. apply Ha. by eapply upper_level. }
      apply above_split. split.
      * intros up' lo' ? ?. by simplify_eq.
      * eapply above_ext; [|exact Hab1].
        intros L a HL Ha. simplify_eq. unfold alk.
        destruct (decide (a = p)) as [->|Hap]; [|by rewrite Hfr].
        rewrite Hp1, Hrs. unfold last_key. by rewrite !last_app_cons, !last_cons_cons.
    + assert (p ∈ u1 ++ p :: p' :: u2) as Hp by set_solver.
      assert (p' ∈ u1 ++ p :: p' :: u2) as Hp' by set_solver.
      assert (p ≠ p') as Hpp.
      { pose proof (level_NoDup _ _ Hsh _ _ Hup) as Hn.
        apply NoDup_app in Hn as (_ & _ & Hn). apply NoDup_cons in Hn as [Hn _].
        set_solver. }
      assert (live t p) as Hlp by exact (level_live _ _ Hsh _ _ _ Hup Hp).
      assert (live t p') as Hlp' by exact (level_live _ _ Hsh _ _ _ Hup Hp').
      destruct (overwrite_router Ls old new t i lk _ _ c p rs1 [] Hsh Hab Hup Hi Hp Hrs)
        as (Hko & Hfr & Hp1 & Hf1 & Hab1).
      set (t1 := wr p (set_records (rs1 ++ [(new, Some c)])) t) in *.
      assert (shape t1 Ls) as Hsh1 by (by eapply shape_keys_only).
      destruct fuel as [|fuel]; [lia|].
      destruct (IH (S i) t1 (alk t) u1 p p' u2 fuel) as (t' & pc & r & Hrun & Hlpc & Hr & Hpost);
        try done.
      { lia. } { lia. }
      { intros a Ha. rewrite Hfr; [by apply Hne, upper_S|].
        intros ->. exact (not_upper_level _ _ Hsh _ _ _ Hup Hp Ha). }
      { unfold alk. rewrite Hrs. unfold last_key. by rewrite last_snoc. }
      { apply (lasts_sorted _ _ _ _ _ Hf Hs). }
      destruct Hpost as (Hko' & Hfr' & Hab').
      exists t', pc, r. split; [|split; [done|split; [done|]]].
      * rewrite Hpar, Hpar'. simpl. unfold ptr_eqb at 1.
        rewrite bool_decide_eq_false_2 by congruence.
        rewrite (bind_run _ _ _ _ _ (last_index_run _ _ Hlp ltac:(rewrite Hrs; by destruct rs1))).
        rewrite Hrs, length_app. simpl. rewrite Nat.add_1_r. simpl.
        erewrite bind_run; last first.
        { apply overwrite_key_run; [done|]. rewrite Hrs. by apply list_lookup_middle. }
        rewrite Hrs. simpl. rewrite (insert_middle rs1 []). fold t1.
        rewrite (bind_run _ _ _ _ _ (load_live _ _ (proj2 (ko_live _ _ Hko p) Hlp))).
        rewrite (bind_run _ _ _ _ _ (load_live _ _ (proj2 (ko_live _ _ Hko p') Hlp'))).
        exact Hrun.
      * simpl. split; [by eapply keys_only_trans|]. split.
        -- intros a Ha. rewrite Hfr'.
           ++ apply Hfr. intros ->. apply Ha. by eapply upper_level.
           ++ intros Hu. by apply Ha, upper_S.
        -- exact (above_lift t t1 _ i lk _ _ c p rs1 Hsh Hup Hi Hp Hfr Hp1 Hf1 (ko_par _ _ Hko') Hfr' Hab').
Qed.

End FixLoops.

(** ** Chains *)

Lemma chain_from_app t p l1 l2 e :
  chain_from t p (l1 ++ l2) e ↔
  chain_from t p l1 (from_option Some e (head l2)) ∧
  chain_from t (from_option Some p (last l1)) l2 e.
Proof.
  revert p. induction l1 as [|a l1 IH]; intros p.
  - simpl. tauto.
  - cbn [chain_from app]. rewrite IH. destruct l1 as [|b l1].
    + simpl. tauto.
    + rewrite last_cons_cons. cbn [head app chain_from from_option].
      assert (from_option Some (Some a) (last (b :: l1))
              = from_option Some p (last (b :: l1))) as ->; [|tauto].
      destruct (last (b :: l1)) eqn:E; [done|]. by apply last_None in E.
Qed.

Lemma chain_next t Ls i l1 c l2 :
  shape t Ls → Ls !! i = Some (l1 ++ c :: l2) →
  nxt t c = from_option Some (endp i) (head l2).
Proof.
  intros Hsh Hi. pose proof (sh_chain _ _ Hsh _ _ Hi) as Hc.
  apply chain_from_app in Hc as [_ Hc]. simpl in Hc. tauto.
Qed.

Lemma chain_prev t Ls i l1 c l2 :
  shape t Ls → Ls !! i = Some (l1 ++ c :: l2) →
  prv t c = from_option Some (endp i) (last l1).
Proof.
  intros Hsh Hi. pose proof (sh_chain _ _ Hsh _ _ Hi) as Hc.
  apply chain_from_app in Hc as [_ Hc]. simpl in Hc. tauto.
Qed.

Lemma is_end_endp i : is_end (endp i) = true.
Proof. by destruct i. Qed.

Lemma is_end_node t Ls i L a : shape t Ls → Ls !! i = Some L → a ∈ L → is_end (Some a) = false.
Proof.
  intros Hsh Hi Ha. pose proof (level_not_header _ _ Hsh _ _ _ Hi Ha).
  unfold is_end, ptr_eqb. rewrite !bool_decide_eq_false_2; [done|congruence|done].
Qed.

(** ** [fix_key_on_path] on the levels above a node *)

Lemma fix_key_on_path_spec t Ls i lk l1 c l2 old new :
  shape t Ls → above t Ls i lk → nonempty_above t Ls i →
  Ls !! i = Some (l1 ++ c :: l2) → lk c = Some old →
  StronglySorted Z.lt (omap lk (l1 ++ c :: l2)) →
  ∃ t', fix_key_on_path (Some c) old new t = Some (tt, t') ∧ keys_only t t' ∧
        (∀ a, ¬ upper Ls i a → recs t' a = recs t a) ∧
        above t' Ls i (upd lk c new).
Proof.
  intros Hsh Hab Hne Hi Hlk Hs.
  assert (c ∈ l1 ++ c :: l2) as Hc by set_solver.
  assert (live t c) as Hlc by exact (level_live _ _ Hsh _ _ _ Hi Hc).
  pose proof (levels_bound _ _ Hsh) as Hb.
  pose proof (lookup_lt_Some _ _ _ Hi) as Hlt.
  pose proof (chain_next _ _ _ _ _ _ Hsh Hi) as Hn.
  unfold fix_key_on_path.
  erewrite bind_run by reflexivity.
  rewrite (bind_run _ _ _ _ _ (load_live _ _ Hlc)).
  change (next (nd t c)) with (nxt t c). change (parent (nd t c)) with (par t c).
  rewrite Hn. destruct l2 as [|c' l2]; simpl.
  - rewrite is_end_endp.
    destruct (fix_to_root_spec Ls old new (length Ls - S i) i t lk l1 c
      (S (base.size (heap t)))) as (t' & Hrun & ?); try done; try lia.
    exists t'. done.
  - assert (c' ∈ l1 ++ c :: c' :: l2) as Hc' by set_solver.
    rewrite (is_end_node _ _ _ _ _ Hsh Hi Hc').
    assert (live t c') as Hlc' by exact (level_live _ _ Hsh _ _ _ Hi Hc').
    rewrite (bind_run _ _ _ _ _ (load_live _ _ Hlc')).
    change (parent (nd t c')) with (par t c').
    destruct (fix_to_common_spec Ls old new (length Ls - S i) i t lk l1 c c' l2
      (S (base.size (heap t)))) as (t1 & pc & r & Hrun & Hlpc & Hr & Hko & Hfr & Hab');
      try done; try lia.
    eexists. split; [|split; [exact Hko|split; [exact Hfr|exact Hab']]].
    rewrite (bind_run _ _ _ _ _ Hrun).
    rewrite (bind_run _ _ _ _ _ (load_live _ _ Hlpc)).
    change (records (nd t1 pc)) with (recs t1 pc).
    by apply overwrite_key_run.
Qed.

(** ** States with the same links *)

Lemma same_links_refl t : same_links t t.
Proof. by split. Qed.

Lemma same_links_trans t1 t2 t3 : same_links t1 t2 → same_links t2 t3 → same_links t1 t3.
Proof. intros [] []. split; intros; etrans; eauto. Qed.

Lemma keys_only_same_links t t' : keys_only t t' → same_links t t'.
Proof. intros []. by split. Qed.

Lemma same_links_set_records t a l :
  live t a → same_links t (wr a (set_records l) t).
Proof.
  intros Hl. split; try done.
  - intros b. by apply live_wr.
  - intros b. unfold nxt. rewrite nd_wr. by case_decide; subst.
  - intros b. unfold prv. rewrite nd_wr. by case_decide; subst.
  - intros b. unfold par. rewrite nd_wr. by case_decide; subst.
  - intros b. unfold leaf. rewrite nd_wr. by case_decide; subst.
Qed.

Lemma chain_from_ext t t' p L e :
  (∀ a, a ∈ L → nxt t' a = nxt t a ∧ prv t' a = prv t a) →
  chain_from t p L e → chain_from t' p L e.
Proof.
  revert p. induction L as [|a L IH]; intros p Hx; simpl; [done|].
  intros (Hp & Hn & Hc). destruct (Hx a) as [-> ->]; [set_solver|].
  split; [done|]. split; [done|]. apply IH; [|done]. intros b Hb. apply Hx. set_solver.
Qed.

Lemma shape_same_links t t' Ls : same_links t t' → shape t Ls → shape t' Ls.
Proof.
  intros Hk [H1 H2 H3 H4 H5 H6 H7 H8 H9 H10 H11 H12 H13]. split; try done.
  - intros j L a ? ?. apply (sl_live _ _ Hk). eauto.
  - by apply (sl_live _ _ Hk).
  - by rewrite (sl_root _ _ Hk).
  - intros r. rewrite (sl_root _ _ Hk), (sl_par _ _ Hk). apply H9.
  - intros j L a ? ?. rewrite (sl_leaf _ _ Hk). eauto.
  - intros j L ?. eapply chain_from_ext; [|eauto]. intros a _.
    by rewrite (sl_nxt _ _ Hk), (sl_prv _ _ Hk).
  - by rewrite (sl_nxt _ _ Hk).
  - by rewrite (sl_prv _ _ Hk).
Qed.

(** ** The records without the one due for removal *)

Lemma erecs_other P i t a : a ≠ P → erecs (Some (P, i)) t a = recs t a.
Proof. intros. unfold erecs. by rewrite decide_False. Qed.

Lemma erecs_hole P i t : erecs (Some (P, i)) t P = base.delete i (recs t P).
Proof. unfold erecs. by rewrite decide_True. Qed.

Lemma erecs_not_in h t (L : list nat) :
  (∀ P i, h = Some (P, i) → P ∉ L) → ∀ a, a ∈ L → erecs h t a = recs t a.
Proof.
  intros Hh a Ha. destruct h as [[P i]|]; [|done]. apply erecs_other.
  intros ->. by eapply Hh.
Qed.

Lemma omap_ext_in {A B} (f g : A → option B) (l : list A) :
  (∀ a, a ∈ l → f a = g a) → omap f l = omap g l.
Proof.
  induction l as [|a l IH]; intros H; [done|].
  change (omap f (a :: l)) with (match f a with Some y => y :: omap f l | None => omap f l end).
  change (omap g (a :: l)) with (match g a with Some y => y :: omap g l | None => omap g l end).
  rewrite (H a), IH by set_solver. done.
Qed.

(** ** What the invariant gives at every level *)

Section Derived.

Context (order : nat) (h : option (nat * nat)) (over : option nat) (rmin : nat).
Context (t : tree) (Ls : list (list nat)) (K : list Z).
Context (Hsh : shape t Ls) (Hct : content order h over rmin t Ls K).

Lemma level_sorted j : ∀ L, Ls !! j = Some L →
  StronglySorted Z.lt (level_keys h t L) ∧ StronglySorted Z.lt (omap (alk t) L).
Proof.
  assert (∀ j L, Ls !! j = Some L → StronglySorted Z.lt (level_keys h t L) →
          StronglySorted Z.lt (omap (alk t) L)) as Hlast.
  { intros j' L Hj Hs. pose proof (ct_hole _ _ _ _ _ _ _ Hct) as Hh.
    destruct h as [[P i]|] eqn:Eh.
    - destruct (decide (P ∈ L)) as [HP|HP].
      + destruct Hh as [(j0 & L0 & Hj0 & HP0 & Hs0) _].
        pose proof (sh_disj _ _ Hsh _ _ _ _ _ Hj Hj0 HP HP0). by simplify_eq.
      + rewrite (omap_ext_in _ (λ a, last_key (erecs (Some (P, i)) t a))).
        * by apply sorted_lasts.
        * intros a Ha. unfold alk. rewrite erecs_other; [done|]. by intros ->.
    - by apply (sorted_lasts (recs t)). }
  induction j as [|j IH]; intros L Hj.
  - assert (StronglySorted Z.lt (level_keys h t L)) as Hs.
    { pose proof (ct_keys _ _ _ _ _ _ _ Hct) as Hk. rewrite Hj in Hk. simpl in Hk.
      rewrite Hk. apply (ct_sorted _ _ _ _ _ _ _ Hct). }
    split; [done|]. by eapply Hlast.
  - destruct (lookup_lt_is_Some_2 Ls j) as [lo Hlo].
    { apply lookup_lt_Some in Hj. lia. }
    destruct (IH _ Hlo) as [_ Hs].
    pose proof (ct_fam _ _ _ _ _ _ _ Hct _ _ _ Hj Hlo) as Hf.
    assert (StronglySorted Z.lt (level_keys h t L)) as Hs'.
    { unfold level_keys. by rewrite (level_keys_eq _ _ _ _ _ Hf). }
    split; [done|]. by eapply Hlast.
Qed.

Lemma node_sorted j L a : Ls !! j = Some L → a ∈ L →
  StronglySorted Z.lt (keys (erecs h t a)).
Proof.
  intros Hj (l1 & l2 & ->)%list_elem_of_split.
  destruct (level_sorted _ _ Hj) as [Hs _]. unfold level_keys in Hs.
  rewrite fmap_app, fmap_cons, concat_app in Hs. simpl in Hs.
  apply StronglySorted_app_1_r in Hs. by apply StronglySorted_app_1_l in Hs.
Qed.

Lemma half_order_pos : (2 ≤ order)%nat → (1 ≤ half_order order)%nat.
Proof.
  intros H. unfold half_order.
  apply (Nat.div_le_lower_bound (order + 1) 2 1); lia.
Qed.

Lemma level_nonempty j L a :
  (2 ≤ order)%nat → (1 ≤ rmin)%nat → Ls !! j = Some L → a ∈ L → recs t a ≠ [].
Proof.
  intros Ho Hr Hj Ha E.
  destruct (ct_fill _ _ _ _ _ _ _ Hct _ _ _ Hj Ha) as [_ Hf].
  rewrite E in Hf. simpl in Hf. pose proof (half_order_pos Ho).
  destruct (decide (m_root t = Some a)); [destruct j|]; lia.
Qed.

Lemma content_nonempty_above j :
  (2 ≤ order)%nat → (1 ≤ rmin)%nat → nonempty_above t Ls j.
Proof. intros Ho Hr a (i & L & _ & Hi & Ha). by eapply level_nonempty. Qed.

Lemma content_above j :
  (∀ P i j0 L0, h = Some (P, i) → Ls !! j0 = Some L0 → P ∈ L0 → (j0 ≤ j)%nat) →
  above t Ls j (alk t).
Proof.
  intros Hh i up lo Hle Hup Hlo.
  assert (fam t None (alk t) up lo) as Hf.
  { eapply fam_ext; [| | |exact (ct_fam _ _ _ _ _ _ _ Hct _ _ _ Hup Hlo)]; [|done..].
    intros a Ha. erecs_none. symmetry. apply (erecs_not_in h t up); [|done].
    intros P i0 -> HP. specialize (Hh P i0 (S i) up eq_refl Hup HP). lia. }
  by case_decide.
Qed.

End Derived.

(** ** Members of a node after a write *)

Lemma recs_wr_records a l t b :
  recs (wr a (set_records l) t) b = if decide (a = b) then l else recs t b.
Proof. unfold recs. rewrite nd_wr. by case_decide; subst. Qed.

Lemma recs_wr_next a p t b : recs (wr a (set_next p) t) b = recs t b.
Proof. unfold recs. rewrite nd_wr. by case_decide; subst. Qed.

Lemma recs_wr_pre a p t b : recs (wr a (set_pre p) t) b = recs t b.
Proof. unfold recs. rewrite nd_wr. by case_decide; subst. Qed.

Lemma recs_wr_parent a p t b : recs (wr a (set_parent p) t) b = recs t b.
Proof. unfold recs. rewrite nd_wr. by case_decide; subst. Qed.

Lemma recs_wr_is_leaf a b0 t b : recs (wr a (set_is_leaf b0) t) b = recs t b.
Proof. unfold recs. rewrite nd_wr. by case_decide; subst. Qed.

Lemma nxt_wr_records a l t b : nxt (wr a (set_records l) t) b = nxt t b.
Proof. unfold nxt. rewrite nd_wr. by case_decide; subst. Qed.

Lemma nxt_wr_next a p t b :
  nxt (wr a (set_next p) t) b = if decide (a = b) then p else nxt t b.
Proof. unfold nxt. rewrite nd_wr. by case_decide; subst. Qed.

Lemma nxt_wr_pre a p t b : nxt (wr a (set_pre p) t) b = nxt t b.
Proof. unfold nxt. rewrite nd_wr. by case_decide; subst. Qed.

Lemma nxt_wr_parent a p t b : nxt (wr a (set_parent p) t) b = nxt t b.
Proof. unfold nxt. rewrite nd_wr. by case_decide; subst. Qed.

Lemma nxt_wr_is_leaf a b0 t b : nxt (wr a (set_is_leaf b0) t) b = nxt t b.
Proof. unfold nxt. rewrite nd_wr. by case_decide; subst. Qed.

Lemma prv_wr_records a l t b : prv (wr a (set_records l) t) b = prv t b.
Proof. unfold prv. rewrite nd_wr. by case_decide; subst. Qed.

Lemma prv_wr_next a p t b : prv (wr a (set_next p) t) b = prv t b.
Proof. unfold prv. rewrite nd_wr. by case_decide; subst. Qed.

Lemma prv_wr_pre a p t b :
  prv (wr a (set_pre p) t) b = if decide (a = b) then p else prv t b.
Proof. unfold prv. rewrite nd_wr. by case_decide; subst. Qed.

Lemma prv_wr_parent a p t b : prv (wr a (set_parent p) t) b = prv t b.
Proof. unfold prv. rewrite nd_wr. by case_decide; subst. Qed.

Lemma prv_wr_is_leaf a b0 t b : prv (wr a (set_is_leaf b0) t) b = prv t b.
Proof. unfold prv. rewrite nd_wr. by case_decide; subst. Qed.

Lemma par_wr_records a l t b : par (wr a (set_records l) t) b = par t b.
Proof. unfold par. rewrite nd_wr. by case_decide; subst. Qed.

Lemma par_wr_next a p t b : par (wr a (set_next p) t) b = par t b.
Proof. unfold par. rewrite nd_wr. by case_decide; subst. Qed.

Lemma par_wr_pre a p t b : par (wr a (set_pre p) t) b = par t b.
Proof. unfold par. rewrite nd_wr. by case_decide; subst. Qed.

Lemma par_wr_parent a p t b :
  par (wr a (set_parent p) t) b = if decide (a = b) then p else par t b.
Proof. unfold par. rewrite nd_wr. by case_decide; subst. Qed.

Lemma par_wr_is_leaf a b0 t b : par (wr a (set_is_leaf b0) t) b = par t b.
Proof. unfold par. rewrite nd_wr. by case_decide; subst. Qed.

Lemma leaf_wr_records a l t b : leaf (wr a (set_records l) t) b = leaf t b.
Proof. unfold leaf. rewrite nd_wr. by case_decide; subst. Qed.

Lemma leaf_wr_next a p t b : leaf (wr a (set_next p) t) b = leaf t b.
Proof. unfold leaf. rewrite nd_wr. by case_decide; subst. Qed.

Lemma leaf_wr_pre a p t b : leaf (wr a (set_pre p) t) b = leaf t b.
Proof. unfold leaf. rewrite nd_wr. by case_decide; subst. Qed.

Lemma leaf_wr_parent a p t b : leaf (wr a (set_parent p) t) b = leaf t b.
Proof. unfold leaf. rewrite nd_wr. by case_decide; subst. Qed.

Lemma leaf_wr_is_leaf a b0 t b :
  leaf (wr a (set_is_leaf b0) t) b = if decide (a = b) then b0 else leaf t b.
Proof. unfold leaf. rewrite nd_wr. by case_decide; subst. Qed.

Lemma recs_adopted c p t b : recs (adopted c p t) b = recs t b.
Proof. destruct c as [a|]; simpl; [|done]. apply recs_wr_parent. Qed.

Lemma nxt_adopted c p t b : nxt (adopted c p t) b = nxt t b.
Proof. destruct c as [a|]; simpl; [|done]. apply nxt_wr_parent. Qed.

Lemma prv_adopted c p t b : prv (adopted c p t) b = prv t b.
Proof. destruct c as [a|]; simpl; [|done]. apply prv_wr_parent. Qed.

Lemma par_adopted c p t b :
  par (adopted c p t) b = if decide (c = Some b) then p else par t b.
Proof.
  destruct c as [a|]; simpl; [|done]. rewrite par_wr_parent.
  repeat case_decide; congruence.
Qed.

Lemma leaf_adopted c p t b : leaf (adopted c p t) b = leaf t b.
Proof. destruct c as [a|]; simpl; [|done]. apply leaf_wr_parent. Qed.

Lemma recs_free a t b : a ≠ b → recs (free a t) b = recs t b.
Proof. intros. unfold recs. by rewrite nd_free. Qed.

Lemma nxt_free a t b : a ≠ b → nxt (free a t) b = nxt t b.
Proof. intros. unfold nxt. by rewrite nd_free. Qed.

Lemma prv_free a t b : a ≠ b → prv (free a t) b = prv t b.
Proof. intros. unfold prv. by rewrite nd_free. Qed.

Lemma par_free a t b : a ≠ b → par (free a t) b = par t b.
Proof. intros. unfold par. by rewrite nd_free. Qed.

Lemma leaf_free a t b : a ≠ b → leaf (free a t) b = leaf t b.
Proof. intros. unfold leaf. by rewrite nd_free. Qed.

Lemma live_adopted c p t b : live t b → live (adopted c p t) b.
Proof. destruct c as [a|]; simpl; [|done]. apply live_wr_2. Qed.

Lemma live_free_2 a t b : a ≠ b → live t b → live (free a t) b.
Proof. intros. by apply live_free. Qed.

Lemma root_wr a f t : m_root (wr a f t) = m_root t.
Proof. done. Qed.

Lemma size_wr a f t : m_size (wr a f t) = m_size t.
Proof. done. Qed.

Lemma root_adopted c p t : m_root (adopted c p t) = m_root t.
Proof. by destruct c. Qed.

Lemma size_adopted c p t : m_size (adopted c p t) = m_size t.
Proof. by destruct c. Qed.

Lemma root_free a t : m_root (free a t) = m_root t.
Proof. done. Qed.

Lemma size_free a t : m_size (free a t) = m_size t.
Proof. done. Qed.

Create HintDb st discriminated.
#[global] Hint Rewrite recs_wr_records recs_wr_next recs_wr_pre recs_wr_parent recs_wr_is_leaf nxt_wr_records nxt_wr_next nxt_wr_pre nxt_wr_parent nxt_wr_is_leaf prv_wr_records prv_wr_next prv_wr_pre prv_wr_parent prv_wr_is_leaf par_wr_records par_wr_next par_wr_pre par_wr_parent par_wr_is_leaf leaf_wr_records leaf_wr_next leaf_wr_pre leaf_wr_parent leaf_wr_is_leaf recs_adopted nxt_adopted prv_adopted par_adopted leaf_adopted
  root_wr size_wr root_adopted size_adopted root_free size_free : st.

Create HintDb live discriminated.
#[global] Hint Resolve live_wr_2 live_adopted : live.

(** ** Rebuilding the invariant after a change at one level *)

Lemma shape_ext t t' Ls :
  shape t Ls → m_root t' = m_root t →
  (∀ j L a, Ls !! j = Some L → a ∈ L →
     live t' a ∧ nxt t' a = nxt t a ∧ prv t' a = prv t a ∧ leaf t' a = leaf t a) →
  live t' header → nxt t' header = nxt t header → prv t' header = prv t header →
  (∀ r, m_root t = Some r → par t' r = par t r) →
  shape t' Ls.
Proof.
  intros [H1 H2 H3 H4 H5 H6 H7 H8 H9 H10 H11 H12 H13] Hr Hn Hh Hhn Hhp Hp.
  split; try done.
  - intros j L a Hj Ha. by apply (Hn j L a).
  - congruence.
  - intros r Hr'. rewrite Hr in Hr'. rewrite Hp by done. by apply H9.
  - intros j L a Hj Ha. destruct (Hn j L a Hj Ha) as (_ & _ & _ & ->). eauto.
  - intros j L Hj. eapply chain_from_ext; [|eauto]. intros a Ha.
    destruct (Hn j L a Hj Ha) as (_ & -> & -> & _). done.
  - congruence.
  - congruence.
Qed.

Lemma last_insert_ne {A} (Ls : list A) j x :
  (S j < length Ls)%nat → last (<[j := x]> Ls) = last Ls.
Proof.
  intros H. rewrite !last_lookup, length_insert.
  apply list_lookup_insert_ne. lia.
Qed.

Lemma shape_remove t t' Ls j l1 X l2 :
  shape t Ls → Ls !! j = Some (l1 ++ X :: l2) → l1 ++ l2 ≠ [] →
  m_root t' = m_root t →
  (∀ j0 L a, Ls !! j0 = Some L → a ∈ L → a ≠ X → live t' a ∧ leaf t' a = leaf t a) →
  live t' header →
  (∀ j0 L a, j0 ≠ j → Ls !! j0 = Some L → a ∈ L →
     nxt t' a = nxt t a ∧ prv t' a = prv t a) →
  chain_from t' (endp j) (l1 ++ l2) (endp j) →
  nxt t' header = from_option Some (Some header) (<[j := l1 ++ l2]> Ls !! 0%nat ≫= head) →
  prv t' header = from_option Some (Some header) (<[j := l1 ++ l2]> Ls !! 0%nat ≫= last) →
  (∀ r, m_root t = Some r → par t' r = par t r) →
  shape t' (<[j := l1 ++ l2]> Ls).
Proof.
  intros Hsh Hj Hne Hr Hl Hh Hn Hc Hhn Hhp Hp.
  pose proof (lookup_lt_Some _ _ _ Hj) as Hlt.
  assert (S j < length Ls)%nat as Hnt.
  { destruct (decide (S j = length Ls)) as [E|]; [|lia].
    destruct (top_level _ _ Hsh _ _ Hj (eq_sym E)) as (r & Hr' & _).
    apply (f_equal length) in Hr'. rewrite length_app in Hr'. simpl in Hr'.
    destruct l1, l2; simpl in *; (done || lia). }
  assert (NoDup (l1 ++ X :: l2)) as Hnd by (by eapply sh_nodup).
  assert (X ∉ l1 ++ l2) as HX.
  { apply NoDup_app in Hnd as (_ & Hd & [? _]%NoDup_cons). set_solver. }
  assert (∀ j0 L, <[j := l1 ++ l2]> Ls !! j0 = Some L →
          ∃ L0, Ls !! j0 = Some L0 ∧ (∀ a, a ∈ L → a ∈ L0 ∧ a ≠ X) ∧
                (j0 ≠ j → L = L0) ∧ (j0 = j → L = l1 ++ l2)) as Hlk.
  { intros j0 L HL. destruct (decide (j0 = j)) as [->|Hjj].
    - rewrite list_lookup_insert_eq in HL by done. injection HL as <-.
      exists (l1 ++ X :: l2). split; [done|]. split; [|done].
      intros a Ha. split; [set_solver|]. by intros ->.
    - rewrite list_lookup_insert_ne in HL by done. exists L. split; [done|].
      split; [|done]. intros a Ha. split; [done|]. intros ->.
      apply Hjj. eapply (sh_disj _ _ Hsh); eauto. set_solver. }
  split.
  - intros j0 L (L0 & HL0 & Hsub & He1 & He)%Hlk. destruct (decide (j0 = j)) as [->|Hjj].
    + rewrite He by done. apply NoDup_app in Hnd as (? & ? & [? ?]%NoDup_cons).
      apply NoDup_app. set_solver.
    + rewrite He1 by done. by eapply sh_nodup.
  - intros i i' L L' a (L0 & HL0 & Hsub & _)%Hlk (L0' & HL0' & Hsub' & _)%Hlk Ha Ha'.
    eapply (sh_disj _ _ Hsh); eauto; [by apply Hsub|by apply Hsub'].
  - intros j0 L a (L0 & HL0 & Hsub & _)%Hlk Ha. destruct (Hsub a Ha).
    by apply (Hl j0 L0 a).
  - done.
  - intros j0 L (L0 & HL0 & Hsub & _)%Hlk Ha. destruct (Hsub _ Ha).
    by eapply (sh_not_header _ _ Hsh).
  - intros j0 L HL. destruct (Hlk _ _ HL) as (L0 & HL0 & _ & E1 & E2).
    destruct (decide (j0 = j)) as [->|Hjj]; [by rewrite E2|].
    rewrite E1 by done. by eapply sh_nonempty.
  - rewrite Hr, last_insert_ne by done. apply (sh_root _ _ Hsh).
  - intros L. rewrite last_insert_ne by done. apply (sh_top _ _ Hsh).
  - intros r Hr'. rewrite Hr in Hr'. rewrite Hp by done. by apply (sh_root_par _ _ Hsh).
  - intros j0 L a HL Ha. destruct (Hlk _ _ HL) as (L0 & HL0 & Hsub & _).
    destruct (Hsub a Ha) as [Ha0 HaX].
    destruct (Hl j0 L0 a HL0 Ha0 HaX) as [_ ->]. by eapply (sh_leaf _ _ Hsh).
  - intros j0 L HL. destruct (Hlk _ _ HL) as (L0 & HL0 & _ & E1 & E2).
    destruct (decide (j0 = j)) as [->|Hjj]; [by rewrite E2|].
    rewrite E1 by done. eapply chain_from_ext; [|by eapply (sh_chain _ _ Hsh)].
    intros a Ha. by apply (Hn j0 L0).
  - done.
  - done.
Qed.

Lemma content_rebuild order h h' rmin' t t' Ls K j L' :
  shape t Ls → content order h None 2 t Ls K → (j < length Ls)%nat →
  (∀ P i j0 L0, h = Some (P, i) → Ls !! j0 = Some L0 → P ∈ L0 → (j ≤ j0)%nat) →
  (∀ P i j0 L0, h' = Some (P, i) → <[j:=L']> Ls !! j0 = Some L0 → P ∈ L0 → (j ≤ j0)%nat) →
  (∀ j0 L0 a, (j0 < j)%nat → Ls !! j0 = Some L0 → a ∈ L0 →
      recs t' a = recs t a ∧ ((S j0 < j)%nat → par t' a = par t a)) →
  m_size t' = m_size t →
  (∀ i' up lo, (j ≤ S i')%nat →
      <[j:=L']> Ls !! S i' = Some up → <[j:=L']> Ls !! i' = Some lo →
      fam t' h' (alk t') up lo) →
  (j = 0%nat → (∀ a r, a ∈ L' → r ∈ recs t' a → r.2 = None) ∧ level_keys h' t' L' = K) →
  fill_ok order None rmin' t' (<[j:=L']> Ls) →
  ((∀ i' up lo, <[j:=L']> Ls !! S i' = Some up → <[j:=L']> Ls !! i' = Some lo →
      fam t' h' (alk t') up lo) →
   level_keys h' t' (default [] (<[j:=L']> Ls !! 0%nat)) = K →
   hole_ok h' t' (<[j:=L']> Ls)) →
  content order h' None rmin' t' (<[j:=L']> Ls) K.
Proof.
  intros Hsh Hct Hlt Hh Hh' Hfr Hsz Hfam Hleaf Hfill Hhole.
  assert (∀ j0 L0 a, (j0 < j)%nat → Ls !! j0 = Some L0 → a ∈ L0 →
          erecs h' t' a = erecs h t a) as Her.
  { intros j0 L0 a Hj0 HL0 Ha.
    rewrite (erecs_not_in h' t' L0), (erecs_not_in h t L0); try done.
    - by apply (Hfr j0 L0 a).
    - intros P i -> HP. specialize (Hh P i j0 L0 eq_refl HL0 HP). lia.
    - intros P i -> HP.
      assert (<[j:=L']> Ls !! j0 = Some L0) as HL0' by (rewrite list_lookup_insert_ne by lia; done).
      specialize (Hh' P i j0 L0 eq_refl HL0' HP). lia. }
  assert (∀ i' up lo, <[j:=L']> Ls !! S i' = Some up → <[j:=L']> Ls !! i' = Some lo →
          fam t' h' (alk t') up lo) as Hall.
  { intros i' up lo Hup Hlo. destruct (decide (j ≤ S i')%nat) as [Hle|Hgt]; [by eapply Hfam|].
    rewrite list_lookup_insert_ne in Hup, Hlo by lia.
    eapply fam_ext; [| | |exact (ct_fam _ _ _ _ _ _ _ Hct _ _ _ Hup Hlo)].
    + intros a Ha. apply (Her (S i') up); [lia|done..].
    + intros c Hc. apply (Hfr i' lo c); [lia|done..|lia].
    + intros c Hc. unfold alk. destruct (Hfr i' lo c) as [-> _]; [lia|done..]. }
  assert (level_keys h' t' (default [] (<[j:=L']> Ls !! 0%nat)) = K) as Hkeys.
  { destruct (decide (j = 0%nat)) as [->|Hj0].
    + rewrite list_lookup_insert_eq by done. simpl. by apply Hleaf.
    + rewrite list_lookup_insert_ne by done.
      rewrite <- (ct_keys _ _ _ _ _ _ _ Hct). unfold level_keys. f_equal.
      destruct (Ls !! 0%nat) as [L0|] eqn:E0; [|done]. simpl.
      apply list_fmap_ext. intros ? a Ha%list_elem_of_lookup_2. simpl.
      f_equal. apply (Her 0%nat L0); [lia|done..]. }
  split; try done; [| | |by apply Hhole].
  - intros L a r HL Ha Hr. destruct (decide (j = 0%nat)) as [->|Hj0].
    + rewrite list_lookup_insert_eq in HL by done. injection HL as <-.
      by apply (proj1 (Hleaf eq_refl) a r).
    + rewrite list_lookup_insert_ne in HL by done.
      destruct (Hfr 0%nat L a) as [E _]; [lia|done..|]. rewrite E in Hr.
      by apply (ct_leaves _ _ _ _ _ _ _ Hct L a r).
  - apply (ct_sorted _ _ _ _ _ _ _ Hct).
  - rewrite Hsz. apply (ct_size _ _ _ _ _ _ _ Hct).
Qed.

(** ** Entering [erase_helper] *)

Section Holed.

Context (order : nat) (t : tree) (Ls : list (list nat)) (K : list Z).
Context (j P i : nat) (Hh : holed order t Ls K j P i).

Lemma holed_shape : shape t Ls.
Proof. apply Hh. Qed.

Lemma holed_content : content order (Some (P, i)) None 2 t Ls K.
Proof. apply Hh. Qed.

Lemma holed_order : (2 ≤ order)%nat.
Proof. apply Hh. Qed.

Lemma holed_level : ∃ l1 l2, Ls !! j = Some (l1 ++ P :: l2).
Proof.
  destruct Hh as (_ & _ & (L & HL & (l1 & l2 & ->)%list_elem_of_split) & _). eauto.
Qed.

Lemma holed_record : ∃ ki, recs t P !! i = Some (ki, None).
Proof. destruct Hh as (_ & Hct & _). apply (ct_hole _ _ _ _ _ _ _ Hct). Qed.

Lemma holed_live : live t P.
Proof.
  destruct holed_level as (l1 & l2 & Hj).
  apply (sh_live _ _ holed_shape _ _ _ Hj). set_solver.
Qed.

Lemma holed_at j0 L0 : Ls !! j0 = Some L0 → P ∈ L0 → j0 = j.
Proof.
  intros HL0 HP. destruct holed_level as (l1 & l2 & Hj).
  eapply (sh_disj _ _ holed_shape); eauto. set_solver.
Qed.

Lemma holed_above : above t Ls j (alk t).
Proof.
  eapply content_above; [apply holed_content|].
  intros P0 i0 j0 L0 [= <- <-] HL0 HP. by rewrite (holed_at _ _ HL0 HP).
Qed.

Lemma holed_nonempty_above : nonempty_above t Ls j.
Proof.
  eapply content_nonempty_above; [apply holed_content|apply holed_order|lia].
Qed.

Lemma followable_neighbour L (q : option nat) j0 :
  Ls !! j0 = Some L → (∀ x, q = Some x → x ∈ L) → followable t (from_option Some (endp j0) q).
Proof.
  intros HL Hq. destruct q as [x|]; simpl.
  - right. unfold node_at. simpl.
    apply (sh_live _ _ holed_shape _ _ _ HL). by apply Hq.
  - left. apply is_end_endp.
Qed.

Lemma holed_followable :
  followable t (pre (nd t P)) ∧ followable t (next (nd t P)).
Proof.
  destruct holed_level as (l1 & l2 & Hj).
  change (pre (nd t P)) with (prv t P). change (next (nd t P)) with (nxt t P).
  rewrite (chain_prev _ _ _ _ _ _ holed_shape Hj), (chain_next _ _ _ _ _ _ holed_shape Hj).
  split; (eapply followable_neighbour; [exact Hj|]).
  - intros x Hx%last_Some_elem_of. set_solver.
  - intros x Hx%head_Some_elem_of. set_solver.
Qed.

Lemma erase_strategy_holed :
  erase_strategy order (Some P) i t =
    Some (if decide (m_root t = Some P) then ROOT else classify order t (nd t P), t).
Proof.
  case_decide as E.
  - unfold erase_strategy, erase_strategy_eq_2, erase_strategy_gt_2.
    destruct (bool_decide (order = 2%nat));
      (erewrite bind_run by reflexivity); unfold ptr_eqb;
      by rewrite bool_decide_eq_true_2.
  - destruct holed_followable. apply erase_strategy_run; try done.
    apply live_lookup, holed_live.
Qed.

Lemma erase_helper_prefix s :
  (if decide (m_root t = Some P) then ROOT else classify order t (nd t P)) = s →
  ∃ ki, recs t P !! i = Some (ki, None) ∧
  erase_strategy order (Some P) i t = Some (s, t) ∧
  record_at (Some P) i t = Some ((ki, None), t) ∧
  load (Some P) t = Some (nd t P, t).
Proof.
  intros <-. destruct holed_record as (ki & Hki). exists ki.
  split; [done|]. split; [apply erase_strategy_holed|].
  split; [by apply record_at_run, Hki; apply holed_live|apply load_live, holed_live].
Qed.

End Holed.

(** ** The arm for the root *)

Lemma root_level t Ls j L P :
  shape t Ls → Ls !! j = Some L → P ∈ L → m_root t = Some P →
  L = [P] ∧ length Ls = S j.
Proof.
  intros Hsh Hj HP Hr. rewrite (sh_root _ _ Hsh) in Hr.
  destruct (last Ls) as [Lt|] eqn:El; [|done]. simpl in Hr.
  pose proof (sh_top _ _ Hsh _ El) as Hlen.
  destruct Lt as [|r [|? ?]]; try done. simpl in Hr. injection Hr as ->.
  rewrite last_lookup in El.
  assert (Nat.pred (length Ls) = j) as Ej.
  { eapply (sh_disj _ _ Hsh); eauto. set_solver. }
  pose proof (lookup_lt_Some _ _ _ Hj). split; [|lia]. rewrite Ej in El. congruence.
Qed.

Lemma length_kids_eq (l l' : list (Z * option nat)) : kids l = kids l' → length l = length l'.
Proof. unfold kids. intros H. apply (f_equal length) in H. by rewrite !length_fmap in H. Qed.

Section ArmRoot.

Context (order : nat) (t : tree) (Ls : list (list nat)) (K : list Z).
Context (j P i : nat) (Hh : holed order t Ls K j P i).

Lemma arm_root : m_root t = Some P →
  ∃ t', erase_helper order (Some P) i t = Some ((false, (Some P, i)), t') ∧
        shape t' Ls ∧ content order None None 1 t' Ls K.
Proof.
  intros Hr.
  pose proof (holed_shape _ _ _ _ _ _ _ Hh) as Hsh.
  pose proof (holed_content _ _ _ _ _ _ _ Hh) as Hct.
  pose proof (holed_live _ _ _ _ _ _ _ Hh) as HlP.
  destruct (erase_helper_prefix _ _ _ _ _ _ _ Hh ROOT) as (ki & Hki & Hs & Hd & Hl).
  { by rewrite decide_True. }
  destruct (holed_level _ _ _ _ _ _ _ Hh) as (l1 & l2 & Hj).
  destruct (root_level _ _ _ _ P Hsh Hj) as [HL Htop]; [set_solver|done|].
  rewrite HL in Hj. clear HL l1 l2.
  set (t' := wr P (set_records (base.delete i (recs t P))) t).
  assert (same_links t t') as Hsl by (by apply same_links_set_records).
  assert (∀ a, a ≠ P → recs t' a = recs t a) as Hfr.
  { intros a Ha. unfold t'. rewrite recs_wr_records. by rewrite decide_False. }
  assert (recs t' P = base.delete i (recs t P)) as HP'.
  { unfold t'. rewrite recs_wr_records. by rewrite decide_True. }
  assert (∀ a, erecs None t' a = erecs (Some (P, i)) t a) as Her.
  { intros a. change (erecs None t' a) with (recs t' a).
    destruct (decide (a = P)) as [->|Ha].
    - by rewrite erecs_hole.
    - rewrite erecs_other by done. by apply Hfr. }
  exists t'. split; [|split].
  - unfold erase_helper.
    rewrite (bind_run _ _ _ _ _ Hs), (bind_run _ _ _ _ _ Hd), (bind_run _ _ _ _ _ Hl).
    rewrite (bind_run _ _ _ _ _ (erase_record_run _ _ _ HlP (lookup_lt_Some _ _ _ Hki))).
    done.
  - by eapply shape_same_links.
  - rewrite <- (list_insert_id Ls j [P]) by done.
    eapply (content_rebuild order (Some (P, i)) None 1 t t' Ls K j [P]); try done.
    + apply lookup_lt_Some in Hj. done.
    + intros P0 i0 j0 L0 [= <- <-] HL0 HP0.
      by rewrite (holed_at _ _ _ _ _ _ _ Hh _ _ HL0 HP0).
    + intros j0 L0 a Hj0 HL0 Ha. split; [|intros; apply (sl_par _ _ Hsl)].
      apply Hfr. intros ->. pose proof (holed_at _ _ _ _ _ _ _ Hh _ _ HL0 Ha). lia.
    + intros i' up lo Hle Hup Hlo. rewrite list_insert_id in Hup, Hlo by done.
      eapply fam_ext; [| | |exact (ct_fam _ _ _ _ _ _ _ Hct _ _ _ Hup Hlo)].
      * intros a _. apply Her.
      * intros c _. apply (sl_par _ _ Hsl).
      * intros c Hc. unfold alk. rewrite Hfr; [done|]. intros ->.
        pose proof (holed_at _ _ _ _ _ _ _ Hh _ _ Hlo Hc).
        apply lookup_lt_Some in Hup. lia.
    + intros ->. split.
      * intros a r ->%list_elem_of_singleton Hr'. rewrite HP' in Hr'.
        apply list_elem_of_delete_inv in Hr'.
        eapply (ct_leaves _ _ _ _ _ _ _ Hct); eauto. set_solver.
      * pose proof (ct_keys _ _ _ _ _ _ _ Hct) as Hk. rewrite Hj in Hk. simpl in Hk.
        rewrite <- Hk. unfold level_keys. simpl. erecs_none. by rewrite erecs_hole, HP'.
    + intros j0 L0 a HL0 Ha. rewrite list_insert_id in HL0 by done.
      destruct (ct_fill _ _ _ _ _ _ _ Hct _ _ _ HL0 Ha) as [Hup Hlo].
      rewrite (sl_root _ _ Hsl). rewrite decide_False in Hup |- * by done.
      destruct (decide (a = P)) as [->|Ha'].
      * rewrite HP', length_delete by (by eexists). rewrite decide_True in Hlo |- * by done.
        pose proof (holed_at _ _ _ _ _ _ _ Hh _ _ HL0 Ha) as ->.
        split; [lia|]. destruct j as [|j']; [|lia].
        pose proof (ct_keys _ _ _ _ _ _ _ Hct) as Hk. rewrite Hj in Hk. simpl in Hk.
        unfold level_keys in Hk. simpl in Hk. rewrite erecs_hole, app_nil_r in Hk.
        destruct Hh as (_ & _ & _ & _ & HK).
        destruct (base.delete i (recs t P)) eqn:E; [by rewrite <- Hk in HK|].
        apply (f_equal length) in E. rewrite length_delete in E by (by eexists).
        simpl in E. lia.
      * rewrite Hfr by done. split; [done|].
        destruct (decide (m_root t = Some a)); [congruence|done].
Qed.

End ArmRoot.

(** ** Direct removal *)

Lemma last_delete_lt {A} (l : list A) i : (S i < length l)%nat → last (base.delete i l) = last l.
Proof.
  intros H. rewrite !last_lookup, length_delete by (apply lookup_lt_is_Some_2; lia).
  rewrite list_lookup_delete_ge by lia. f_equal. lia.
Qed.

Lemma last_lookup_pred {A} (l : list A) i x :
  l !! i = Some x → i = Nat.pred (length l) → last l = Some x.
Proof. intros H ->. by rewrite last_lookup. Qed.

Lemma when_fix t Ls j lk l1 P l2 ki (need : bool) :
  shape t Ls → above t Ls j lk → nonempty_above t Ls j →
  Ls !! j = Some (l1 ++ P :: l2) →
  StronglySorted Z.lt (omap lk (l1 ++ P :: l2)) →
  recs t P ≠ [] →
  lk P = (if need then Some ki else alk t P) →
  ∃ t', when need (r <- last_record (Some P) ;; fix_key_on_path (Some P) ki r.1) t
          = Some (tt, t') ∧
        keys_only t t' ∧ (∀ a, ¬ upper Ls j a → recs t' a = recs t a) ∧
        above t' Ls j (λ x, if decide (x = P) then alk t P else lk x).
Proof.
  intros Hsh Hab Hne Hj Hs HP Hlk. destruct need; simpl.
  - destruct (last (recs t P)) as [r|] eqn:Er; [|by apply last_None in Er].
    assert (live t P) as HlP by (apply (sh_live _ _ Hsh _ _ _ Hj); set_solver).
    rewrite (bind_run _ _ _ _ _ (last_record_run _ _ _ HlP Er)).
    destruct (fix_key_on_path_spec t Ls j lk l1 P l2 ki r.1) as (t' & Hrun & Hko & Hfr & Hab');
      try done.
    exists t'. split; [done|]. split; [done|]. split; [done|].
    eapply above_ext; [|exact Hab']. intros L a _ _. unfold upd, alk, last_key.
    rewrite Er. done.
  - exists t. split; [done|]. split; [apply keys_only_refl|]. split; [done|].
    eapply above_ext; [|exact Hab]. intros L a _ _. simpl. case_decide; by subst.
Qed.

Lemma classify_remove_inv order t n :
  classify order t n = REMOVE_DIRECTLY → (half_order order < length (records n))%nat.
Proof.
  unfold classify.
  repeat match goal with
         | |- context [if ?b then _ else _] => destruct b eqn:?
         end; try done; intros _;
  match goal with H : bool_decide _ = true |- _ => by apply bool_decide_eq_true in H end.
Qed.

Section ArmRemove.

Context (order : nat) (t : tree) (Ls : list (list nat)) (K : list Z).
Context (j P i : nat) (Hh : holed order t Ls K j P i).

(** The invariant after the record has gone, when the nodes of the level
    and below keep their other records. *)
Lemma content_erase_done t2 rmin' :
  same_links t t2 →
  (∀ a, ¬ upper Ls j a → recs t2 a = erecs (Some (P, i)) t a) →
  above t2 Ls j (alk t2) →
  fill_ok order None rmin' t2 Ls →
  content order None None rmin' t2 Ls K.
Proof.
  intros Hsl Her Hab Hfill.
  pose proof (holed_shape _ _ _ _ _ _ _ Hh) as Hsh.
  pose proof (holed_content _ _ _ _ _ _ _ Hh) as Hct.
  destruct (holed_level _ _ _ _ _ _ _ Hh) as (l1 & l2 & Hj).
  assert (∀ j0 L0 a, (j0 < j)%nat → Ls !! j0 = Some L0 → a ∈ L0 → recs t2 a = recs t a) as Hlow.
  { intros j0 L0 a Hlt HL0 Ha. rewrite Her.
    - apply erecs_other. intros ->.
      pose proof (holed_at _ _ _ _ _ _ _ Hh _ _ HL0 Ha). lia.
    - intros (i' & L' & Hlt' & HL' & Ha').
      pose proof (sh_disj _ _ Hsh _ _ _ _ _ HL0 HL' Ha Ha'). lia. }
  rewrite <- (list_insert_id Ls j (l1 ++ P :: l2)) by done.
  eapply (content_rebuild order (Some (P, i)) None rmin' t t2 Ls K j); try done.
  - by apply lookup_lt_Some in Hj.
  - intros P0 i0 j0 L0 [= <- <-] HL0 HP0.
    by rewrite (holed_at _ _ _ _ _ _ _ Hh _ _ HL0 HP0).
  - intros j0 L0 a Hj0 HL0 Ha. split; [by eapply Hlow|intros; apply (sl_par _ _ Hsl)].
  - apply (sl_size _ _ Hsl).
  - intros i' up lo Hle Hup Hlo. rewrite list_insert_id in Hup, Hlo by done.
    destruct (decide (j ≤ i')%nat) as [Hge|Hlt].
    + specialize (Hab i' up lo Hge Hup Hlo). by case_decide.
    + assert (S i' = j) as <- by lia.
      eapply fam_ext; [| | |exact (ct_fam _ _ _ _ _ _ _ Hct _ _ _ Hup Hlo)].
      * intros a Ha. erecs_none. apply Her. by eapply not_upper_level.
      * intros c _. apply (sl_par _ _ Hsl).
      * intros c Hc. unfold alk. by rewrite (Hlow i' lo c).
  - intros E. assert (Ls !! 0%nat = Some (l1 ++ P :: l2)) as H0 by (by rewrite <- E).
    split.
    + intros a r Ha Hr'. rewrite Her in Hr' by (by eapply not_upper_level).
      eapply (ct_leaves _ _ _ _ _ _ _ Hct); [exact H0|exact Ha|].
      destruct (decide (a = P)) as [->|Hne].
      * rewrite erecs_hole in Hr'. by apply list_elem_of_delete_inv in Hr'.
      * by rewrite erecs_other in Hr'.
    + pose proof (ct_keys _ _ _ _ _ _ _ Hct) as Hk. rewrite H0 in Hk. simpl in Hk.
      rewrite <- Hk. unfold level_keys. f_equal. apply list_fmap_ext.
      intros ? a Ha%list_elem_of_lookup_2. simpl. erecs_none. f_equal.
      apply Her. by eapply not_upper_level.
  - by rewrite list_insert_id.
Qed.

Lemma arm_remove :
  m_root t ≠ Some P → classify order t (nd t P) = REMOVE_DIRECTLY →
  ∃ t', erase_helper order (Some P) i t = Some ((false, (Some P, i)), t') ∧
        shape t' Ls ∧ content order None None 2 t' Ls K.
Proof.
  intros Hr Hcl.
  pose proof (holed_shape _ _ _ _ _ _ _ Hh) as Hsh.
  pose proof (holed_content _ _ _ _ _ _ _ Hh) as Hct.
  pose proof (holed_live _ _ _ _ _ _ _ Hh) as HlP.
  destruct (erase_helper_prefix _ _ _ _ _ _ _ Hh REMOVE_DIRECTLY) as (ki & Hki & Hs & Hd & Hl).
  { by rewrite decide_False. }
  destruct (holed_level _ _ _ _ _ _ _ Hh) as (l1 & l2 & Hj).
  apply classify_remove_inv in Hcl. fold (recs t P) in Hcl.
  pose proof (half_order_pos order (holed_order _ _ _ _ _ _ _ Hh)) as Hho.
  pose proof (lookup_lt_Some _ _ _ Hki) as Hi.
  set (t1 := wr P (set_records (base.delete i (recs t P))) t).
  assert (same_links t t1) as Hsl by (by apply same_links_set_records).
  assert (∀ a, a ≠ P → recs t1 a = recs t a) as Hfr.
  { intros a Ha. unfold t1. rewrite recs_wr_records. by rewrite decide_False. }
  assert (recs t1 P = base.delete i (recs t P)) as HP1.
  { unfold t1. rewrite recs_wr_records. by rewrite decide_True. }
  assert (P ∈ l1 ++ P :: l2) as HPin by set_solver.
  assert (∀ a, upper Ls j a → a ≠ P) as Hup.
  { intros a Ha ->. by eapply (not_upper_level _ _ Hsh). }
  assert (shape t1 Ls) as Hsh1 by (by eapply shape_same_links).
  destruct (when_fix t1 Ls j (alk t) l1 P l2 ki (bool_decide (i = Nat.pred (length (recs t P)))))
    as (t2 & Hrun & Hko & Hfr2 & Hab2); try done.
  { eapply above_frame with (t := t); [done| | | |exact (holed_above _ _ _ _ _ _ _ Hh)].
    - intros a Ha. by apply Hfr, Hup.
    - apply (sl_par _ _ Hsl).
    - intros a Ha. unfold alk. by rewrite Hfr by (by apply Hup). }
  { intros a Ha. rewrite Hfr by (by apply Hup).
    by apply (holed_nonempty_above _ _ _ _ _ _ _ Hh). }
  { by apply (level_sorted _ _ _ _ _ _ _ Hsh Hct j). }
  { rewrite HP1. intros E. apply (f_equal length) in E.
    rewrite length_delete in E by (by eexists). simpl in E. lia. }
  { case_bool_decide as E.
    - unfold alk, last_key. by rewrite (last_lookup_pred _ _ _ Hki E).
    - unfold alk, last_key. rewrite HP1, last_delete_lt; [done|lia]. }
  exists t2. split; [|split].
  - unfold erase_helper.
    rewrite (bind_run _ _ _ _ _ Hs), (bind_run _ _ _ _ _ Hd), (bind_run _ _ _ _ _ Hl).
    rewrite (bind_run _ _ _ _ _ (last_index_run _ _ HlP ltac:(by intros E; rewrite E in Hki))).
    rewrite (bind_run _ _ _ _ _ (erase_record_run _ _ _ HlP Hi)). fold t1.
    rewrite (bind_run _ _ _ _ _ Hrun). done.
  - eapply shape_keys_only; eauto.
  - apply content_erase_done.
    + eapply same_links_trans; [done|by apply keys_only_same_links].
    + intros a Ha. rewrite Hfr2 by done. destruct (decide (a = P)) as [->|Hne].
      * by rewrite erecs_hole.
      * rewrite erecs_other by done. by apply Hfr.
    + eapply above_ext; [|exact Hab2]. intros L a HL Ha. simplify_eq.
      unfold alk. rewrite Hfr2 by (by eapply not_upper_level).
      destruct (decide (a = P)) as [->|Hne]; [done|]. by rewrite Hfr.
    + intros j0 L0 a HL0 Ha.
      destruct (ct_fill _ _ _ _ _ _ _ Hct _ _ _ HL0 Ha) as [Hub Hlb].
      assert (m_root t2 = m_root t) as ->.
      { rewrite (ko_root _ _ Hko). apply (sl_root _ _ Hsl). }
      rewrite decide_False in Hub |- * by done.
      assert (length (recs t2 a) = length (recs t1 a)) as ->.
      { apply length_kids_eq, (ko_kids _ _ Hko). }
      destruct (decide (a = P)) as [->|Hne].
      * rewrite HP1, length_delete by (by eexists).
        rewrite decide_False in Hlb |- * by done. lia.
      * by rewrite Hfr.
Qed.

End ArmRemove.

(** ** Records that change their node within a level *)

Lemma concat_fmap_fmap {A B C} (F : B → C) (g : A → list B) (l : list A) :
  concat ((λ a, F <$> g a) <$> l) = F <$> concat (g <$> l).
Proof. induction l as [|a l IH]; csimpl; [done|]. by rewrite fmap_app, IH. Qed.

Lemma elem_of_level_recs (g : nat → list (Z * option nat)) (L : list nat) r :
  r ∈ concat (g <$> L) ↔ ∃ a, a ∈ L ∧ r ∈ g a.
Proof.
  rewrite elem_of_concat. split.
  - intros (l & Hr & (a & -> & Ha)%list_elem_of_fmap). by exists a.
  - intros (a & Ha & Hr). exists (g a). split; [done|]. apply list_elem_of_fmap. by exists a.
Qed.

Lemma fam_regroup t t' h h' up up' lo :
  fam t h (alk t) up lo →
  concat (erecs h' t' <$> up') = concat (erecs h t <$> up) →
  (∀ a r c, a ∈ up' → r ∈ erecs h' t' a → r.2 = Some c → par t' c = Some a) →
  (∀ c, c ∈ lo → alk t' c = alk t c) →
  fam t' h' (alk t') up' lo.
Proof.
  intros Hf Hc Hp Hl. split.
  - unfold kids. rewrite (concat_fmap_fmap snd (erecs h' t')), Hc,
      <- (concat_fmap_fmap snd (erecs h t)). apply (fam_kids _ _ _ _ _ Hf).
  - intros a r c Ha Hr Hc'. split; [by eapply Hp|].
    assert (r ∈ concat (erecs h t <$> up)) as Hin.
    { rewrite <- Hc. apply elem_of_level_recs. by exists a. }
    apply elem_of_level_recs in Hin as (a0 & Ha0 & Hr').
    destruct (fam_rec _ _ _ _ _ Hf a0 r c Ha0 Hr' Hc') as [_ Hk].
    rewrite Hl; [done|]. by eapply fam_kid_in.
Qed.

Lemma above_frame_in t t' Ls i lk :
  (∀ a, upper Ls i a → recs t' a = recs t a) →
  (∀ i' L a, (i ≤ i')%nat → Ls !! i' = Some L → a ∈ L → par t' a = par t a) →
  above t Ls i lk → above t' Ls i lk.
Proof.
  intros Hr Hp H i' up lo Hle Hup Hlo. specialize (H i' up lo Hle Hup Hlo).
  eapply fam_ext; [| | |exact H].
  - intros a Ha. erecs_none. apply Hr. exists (S i'), up. split; [lia|done].
  - intros c Hc. by apply (Hp i' lo).
  - intros c Hc. case_decide; [done|]. unfold alk. rewrite Hr; [done|].
    exists i', lo. split; [lia|done].
Qed.

Lemma erecs_subseteq h t a r : r ∈ erecs h t a → r ∈ recs t a.
Proof.
  unfold erecs. destruct h as [[p i]|]; [|done]. case_decide; [|done].
  apply list_elem_of_delete_inv.
Qed.

Lemma elem_of_delete_ne {A} (l : list A) i x y :
  l !! i = Some y → x ∈ l → x ≠ y → x ∈ base.delete i l.
Proof.
  intros Hi Hx Hne. rewrite <- (take_drop_middle l i y Hi) in Hx.
  rewrite delete_take_drop. set_solver.
Qed.

Lemma neighbour_right t Ls j l1 P l2 :
  shape t Ls → Ls !! j = Some (l1 ++ P :: l2) → is_end (nxt t P) = false →
  ∃ R l2', l2 = R :: l2' ∧ nxt t P = Some R ∧ live t R.
Proof.
  intros Hsh Hj He. rewrite (chain_next _ _ _ _ _ _ Hsh Hj) in He |- *.
  destruct l2 as [|R l2']; simpl in *; [by rewrite is_end_endp in He|].
  exists R, l2'. split; [done|]. split; [done|].
  apply (sh_live _ _ Hsh _ _ _ Hj). set_solver.
Qed.

Lemma neighbour_left t Ls j l1 P l2 :
  shape t Ls → Ls !! j = Some (l1 ++ P :: l2) → is_end (prv t P) = false →
  ∃ l1' Lf, l1 = l1' ++ [Lf] ∧ prv t P = Some Lf ∧ live t Lf.
Proof.
  intros Hsh Hj He. rewrite (chain_prev _ _ _ _ _ _ Hsh Hj) in He |- *.
  destruct l1 as [|x l1] using rev_ind; simpl in *; [by rewrite is_end_endp in He|].
  exists l1, x. rewrite last_snoc. split; [done|]. split; [done|].
  apply (sh_live _ _ Hsh _ _ _ Hj). set_solver.
Qed.

Lemma lends_inv order t a :
  lends order t (Some a) = true → live t a ∧ (half_order order < length (recs t a))%nat.
Proof.
  unfold lends, node_at. simpl. intros [_ H]%andb_prop.
  destruct (heap t !! a) as [n|] eqn:E; [|done].
  apply bool_decide_eq_true in H. unfold recs. rewrite (nd_lookup _ _ _ E).
  split; [by exists n|done].
Qed.

Lemma lends_not_end order t p : lends order t p = true → is_end p = false.
Proof. unfold lends. intros [H _]%andb_prop. by apply negb_true_iff. Qed.

Lemma fits_not_end order t n p : fits order t n p = true → is_end p = false.
Proof.
  unfold fits, is_slibing. intros [[H _]%andb_prop _]%andb_prop. by apply negb_true_iff.
Qed.

Lemma fits_inv order t n a :
  fits order t n (Some a) = true →
  live t a ∧ par t a = parent n ∧
  merge_fits order (length (records n)) (length (recs t a)) = true.
Proof.
  unfold fits, is_slibing, node_at. simpl. intros [[_ Hp]%andb_prop H]%andb_prop.
  destruct (heap t !! a) as [sn|] eqn:E; [|done].
  unfold recs, par. rewrite (nd_lookup _ _ _ E).
  split; [by exists sn|]. split; [|done].
  unfold ptr_eqb in Hp. by apply bool_decide_eq_true in Hp.
Qed.

Section Kids.

Context (order : nat) (h : option (nat * nat)) (over : option nat) (rmin : nat).
Context (t : tree) (Ls : list (list nat)) (K : list Z).
Context (Hsh : shape t Ls) (Hct : content order h over rmin t Ls K).

Lemma kid_level j L a r c :
  Ls !! j = Some L → a ∈ L → r ∈ erecs h t a → r.2 = Some c →
  ∃ j' lo, j = S j' ∧ Ls !! j' = Some lo ∧ c ∈ lo ∧ par t c = Some a ∧ alk t c = Some r.1.
Proof.
  intros Hj Ha Hr Hc. destruct j as [|j'].
  - apply erecs_subseteq in Hr.
    rewrite (ct_leaves _ _ _ _ _ _ _ Hct _ _ _ Hj Ha Hr) in Hc. done.
  - destruct (Ls !! j') as [lo|] eqn:Hlo.
    + pose proof (ct_fam _ _ _ _ _ _ _ Hct _ _ _ Hj Hlo) as Hf.
      destruct (fam_rec _ _ _ _ _ Hf a r c Ha Hr Hc) as [Hp Hk].
      exists j', lo. repeat split; try done. by eapply fam_kid_in.
    + apply lookup_ge_None in Hlo. apply lookup_lt_Some in Hj. lia.
Qed.

Lemma kid_not_root j L a r c :
  Ls !! j = Some L → a ∈ L → r ∈ erecs h t a → r.2 = Some c → m_root t ≠ Some c.
Proof.
  intros Hj Ha Hr Hc Hroot.
  destruct (kid_level _ _ _ _ _ Hj Ha Hr Hc) as (j' & lo & -> & Hlo & Hin & Hp & _).
  by rewrite (sh_root_par _ _ Hsh _ Hroot) in Hp.
Qed.

End Kids.

Section Regroup.

Context (order : nat) (t : tree) (Ls : list (list nat)) (K : list Z).
Context (j P i : nat) (Hh : holed order t Ls K j P i).
Context (l1 l2 : list nat) (Hj : Ls !! j = Some (l1 ++ P :: l2)).

(** The invariant after the records of the level of the hole have been
    regrouped into the nodes [L'], one after the other as before. *)
Lemma content_regroup t2 L' h' rmin' :
  m_size t2 = m_size t →
  (∀ j0 L0 a, (j0 < j)%nat → Ls !! j0 = Some L0 → a ∈ L0 →
     recs t2 a = recs t a ∧ ((S j0 < j)%nat → par t2 a = par t a)) →
  (∀ P' i' j0 L0, h' = Some (P', i') → <[j:=L']> Ls !! j0 = Some L0 → P' ∈ L0 → (j < j0)%nat) →
  concat (recs t2 <$> L') = concat (erecs (Some (P, i)) t <$> l1 ++ P :: l2) →
  (∀ a r c, a ∈ L' → r ∈ recs t2 a → r.2 = Some c → par t2 c = Some a) →
  (∀ i' up lo, (j ≤ i')%nat →
     <[j:=L']> Ls !! S i' = Some up → <[j:=L']> Ls !! i' = Some lo →
     fam t2 h' (alk t2) up lo) →
  fill_ok order None rmin' t2 (<[j:=L']> Ls) →
  ((∀ i' up lo, <[j:=L']> Ls !! S i' = Some up → <[j:=L']> Ls !! i' = Some lo →
      fam t2 h' (alk t2) up lo) →
   level_keys h' t2 (default [] (<[j:=L']> Ls !! 0%nat)) = K →
   hole_ok h' t2 (<[j:=L']> Ls)) →
  content order h' None rmin' t2 (<[j:=L']> Ls) K.
Proof.
  intros Hsz Hfr Hh' Hcc Hpar Hab Hfill Hhole.
  pose proof (holed_shape _ _ _ _ _ _ _ Hh) as Hsh.
  pose proof (holed_content _ _ _ _ _ _ _ Hh) as Hct.
  pose proof (lookup_lt_Some _ _ _ Hj) as Hlt.
  assert (∀ a, a ∈ L' → erecs h' t2 a = recs t2 a) as Her.
  { apply erecs_not_in. intros P' i' -> HP'.
    assert (j < j)%nat; [|lia]. eapply (Hh' P' i' j L'); [done| |done].
    by rewrite list_lookup_insert_eq. }
  assert (concat (erecs h' t2 <$> L') = concat (erecs (Some (P, i)) t <$> l1 ++ P :: l2)) as Hcc'.
  { rewrite <- Hcc. f_equal. apply list_fmap_ext.
    intros ? a Ha%list_elem_of_lookup_2. by apply Her. }
  eapply (content_rebuild order (Some (P, i)) h' rmin' t t2 Ls K j); try done.
  - intros P0 i0 j0 L0 [= <- <-] HL0 HP0.
    by rewrite (holed_at _ _ _ _ _ _ _ Hh _ _ HL0 HP0).
  - intros P' i' j0 L0 E HL0 HP'. specialize (Hh' P' i' j0 L0 E HL0 HP'). lia.
  - intros i' up lo Hle Hup Hlo.
    destruct (decide (j ≤ i')%nat) as [Hge|Hn]; [by eapply Hab|].
    assert (S i' = j) as E by lia. rewrite <- E in Hup.
    rewrite list_lookup_insert_eq in Hup by lia. injection Hup as <-.
    rewrite list_lookup_insert_ne in Hlo by lia.
    assert (Ls !! S i' = Some (l1 ++ P :: l2)) as Hj' by (by rewrite E).
    eapply fam_regroup; [exact (ct_fam _ _ _ _ _ _ _ Hct _ _ _ Hj' Hlo)|done| |].
    + intros a r c Ha Hr. rewrite Her in Hr by done. by apply Hpar.
    + intros c Hc. unfold alk. destruct (Hfr i' lo c) as [-> _]; [lia|done..].
  - intros E. assert (Ls !! 0%nat = Some (l1 ++ P :: l2)) as H0 by (by rewrite <- E).
    split.
    + intros a r Ha Hr.
      assert (r ∈ concat (erecs (Some (P, i)) t <$> l1 ++ P :: l2)) as Hin.
      { rewrite <- Hcc. apply elem_of_level_recs. by exists a. }
      apply elem_of_level_recs in Hin as (a0 & Ha0 & Hr0%erecs_subseteq).
      by apply (ct_leaves _ _ _ _ _ _ _ Hct _ _ _ H0 Ha0 Hr0).
    + pose proof (ct_keys _ _ _ _ _ _ _ Hct) as Hk. rewrite H0 in Hk. simpl in Hk.
      rewrite <- Hk. unfold level_keys, keys.
      by rewrite (concat_fmap_fmap fst (erecs h' t2)), Hcc',
        <- (concat_fmap_fmap fst (erecs (Some (P, i)) t)).
Qed.

End Regroup.

(** ** Borrowing from the right neighbour *)

Section Adjacent.

Context (order : nat) (h : option (nat * nat)) (over : option nat) (rmin : nat).
Context (t : tree) (Ls : list (list nat)) (K : list Z).
Context (Hsh : shape t Ls) (Hct : content order h over rmin t Ls K).

Lemma adjacent_keys_lt j l1 a b l2 r q :
  Ls !! j = Some (l1 ++ a :: b :: l2) → r ∈ erecs h t a → q ∈ erecs h t b → r.1 < q.1.
Proof.
  intros Hj Hr Hq.
  pose proof (proj1 (level_sorted _ _ _ _ _ _ _ Hsh Hct j _ Hj)) as Hs.
  unfold level_keys in Hs. rewrite fmap_app, concat_app in Hs.
  apply StronglySorted_app_1_r in Hs. csimpl in Hs.
  eapply StronglySorted_app_1_elem_of; [exact Hs| |].
  - apply list_elem_of_fmap. by exists r.
  - apply elem_of_app. left. apply list_elem_of_fmap. by exists q.
Qed.

Lemma not_root_pair j l1 a b l2 x :
  Ls !! j = Some (l1 ++ a :: b :: l2) → x ∈ l1 ++ a :: b :: l2 → m_root t ≠ Some x.
Proof.
  intros Hj Hx Hr. destruct (root_level _ _ _ _ _ Hsh Hj Hx Hr) as [E _].
  apply (f_equal length) in E. rewrite length_app in E. simpl in E. lia.
Qed.

End Adjacent.

Lemma classify_borrow_right_inv order t n :
  classify order t n = BORROW_RIGHT →
  lends order t (next n) = true ∧ ¬ (half_order order < length (records n))%nat.
Proof.
  unfold classify.
  repeat match goal with
         | |- context [if ?b then _ else _] => destruct b eqn:?
         end; try done; intros _; (split; [done|]);
  match goal with H : bool_decide _ = false |- _ => by apply bool_decide_eq_false in H end.
Qed.

Lemma last_key_cons r (l : list (Z * option nat)) : l ≠ [] → last_key (r :: l) = last_key l.
Proof. by destruct l. Qed.

Lemma last_key_snoc (l : list (Z * option nat)) r : last_key (l ++ [r]) = Some r.1.
Proof. unfold last_key. by rewrite last_snoc. Qed.

Section ArmBorrowRight.

Context (order : nat) (t : tree) (Ls : list (list nat)) (K : list Z).
Context (j P i : nat) (Hh : holed order t Ls K j P i).

(** The record that moves is the first record of the [next] neighbour;
    it goes behind the records that stay in the node. *)
Lemma arm_borrow_right_records :
  m_root t ≠ Some P → classify order t (nd t P) = BORROW_RIGHT →
  ∃ t' R rf tl, nxt t P = Some R ∧ live t R ∧ recs t R = rf :: tl ∧
    erase_helper order (Some P) i t = Some ((false, (Some P, i)), t') ∧
    recs t' P = base.delete i (recs t P) ++ [rf] ∧ recs t' R = tl ∧
    shape t' Ls ∧ content order None None 2 t' Ls K.
Proof.
  intros Hr Hcl.
  pose proof (holed_shape _ _ _ _ _ _ _ Hh) as Hsh.
  pose proof (holed_content _ _ _ _ _ _ _ Hh) as Hct.
  pose proof (holed_live _ _ _ _ _ _ _ Hh) as HlP.
  pose proof (half_order_pos order (holed_order _ _ _ _ _ _ _ Hh)) as Hho.
  destruct (erase_helper_prefix _ _ _ _ _ _ _ Hh BORROW_RIGHT) as (ki & Hki & Hs & Hd & Hl).
  { by rewrite decide_False. }
  destruct (holed_level _ _ _ _ _ _ _ Hh) as (l1 & l2 & Hj).
  apply classify_borrow_right_inv in Hcl as [Hlend Hnot].
  change (next (nd t P)) with (nxt t P) in Hlend. fold (recs t P) in Hnot.
  destruct (neighbour_right _ _ _ _ _ _ Hsh Hj (lends_not_end _ _ _ Hlend))
    as (R & l2' & -> & HnR & HlR).
  rewrite HnR in Hlend. apply lends_inv in Hlend as [_ HRlen].
  assert (∃ rf tl, recs t R = rf :: tl ∧ tl ≠ []) as (rf & tl & ER & Htl).
  { destruct (recs t R) as [|rf [|r' tl]]; simpl in HRlen; [lia|lia|]. by eexists _, _. }
  rewrite ER in HRlen. simpl in HRlen.
  pose proof (lookup_lt_Some _ _ _ Hki) as Hi.
  destruct (last (recs t P)) as [lr|] eqn:Elr;
    [|apply last_None in Elr; by rewrite Elr in Hki].
  pose proof (sh_nodup _ _ Hsh _ _ Hj) as Hnd.
  assert (P ≠ R ∧ P ∉ l1 ∧ R ∉ l1 ∧ P ∉ l2' ∧ R ∉ l2') as (HPR & HP1 & HR1 & HP2 & HR2).
  { apply NoDup_app in Hnd as (_ & Hd1 & Hnd). apply NoDup_cons in Hnd as [Hd2 Hnd].
    apply NoDup_cons in Hnd as [Hd3 _]. set_solver. }
  assert (P ∈ l1 ++ P :: R :: l2') as HPin by set_solver.
  assert (R ∈ l1 ++ P :: R :: l2') as HRin by set_solver.
  pose proof (not_upper_level _ _ Hsh _ _ _ Hj HPin) as HPu.
  pose proof (not_upper_level _ _ Hsh _ _ _ Hj HRin) as HRu.
  set (dP := base.delete i (recs t P)).
  assert (S (length dP) = length (recs t P)) as HdP.
  { unfold dP. rewrite length_delete by (by eexists). lia. }
  assert (Forall (λ q, q.1 < rf.1) dP) as Hlt.
  { apply Forall_forall. intros q Hq.
    eapply (adjacent_keys_lt _ _ _ _ _ _ _ Hsh Hct j l1 P R l2'); [done| |].
    - by rewrite erecs_hole.
    - rewrite erecs_other by done. rewrite ER. set_solver. }
  destruct (fix_key_on_path_spec t Ls j (alk t) l1 P (R :: l2') lr.1 rf.1)
    as (t1 & Hrun1 & Hko & Hfr1 & Hab1); try done.
  { apply (holed_above _ _ _ _ _ _ _ Hh). }
  { apply (holed_nonempty_above _ _ _ _ _ _ _ Hh). }
  { unfold alk, last_key. by rewrite Elr. }
  { by apply (level_sorted _ _ _ _ _ _ _ Hsh Hct j). }
  assert (recs t1 P = recs t P) as EP1 by (by apply Hfr1).
  assert (recs t1 R = rf :: tl) as ER1 by (by rewrite Hfr1).
  assert (∀ a, live t a → live t1 a) as Hlive1 by (intros a; apply (ko_live _ _ Hko)).
  set (t2 := wr P (set_records dP) t1).
  set (t3 := adopted rf.2 (Some P) t2).
  set (t4 := wr P (set_records (dP ++ [rf])) t3).
  set (t5 := wr R (set_records tl) t4).
  assert (∀ c, rf.2 = Some c → ∃ j' lo, j = S j' ∧ Ls !! j' = Some lo ∧ c ∈ lo ∧
            par t c = Some R ∧ alk t c = Some rf.1) as Hkid.
  { intros c Hc. eapply (kid_level _ _ _ _ _ _ _ Hct j _ R rf c Hj HRin); [|done].
    rewrite erecs_other by done. rewrite ER. set_solver. }
  assert (∀ a, recs t5 a = if decide (a = R) then tl
                           else if decide (a = P) then dP ++ [rf] else recs t1 a) as Hrecs.
  { intros a. unfold t5, t4, t3, t2. autorewrite with st.
    repeat case_decide; by simplify_eq. }
  assert (∀ a, par t5 a = if decide (rf.2 = Some a) then Some P else par t a) as Hpar.
  { intros a. unfold t5, t4, t3, t2. autorewrite with st. by rewrite (ko_par _ _ Hko). }
  assert (∀ a, live t a → live t5 a) as Hlive5.
  { intros a Ha. unfold t5, t4, t3, t2. auto 10 with live. }
  assert (erase_helper order (Some P) i t = Some ((false, (Some P, i)), t5)) as Hrun.
  { unfold erase_helper.
    rewrite (bind_run _ _ _ _ _ Hs), (bind_run _ _ _ _ _ Hd), (bind_run _ _ _ _ _ Hl).
    change (next (nd t P)) with (nxt t P). rewrite HnR.
    rewrite (bind_run _ _ _ _ _ (last_record_run _ _ _ HlP Elr)).
    unfold first_record.
    rewrite (bind_run _ _ _ _ _ (record_at_run t R 0 rf HlR ltac:(by rewrite ER))).
    rewrite (bind_run _ _ _ _ _ Hrun1).
    rewrite (bind_run _ _ _ _ _ (erase_record_run t1 P i (Hlive1 _ HlP) ltac:(by rewrite EP1))).
    rewrite EP1. fold dP. fold t2.
    assert (recs t2 R = rf :: tl) as ER2.
    { unfold t2. autorewrite with st. by rewrite decide_False. }
    assert (live t2 R) as HlR2 by (unfold t2; auto 10 with live).
    rewrite (bind_run _ _ _ _ _ (record_at_run t2 R 0 rf HlR2 ltac:(by rewrite ER2))).
    assert (∀ a, rf.2 = Some a → live t2 a) as Hla.
    { intros a Ha. destruct (Hkid a Ha) as (j' & lo & _ & Hlo & Hin & _).
      unfold t2. apply live_wr_2, Hlive1. by eapply sh_live. }
    rewrite (bind_run _ _ _ _ _ (adopt_run t2 rf.2 (Some P) Hla)). fold t3.
    assert (live t3 P) as HlP3 by (unfold t3, t2; auto 10 with live).
    rewrite (bind_run _ _ _ _ _ (insert_record_run t3 P rf HlP3)).
    assert (recs t3 P = dP) as ->.
    { unfold t3, t2. autorewrite with st. by rewrite decide_True. }
    rewrite (set_insert_end rf dP Hlt). simpl. fold t4.
    assert (recs t4 R = rf :: tl) as ER4.
    { unfold t4, t3, t2. autorewrite with st. by rewrite !decide_False. }
    assert (live t4 R) as HlR4 by (unfold t4, t3, t2; auto 10 with live).
    rewrite (bind_run _ _ _ _ _ (erase_record_run t4 R 0 HlR4 ltac:(rewrite ER4; simpl; lia))).
    rewrite ER4. done. }
  exists t5, R, rf, tl. split; [done|]. split; [done|]. split; [done|]. split; [done|].
  split; [by rewrite Hrecs, decide_False, decide_True|].
  split; [by rewrite Hrecs, decide_True|].
  assert (∀ j0 L a, Ls !! j0 = Some L → a ∈ L → rf.2 = Some a → S j0 = j) as Hkl.
  { intros j0 L a HL Ha Hc. destruct (Hkid a Hc) as (j' & lo & -> & Hlo & Hin & _).
    by rewrite (sh_disj _ _ Hsh _ _ _ _ _ HL Hlo Ha Hin). }
  assert (∀ a, a ≠ P → a ≠ R → ¬ upper Ls j a → recs t5 a = recs t a) as Hother.
  { intros a H1 H2 H3. rewrite Hrecs, !decide_False by done. by apply Hfr1. }
  assert (m_root t5 = m_root t) as Hroot.
  { unfold t5, t4, t3, t2. autorewrite with st. apply (ko_root _ _ Hko). }
  split.
  - apply (shape_ext t); try done.
    + intros j0 L a HL Ha. split; [apply Hlive5; by eapply sh_live|].
      unfold t5, t4, t3, t2. autorewrite with st.
      by rewrite (ko_nxt _ _ Hko), (ko_prv _ _ Hko), (ko_leaf _ _ Hko).
    + apply Hlive5, (sh_header _ _ Hsh).
    + unfold t5, t4, t3, t2. autorewrite with st. apply (ko_nxt _ _ Hko).
    + unfold t5, t4, t3, t2. autorewrite with st. apply (ko_prv _ _ Hko).
    + intros r Hr'. rewrite Hpar. case_decide as Ec; [|done].
      destruct (Hkid r Ec) as (_ & _ & _ & _ & _ & Hp & _).
      by rewrite (sh_root_par _ _ Hsh _ Hr') in Hp.
  - rewrite <- (list_insert_id Ls j (l1 ++ P :: R :: l2')) by done.
    assert (∀ a r, a ∈ l1 ++ P :: R :: l2' → r ∈ recs t5 a →
              (r = rf ∧ a = P) ∨ (r ∈ erecs (Some (P, i)) t a ∧ (a = R → r ∈ tl))) as Hin.
    { intros a r Ha Hr5. rewrite Hrecs in Hr5.
      destruct (decide (a = R)) as [->|HaR].
      - right. rewrite erecs_other by done. rewrite ER. set_solver.
      - destruct (decide (a = P)) as [->|HaP].
        + apply elem_of_app in Hr5 as [Hr5|Hr5].
          * right. by rewrite erecs_hole.
          * left. set_solver.
        + right. rewrite erecs_other by done. split; [|done].
          rewrite <- Hfr1; [done|]. by eapply (not_upper_level _ _ Hsh). }
    eapply (content_regroup order t Ls K j P i Hh l1 (R :: l2') Hj); try done.
    + unfold t5, t4, t3, t2. autorewrite with st. apply (ko_size _ _ Hko).
    + intros j0 L0 a Hlt0 HL0 Ha.
      assert (a ≠ P) as HaP.
      { intros ->. pose proof (sh_disj _ _ Hsh _ _ _ _ _ HL0 Hj Ha HPin). lia. }
      assert (a ≠ R) as HaR.
      { intros ->. pose proof (sh_disj _ _ Hsh _ _ _ _ _ HL0 Hj Ha HRin). lia. }
      split.
      * apply Hother; try done. intros (i' & L' & Hlt' & HL' & Ha').
        pose proof (sh_disj _ _ Hsh _ _ _ _ _ HL0 HL' Ha Ha'). lia.
      * intros Hlt'. rewrite Hpar. case_decide as Ec; [|done].
        pose proof (Hkl _ _ _ HL0 Ha Ec). lia.
    + rewrite !fmap_app, !concat_app. csimpl.
      rewrite (Hrecs P), (Hrecs R), erecs_hole, (erecs_other _ _ _ R), ER by done.
      destruct (decide (P = R)); [done|]. destruct (decide (P = P)); [|done].
      destruct (decide (R = R)); [|done]. fold dP.
      rewrite <- !app_assoc. simpl. f_equal; [|f_equal; f_equal].
      * f_equal. apply list_fmap_ext. intros ? a Ha%list_elem_of_lookup_2.
        rewrite erecs_other by set_solver. apply Hother; [set_solver..|].
        eapply (not_upper_level _ _ Hsh); [exact Hj|set_solver].
      * do 2 f_equal. apply list_fmap_ext. intros ? a Ha%list_elem_of_lookup_2.
        rewrite erecs_other by set_solver. apply Hother; [set_solver..|].
        eapply (not_upper_level _ _ Hsh); [exact Hj|set_solver].
    + intros a r c Ha Hr5 Hc. rewrite Hpar.
      destruct (Hin a r Ha Hr5) as [[-> ->]|[Hre HtlR]].
      * by rewrite decide_True.
      * destruct (kid_level _ _ _ _ _ _ _ Hct j _ a r c Hj Ha Hre Hc)
          as (j' & lo & _ & _ & _ & Hp & Hk).
        case_decide as Ec; [|done].
        destruct (Hkid c Ec) as (_ & _ & _ & _ & _ & Hp' & Hk').
        assert (a = R) as -> by congruence.
        pose proof (node_sorted _ _ _ _ _ _ _ Hsh Hct j _ R Hj HRin) as Hsrt.
        rewrite erecs_other, ER in Hsrt by done. unfold keys in Hsrt. csimpl in Hsrt.
        apply StronglySorted_cons in Hsrt as [Hall _].
        rewrite Forall_forall in Hall.
        assert (rf.1 < r.1); [|congruence || (rewrite Hk in Hk'; injection Hk'; lia)].
        apply Hall, list_elem_of_fmap. exists r. split; [done|by apply HtlR].
    + intros i' up lo Hle Hup Hlo. rewrite list_insert_id in Hup, Hlo by done.
      assert (above t5 Ls j (alk t5)) as Hab5.
      { eapply above_ext; [|eapply above_frame_in; [| |exact Hab1]].
        - intros L a HL Ha. rewrite Hj in HL. injection HL as <-.
          unfold upd, alk. rewrite Hrecs.
          destruct (decide (a = R)) as [->|HaR].
          + rewrite decide_False by done. by rewrite ER, last_key_cons.
          + destruct (decide (a = P)) as [->|HaP]; [by rewrite last_key_snoc|].
            rewrite Hfr1; [done|]. by eapply (not_upper_level _ _ Hsh).
        - intros a Ha. rewrite Hrecs, !decide_False; [done|by intros ->..].
        - intros i0 L a Hle0 HL Ha. rewrite Hpar, (ko_par _ _ Hko).
          case_decide as Ec; [|done]. pose proof (Hkl _ _ _ HL Ha Ec). lia. }
      specialize (Hab5 i' up lo Hle Hup Hlo). by case_decide.
    + intros j0 L0 a HL0 Ha. rewrite list_insert_id in HL0 by done.
      destruct (ct_fill _ _ _ _ _ _ _ Hct _ _ _ HL0 Ha) as [Hub Hlb].
      rewrite Hroot. rewrite decide_False in Hub |- * by done.
      rewrite Hrecs. destruct (decide (a = R)) as [->|HaR].
      * rewrite decide_False by (by eapply (not_root_pair t Ls Hsh j l1 P R l2')).
        rewrite ER in Hub. simpl in Hub. lia.
      * destruct (decide (a = P)) as [->|HaP].
        -- rewrite length_app. simpl. rewrite decide_False in Hlb |- * by done. lia.
        -- by rewrite (length_kids_eq _ _ (ko_kids _ _ Hko a)).
Qed.

Lemma arm_borrow_right :
  m_root t ≠ Some P → classify order t (nd t P) = BORROW_RIGHT →
  ∃ t', erase_helper order (Some P) i t = Some ((false, (Some P, i)), t') ∧
        shape t' Ls ∧ content order None None 2 t' Ls K.
Proof.
  intros Hr Hcl.
  destruct (arm_borrow_right_records Hr Hcl)
    as (t' & R & rf & tl & _ & _ & _ & Hrun & _ & _ & Hsh & Hct).
  by exists t'.
Qed.

End ArmBorrowRight.

(** ** Borrowing from the left neighbour *)

Section Ordered.

Context (order : nat) (h : option (nat * nat)) (over : option nat) (rmin : nat).
Context (t : tree) (Ls : list (list nat)) (K : list Z).
Context (Hsh : shape t Ls) (Hct : content order h over rmin t Ls K).

Lemma level_keys_lt j l1 a l2 b r q :
  Ls !! j = Some (l1 ++ a :: l2) → b ∈ l2 → r ∈ erecs h t a → q ∈ erecs h t b → r.1 < q.1.
Proof.
  intros Hj Hb Hr Hq.
  pose proof (proj1 (level_sorted _ _ _ _ _ _ _ Hsh Hct j _ Hj)) as Hs.
  unfold level_keys in Hs. rewrite fmap_app, concat_app in Hs.
  apply StronglySorted_app_1_r in Hs. csimpl in Hs.
  eapply StronglySorted_app_1_elem_of; [exact Hs| |].
  - apply list_elem_of_fmap. by exists r.
  - apply elem_of_concat. exists (keys (erecs h t b)). split.
    + apply list_elem_of_fmap. by exists q.
    + apply list_elem_of_fmap. by exists b.
Qed.

End Ordered.

Lemma sorted_upd (lk : nat → option Z) A c B old new :
  NoDup (A ++ c :: B) → StronglySorted Z.lt (omap lk (A ++ c :: B)) →
  lk c = Some old → new ≤ old → (∀ a k, a ∈ A → lk a = Some k → k < new) →
  StronglySorted Z.lt (omap (upd lk c new) (A ++ c :: B)).
Proof.
  intros Hnd Hs Hc Hle HA.
  apply NoDup_app in Hnd as (_ & HcA & [HcB _]%NoDup_cons).
  assert (omap (upd lk c new) A = omap lk A) as EA.
  { apply omap_ext_in. intros a Ha. unfold upd. rewrite decide_False; [done|]. set_solver. }
  assert (omap (upd lk c new) B = omap lk B) as EB.
  { apply omap_ext_in. intros a Ha. unfold upd. rewrite decide_False; [done|]. set_solver. }
  rewrite omap_app in Hs |- *. rewrite EA.
  change (omap lk (c :: B)) with (match lk c with Some y => y :: omap lk B | None => omap lk B end) in Hs.
  change (omap (upd lk c new) (c :: B)) with
    (match upd lk c new c with Some y => y :: omap (upd lk c new) B
     | None => omap (upd lk c new) B end).
  unfold upd at 1. rewrite decide_True by done. rewrite EB. rewrite Hc in Hs.
  apply StronglySorted_app in Hs as (Hx & H1 & H2).
  apply StronglySorted_cons in H2 as [Hf H2]. rewrite Forall_forall in Hf.
  apply StronglySorted_app. split; [|split; [done|]].
  - intros x1 x2 H1' [->|H2']%elem_of_cons.
    + apply list_elem_of_omap in H1' as (a & Ha & Hk). by eapply HA.
    + apply Hx; [done|]. set_solver.
  - apply StronglySorted_cons. split; [|done]. apply Forall_forall.
    intros x Hx'. specialize (Hf x Hx'). lia.
Qed.

Lemma classify_borrow_left_inv order t n :
  classify order t n = BORROW_LEFT →
  lends order t (pre n) = true ∧ ¬ (half_order order < length (records n))%nat.
Proof.
  unfold classify.
  repeat match goal with
         | |- context [if ?b then _ else _] => destruct b eqn:?
         end; try done; intros _; (split; [done|]);
  match goal with H : bool_decide _ = false |- _ => by apply bool_decide_eq_false in H end.
Qed.

Lemma delete_last_snoc {A} (l : list A) x : base.delete (length l) (l ++ [x]) = l.
Proof. by rewrite delete_middle, app_nil_r. Qed.

Lemma snoc_of_length {A} (l : list A) n :
  (n < length l)%nat → ∃ l' x, l = l' ++ [x] ∧ (n ≤ length l')%nat.
Proof.
  intros H. destruct l as [|y l] using rev_ind; [simpl in H; lia|].
  exists l, y. split; [done|]. rewrite length_app in H. simpl in H. lia.
Qed.

Lemma nonempty_above_keys_only t t' Ls j :
  keys_only t t' → nonempty_above t Ls j → nonempty_above t' Ls j.
Proof.
  intros Hko H a Ha E. apply (H a Ha).
  pose proof (length_kids_eq _ _ (ko_kids _ _ Hko a)) as Hlen.
  rewrite E in Hlen. by destruct (recs t a).
Qed.

Section ArmBorrowLeft.

Context (order : nat) (t : tree) (Ls : list (list nat)) (K : list Z).
Context (j P i : nat) (Hh : holed order t Ls K j P i).

(** The record that moves is the last record of the [pre] neighbour; it
    goes in front of the records that stay in the node. *)
Lemma arm_borrow_left_records :
  m_root t ≠ Some P → classify order t (nd t P) = BORROW_LEFT →
  ∃ t' Lf init ll, prv t P = Some Lf ∧ live t Lf ∧ recs t Lf = init ++ [ll] ∧
    erase_helper order (Some P) i t = Some ((false, (Some P, i)), t') ∧
    recs t' P = ll :: base.delete i (recs t P) ∧ recs t' Lf = init ∧
    shape t' Ls ∧ content order None None 2 t' Ls K.
Proof.
  intros Hr Hcl.
  pose proof (holed_shape _ _ _ _ _ _ _ Hh) as Hsh.
  pose proof (holed_content _ _ _ _ _ _ _ Hh) as Hct.
  pose proof (holed_live _ _ _ _ _ _ _ Hh) as HlP.
  pose proof (half_order_pos order (holed_order _ _ _ _ _ _ _ Hh)) as Hho.
  destruct (erase_helper_prefix _ _ _ _ _ _ _ Hh BORROW_LEFT) as (ki & Hki & Hs & Hd & Hl).
  { by rewrite decide_False. }
  destruct (holed_level _ _ _ _ _ _ _ Hh) as (l1 & l2 & Hj).
  apply classify_borrow_left_inv in Hcl as [Hlend Hnot].
  change (pre (nd t P)) with (prv t P) in Hlend. fold (recs t P) in Hnot.
  destruct (neighbour_left _ _ _ _ _ _ Hsh Hj (lends_not_end _ _ _ Hlend))
    as (l1' & Lf & -> & HpL & HlL).
  rewrite HpL in Hlend. apply lends_inv in Hlend as [_ HLlen].
  assert (Ls !! j = Some (l1' ++ Lf :: P :: l2)) as Hj'.
  { rewrite Hj. by rewrite <- app_assoc. }
  destruct (snoc_of_length _ _ HLlen) as (init & ll & EL & Hinit).
  destruct (snoc_of_length init 0) as (init' & ll' & Einit & _); [lia|].
  assert (init ≠ []) as Hne by (rewrite Einit; by destruct init').
  pose proof (lookup_lt_Some _ _ _ Hki) as Hi.
  pose proof (sh_nodup _ _ Hsh _ _ Hj') as Hnd.
  assert (Lf ≠ P ∧ P ∉ l1' ∧ Lf ∉ l1' ∧ P ∉ l2 ∧ Lf ∉ l2) as (HPL & HP1 & HL1 & HP2 & HL2).
  { apply NoDup_app in Hnd as (_ & Hd1 & Hnd). apply NoDup_cons in Hnd as [Hd2 Hnd].
    apply NoDup_cons in Hnd as [Hd3 _]. set_solver. }
  assert (P ∈ l1' ++ Lf :: P :: l2) as HPin by set_solver.
  assert (Lf ∈ l1' ++ Lf :: P :: l2) as HLin by set_solver.
  pose proof (not_upper_level _ _ Hsh _ _ _ Hj' HPin) as HPu.
  pose proof (not_upper_level _ _ Hsh _ _ _ Hj' HLin) as HLu.
  set (dP := base.delete i (recs t P)).
  assert (S (length dP) = length (recs t P)) as HdP.
  { unfold dP. rewrite length_delete by (by eexists). lia. }
  assert (∀ r q, r ∈ recs t Lf → q ∈ dP → r.1 < q.1) as Hlt.
  { intros r q Hr' Hq.
    eapply (adjacent_keys_lt _ _ _ _ _ _ _ Hsh Hct j l1' Lf P l2); [done| |].
    - by rewrite erecs_other.
    - by rewrite erecs_hole. }
  set (need := bool_decide (i = Nat.pred (length (recs t P)))).
  set (s1 := wr P (set_records dP) t).
  set (s2 := adopted ll.2 (Some P) s1).
  set (s3 := wr P (set_records (ll :: dP)) s2).
  set (s4 := wr Lf (set_records init) s3).
  assert (∀ c, ll.2 = Some c → ∃ j' lo, j = S j' ∧ Ls !! j' = Some lo ∧ c ∈ lo ∧
            par t c = Some Lf ∧ alk t c = Some ll.1) as Hkid.
  { intros c Hc. eapply (kid_level _ _ _ _ _ _ _ Hct j _ Lf ll c Hj' HLin); [|done].
    rewrite erecs_other by done. rewrite EL. set_solver. }
  assert (∀ j0 L a, Ls !! j0 = Some L → a ∈ L → ll.2 = Some a → S j0 = j) as Hkl.
  { intros j0 L a HL Ha Hc. destruct (Hkid a Hc) as (j' & lo & -> & Hlo & Hin & _).
    by rewrite (sh_disj _ _ Hsh _ _ _ _ _ HL Hlo Ha Hin). }
  assert (∀ a, recs s4 a = if decide (a = Lf) then init
                           else if decide (a = P) then ll :: dP else recs t a) as Hrecs4.
  { intros a. unfold s4, s3, s2, s1. autorewrite with st.
    repeat case_decide; by simplify_eq. }
  assert (∀ a, par s4 a = if decide (ll.2 = Some a) then Some P else par t a) as Hpar4.
  { intros a. unfold s4, s3, s2, s1. by autorewrite with st. }
  assert (∀ a, live t a → live s4 a) as Hlive4.
  { intros a Ha. unfold s4, s3, s2, s1. auto 10 with live. }
  assert (m_root s4 = m_root t) as Hroot4.
  { unfold s4, s3, s2, s1. by autorewrite with st. }
  assert (shape s4 Ls) as Hsh4.
  { apply (shape_ext t); try done.
    - intros j0 L a HL Ha. split; [apply Hlive4; by eapply sh_live|].
      unfold s4, s3, s2, s1. by autorewrite with st.
    - apply Hlive4, (sh_header _ _ Hsh).
    - unfold s4, s3, s2, s1. by autorewrite with st.
    - unfold s4, s3, s2, s1. by autorewrite with st.
    - intros r Hr'. rewrite Hpar4. case_decide as Ec; [|done].
      destruct (Hkid r Ec) as (_ & _ & _ & _ & _ & Hp & _).
      by rewrite (sh_root_par _ _ Hsh _ Hr') in Hp. }
  assert (∀ a, upper Ls j a → recs s4 a = recs t a) as Hup4.
  { intros a Ha. rewrite Hrecs4, !decide_False; [done|by intros ->..]. }
  (* the router of the left neighbour *)
  destruct (fix_key_on_path_spec s4 Ls j (alk t) l1' Lf (P :: l2) ll.1 ll'.1)
    as (s5 & Hrun5 & Hko5 & Hfr5 & Hab5); try done.
  { eapply above_frame_in; [exact Hup4| |exact (holed_above _ _ _ _ _ _ _ Hh)].
    intros i0 L a Hle0 HL Ha. rewrite Hpar4.
    case_decide as Ec; [|done]. pose proof (Hkl _ _ _ HL Ha Ec). lia. }
  { intros a Ha. rewrite Hup4 by done. by apply (holed_nonempty_above _ _ _ _ _ _ _ Hh). }
  { unfold alk. by rewrite EL, last_key_snoc. }
  { by apply (level_sorted _ _ _ _ _ _ _ Hsh Hct j). }
  assert (shape s5 Ls) as Hsh5 by (by eapply shape_keys_only).
  (* the router of the node *)
  destruct (when_fix s5 Ls j (upd (alk t) Lf ll'.1) (l1' ++ [Lf]) P l2 ki need)
    as (s6 & Hrun6 & Hko6 & Hfr6 & Hab6); try done.
  { eapply nonempty_above_keys_only; [exact Hko5|].
    intros a Ha. rewrite Hup4 by done. by apply (holed_nonempty_above _ _ _ _ _ _ _ Hh). }
  { rewrite <- app_assoc. simpl.
    eapply sorted_upd; [done| |by unfold alk; rewrite EL, last_key_snoc| |].
    - by apply (level_sorted _ _ _ _ _ _ _ Hsh Hct j).
    - assert (ll'.1 < ll.1); [|lia].
      pose proof (node_sorted _ _ _ _ _ _ _ Hsh Hct j _ Lf Hj' HLin) as Hsrt.
      rewrite erecs_other, EL, Einit in Hsrt by done.
      unfold keys in Hsrt. rewrite !fmap_app in Hsrt.
      eapply (StronglySorted_app_1_elem_of _ _ _ _ _ Hsrt); set_solver.
    - intros a k Ha Hk. unfold alk, last_key in Hk.
      destruct (last (recs t a)) as [rk|] eqn:Erk; [|done]. injection Hk as <-.
      apply list_elem_of_split in Ha as (x & y & ->).
      rewrite <- app_assoc in Hj'. simpl in Hj'.
      eapply (level_keys_lt _ _ _ _ _ _ _ Hsh Hct j x a (y ++ Lf :: P :: l2) Lf); [done| | |].
      + set_solver.
      + rewrite erecs_other by set_solver. by apply last_Some_elem_of.
      + rewrite erecs_other by done. rewrite EL, Einit. set_solver. }
  { rewrite Hfr5, Hrecs4 by done. by rewrite decide_False, decide_True. }
  { unfold upd. rewrite decide_False by done. unfold need. case_bool_decide as E.
    - unfold alk, last_key. by rewrite (last_lookup_pred _ _ _ Hki E).
    - unfold alk at 2. rewrite Hfr5, Hrecs4 by done.
      rewrite decide_False, decide_True by done.
      assert (dP ≠ []) as HdPne.
      { intros E'. rewrite E' in HdP. simpl in HdP. lia. }
      rewrite last_key_cons by done. unfold alk, last_key, dP.
      rewrite last_delete_lt; [done|lia]. }
  assert (keys_only s4 s6) as Hko by (by eapply keys_only_trans).
  assert (∀ a, ¬ upper Ls j a → recs s6 a = recs s4 a) as Hfr.
  { intros a Ha. by rewrite Hfr6, Hfr5. }
  assert (erase_helper order (Some P) i t = Some ((false, (Some P, i)), s6)) as Hrun.
  { unfold erase_helper.
    rewrite (bind_run _ _ _ _ _ Hs), (bind_run _ _ _ _ _ Hd), (bind_run _ _ _ _ _ Hl).
    change (pre (nd t P)) with (prv t P). rewrite HpL.
    rewrite (bind_run _ _ _ _ _ (last_index_run _ _ HlP ltac:(by intros E; rewrite E in Hki))).
    fold need.
    rewrite (bind_run _ _ _ _ _ (erase_record_run t P i HlP Hi)). fold dP. fold s1.
    assert (recs s1 Lf = init ++ [ll]) as EL1.
    { unfold s1. autorewrite with st. by rewrite decide_False. }
    assert (live s1 Lf) as HlL1 by (unfold s1; auto with live).
    rewrite (bind_run _ _ _ _ _
      (last_index_run s1 Lf HlL1 ltac:(rewrite EL1; by destruct init))).
    rewrite EL1, length_app. simpl. rewrite Nat.add_1_r. simpl.
    rewrite (bind_run _ _ _ _ _
      (record_at_run s1 Lf (length init) ll HlL1 ltac:(by rewrite EL1, list_lookup_middle))).
    assert (∀ a, ll.2 = Some a → live s1 a) as Hla.
    { intros a Ha. destruct (Hkid a Ha) as (j' & lo & _ & Hlo & Hin & _).
      unfold s1. apply live_wr_2. by eapply sh_live. }
    rewrite (bind_run _ _ _ _ _ (adopt_run s1 ll.2 (Some P) Hla)). fold s2.
    assert (live s2 P) as HlP2 by (unfold s2, s1; auto with live).
    rewrite (bind_run _ _ _ _ _ (insert_record_run s2 P ll HlP2)).
    assert (recs s2 P = dP) as ->.
    { unfold s2, s1. autorewrite with st. by rewrite decide_True. }
    rewrite (set_insert_front ll dP).
    2:{ destruct dP as [|q dP'] eqn:EdP; [done|]. apply Hlt; [|set_solver].
        rewrite EL. set_solver. }
    simpl. fold s3.
    assert (recs s3 Lf = init ++ [ll]) as EL3.
    { unfold s3, s2, s1. autorewrite with st. by rewrite !decide_False. }
    assert (live s3 Lf) as HlL3 by (unfold s3, s2, s1; auto 10 with live).
    rewrite (bind_run _ _ _ _ _
      (erase_record_run s3 Lf (length init) HlL3
         ltac:(rewrite EL3, length_app; simpl; lia))).
    rewrite EL3, delete_last_snoc. fold s4.
    rewrite (bind_run _ _ _ _ _
      (last_record_run s4 Lf ll' (Hlive4 _ HlL)
         ltac:(by rewrite Hrecs4, decide_True, Einit, last_snoc))).
    rewrite (bind_run _ _ _ _ _ Hrun5), (bind_run _ _ _ _ _ Hrun6). done. }
  exists s6, Lf, init, ll. split; [done|]. split; [done|]. split; [done|]. split; [done|].
  split; [rewrite Hfr by done; by rewrite Hrecs4, decide_False, decide_True|].
  split; [rewrite Hfr by done; by rewrite Hrecs4, decide_True|].
  split; [by eapply shape_keys_only|].
  assert (∀ a, a ≠ P → a ≠ Lf → ¬ upper Ls j a → recs s6 a = recs t a) as Hother.
  { intros a H1 H2 H3. rewrite Hfr, Hrecs4, !decide_False by done. done. }
  assert (∀ a, par s6 a = if decide (ll.2 = Some a) then Some P else par t a) as Hpar.
  { intros a. by rewrite (ko_par _ _ Hko). }
  rewrite <- (list_insert_id Ls j (l1' ++ Lf :: P :: l2)) by done.
  assert (∀ a r, a ∈ l1' ++ Lf :: P :: l2 → r ∈ recs s6 a →
            (r = ll ∧ a = P) ∨ (r ∈ erecs (Some (P, i)) t a ∧ (a = Lf → r ∈ init))) as Hin.
  { intros a r Ha Hr6.
    rewrite Hfr, Hrecs4 in Hr6 by (by eapply (not_upper_level _ _ Hsh)).
    destruct (decide (a = Lf)) as [->|HaL].
    - right. rewrite erecs_other by done. rewrite EL. set_solver.
    - destruct (decide (a = P)) as [->|HaP].
      + apply elem_of_cons in Hr6 as [->|Hr6]; [by left|].
        right. by rewrite erecs_hole.
      + right. by rewrite erecs_other. }
  eapply (content_regroup order t Ls K j P i Hh (l1' ++ [Lf]) l2 Hj); try done.
  - rewrite (ko_size _ _ Hko). unfold s4, s3, s2, s1. by autorewrite with st.
  - intros j0 L0 a Hlt0 HL0 Ha.
    assert (a ≠ P) as HaP.
    { intros ->. pose proof (sh_disj _ _ Hsh _ _ _ _ _ HL0 Hj' Ha HPin). lia. }
    assert (a ≠ Lf) as HaL.
    { intros ->. pose proof (sh_disj _ _ Hsh _ _ _ _ _ HL0 Hj' Ha HLin). lia. }
    split.
    + apply Hother; try done. intros (i' & L' & Hlt' & HL' & Ha').
      pose proof (sh_disj _ _ Hsh _ _ _ _ _ HL0 HL' Ha Ha'). lia.
    + intros Hlt'. rewrite Hpar. case_decide as Ec; [|done].
      pose proof (Hkl _ _ _ HL0 Ha Ec). lia.
  - rewrite <- !app_assoc. simpl. rewrite !fmap_app, !concat_app. csimpl.
    rewrite (Hfr P), (Hfr Lf), (Hrecs4 P), (Hrecs4 Lf), erecs_hole,
      (erecs_other _ _ _ Lf), EL by done.
    destruct (decide (P = Lf)) as [E|_]; [by rewrite E in HPL|].
    destruct (decide (P = P)); [|done]. destruct (decide (Lf = Lf)); [|done]. fold dP.
    rewrite <- !app_assoc. simpl. f_equal; [|do 3 f_equal].
    + f_equal. apply list_fmap_ext. intros ? a Ha%list_elem_of_lookup_2.
      rewrite erecs_other by set_solver. apply Hother; [set_solver..|].
      eapply (not_upper_level _ _ Hsh); [exact Hj'|set_solver].
    + f_equal. apply list_fmap_ext. intros ? a Ha%list_elem_of_lookup_2.
      rewrite erecs_other by set_solver. apply Hother; [set_solver..|].
      eapply (not_upper_level _ _ Hsh); [exact Hj'|set_solver].
  - intros a r c Ha Hr6 Hc. rewrite Hpar.
    destruct (Hin a r Ha Hr6) as [[-> ->]|[Hre HinL]].
    + by rewrite decide_True.
    + destruct (kid_level _ _ _ _ _ _ _ Hct j _ a r c Hj' Ha Hre Hc)
        as (j' & lo & _ & _ & _ & Hp & Hk).
      case_decide as Ec; [|done].
      destruct (Hkid c Ec) as (_ & _ & _ & _ & _ & Hp' & Hk').
      assert (a = Lf) as -> by congruence.
      pose proof (node_sorted _ _ _ _ _ _ _ Hsh Hct j _ Lf Hj' HLin) as Hsrt.
      rewrite erecs_other, EL in Hsrt by done. unfold keys in Hsrt.
      rewrite fmap_app in Hsrt.
      assert (r.1 < ll.1); [|rewrite Hk in Hk'; injection Hk'; lia].
      eapply (StronglySorted_app_1_elem_of _ _ _ _ _ Hsrt); [|set_solver].
      apply list_elem_of_fmap. exists r. split; [done|by apply HinL].
  - intros i' up lo Hle Hup Hlo. rewrite list_insert_id in Hup, Hlo by done.
    assert (above s6 Ls j (alk s6)) as Hab.
    { eapply above_ext; [|exact Hab6].
      intros L a HL Ha. rewrite Hj' in HL. injection HL as <-.
      unfold upd, alk. rewrite Hfr, Hrecs4 by (by eapply (not_upper_level _ _ Hsh)).
      destruct (decide (a = P)) as [->|HaP].
      - rewrite decide_False by done. rewrite Hfr5, Hrecs4 by done.
        by rewrite decide_False, decide_True.
      - destruct (decide (a = Lf)) as [->|HaL]; [by rewrite Einit, last_key_snoc|done]. }
    specialize (Hab i' up lo Hle Hup Hlo). by case_decide.
  - intros j0 L0 a HL0 Ha. rewrite list_insert_id in HL0 by done.
    destruct (ct_fill _ _ _ _ _ _ _ Hct _ _ _ HL0 Ha) as [Hub Hlb].
    rewrite (ko_root _ _ Hko), Hroot4. rewrite decide_False in Hub |- * by done.
    rewrite (length_kids_eq _ _ (ko_kids _ _ Hko a)), Hrecs4.
    destruct (decide (a = Lf)) as [->|HaL].
    + rewrite decide_False by (by eapply (not_root_pair t Ls Hsh j l1' Lf P l2)).
      rewrite EL, length_app in Hub, HLlen. simpl in Hub, HLlen. lia.
    + destruct (decide (a = P)) as [->|HaP]; [|done].
      simpl. rewrite decide_False in Hlb |- * by done. lia.
Qed.

Lemma arm_borrow_left :
  m_root t ≠ Some P → classify order t (nd t P) = BORROW_LEFT →
  ∃ t', erase_helper order (Some P) i t = Some ((false, (Some P, i)), t') ∧
        shape t' Ls ∧ content order None None 2 t' Ls K.
Proof.
  intros Hr Hcl.
  destruct (arm_borrow_left_records Hr Hcl)
    as (t' & Lf & init & ll & _ & _ & _ & Hrun & _ & _ & Hsh & Hct).
  by exists t'.
Qed.

End ArmBorrowLeft.

(** ** Merging two siblings *)

Lemma sorted_levels t h (Ls : list (list nat)) K j :
  (∀ i up lo, Ls !! S i = Some up → Ls !! i = Some lo → fam t h (alk t) up lo) →
  level_keys h t (default [] (Ls !! 0%nat)) = K → StronglySorted Z.lt K →
  (∀ P i j0 L0, h = Some (P, i) → Ls !! j0 = Some L0 → P ∈ L0 → (j < j0)%nat) →
  ∀ j0 L, (j0 ≤ j)%nat → Ls !! j0 = Some L →
    StronglySorted Z.lt (level_keys h t L) ∧ StronglySorted Z.lt (omap (alk t) L).
Proof.
  intros Hfam Hk Hs Hh.
  assert (∀ j0 L, (j0 ≤ j)%nat → Ls !! j0 = Some L →
          StronglySorted Z.lt (level_keys h t L) →
          StronglySorted Z.lt (omap (alk t) L)) as Hlast.
  { intros j0 L Hle HL HS. rewrite (omap_ext_in _ (λ a, last_key (erecs h t a))).
    - by apply sorted_lasts.
    - intros a Ha. unfold alk. rewrite (erecs_not_in h t L); [done| |done].
      intros P i -> HP. specialize (Hh P i j0 L eq_refl HL HP). lia. }
  induction j0 as [|j0 IH]; intros L Hle HL.
  - assert (StronglySorted Z.lt (level_keys h t L)) as HS.
    { rewrite HL in Hk. simpl in Hk. by rewrite Hk. }
    split; [done|]. by eapply Hlast.
  - destruct (lookup_lt_is_Some_2 Ls j0) as [lo Hlo].
    { apply lookup_lt_Some in HL. lia. }
    destruct (IH lo) as [_ HSlo]; [lia|done|].
    assert (StronglySorted Z.lt (level_keys h t L)) as HS.
    { unfold level_keys. by rewrite (level_keys_eq _ _ _ _ _ (Hfam _ _ _ HL Hlo)). }
    split; [done|]. by eapply Hlast.
Qed.

Lemma delete_insert_same {A} (l : list A) i x : base.delete i (<[i := x]> l) = base.delete i l.
Proof. revert i. induction l as [|y l IH]; intros [|i]; simpl; by rewrite ?IH. Qed.

Lemma last_key_insert (l : list (Z * option nat)) i k c c' :
  l !! i = Some (k, c) → last_key (<[i := (k, c')]> l) = last_key l.
Proof.
  intros Hi. unfold last_key. rewrite !last_lookup, length_insert.
  destruct (decide (i = Nat.pred (length l))) as [->|Hne].
  - rewrite list_lookup_insert_eq by (apply lookup_lt_Some in Hi; lia). by rewrite Hi.
  - by rewrite list_lookup_insert_ne.
Qed.

Section Unlink.

Context (t0 s t' : tree) (Ls : list (list nat)) (j : nat) (lk : nat → option Z).
Context (l1 l2 up : list nat) (A pp q : nat) (kA : Z).
Context (Hsh : shape t0 Ls).
Context (Hj : Ls !! j = Some (l1 ++ A :: l2)) (Hup : Ls !! S j = Some up) (Hpp : pp ∈ up).
Context (Hab : above s Ls j lk).
Context (Hq : recs s pp !! q = Some (kA, Some A)).
Context (Hrecs : ∀ a, upper Ls j a →
  recs t' a = if decide (a = pp) then <[q := (kA, None)]> (recs s pp) else recs s a).
Context (Hpar : ∀ i L a, (j ≤ i)%nat → Ls !! i = Some L → a ∈ L → a ≠ A → par t' a = par s a).
Context (Hlk : ∀ a, a ∈ l1 ++ l2 → alk t' a = lk a).

Lemma unlink_erecs a : upper Ls j a →
  erecs (Some (pp, q)) t' a = if decide (a = pp) then base.delete q (recs s pp) else recs s a.
Proof.
  intros Ha. unfold erecs. rewrite Hrecs by done.
  case_decide; [|done]. apply delete_insert_same.
Qed.

Lemma unlink_fam i' up' lo :
  (j ≤ i')%nat →
  <[j := l1 ++ l2]> Ls !! S i' = Some up' → <[j := l1 ++ l2]> Ls !! i' = Some lo →
  fam t' (Some (pp, q)) (alk t') up' lo.
Proof.
  intros Hle Hup' Hlo. rewrite list_lookup_insert_ne in Hup' by lia.
  destruct (decide (i' = j)) as [->|Hne].
  - rewrite list_lookup_insert_eq in Hlo by (by eapply lookup_lt_Some). injection Hlo as <-.
    rewrite Hup in Hup'. injection Hup' as <-.
    pose proof (Hab j up _ Hle Hup Hj) as Hf. rewrite decide_True in Hf by done.
    pose proof (sh_nodup _ _ Hsh _ _ Hj) as HndL.
    pose proof (sh_nodup _ _ Hsh _ _ Hup) as HndU.
    pose proof (take_drop_middle _ _ _ Hq) as Esp.
    set (rs1 := take q (recs s pp)) in *. set (rs2 := drop (S q) (recs s pp)) in *.
    assert (base.delete q (recs s pp) = rs1 ++ rs2) as Edel by apply delete_take_drop.
    destruct (fam_unique _ _ _ _ _ pp rs1 kA A rs2 Hf HndL HndU Hpp) as (Hu1 & Hu2 & Hu3).
    { erecs_none. by rewrite Esp. }
    assert (∀ a r, a ∈ up → r ∈ erecs (Some (pp, q)) t' a → r ∈ recs s a ∧ r.2 ≠ Some A) as Hin.
    { intros a r Ha Hr. rewrite unlink_erecs in Hr by (by eapply upper_level).
      case_decide as E.
      - subst a. rewrite Edel in Hr. rewrite <- Esp. split; [set_solver|].
        intros Hc. apply elem_of_app in Hr as [Hr|Hr].
        + apply Hu1. apply list_elem_of_fmap. by exists r.
        + apply Hu2. apply list_elem_of_fmap. by exists r.
      - split; [done|]. intros Hc. apply (Hu3 a Ha E).
        erecs_none. apply list_elem_of_fmap. by exists r. }
    split.
    + apply list_elem_of_split in Hpp as (u1 & u2 & ->).
      apply NoDup_app in HndU as (_ & Hd1 & [Hd2 _]%NoDup_cons).
      pose proof (fam_kids _ _ _ _ _ Hf) as Hk.
      change (erecs None s) with (recs s) in *.
      rewrite fmap_app, concat_app in Hk |- *. csimpl in Hk. csimpl.
      rewrite unlink_erecs, decide_True by (done || (eapply upper_level; [done|set_solver])).
      rewrite <- Esp in Hk. rewrite Edel. unfold kids in Hk |- *.
      rewrite !fmap_app in Hk |- *. csimpl in Hk.
      rewrite <- !app_assoc in Hk. simpl in Hk.
      rewrite (app_assoc _ (rs1.*2)) in Hk.
      destruct (not_elem_of_app_cons_inv_l (Some A) (Some A)
                  (concat ((λ a, (recs s a).*2) <$> u1) ++ rs1.*2)
                  (rs2.*2 ++ concat ((λ a, (recs s a).*2) <$> u2))
                  (Some <$> l1) (Some <$> l2)) as (E1 & _ & E2).
      { apply NoDup_app in HndL as (_ & Hd & _). intros (x & [= <-] & Hx)%list_elem_of_fmap.
        apply (Hd A); [done|set_solver]. }
      { intros [Hx|Hx]%elem_of_app; [|by apply Hu1].
        apply elem_of_concat in Hx as (l & Hx & (a & -> & Ha)%list_elem_of_fmap).
        apply (Hu3 a); [set_solver|intros ->; apply (Hd1 pp Ha); set_solver|done]. }
      { done. }
      assert (∀ u : list nat, pp ∉ u → (∀ a, a ∈ u → a ∈ u1 ++ pp :: u2) →
                (λ a, (erecs (Some (pp, q)) t' a).*2) <$> u = (λ a, (recs s a).*2) <$> u) as Hu.
      { intros u Hnu Hsub. apply list_fmap_ext. intros ? a Ha%list_elem_of_lookup_2. simpl.
        rewrite unlink_erecs by (eapply upper_level; [done|by apply Hsub]).
        rewrite decide_False; [done|]. by intros ->. }
      rewrite (Hu u1), (Hu u2) by set_solver.
      rewrite <- E1, <- E2. by rewrite <- !app_assoc.
    + intros a r c Ha Hr Hc. destruct (Hin a r Ha Hr) as [Hrs HnA].
      destruct (fam_rec _ _ _ _ _ Hf a r c Ha Hrs Hc) as [Hp Hk].
      assert (c ∈ l1 ++ A :: l2) as Hcin by (by eapply fam_kid_in).
      assert (c ≠ A) as HcA by (intros ->; by rewrite Hc in HnA).
      split.
      * rewrite (Hpar j (l1 ++ A :: l2) c); [done|lia|done..].
      * rewrite Hlk; [done|]. set_solver.
  - rewrite list_lookup_insert_ne in Hlo by done.
    pose proof (Hab i' up' lo Hle Hup' Hlo) as Hf.
    rewrite decide_False in Hf by done.
    assert (∀ a, a ∈ up' → a ≠ pp) as Hnp.
    { intros a Ha ->. pose proof (sh_disj _ _ Hsh _ _ _ _ _ Hup Hup' Hpp Ha). lia. }
    eapply fam_ext; [| | |exact Hf].
    + intros a Ha. rewrite unlink_erecs.
      * rewrite decide_False; [done|by apply Hnp].
      * exists (S i'), up'. split; [lia|done].
    + intros c Hc. apply (Hpar i' lo); [lia|done..|].
      intros ->. assert (A ∈ l1 ++ A :: l2) as HA by set_solver.
      pose proof (sh_disj _ _ Hsh _ _ _ _ _ Hj Hlo HA Hc). lia.
    + intros c Hc. unfold alk. rewrite Hrecs by (exists i', lo; split; [lia|done]).
      case_decide as E; [|done]. subst c. by eapply last_key_insert.
Qed.

Lemma unlink_hole K :
  (∀ i' up' lo, <[j := l1 ++ l2]> Ls !! S i' = Some up' →
     <[j := l1 ++ l2]> Ls !! i' = Some lo → fam t' (Some (pp, q)) (alk t') up' lo) →
  level_keys (Some (pp, q)) t' (default [] (<[j := l1 ++ l2]> Ls !! 0%nat)) = K →
  StronglySorted Z.lt K → (S q < length (recs s pp))%nat →
  hole_ok (Some (pp, q)) t' (<[j := l1 ++ l2]> Ls).
Proof.
  intros Hall Hk HS Hlt.
  assert (upper Ls j pp) as Hupp by (by eapply upper_level).
  assert (<[j := l1 ++ l2]> Ls !! S j = Some up) as Hup'.
  { by rewrite list_lookup_insert_ne by lia. }
  assert (<[j := l1 ++ l2]> Ls !! j = Some (l1 ++ l2)) as Hj'.
  { rewrite list_lookup_insert_eq; [done|]. by eapply lookup_lt_Some. }
  split.
  - exists (S j), up. split; [done|]. split; [done|].
    destruct (sorted_levels t' (Some (pp, q)) _ K j Hall Hk HS) with (j0 := j) (L := l1 ++ l2)
      as [_ Hs]; [|lia|done|].
    { intros P i j0 L0 [= <- <-] HL0 HP. destruct (decide (j0 = j)) as [->|Hne].
      - rewrite Hj' in HL0. injection HL0 as <-.
        assert (pp ∈ l1 ++ A :: l2) as HP' by set_solver.
        pose proof (sh_disj _ _ Hsh _ _ _ _ _ Hj Hup HP' Hpp). lia.
      - rewrite list_lookup_insert_ne in HL0 by done.
        pose proof (sh_disj _ _ Hsh _ _ _ _ _ HL0 Hup HP Hpp). lia. }
    rewrite <- (level_keys_eq _ _ _ _ _ (Hall _ _ _ Hup' Hj')) in Hs.
    apply (sorted_lasts (erecs (Some (pp, q)) t')) in Hs.
    rewrite (omap_ext_in _ (λ a, last_key (erecs (Some (pp, q)) t' a))); [done|].
    intros a Ha. unfold alk. destruct (decide (a = pp)) as [->|Hne].
    + rewrite erecs_hole. unfold last_key. rewrite last_delete_lt; [done|].
      rewrite Hrecs, decide_True, length_insert by done. done.
    + by rewrite erecs_other.
  - exists kA. rewrite Hrecs, decide_True by done.
    apply list_lookup_insert_eq. lia.
Qed.

End Unlink.

(** The loops that move all the records of a node *)

Lemma reparented_nil t p : reparented t t [] p.
Proof. by split. Qed.

Lemma reparented_step t t1 t2 c cs p :
  (∀ a, c = Some a → live t a) →
  same_links (adopted c (Some p) t) t1 → reparented t1 t2 cs p →
  reparented t t2 (c :: cs) p.
Proof.
  intros Hc Hsl Hrp. split.
  - rewrite (rp_root _ _ _ _ Hrp), (sl_root _ _ Hsl). by autorewrite with st.
  - rewrite (rp_size _ _ _ _ Hrp), (sl_size _ _ Hsl). by autorewrite with st.
  - intros a. rewrite (rp_live _ _ _ _ Hrp), (sl_live _ _ Hsl).
    unfold adopted. destruct c as [c|]; [|done]. apply live_wr. by apply Hc.
  - intros a. rewrite (rp_nxt _ _ _ _ Hrp), (sl_nxt _ _ Hsl). by autorewrite with st.
  - intros a. rewrite (rp_prv _ _ _ _ Hrp), (sl_prv _ _ Hsl). by autorewrite with st.
  - intros a. rewrite (rp_leaf _ _ _ _ Hrp), (sl_leaf _ _ Hsl). by autorewrite with st.
  - intros a. rewrite (rp_par _ _ _ _ Hrp), (sl_par _ _ Hsl). autorewrite with st.
    repeat case_decide; try done; set_solver.
Qed.

Lemma take_all_run rs : ∀ t node,
  live t node →
  (∀ r c, r ∈ rs → r.2 = Some c → live t c) →
  StronglySorted Z.lt (keys (rev rs ++ recs t node)) →
  ∃ t', take_all rs (Some node) t = Some (tt, t') ∧
        reparented t t' (kids rs) node ∧
        (∀ a, recs t' a = if decide (a = node) then rev rs ++ recs t node else recs t a).
Proof.
  induction rs as [|r rs IH]; intros t node Hl Hc Hs.
  - exists t. split; [done|]. split; [apply reparented_nil|].
    intros a. by case_decide; subst.
  - simpl in Hs. rewrite <- app_assoc in Hs. simpl in Hs.
    set (t1 := adopted r.2 (Some node) t).
    set (t2 := wr node (set_records (r :: recs t node)) t1).
    assert (∀ a, r.2 = Some a → live t a) as Hc0.
    { intros a Ha. apply (Hc r a); [set_solver|done]. }
    assert (live t1 node) as Hl1 by (unfold t1; auto with live).
    assert (recs t1 node = recs t node) as E1 by (unfold t1; by autorewrite with st).
    destruct (IH t2 node) as (t' & Hrun & Hrp & Hrecs).
    { unfold t2. auto with live. }
    { intros q c Hq Hqc. unfold t2, t1. apply live_wr_2, live_adopted.
      apply (Hc q c); [set_solver|done]. }
    { unfold t2. autorewrite with st. by rewrite decide_True. }
    exists t'. split; [|split].
    + simpl. rewrite (bind_run _ _ _ _ _ (adopt_run t r.2 (Some node) Hc0)). fold t1.
      rewrite (bind_run _ _ _ _ _ (insert_record_run t1 node r Hl1)).
      rewrite E1, set_insert_front.
      * simpl. fold t2. exact Hrun.
      * unfold keys in Hs. rewrite fmap_app in Hs.
        apply StronglySorted_app_1_r in Hs. csimpl in Hs.
        apply StronglySorted_cons in Hs as [Hs _].
        destruct (recs t node) as [|q l]; [done|].
        csimpl in Hs. by apply Forall_cons in Hs as [? _].
    + eapply (reparented_step t t2); [done| |exact Hrp].
      unfold t2. by apply same_links_set_records.
    + intros a. rewrite Hrecs. unfold t2, t1. autorewrite with st.
      case_decide; [|by rewrite decide_False by done]. subst a.
      rewrite decide_True by done. simpl. by rewrite <- app_assoc.
Qed.

Lemma give_all_run rest : ∀ t node right m o,
  live t node → live t right → node ≠ right →
  (∀ r c, r ∈ rest → r.2 = Some c → live t c) →
  recs t node = rest → recs t right = m ++ o →
  StronglySorted Z.lt (keys (m ++ rest ++ o)) →
  ∃ t', give_all (length rest) (Some node) (Some right) t = Some (tt, t') ∧
        reparented t t' (kids rest) right ∧
        (∀ a, recs t' a = if decide (a = node) then []
                          else if decide (a = right) then m ++ rest ++ o else recs t a).
Proof.
  induction rest as [|r rest IH]; intros t node right m o Hl Hlr Hne Hc En Er Hs.
  - exists t. split; [done|]. split; [apply reparented_nil|].
    intros a. repeat case_decide; by subst.
  - set (t1 := adopted r.2 (Some right) t).
    set (t2 := wr right (set_records (m ++ r :: o)) t1).
    set (t3 := wr node (set_records rest) t2).
    assert (∀ a, r.2 = Some a → live t a) as Hc0.
    { intros a Ha. apply (Hc r a); [set_solver|done]. }
    assert (live t1 right) as Hl1 by (unfold t1; auto with live).
    assert (live t2 node) as Hl2 by (unfold t2, t1; auto with live).
    assert (recs t1 right = m ++ o) as E1 by (unfold t1; by autorewrite with st).
    assert (recs t2 node = r :: rest) as E2.
    { unfold t2, t1. autorewrite with st. by rewrite decide_False by done. }
    destruct (IH t3 node right (m ++ [r]) o) as (t' & Hrun & Hrp & Hrecs); try done.
    { unfold t3. auto with live. }
    { unfold t3, t2, t1. auto 10 with live. }
    { intros q c Hq Hqc. unfold t3, t2, t1. do 2 apply live_wr_2. apply live_adopted.
      apply (Hc q c); [set_solver|done]. }
    { unfold t3. autorewrite with st. by rewrite decide_True. }
    { unfold t3, t2. autorewrite with st. rewrite decide_False, decide_True by done.
      by rewrite <- app_assoc. }
    { by rewrite <- app_assoc. }
    exists t'. split; [|split].
    + simpl. unfold first_record.
      rewrite (bind_run _ _ _ _ _ (record_at_run t node 0 r Hl ltac:(by rewrite En))).
      rewrite (bind_run _ _ _ _ _ (adopt_run t r.2 (Some right) Hc0)). fold t1.
      rewrite (bind_run _ _ _ _ _ (insert_record_run t1 right r Hl1)).
      rewrite E1, set_insert_split.
      * simpl. fold t2.
        rewrite (bind_run _ _ _ _ _
          (erase_record_run t2 node 0 Hl2 ltac:(rewrite E2; simpl; lia))).
        rewrite E2. simpl. fold t3. exact Hrun.
      * apply Forall_forall. intros q Hq. unfold keys in Hs. rewrite fmap_app in Hs.
        eapply (StronglySorted_app_1_elem_of _ _ _ _ _ Hs).
        -- apply list_elem_of_fmap. by exists q.
        -- csimpl. set_solver.
      * unfold keys in Hs. rewrite fmap_app in Hs.
        apply StronglySorted_app_1_r in Hs. csimpl in Hs.
        apply StronglySorted_cons in Hs as [Hs _].
        destruct o as [|q o]; [done|]. rewrite fmap_app in Hs. csimpl in Hs.
        rewrite Forall_forall in Hs. apply Hs. set_solver.
    + eapply (reparented_step t t3); [done| |exact Hrp].
      unfold t3, t2. eapply same_links_trans; apply same_links_set_records; auto with live.
    + intros a. rewrite Hrecs. unfold t3, t2, t1. autorewrite with st.
      destruct (decide (a = node)) as [->|Hn]; [done|].
      destruct (decide (a = right)) as [->|Hr].
      * by rewrite <- !app_assoc.
      * by rewrite !decide_False by done.
Qed.

(** Taking a node out of the list of its level *)

Lemma chain_unlink t t' p L1 A B L2 e :
  NoDup (L1 ++ A :: B :: L2) →
  (∀ a, a ∈ L1 ++ A :: B :: L2 → p ≠ Some a) →
  (∀ a, a ≠ A → nxt t' a = if decide (prv t A = Some a) then Some B else nxt t a) →
  (∀ a, a ≠ A → prv t' a = if decide (a = B) then prv t A else prv t a) →
  chain_from t p (L1 ++ A :: B :: L2) e → chain_from t' p (L1 ++ B :: L2) e.
Proof.
  intros Hnd Hp Hn Hv Hc.
  apply chain_from_app in Hc as [Hc1 Hc2]. simpl in Hc1.
  cbn [chain_from] in Hc2. destruct Hc2 as (HpA & HnA & HpB & HnB & Hc2).
  simpl in HnA.
  apply NoDup_app in Hnd as (Hnd1 & Hd & [HA [HB Hnd2]%NoDup_cons]%NoDup_cons).
  assert (prv t A ≠ Some B) as HAB.
  { rewrite HpA. destruct (last L1) as [x|] eqn:Ex; simpl.
    - intros [= ->]. apply last_Some_elem_of in Ex. apply (Hd B Ex). set_solver.
    - apply Hp. set_solver. }
  apply chain_from_app. split.
  - simpl. destruct L1 as [|x L1 _] using rev_ind; [done|].
    apply chain_from_app in Hc1 as [Hc1 Hcx]. simpl in Hc1.
    cbn [chain_from] in Hcx. destruct Hcx as (Hpx & Hnx & _). simpl in Hnx.
    rewrite last_snoc in HpA. simpl in HpA.
    assert (x ≠ A ∧ x ≠ B) as [HxA HxB].
    { split; intros E; subst x; [apply (Hd A)|apply (Hd B)]; set_solver. }
    apply chain_from_app. split.
    + simpl. eapply chain_from_ext; [|exact Hc1]. intros a Ha.
      assert (a ≠ A ∧ a ≠ B ∧ a ≠ x) as (H1 & H2 & H3).
      { apply NoDup_app in Hnd1 as (_ & Hd1 & _).
        split; [|split]; intros E; subst a.
        - apply (Hd A); set_solver.
        - apply (Hd B); set_solver.
        - apply (Hd1 x Ha). set_solver. }
      rewrite Hn, Hv by done. rewrite !decide_False; [done|done|].
      rewrite HpA. by intros [= ->].
    + cbn [chain_from]. rewrite Hn, Hv by done.
      rewrite decide_False by done. by rewrite decide_True by done.
  - cbn [chain_from]. rewrite Hn, Hv by (intros ->; set_solver).
    rewrite decide_True by done. rewrite decide_False by done.
    split; [done|]. split; [done|].
    eapply chain_from_ext; [|exact Hc2]. intros a Ha.
    assert (a ≠ A ∧ a ≠ B) as [H1 H2] by (split; intros ->; set_solver).
    rewrite Hn, Hv by done. rewrite !decide_False; [done|done|].
    rewrite HpA. destruct (last L1) as [x|] eqn:Ex; simpl.
    + intros [= ->]. apply last_Some_elem_of in Ex. apply (Hd a Ex). set_solver.
    + apply Hp. set_solver.
Qed.

Lemma unlink_shape t t' Ls j l1 A B l2 :
  shape t Ls → Ls !! j = Some (l1 ++ A :: B :: l2) →
  m_root t' = m_root t →
  (∀ a, a ≠ A → live t a → live t' a) →
  (∀ a, a ≠ A → leaf t' a = leaf t a) →
  (∀ a, a ≠ A → nxt t' a = if decide (prv t A = Some a) then Some B else nxt t a) →
  (∀ a, a ≠ A → prv t' a = if decide (a = B) then prv t A else prv t a) →
  (∀ r, m_root t = Some r → par t' r = par t r) →
  shape t' (<[j := l1 ++ B :: l2]> Ls).
Proof.
  intros Hsh Hj Hroot Hlive Hleaf Hn Hv Hpar.
  pose proof (chain_prev _ _ _ _ _ _ Hsh Hj) as HpA.
  assert (∀ j0 L a, Ls !! j0 = Some L → a ∈ L → a ≠ header) as Hnh.
  { intros j0 L a HL Ha ->. by apply (sh_not_header _ _ Hsh _ _ HL). }
  assert (A ∈ l1 ++ A :: B :: l2) as HA by set_solver.
  assert (B ∈ l1 ++ A :: B :: l2) as HB by set_solver.
  assert (header ≠ A) as HhA by (intros E; by apply (Hnh _ _ _ Hj HA)).
  assert (header ≠ B) as HhB by (intros E; by apply (Hnh _ _ _ Hj HB)).
  assert (∀ x, last l1 = Some x → x ≠ header) as Hlast.
  { intros x Hx%last_Some_elem_of. apply (Hnh _ _ _ Hj). set_solver. }
  apply (shape_remove t t' Ls j l1 A (B :: l2)); try done.
  - by destruct l1.
  - intros j0 L a HL Ha HaA. split; [|by apply Hleaf].
    apply Hlive; [done|]. by eapply sh_live.
  - apply Hlive; [done|]. apply (sh_header _ _ Hsh).
  - intros j0 L a Hne HL Ha.
    assert (a ≠ A) as H1.
    { intros ->. by pose proof (sh_disj _ _ Hsh _ _ _ _ _ HL Hj Ha HA). }
    assert (a ≠ B) as H2.
    { intros ->. by pose proof (sh_disj _ _ Hsh _ _ _ _ _ HL Hj Ha HB). }
    rewrite Hn, Hv by done. rewrite !decide_False; [done|done|].
    rewrite HpA. destruct (last l1) as [x|] eqn:Ex; simpl.
    + intros [= ->]. apply last_Some_elem_of in Ex.
      assert (a ∈ l1 ++ A :: B :: l2) as Hin by set_solver.
      by pose proof (sh_disj _ _ Hsh _ _ _ _ _ HL Hj Ha Hin).
    + destruct j; simpl; [|done]. intros [= <-]. by apply (Hnh _ _ _ HL Ha).
  - eapply chain_unlink; [by eapply sh_nodup| |done|done|by apply (sh_chain _ _ Hsh)].
    intros a Ha. destruct j; simpl; [|done]. intros [= <-]. by apply (Hnh _ _ _ Hj Ha).
  - rewrite Hn by done. rewrite (sh_hdr_next _ _ Hsh).
    destruct j as [|j].
    + rewrite list_lookup_insert_eq by (by eapply lookup_lt_Some). rewrite Hj.
      rewrite HpA. simpl. destruct l1 as [|x l1 _] using rev_ind.
      * by rewrite decide_True.
      * rewrite last_snoc. cbn [from_option]. rewrite decide_False.
        -- by destruct l1.
        -- intros [= ->]. eapply (Hnh 0%nat _ header Hj); [set_solver|done].
    + rewrite list_lookup_insert_ne by done. rewrite decide_False; [done|].
      rewrite HpA. destruct (last l1) as [x|] eqn:Ex; simpl; [|done].
      intros [= ->]. by apply (Hlast header).
  - rewrite Hv by done. rewrite decide_False by done. rewrite (sh_hdr_pre _ _ Hsh).
    destruct j as [|j].
    + rewrite list_lookup_insert_eq by (by eapply lookup_lt_Some). rewrite Hj.
      simpl. by rewrite !last_app_cons, last_cons_cons.
    + by rewrite list_lookup_insert_ne by done.
Qed.

Lemma level_above t Ls j L :
  shape t Ls → Ls !! j = Some L → (2 ≤ length L)%nat → ∃ up, Ls !! S j = Some up.
Proof.
  intros Hsh Hj Hlen. apply lookup_lt_is_Some_2.
  pose proof (lookup_lt_Some _ _ _ Hj) as Hlt.
  destruct (decide (length Ls = S j)) as [E|]; [|lia].
  destruct (top_level _ _ Hsh _ _ Hj E) as (r & -> & _). simpl in Hlen. lia.
Qed.

Lemma reparented_ext t t' cs cs' p :
  reparented t t' cs p → (∀ x, x ∈ cs ↔ x ∈ cs') → reparented t t' cs' p.
Proof.
  intros [H1 H2 H3 H4 H5 H6 H7] Hx. split; try done. intros a. rewrite H7.
  repeat case_decide; try done; exfalso; set_solver.
Qed.

Lemma reparented_pre t t1 t2 cs p :
  same_links t t1 → reparented t1 t2 cs p → reparented t t2 cs p.
Proof.
  intros [S1 S2 S3 S4 S5 S6 S7] [H1 H2 H3 H4 H5 H6 H7].
  split; try congruence; intros a; by rewrite ?H3, ?H7, ?S6.
Qed.

Lemma reparented_post t t1 t2 cs p :
  reparented t t1 cs p → same_links t1 t2 → reparented t t2 cs p.
Proof.
  intros [H1 H2 H3 H4 H5 H6 H7] [S1 S2 S3 S4 S5 S6 S7].
  split; try congruence; intros a; by rewrite ?S3, ?S6, ?H7.
Qed.

Lemma lends_false_inv order t a :
  lends order t (Some a) = false → live t a → is_end (Some a) = false →
  (length (recs t a) ≤ half_order order)%nat.
Proof.
  unfold lends, node_at. simpl. intros H [n Hn] He. rewrite He in H. simpl in H.
  unfold recs. rewrite (nd_lookup _ _ _ Hn). rewrite Hn in H.
  apply bool_decide_eq_false in H. lia.
Qed.

Lemma merge_fits_bound order n s :
  (1 ≤ n)%nat →
  (order = 2%nat → (n ≤ 2 ∧ s ≤ 2)%nat) →
  (order ≠ 2%nat → (n ≤ half_order order ∧ s ≤ half_order order)%nat) →
  merge_fits order n s = true → (n - 1 + s ≤ order)%nat.
Proof.
  intros Hn H2 Hh Hf. destruct (decide (order = 2%nat)) as [E|E].
  - destruct (H2 E). unfold merge_fits in Hf. apply Z.leb_le in Hf.
    rewrite Z.mod_small in Hf by lia. lia.
  - destruct (Hh E). unfold half_order in *.
    pose proof (Nat.div_mod_eq (order + 1) 2).
    pose proof (Nat.mod_upper_bound (order + 1) 2). lia.
Qed.

Lemma classify_merge_left_inv order t n :
  classify order t n = MERGE_LEFT →
  fits order t n (pre n) = true ∧
  (order = 2%nat ∨
   (order ≠ 2%nat ∧ ¬ (half_order order < length (records n))%nat ∧
    lends order t (pre n) = false)).
Proof.
  unfold classify.
  repeat match goal with
         | |- context [if ?b then _ else _] => destruct b eqn:?
         end; try done; intros _; (split; [done|]).
  - left. by apply bool_decide_eq_true in Heqb.
  - right. apply bool_decide_eq_false in Heqb. apply bool_decide_eq_false in Heqb0. done.
Qed.

Lemma classify_merge_right_inv order t n :
  classify order t n = MERGE_RIGHT →
  fits order t n (next n) = true ∧
  (order = 2%nat ∨
   (order ≠ 2%nat ∧ ¬ (half_order order < length (records n))%nat ∧
    lends order t (next n) = false)).
Proof.
  unfold classify.
  repeat match goal with
         | |- context [if ?b then _ else _] => destruct b eqn:?
         end; try done; intros _; (split; [done|]).
  - left. by apply bool_decide_eq_true in Heqb.
  - right. apply bool_decide_eq_false in Heqb. apply bool_decide_eq_false in Heqb0. done.
Qed.

Section Siblings.

Context (order : nat) (h : option (nat * nat)) (over : option nat) (rmin : nat).
Context (t : tree) (Ls : list (list nat)) (K : list Z).
Context (Hsh : shape t Ls) (Hct : content order h over rmin t Ls K).

Lemma adjacent_sorted j l1 a b l2 :
  Ls !! j = Some (l1 ++ a :: b :: l2) →
  StronglySorted Z.lt (keys (erecs h t a ++ erecs h t b)).
Proof.
  intros Hj.
  pose proof (proj1 (level_sorted _ _ _ _ _ _ _ Hsh Hct j _ Hj)) as Hs.
  unfold level_keys in Hs. rewrite fmap_app, concat_app in Hs.
  apply StronglySorted_app_1_r in Hs. csimpl in Hs.
  rewrite app_assoc in Hs. apply StronglySorted_app_1_l in Hs.
  unfold keys. by rewrite fmap_app.
Qed.

Lemma parent_slot j l1 A B l2 :
  (2 ≤ order)%nat → (1 ≤ rmin)%nat →
  (∀ P i j0 L0, h = Some (P, i) → Ls !! j0 = Some L0 → P ∈ L0 → (j0 ≤ j)%nat) →
  Ls !! j = Some (l1 ++ A :: B :: l2) → par t A = par t B →
  ∃ up pp rs1 kA kB rs2,
    Ls !! S j = Some up ∧ pp ∈ up ∧
    recs t pp = rs1 ++ (kA, Some A) :: (kB, Some B) :: rs2 ∧
    par t A = Some pp ∧ alk t A = Some kA ∧ find_idx kA (recs t pp) = length rs1.
Proof.
  intros Ho Hrm Hh Hj Hpar.
  destruct (level_above _ _ _ _ Hsh Hj) as [up Hup].
  { rewrite length_app. simpl. lia. }
  pose proof (content_above _ _ _ _ _ _ _ Hct j Hh j up _ (le_n _) Hup Hj) as Hf.
  rewrite decide_True in Hf by done.
  assert (∀ a, a ∈ up → erecs None t a ≠ []) as Hne.
  { intros a Ha. erecs_none. by eapply (level_nonempty _ _ _ _ _ _ _ Hct). }
  assert (∀ a, a ∈ up → erecs h t a = recs t a) as Her.
  { apply erecs_not_in. intros P i -> HP. specialize (Hh P i (S j) up eq_refl Hup HP). lia. }
  destruct (fam_adjacent _ _ _ _ _ _ _ _ _ Hf Hne eq_refl)
    as [(u1 & pp & u2 & rs1 & kA & kB & rs2 & -> & Hrs & HpA & HpB & HkA & HkB)|
        (u1 & p & p' & u2 & rs1 & kA & kB & rs2 & -> & _ & _ & HpA & HpB & _)].
  - erecs_none. exists (u1 ++ pp :: u2), pp, rs1, kA, kB, rs2.
    assert (pp ∈ u1 ++ pp :: u2) as Hpp by set_solver.
    repeat split; try done. rewrite Hrs. apply find_idx_found.
    pose proof (node_sorted _ _ _ _ _ _ _ Hsh Hct (S j) _ pp Hup Hpp) as Hs.
    rewrite Her, Hrs in Hs by done. by apply sorted_keys_before in Hs.
  - exfalso. rewrite HpA, HpB in Hpar. injection Hpar as <-.
    pose proof (sh_nodup _ _ Hsh _ _ Hup) as Hnd.
    apply NoDup_app in Hnd as (_ & _ & [Hnd _]%NoDup_cons). set_solver.
Qed.

End Siblings.

Section MergeFinish.

Context (order : nat) (t : tree) (Ls : list (list nat)) (K : list Z).
Context (j P i : nat) (Hh : holed order t Ls K j P i).
Context (l1 l2 up : list nat) (A B pp q : nat) (kA : Z) (lk : nat → option Z) (s3 : tree).
Context (Hj : Ls !! j = Some (l1 ++ A :: B :: l2)) (HP : P = A ∨ P = B).
Context (Hup : Ls !! S j = Some up) (Hpp : pp ∈ up).
Context (Hq : recs t pp !! q = Some (kA, Some A)) (Hq1 : (S q < length (recs t pp))%nat).
Context (Hfit :
  (length (erecs (Some (P, i)) t A) + length (erecs (Some (P, i)) t B) ≤ order)%nat).
Context (Hrp : reparented t s3 (kids (erecs (Some (P, i)) t A)) B).
Context (HB : recs s3 B = erecs (Some (P, i)) t A ++ erecs (Some (P, i)) t B).
Context (Hlow : ∀ a, ¬ upper Ls j a → a ≠ A → a ≠ B → recs s3 a = recs t a).
Context (Hkids : ∀ a, upper Ls j a → kids (recs s3 a) = kids (recs t a)).
Context (Hab : above s3 Ls j lk).
Context (Hlk : ∀ a, a ∈ l1 ++ B :: l2 → lk a = alk s3 a).

(** The end of both merge arms: the left node [A] of the pair leaves the
    list of its level and is deleted, and its record in the parent loses
    its child and becomes the record to remove. *)
Lemma merge_finish :
  ∃ t',
    (n1 <- load (Some A) ;;
     when (negb (ptr_eqb (pre n1) None)) (modify (pre n1) (set_next (Some B))) ;;;
     n2 <- load (Some A) ;;
     modify (Some B) (set_pre (pre n2)) ;;;
     delete_node (Some A) ;;;
     overwrite_child (Some pp) q None ;;;
     ret (true, (Some pp, q))) s3 = Some ((true, (Some pp, q)), t') ∧
    holed order t' (<[j := l1 ++ B :: l2]> Ls) K (S j) pp q.
Proof.
  pose proof (holed_shape _ _ _ _ _ _ _ Hh) as Hsh.
  pose proof (holed_content _ _ _ _ _ _ _ Hh) as Hct.
  pose proof (sh_nodup _ _ Hsh _ _ Hj) as Hnd.
  assert (A ≠ B ∧ A ∉ l1 ∧ B ∉ l1 ∧ A ∉ l2 ∧ B ∉ l2) as (HAB & HA1 & HB1 & HA2 & HB2).
  { apply NoDup_app in Hnd as (_ & Hd1 & Hnd). apply NoDup_cons in Hnd as [Hd2 Hnd].
    apply NoDup_cons in Hnd as [Hd3 _]. set_solver. }
  assert (A ∈ l1 ++ A :: B :: l2) as HAin by set_solver.
  assert (B ∈ l1 ++ A :: B :: l2) as HBin by set_solver.
  assert (∀ a, a ∈ l1 ++ B :: l2 → a ∈ l1 ++ A :: B :: l2 ∧ a ≠ A) as Hsub.
  { intros a Ha. split; [set_solver|]. intros ->. set_solver. }
  assert (∀ j0 L a, Ls !! j0 = Some L → a ∈ L → a ≠ header) as Hnh.
  { intros j0 L a HL Ha ->. by apply (sh_not_header _ _ Hsh _ _ HL). }
  assert (pp ≠ A ∧ pp ≠ B) as [HpA HpB].
  { split; intros ->.
    - pose proof (sh_disj _ _ Hsh _ _ _ _ _ Hj Hup HAin Hpp). lia.
    - pose proof (sh_disj _ _ Hsh _ _ _ _ _ Hj Hup HBin Hpp). lia. }
  assert (upper Ls j pp) as Hupp by (by eapply upper_level).
  assert (∀ a, a ∈ l1 ++ A :: B :: l2 → ¬ upper Ls j a) as Hnu.
  { intros a Ha. by eapply (not_upper_level _ _ Hsh). }
  assert (∀ a, a ∈ l1 ++ A :: B :: l2 → a ≠ A → a ≠ B →
            erecs (Some (P, i)) t a = recs t a) as Hoth.
  { intros a Ha H1 H2. apply erecs_other. by destruct HP as [-> | ->]. }
  remember (prv t A) as pA eqn:HpAdef.
  assert (pA = from_option Some (endp j) (last l1)) as EpA.
  { rewrite HpAdef. apply (chain_prev _ _ _ _ _ _ Hsh Hj). }
  assert (∀ x, pA = Some x → live t x ∧ x ≠ A ∧ x ≠ B) as HpAx.
  { intros x Hx. rewrite EpA in Hx. destruct (last l1) as [y|] eqn:Ey; simpl in Hx.
    - injection Hx as ->. apply last_Some_elem_of in Ey.
      split; [apply (sh_live _ _ Hsh _ _ _ Hj); set_solver|].
      split; intros ->; set_solver.
    - destruct j; simpl in Hx; [|done]. injection Hx as <-.
      split; [apply (sh_header _ _ Hsh)|].
      split; intros E; [by apply (Hnh _ _ _ Hj HAin)|by apply (Hnh _ _ _ Hj HBin)]. }
  assert (∀ a, live s3 a ↔ live t a) as Hl3 by apply (rp_live _ _ _ _ Hrp).
  assert (live t A ∧ live t B ∧ live t pp) as (HlA & HlB & Hlpp).
  { split; [|split].
    - exact (sh_live _ _ Hsh _ _ _ Hj HAin).
    - exact (sh_live _ _ Hsh _ _ _ Hj HBin).
    - exact (sh_live _ _ Hsh _ _ _ Hup Hpp). }
  assert (∃ kq, recs s3 pp !! q = Some (kq, Some A)) as [kq Hq3].
  { pose proof (f_equal (λ l, l !! q) (Hkids pp Hupp)) as E. simpl in E.
    unfold kids in E. rewrite !list_lookup_fmap, Hq in E. simpl in E.
    destruct (recs s3 pp !! q) as [[k c]|]; [|done]. simpl in E. injection E as ->.
    by exists k. }
  set (s4 := match pA with Some x => wr x (set_next (Some B)) s3 | None => s3 end).
  set (s5 := wr B (set_pre pA) s4).
  set (s6 := free A s5).
  set (s7 := wr pp (set_records (<[q := (kq, None)]> (recs s3 pp))) s6).
  assert (∀ a, live s3 a → live s4 a) as Hl4.
  { intros a Ha. unfold s4. destruct pA; auto with live. }
  assert (prv s4 A = pA) as Ep4.
  { unfold s4. destruct pA; autorewrite with st; by rewrite (rp_prv _ _ _ _ Hrp). }
  assert (∀ a, a ≠ A → recs s6 a = recs s3 a) as Er6.
  { intros a Ha. unfold s6, s5, s4. rewrite recs_free by done.
    destruct pA; by autorewrite with st. }
  assert (∀ a, a ≠ A → recs s7 a =
            if decide (a = pp) then <[q := (kq, None)]> (recs s3 pp) else recs s3 a) as Er7.
  { intros a Ha. unfold s7. autorewrite with st.
    destruct (decide (pp = a)) as [->|Hne]; [by rewrite decide_True|].
    rewrite decide_False by done. by apply Er6. }
  assert (∀ a, a ≠ A → nxt s7 a = if decide (pA = Some a) then Some B else nxt t a) as En7.
  { intros a Ha. unfold s7, s6, s5, s4. autorewrite with st. rewrite nxt_free by done.
    autorewrite with st. destruct pA as [x|]; autorewrite with st.
    - destruct (decide (x = a)) as [->|Hne].
      + by rewrite decide_True.
      + rewrite decide_False by congruence. apply (rp_nxt _ _ _ _ Hrp).
    - rewrite decide_False by done. apply (rp_nxt _ _ _ _ Hrp). }
  assert (∀ a, a ≠ A → prv s7 a = if decide (a = B) then pA else prv t a) as Ev7.
  { intros a Ha. unfold s7, s6, s5, s4. autorewrite with st. rewrite prv_free by done.
    autorewrite with st. destruct (decide (B = a)) as [->|Hne].
    - by rewrite decide_True.
    - rewrite decide_False by done.
      destruct pA; autorewrite with st; apply (rp_prv _ _ _ _ Hrp). }
  assert (∀ a, a ≠ A → par s7 a = par s3 a) as Ep7.
  { intros a Ha. unfold s7, s6, s5, s4. autorewrite with st. rewrite par_free by done.
    autorewrite with st. destruct pA; by autorewrite with st. }
  assert (∀ a, a ≠ A → leaf s7 a = leaf t a) as Ef7.
  { intros a Ha. unfold s7, s6, s5, s4. autorewrite with st. rewrite leaf_free by done.
    autorewrite with st. destruct pA; autorewrite with st; apply (rp_leaf _ _ _ _ Hrp). }
  assert (∀ a, a ≠ A → live t a → live s7 a) as Hl7.
  { intros a Ha Hl. unfold s7, s6, s5. apply live_wr_2, live_free_2; [done|].
    apply live_wr_2, Hl4. by apply Hl3. }
  assert (m_root s7 = m_root t ∧ m_size s7 = m_size t) as [Hroot Hsize].
  { unfold s7, s6, s5, s4. autorewrite with st.
    destruct pA; autorewrite with st;
      by rewrite (rp_root _ _ _ _ Hrp), (rp_size _ _ _ _ Hrp). }
  assert (∀ a r c, a ∈ l1 ++ A :: B :: l2 → r ∈ erecs (Some (P, i)) t a → r.2 = Some c →
            ∃ j' lo, j = S j' ∧ Ls !! j' = Some lo ∧ c ∈ lo ∧ par t c = Some a) as Hkid.
  { intros a r c Ha Hr Hc.
    destruct (kid_level _ _ _ _ _ _ _ Hct j _ a r c Hj Ha Hr Hc)
      as (j' & lo & ? & ? & ? & ? & _). by exists j', lo. }
  assert (∀ c, Some c ∈ kids (erecs (Some (P, i)) t A) →
            ∃ j' lo, j = S j' ∧ Ls !! j' = Some lo ∧ c ∈ lo ∧ par t c = Some A) as HkA.
  { intros c (r & Hc & Hr)%list_elem_of_fmap. by apply (Hkid A r c). }
  assert (∀ j0 L a, Ls !! j0 = Some L → a ∈ L → (j ≤ j0)%nat →
            Some a ∉ kids (erecs (Some (P, i)) t A)) as HnkA.
  { intros j0 L a HL Ha Hle Hin. destruct (HkA a Hin) as (j' & lo & -> & Hlo & Hc & _).
    pose proof (sh_disj _ _ Hsh _ _ _ _ _ HL Hlo Ha Hc). lia. }
  assert (∀ j0 L0 a, <[j := l1 ++ B :: l2]> Ls !! j0 = Some L0 → a ∈ L0 →
            a ≠ A ∧ ∃ L, Ls !! j0 = Some L ∧ a ∈ L) as Hlev.
  { intros j0 L0 a HL0 Ha. destruct (decide (j0 = j)) as [->|Hne].
    - rewrite list_lookup_insert_eq in HL0 by (by eapply lookup_lt_Some).
      injection HL0 as <-. destruct (Hsub a Ha). split; [done|]. by eexists.
    - rewrite list_lookup_insert_ne in HL0 by done. split; [|by eexists].
      intros ->. by pose proof (sh_disj _ _ Hsh _ _ _ _ _ Hj HL0 HAin Ha). }
  exists s7. split.
  { rewrite (bind_run _ _ _ _ _ (load_live s3 A ltac:(by apply Hl3))).
    change (pre (nd s3 A)) with (prv s3 A). rewrite (rp_prv _ _ _ _ Hrp), <- HpAdef.
    assert (when (negb (ptr_eqb pA None)) (modify pA (set_next (Some B))) s3
            = Some (tt, s4)) as Hw.
    { unfold s4. destruct pA as [x|] eqn:Ex; simpl; [|done].
      apply modify_live. apply Hl3. by destruct (HpAx x). }
    rewrite (bind_run _ _ _ _ _ Hw).
    rewrite (bind_run _ _ _ _ _ (load_live s4 A ltac:(by apply Hl4, Hl3))).
    change (pre (nd s4 A)) with (prv s4 A). rewrite Ep4.
    rewrite (bind_run _ _ _ _ _ (modify_live s4 B _ ltac:(by apply Hl4, Hl3))). fold s5.
    rewrite (bind_run _ _ _ _ _
      (delete_node_live s5 A ltac:(by apply live_wr_2, Hl4, Hl3))). fold s6.
    assert (live s6 pp) as Hl6.
    { unfold s6, s5. apply live_free_2; [done|]. by apply live_wr_2, Hl4, Hl3. }
    rewrite (bind_run _ _ _ _ _
      (overwrite_child_run s6 pp q (kq, Some A) None Hl6 ltac:(by rewrite Er6))).
    rewrite Er6 by done. done. }
  assert (shape s7 (<[j := l1 ++ B :: l2]> Ls)) as Hsh7.
  { apply (unlink_shape t s7 Ls j l1 A B l2); rewrite <- ?HpAdef; try done.
    intros r Hr. assert (r ≠ A) as HrA.
    { intros ->. exact (not_root_pair t Ls Hsh j l1 A B l2 A Hj HAin Hr). }
    rewrite Ep7, (rp_par _ _ _ _ Hrp) by done. case_decide as Ec; [|done].
    destruct (HkA r Ec) as (_ & _ & _ & _ & _ & Hp).
    by rewrite (sh_root_par _ _ Hsh _ Hr) in Hp. }
  destruct (holed_level _ _ _ _ _ _ _ Hh) as (m1 & m2 & Hm).
  assert (m1 ++ P :: m2 = l1 ++ A :: B :: l2) as Em by congruence.
  split; [done|]. split; [|split; [|split]].
  - eapply (content_regroup order t Ls K j P i Hh m1 m2 Hm); try done.
    + intros j0 L0 a Hlt0 HL0 Ha.
      assert (¬ upper Ls j a) as Hnua.
      { intros (i' & L' & Hlt' & HL' & Ha').
        pose proof (sh_disj _ _ Hsh _ _ _ _ _ HL0 HL' Ha Ha'). lia. }
      assert (a ≠ A ∧ a ≠ B ∧ a ≠ pp) as (H1 & H2 & H3).
      { repeat split; intros ->.
        - pose proof (sh_disj _ _ Hsh _ _ _ _ _ HL0 Hj Ha HAin). lia.
        - pose proof (sh_disj _ _ Hsh _ _ _ _ _ HL0 Hj Ha HBin). lia.
        - pose proof (sh_disj _ _ Hsh _ _ _ _ _ HL0 Hup Ha Hpp). lia. }
      split.
      * rewrite Er7, decide_False by done. by apply Hlow.
      * intros Hlt'. rewrite Ep7, (rp_par _ _ _ _ Hrp) by done.
        case_decide as Ec; [|done].
        destruct (HkA a Ec) as (j' & lo & -> & Hlo & Hc & _).
        pose proof (sh_disj _ _ Hsh _ _ _ _ _ HL0 Hlo Ha Hc). lia.
    + intros P' i' j0 L0 [= <- <-] HL0 HP'.
      destruct (Hlev _ _ _ HL0 HP') as (_ & L & HL & HpL).
      pose proof (sh_disj _ _ Hsh _ _ _ _ _ HL Hup HpL Hpp). lia.
    + rewrite Em. rewrite !fmap_app, !concat_app. csimpl.
      rewrite (Er7 B), decide_False, HB by done. rewrite <- !app_assoc.
      assert (∀ u : list nat, (∀ a, a ∈ u → a ∈ l1 ++ A :: B :: l2 ∧ a ≠ A ∧ a ≠ B) →
                recs s7 <$> u = erecs (Some (P, i)) t <$> u) as Hu.
      { intros u Hu. apply list_fmap_ext. intros ? a Ha%list_elem_of_lookup_2.
        destruct (Hu a Ha) as (H1 & H2 & H3).
        rewrite Er7, decide_False, Hoth, Hlow; try done.
        - by apply Hnu.
        - intros ->. by apply (Hnu pp). }
      rewrite (Hu l1), (Hu l2); [done|intros a Ha; repeat split; set_solver..].
    + intros a r c Ha Hr Hc. destruct (Hsub a Ha) as [Hain HaA].
      assert (a ≠ pp) as Hap by (intros ->; by apply (Hnu pp)).
      rewrite Er7, decide_False in Hr by done.
      assert (∃ a0, a0 ∈ l1 ++ A :: B :: l2 ∧ r ∈ erecs (Some (P, i)) t a0 ∧
                (a0 = a ∨ (a0 = A ∧ a = B))) as (a0 & Ha0 & Hr0 & Hor).
      { destruct (decide (a = B)) as [->|HaB].
        - rewrite HB in Hr. apply elem_of_app in Hr as [Hr|Hr].
          + exists A. repeat split; auto.
          + exists B. repeat split; auto.
        - exists a. rewrite Hoth, <- Hlow by (done || by apply Hnu). auto. }
      destruct (Hkid a0 r c Ha0 Hr0 Hc) as (j' & lo & -> & Hlo & Hcin & Hpc).
      assert (c ≠ A) as HcA.
      { intros ->. pose proof (sh_disj _ _ Hsh _ _ _ _ _ Hj Hlo HAin Hcin). lia. }
      rewrite Ep7, (rp_par _ _ _ _ Hrp) by done. case_decide as Ec.
      * destruct (HkA c Ec) as (_ & _ & _ & _ & _ & Hp').
        rewrite Hpc in Hp'. injection Hp' as ->.
        destruct Hor as [<-|[_ ->]]; [done|done].
      * rewrite Hpc. destruct Hor as [->|[-> _]]; [done|].
        exfalso. apply Ec. apply list_elem_of_fmap. by exists r.
    + intros i' up' lo Hle Hup' Hlo.
      eapply (unlink_fam t s3 s7 Ls j lk l1 (B :: l2) up A pp q kq); try done.
      * intros a Ha. apply Er7. intros ->. by apply (Hnu A).
      * intros i0 L a Hle0 HL Ha HaA. by apply Ep7.
      * intros a Ha. destruct (Hsub a Ha) as [Hain HaA].
        unfold alk. rewrite Er7, decide_False by (done || intros ->; by apply (Hnu pp)).
        symmetry. by apply Hlk.
    + intros j0 L0 a HL0 Ha. destruct (Hlev _ _ _ HL0 Ha) as (HaA & L & HL & HaL).
      destruct (ct_fill _ _ _ _ _ _ _ Hct _ _ _ HL HaL) as [Hub Hlb].
      rewrite Hroot. rewrite decide_False in Hub |- * by done.
      rewrite Er7 by done. destruct (decide (a = pp)) as [->|Hap].
      * rewrite length_insert. by rewrite (length_kids_eq _ _ (Hkids pp Hupp)).
      * destruct (decide (a = B)) as [->|HaB].
        -- rewrite HB, length_app.
           rewrite decide_False by (by eapply (not_root_pair t Ls Hsh j l1 A B l2)).
           split; [lia|].
           pose proof (half_order_pos order (holed_order _ _ _ _ _ _ _ Hh)).
           destruct HP as [-> | ->].
           ++ rewrite (erecs_other _ _ _ B) by done.
              destruct (ct_fill _ _ _ _ _ _ _ Hct _ _ _ Hj HBin) as [_ Hlb'].
              rewrite decide_False in Hlb'
                by (by eapply (not_root_pair t Ls Hsh j l1 A B l2)). lia.
           ++ rewrite (erecs_other _ _ _ A) by done.
              destruct (ct_fill _ _ _ _ _ _ _ Hct _ _ _ Hj HAin) as [_ Hlb'].
              rewrite decide_False in Hlb'
                by (by eapply (not_root_pair t Ls Hsh j l1 A B l2)). lia.
        -- destruct (decide (j < j0)%nat) as [Hlt|Hge].
           ++ rewrite (length_kids_eq _ _ (Hkids a ltac:(by exists j0, L))). done.
           ++ rewrite Hlow; [done| |done..].
              intros (i' & L' & Hlt' & HL' & Ha').
              pose proof (sh_disj _ _ Hsh _ _ _ _ _ HL HL' HaL Ha'). lia.
    + intros Hall Hkeys.
      eapply unlink_hole with (t0 := t) (s := s3) (A := A) (kA := kq) (K := K); try done.
      * intros a Ha. apply Er7. intros ->. by apply (Hnu A).
      * intros i0 L a Hle0 HL Ha HaA. by apply Ep7.
      * intros a Ha. destruct (Hsub a Ha) as [Hain HaA].
        unfold alk. rewrite Er7, decide_False by (done || intros ->; by apply (Hnu pp)).
        symmetry. by apply Hlk.
      * apply (ct_sorted _ _ _ _ _ _ _ Hct).
      * by rewrite (length_kids_eq _ _ (Hkids pp Hupp)).
  - exists up. split; [|done]. by rewrite list_lookup_insert_ne by lia.
  - apply (holed_order _ _ _ _ _ _ _ Hh).
  - by destruct Hh as (_ & _ & _ & _ & HK).
Qed.

End MergeFinish.

Lemma elem_of_rev {A} (l : list A) x : x ∈ rev l ↔ x ∈ l.
Proof. rewrite rev_alt. apply elem_of_reverse. Qed.

Lemma shape_reparented t t' Ls cs p :
  shape t Ls → reparented t t' cs p →
  (∀ r, m_root t = Some r → Some r ∉ cs) → shape t' Ls.
Proof.
  intros Hsh Hrp Hr. apply (shape_ext t); try done.
  - apply (rp_root _ _ _ _ Hrp).
  - intros j L a HL Ha. split; [apply (rp_live _ _ _ _ Hrp); by eapply sh_live|].
    by rewrite (rp_nxt _ _ _ _ Hrp), (rp_prv _ _ _ _ Hrp), (rp_leaf _ _ _ _ Hrp).
  - apply (rp_live _ _ _ _ Hrp), (sh_header _ _ Hsh).
  - apply (rp_nxt _ _ _ _ Hrp).
  - apply (rp_prv _ _ _ _ Hrp).
  - intros r Hr'. rewrite (rp_par _ _ _ _ Hrp). rewrite decide_False; [done|by apply Hr].
Qed.

Section ArmMergeLeft.

Context (order : nat) (t : tree) (Ls : list (list nat)) (K : list Z).
Context (j P i : nat) (Hh : holed order t Ls K j P i).

Lemma arm_merge_left :
  m_root t ≠ Some P → classify order t (nd t P) = MERGE_LEFT →
  ∃ t' pp q L', erase_helper order (Some P) i t = Some ((true, (Some pp, q)), t') ∧
                holed order t' (<[j := L']> Ls) K (S j) pp q.
Proof.
  intros Hr Hcl.
  pose proof (holed_shape _ _ _ _ _ _ _ Hh) as Hsh.
  pose proof (holed_content _ _ _ _ _ _ _ Hh) as Hct.
  pose proof (holed_live _ _ _ _ _ _ _ Hh) as HlP.
  pose proof (holed_order _ _ _ _ _ _ _ Hh) as Hord.
  pose proof (half_order_pos order Hord) as Hho.
  destruct (erase_helper_prefix _ _ _ _ _ _ _ Hh MERGE_LEFT) as (ki & Hki & Hs & Hd & Hl).
  { by rewrite decide_False. }
  destruct (holed_level _ _ _ _ _ _ _ Hh) as (l1 & l2 & Hj).
  apply classify_merge_left_inv in Hcl as [Hfits Hcase].
  change (pre (nd t P)) with (prv t P) in Hfits, Hcase.
  fold (recs t P) in Hcase.
  destruct (neighbour_left _ _ _ _ _ _ Hsh Hj (fits_not_end _ _ _ _ Hfits))
    as (l1' & Lf & -> & HpL & HlL).
  rewrite HpL in Hfits, Hcase. apply fits_inv in Hfits as (_ & Hsib & Hmf).
  change (parent (nd t P)) with (par t P) in Hsib.
  change (records (nd t P)) with (recs t P) in Hmf.
  assert (Ls !! j = Some (l1' ++ Lf :: P :: l2)) as Hj'.
  { rewrite Hj. by rewrite <- app_assoc. }
  pose proof (lookup_lt_Some _ _ _ Hki) as Hi.
  pose proof (sh_nodup _ _ Hsh _ _ Hj') as Hnd.
  assert (Lf ≠ P ∧ P ∉ l1' ∧ Lf ∉ l1' ∧ P ∉ l2 ∧ Lf ∉ l2) as (HPL & HP1 & HL1 & HP2 & HL2).
  { apply NoDup_app in Hnd as (_ & Hd1 & Hnd). apply NoDup_cons in Hnd as [Hd2 Hnd].
    apply NoDup_cons in Hnd as [Hd3 _]. set_solver. }
  assert (P ∈ l1' ++ Lf :: P :: l2) as HPin by set_solver.
  assert (Lf ∈ l1' ++ Lf :: P :: l2) as HLin by set_solver.
  pose proof (not_upper_level _ _ Hsh _ _ _ Hj' HPin) as HPu.
  pose proof (not_upper_level _ _ Hsh _ _ _ Hj' HLin) as HLu.
  assert (m_root t ≠ Some Lf) as HrL.
  { by eapply (not_root_pair t Ls Hsh j l1' Lf P l2). }
  destruct (ct_fill _ _ _ _ _ _ _ Hct _ _ _ Hj' HLin) as [HubL HlbL].
  destruct (ct_fill _ _ _ _ _ _ _ Hct _ _ _ Hj' HPin) as [HubP _].
  rewrite decide_False in HubL by done. rewrite decide_False in HubP by done.
  rewrite decide_False in HlbL by done.
  assert (∀ P0 i0 j0 L0, Some (P, i) = Some (P0, i0) → Ls !! j0 = Some L0 → P0 ∈ L0 →
            (j0 ≤ j)%nat) as Hhole.
  { intros P0 i0 j0 L0 [= <- <-] HL0 HP0.
    by rewrite (holed_at _ _ _ _ _ _ _ Hh _ _ HL0 HP0). }
  destruct (parent_slot _ _ _ _ _ _ _ Hsh Hct j l1' Lf P l2 Hord ltac:(lia) Hhole Hj' Hsib)
    as (up & pp & rs1 & kA & kB & rs2 & Hup & Hpp & Epp & HpLf & HkA & Hfind).
  set (q := length rs1) in *.
  set (dP := base.delete i (recs t P)).
  assert (S (length dP) = length (recs t P)) as HdP.
  { unfold dP. rewrite length_delete by (by eexists). lia. }
  assert (length (recs t P) - 1 + length (recs t Lf) ≤ order)%nat as Hbound.
  { apply merge_fits_bound; [lia| | |done].
    - intros ->. lia.
    - intros Hne. destruct Hcase as [?|(_ & HnP & HnL)]; [done|]. split; [lia|].
      apply lends_false_inv; [done|done|]. exact (is_end_node _ _ _ _ _ Hsh Hj' HLin). }
  assert (upper Ls j pp) as Hupp by (by eapply upper_level).
  assert (pp ≠ P ∧ pp ≠ Lf) as [HppP HppL] by (split; by intros ->).
  set (need := bool_decide (i = Nat.pred (length (recs t P)))).
  set (s1 := wr P (set_records dP) t).
  assert (same_links t s1) as Hsl1 by (by apply same_links_set_records).
  assert (∀ a, recs s1 a = if decide (a = P) then dP else recs t a) as Er1.
  { intros a. unfold s1. autorewrite with st. repeat case_decide; by simplify_eq. }
  assert (∀ a, live t a → live s1 a) as Hl1 by (intros a; apply (sl_live _ _ Hsl1)).
  assert (∀ r c, r ∈ recs t Lf → r.2 = Some c →
            ∃ j' lo, j = S j' ∧ Ls !! j' = Some lo ∧ c ∈ lo) as HkL.
  { intros r c Hr' Hc.
    destruct (kid_level _ _ _ _ _ _ _ Hct j _ Lf r c Hj' HLin) as (j' & lo & ? & ? & ? & _);
      [by rewrite erecs_other|done|]. by exists j', lo. }
  destruct (take_all_run (rev (recs t Lf)) s1 P) as (s2 & Hrun2 & Hrp2 & Er2).
  { by apply Hl1. }
  { intros r c Hr' Hc. apply (proj1 (elem_of_rev _ _)) in Hr'.
    destruct (HkL r c Hr' Hc) as (j' & lo & _ & Hlo & Hcin).
    apply Hl1. by eapply sh_live. }
  { rewrite rev_involutive, Er1, decide_True by done.
    pose proof (adjacent_sorted _ _ _ _ _ _ _ Hsh Hct j l1' Lf P l2 Hj') as Hsrt.
    by rewrite erecs_other, erecs_hole in Hsrt. }
  rewrite rev_involutive in Er2.
  assert (reparented t s2 (kids (recs t Lf)) P) as Hrp.
  { eapply reparented_pre; [exact Hsl1|]. eapply reparented_ext; [exact Hrp2|].
    intros x. unfold kids. rewrite !list_elem_of_fmap.
    split; intros (r & -> & Hr'); exists r; (split; [done|]).
    - by apply (proj1 (elem_of_rev _ _)).
    - by apply (proj2 (elem_of_rev _ _)). }
  assert (∀ j0 L a, Ls !! j0 = Some L → a ∈ L → (j ≤ j0)%nat → Some a ∉ kids (recs t Lf))
    as HnkL.
  { intros j0 L a HL Ha Hle (r & Hc & Hr')%list_elem_of_fmap.
    destruct (HkL r a Hr' (eq_sym Hc)) as (j' & lo & -> & Hlo & Hcin).
    pose proof (sh_disj _ _ Hsh _ _ _ _ _ HL Hlo Ha Hcin). lia. }
  assert (shape s2 Ls) as Hsh2.
  { eapply shape_reparented; [exact Hsh|exact Hrp|].
    intros r Hr' (r0 & Hc & Hr0)%list_elem_of_fmap.
    eapply (kid_not_root _ _ _ _ _ _ _ Hsh Hct j _ Lf r0 r Hj' HLin); [|done|done].
    by rewrite erecs_other. }
  assert (∀ a, a ≠ P → recs s2 a = recs t a) as Er2'.
  { intros a Ha. rewrite Er2, decide_False by done. by rewrite Er1, decide_False. }
  assert (recs s2 P = recs t Lf ++ dP) as EP2.
  { rewrite Er2, decide_True by done. by rewrite Er1, decide_True. }
  assert (recs t Lf ≠ []) as HLne.
  { intros E. rewrite E in HlbL. simpl in HlbL. lia. }
  destruct (when_fix s2 Ls j (alk t) (l1' ++ [Lf]) P l2 ki need)
    as (s3 & Hrun3 & Hko3 & Hfr3 & Hab3); try done.
  { eapply above_frame_in; [| |exact (holed_above _ _ _ _ _ _ _ Hh)].
    - intros a Ha. apply Er2'. by intros ->.
    - intros i0 L a Hle0 HL Ha. rewrite (rp_par _ _ _ _ Hrp).
      rewrite decide_False; [done|]. by eapply HnkL. }
  { intros a Ha. rewrite Er2' by (by intros ->).
    by apply (holed_nonempty_above _ _ _ _ _ _ _ Hh). }
  { by apply (level_sorted _ _ _ _ _ _ _ Hsh Hct j). }
  { rewrite EP2. by destruct (recs t Lf). }
  { unfold need. case_bool_decide as E.
    - unfold alk, last_key. by rewrite (last_lookup_pred _ _ _ Hki E).
    - unfold alk at 2. rewrite EP2.
      assert (dP ≠ []) as HdPne.
      { intros E'. rewrite E' in HdP. simpl in HdP. lia. }
      unfold alk, last_key. rewrite last_app, <- (last_delete_lt (recs t P) i) by lia.
      fold dP. by destruct (last dP) eqn:El; [|by apply last_None in El]. }
  destruct (merge_finish order t Ls K j P i Hh l1' l2 up Lf P pp q kA
              (λ x, if decide (x = P) then alk s2 P else alk t x) s3)
    as (t' & Hrun & Hholed); try done.
  { by right. }
  { rewrite Epp. by apply list_lookup_middle. }
  { rewrite Epp, length_app. simpl. unfold q. lia. }
  { rewrite erecs_other, erecs_hole by done. fold dP. lia. }
  { rewrite erecs_other by done. eapply reparented_post; [exact Hrp|].
    by apply keys_only_same_links. }
  { rewrite Hfr3, EP2, erecs_other, erecs_hole by done. done. }
  { intros a Ha H1 H2. rewrite Hfr3 by done. by apply Er2'. }
  { intros a Ha. rewrite (ko_kids _ _ Hko3). rewrite Er2'; [done|]. by intros ->. }
  { intros a Ha. unfold alk. rewrite Hfr3 by (eapply (not_upper_level _ _ Hsh); [exact Hj'|set_solver]).
    case_decide as E; [by subst|]. by rewrite Er2'. }
  exists t', pp, q, (l1' ++ P :: l2). split; [|done].
  unfold erase_helper.
  rewrite (bind_run _ _ _ _ _ Hs), (bind_run _ _ _ _ _ Hd), (bind_run _ _ _ _ _ Hl).
  change (pre (nd t P)) with (prv t P). rewrite HpL.
  change (parent (nd t P)) with (par t P). rewrite <- Hsib, HpLf.
  rewrite (bind_run _ _ _ _ _ (last_index_run _ _ HlP ltac:(by intros E; rewrite E in Hki))).
  fold need.
  rewrite (bind_run _ _ _ _ _ (erase_record_run t P i HlP Hi)). fold dP. fold s1.
  destruct (last (recs t Lf)) as [lr|] eqn:Elr; [|by apply last_None in Elr].
  assert (lr.1 = kA) as Elk.
  { unfold alk, last_key in HkA. rewrite Elr in HkA. by injection HkA. }
  rewrite (bind_run _ _ _ _ _
    (last_record_run s1 Lf lr (Hl1 _ HlL) ltac:(by rewrite Er1, decide_False))).
  rewrite (bind_run _ _ _ _ _ (load_live s1 pp (Hl1 _ (sh_live _ _ Hsh _ _ _ Hup Hpp)))).
  change (records (nd s1 pp)) with (recs s1 pp). rewrite Er1, decide_False by done.
  rewrite Elk, Hfind.
  rewrite (bind_run _ _ _ _ _ (load_live s1 Lf (Hl1 _ HlL))).
  change (records (nd s1 Lf)) with (recs s1 Lf). rewrite Er1, decide_False by done.
  rewrite (bind_run _ _ _ _ _ Hrun2), (bind_run _ _ _ _ _ Hrun3).
  exact Hrun.
Qed.

End ArmMergeLeft.

Section ArmMergeRight.

Context (order : nat) (t : tree) (Ls : list (list nat)) (K : list Z).
Context (j P i : nat) (Hh : holed order t Ls K j P i).

Lemma arm_merge_right :
  m_root t ≠ Some P → classify order t (nd t P) = MERGE_RIGHT →
  ∃ t' pp q L', erase_helper order (Some P) i t = Some ((true, (Some pp, q)), t') ∧
                holed order t' (<[j := L']> Ls) K (S j) pp q.
Proof.
  intros Hr Hcl.
  pose proof (holed_shape _ _ _ _ _ _ _ Hh) as Hsh.
  pose proof (holed_content _ _ _ _ _ _ _ Hh) as Hct.
  pose proof (holed_live _ _ _ _ _ _ _ Hh) as HlP.
  pose proof (holed_order _ _ _ _ _ _ _ Hh) as Hord.
  pose proof (half_order_pos order Hord) as Hho.
  destruct (erase_helper_prefix _ _ _ _ _ _ _ Hh MERGE_RIGHT) as (ki & Hki & Hs & Hd & Hl).
  { by rewrite decide_False. }
  destruct (holed_level _ _ _ _ _ _ _ Hh) as (l1 & l2 & Hj).
  apply classify_merge_right_inv in Hcl as [Hfits Hcase].
  change (next (nd t P)) with (nxt t P) in Hfits, Hcase.
  fold (recs t P) in Hcase.
  destruct (neighbour_right _ _ _ _ _ _ Hsh Hj (fits_not_end _ _ _ _ Hfits))
    as (R & l2' & -> & HnR & HlR).
  rewrite HnR in Hfits, Hcase. apply fits_inv in Hfits as (_ & Hsib & Hmf).
  change (parent (nd t P)) with (par t P) in Hsib.
  change (records (nd t P)) with (recs t P) in Hmf.
  pose proof (lookup_lt_Some _ _ _ Hki) as Hi.
  pose proof (sh_nodup _ _ Hsh _ _ Hj) as Hnd.
  assert (P ≠ R ∧ P ∉ l1 ∧ R ∉ l1 ∧ P ∉ l2' ∧ R ∉ l2') as (HPR & HP1 & HR1 & HP2 & HR2).
  { apply NoDup_app in Hnd as (_ & Hd1 & Hnd). apply NoDup_cons in Hnd as [Hd2 Hnd].
    apply NoDup_cons in Hnd as [Hd3 _]. set_solver. }
  assert (P ∈ l1 ++ P :: R :: l2') as HPin by set_solver.
  assert (R ∈ l1 ++ P :: R :: l2') as HRin by set_solver.
  assert (m_root t ≠ Some R) as HrR.
  { by eapply (not_root_pair t Ls Hsh j l1 P R l2'). }
  destruct (ct_fill _ _ _ _ _ _ _ Hct _ _ _ Hj HRin) as [HubR HlbR].
  destruct (ct_fill _ _ _ _ _ _ _ Hct _ _ _ Hj HPin) as [HubP _].
  rewrite decide_False in HubR by done. rewrite decide_False in HubP by done.
  rewrite decide_False in HlbR by done.
  assert (∀ P0 i0 j0 L0, Some (P, i) = Some (P0, i0) → Ls !! j0 = Some L0 → P0 ∈ L0 →
            (j0 ≤ j)%nat) as Hhole.
  { intros P0 i0 j0 L0 [= <- <-] HL0 HP0.
    by rewrite (holed_at _ _ _ _ _ _ _ Hh _ _ HL0 HP0). }
  destruct (parent_slot _ _ _ _ _ _ _ Hsh Hct j l1 P R l2' Hord ltac:(lia) Hhole Hj
              (eq_sym Hsib))
    as (up & pp & rs1 & kA & kB & rs2 & Hup & Hpp & Epp & HpP & HkA & Hfind).
  set (q := length rs1) in *.
  set (dP := base.delete i (recs t P)).
  assert (S (length dP) = length (recs t P)) as HdP.
  { unfold dP. rewrite length_delete by (by eexists). lia. }
  assert (length (recs t P) - 1 + length (recs t R) ≤ order)%nat as Hbound.
  { apply merge_fits_bound; [lia| | |done].
    - intros ->. lia.
    - intros Hne. destruct Hcase as [?|(_ & HnP & HnR')]; [done|]. split; [lia|].
      apply lends_false_inv; [done|done|]. exact (is_end_node _ _ _ _ _ Hsh Hj HRin). }
  assert (upper Ls j pp) as Hupp by (by eapply upper_level).
  assert (pp ≠ P ∧ pp ≠ R) as [HppP HppR].
  { split; intros ->; by apply (not_upper_level _ _ Hsh _ _ _ Hj) in Hupp. }
  set (s1 := wr P (set_records dP) t).
  assert (same_links t s1) as Hsl1 by (by apply same_links_set_records).
  assert (∀ a, recs s1 a = if decide (a = P) then dP else recs t a) as Er1.
  { intros a. unfold s1. autorewrite with st. repeat case_decide; by simplify_eq. }
  assert (∀ a, live t a → live s1 a) as Hl1 by (intros a; apply (sl_live _ _ Hsl1)).
  assert (∀ r c, r ∈ dP → r.2 = Some c →
            ∃ j' lo, j = S j' ∧ Ls !! j' = Some lo ∧ c ∈ lo) as HkP.
  { intros r c Hr' Hc.
    destruct (kid_level _ _ _ _ _ _ _ Hct j _ P r c Hj HPin) as (j' & lo & ? & ? & ? & _);
      [by rewrite erecs_hole|done|]. by exists j', lo. }
  assert (recs t R ≠ []) as HRne.
  { intros E. rewrite E in HlbR. simpl in HlbR. lia. }
  destruct (give_all_run dP s1 P R [] (recs t R)) as (s2 & Hrun2 & Hrp2 & Er2); try done.
  { by apply Hl1. }
  { by apply Hl1. }
  { intros r c Hr' Hc. destruct (HkP r c Hr' Hc) as (j' & lo & _ & Hlo & Hcin).
    apply Hl1. by eapply sh_live. }
  { by rewrite Er1, decide_True. }
  { by rewrite Er1, decide_False. }
  { simpl. pose proof (adjacent_sorted _ _ _ _ _ _ _ Hsh Hct j l1 P R l2' Hj) as Hsrt.
    by rewrite erecs_hole, erecs_other in Hsrt by done. }
  simpl in Er2.
  assert (reparented t s2 (kids dP) R) as Hrp by (by eapply reparented_pre).
  assert (∀ j0 L a, Ls !! j0 = Some L → a ∈ L → (j ≤ j0)%nat → Some a ∉ kids dP) as HnkP.
  { intros j0 L a HL Ha Hle (r & Hc & Hr')%list_elem_of_fmap.
    destruct (HkP r a Hr' (eq_sym Hc)) as (j' & lo & -> & Hlo & Hcin).
    pose proof (sh_disj _ _ Hsh _ _ _ _ _ HL Hlo Ha Hcin). lia. }
  assert (∀ a, a ≠ P → a ≠ R → recs s2 a = recs t a) as Er2'.
  { intros a H1 H2. rewrite Er2, !decide_False by done. by rewrite Er1, decide_False. }
  assert (recs s2 R = dP ++ recs t R) as ER2.
  { by rewrite Er2, decide_False, decide_True. }
  destruct (last (recs t P)) as [lr|] eqn:Elr;
    [|apply last_None in Elr; by rewrite Elr in Hki].
  assert (lr.1 = kA) as Elk.
  { unfold alk, last_key in HkA. rewrite Elr in HkA. by injection HkA. }
  destruct (merge_finish order t Ls K j P i Hh l1 l2' up P R pp q kA (alk t) s2)
    as (t' & Hrun & Hholed); try done.
  { by left. }
  { rewrite Epp. by apply list_lookup_middle. }
  { rewrite Epp, length_app. simpl. unfold q. lia. }
  { rewrite erecs_hole, erecs_other by done. fold dP. lia. }
  { by rewrite erecs_hole. }
  { by rewrite ER2, erecs_hole, erecs_other. }
  { intros a _ H1 H2. by apply Er2'. }
  { intros a Ha. rewrite Er2'; [done|intros ->..];
      by apply (not_upper_level _ _ Hsh _ _ _ Hj) in Ha. }
  { eapply above_frame_in; [| |exact (holed_above _ _ _ _ _ _ _ Hh)].
    - intros a Ha. apply Er2'; intros ->; by apply (not_upper_level _ _ Hsh _ _ _ Hj) in Ha.
    - intros i0 L a Hle0 HL Ha. rewrite (rp_par _ _ _ _ Hrp).
      rewrite decide_False; [done|]. by eapply HnkP. }
  { intros a Ha. unfold alk. destruct (decide (a = R)) as [->|HaR].
    - rewrite ER2. unfold last_key. rewrite last_app.
      by destruct (last (recs t R)) eqn:El; [|by apply last_None in El].
    - rewrite Er2'; [done| |done]. intros ->. set_solver. }
  exists t', pp, q, (l1 ++ R :: l2'). split; [|done].
  unfold erase_helper.
  rewrite (bind_run _ _ _ _ _ Hs), (bind_run _ _ _ _ _ Hd), (bind_run _ _ _ _ _ Hl).
  change (next (nd t P)) with (nxt t P). rewrite HnR.
  change (parent (nd t P)) with (par t P). rewrite HpP.
  rewrite (bind_run _ _ _ _ _ (last_record_run t P lr HlP Elr)).
  rewrite (bind_run _ _ _ _ _ (erase_record_run t P i HlP Hi)). fold dP. fold s1.
  rewrite (bind_run _ _ _ _ _ (load_live s1 pp (Hl1 _ (sh_live _ _ Hsh _ _ _ Hup Hpp)))).
  change (records (nd s1 pp)) with (recs s1 pp). rewrite Er1, decide_False by done.
  rewrite Elk, Hfind.
  rewrite (bind_run _ _ _ _ _ (records_size_run s1 P (Hl1 _ HlP))).
  rewrite Er1, decide_True by done.
  rewrite (bind_run _ _ _ _ _ Hrun2).
  exact Hrun.
Qed.

End ArmMergeRight.

(** ** The only child of its parent *)

Lemma chain_remove t t' p L1 X L2 e :
  NoDup (L1 ++ X :: L2) →
  (∀ a, a ∈ L1 ++ X :: L2 → p ≠ Some a ∧ e ≠ Some a) →
  (∀ a, a ∈ L1 ++ L2 →
     nxt t' a = if decide (prv t X = Some a) then nxt t X else nxt t a) →
  (∀ a, a ∈ L1 ++ L2 →
     prv t' a = if decide (nxt t X = Some a) then prv t X else prv t a) →
  chain_from t p (L1 ++ X :: L2) e → chain_from t' p (L1 ++ L2) e.
Proof.
  intros Hnd Hpe Hn Hv Hc.
  apply chain_from_app in Hc as [Hc1 Hc2]. simpl in Hc1.
  cbn [chain_from] in Hc2. destruct Hc2 as (HpX & HnX & Hc2).
  apply NoDup_app in Hnd as (Hnd1 & Hd & [HX Hnd2]%NoDup_cons).
  assert (∀ a, a ∈ L1 → a ≠ X ∧ a ∉ L2) as Hd1.
  { intros a Ha. specialize (Hd a Ha). set_solver. }
  assert (∀ a, a ∈ L1 → nxt t X ≠ Some a) as HnX1.
  { intros a Ha. rewrite HnX. destruct (head L2) as [y|] eqn:Ey; simpl.
    - intros [= ->]. apply head_Some_elem_of in Ey. by apply (Hd1 a Ha).
    - apply Hpe. set_solver. }
  assert (∀ a, a ∈ L2 → prv t X ≠ Some a) as HpX2.
  { intros a Ha. rewrite HpX. destruct (last L1) as [y|] eqn:Ey; simpl.
    - intros [= ->]. apply last_Some_elem_of in Ey. by apply (Hd1 a Ey).
    - apply Hpe. set_solver. }
  apply chain_from_app. split.
  - destruct L1 as [|x L1 _] using rev_ind; [done|].
    apply chain_from_app in Hc1 as [Hc1 Hcx]. simpl in Hc1.
    cbn [chain_from] in Hcx. destruct Hcx as (Hpx & Hnx & _).
    rewrite last_snoc in HpX. simpl in HpX.
    apply NoDup_app in Hnd1 as (_ & Hdx & _).
    apply chain_from_app. split.
    + simpl. eapply chain_from_ext; [|exact Hc1]. intros a Ha.
      rewrite Hn, Hv by set_solver. rewrite !decide_False; [done| |].
      * apply HnX1. set_solver.
      * rewrite HpX. intros [= ->]. apply (Hdx a Ha). set_solver.
    + cbn [chain_from]. rewrite Hn, Hv by set_solver.
      rewrite decide_False by (apply HnX1; set_solver).
      rewrite decide_True by done. rewrite HnX. done.
  - destruct L2 as [|y L2]; [done|]. simpl in HnX.
    cbn [chain_from] in Hc2 |- *. destruct Hc2 as (Hpy & Hny & Hc2).
    apply NoDup_cons in Hnd2 as [Hy _].
    rewrite Hn, Hv by set_solver.
    rewrite decide_True by done. rewrite decide_False by (apply HpX2; set_solver).
    split; [done|]. split; [done|].
    eapply chain_from_ext; [|exact Hc2]. intros a Ha.
    rewrite Hn, Hv by set_solver. rewrite !decide_False; [done| |].
    + rewrite HnX. intros [= ->]. done.
    + apply HpX2. set_solver.
Qed.

Lemma remove_shape t t' Ls j l1 X l2 :
  shape t Ls → Ls !! j = Some (l1 ++ X :: l2) → l1 ++ l2 ≠ [] →
  m_root t' = m_root t →
  (∀ a, a ≠ X → live t a → live t' a) →
  (∀ a, a ≠ X → leaf t' a = leaf t a) →
  (∀ a, a ≠ X → nxt t' a = if decide (prv t X = Some a) then nxt t X else nxt t a) →
  (∀ a, a ≠ X → prv t' a = if decide (nxt t X = Some a) then prv t X else prv t a) →
  (∀ r, m_root t = Some r → par t' r = par t r) →
  shape t' (<[j := l1 ++ l2]> Ls).
Proof.
  intros Hsh Hj Hne Hroot Hlive Hleaf Hn Hv Hpar.
  pose proof (chain_prev _ _ _ _ _ _ Hsh Hj) as HpX.
  pose proof (chain_next _ _ _ _ _ _ Hsh Hj) as HnX.
  pose proof (sh_nodup _ _ Hsh _ _ Hj) as Hnd.
  assert (∀ j0 L a, Ls !! j0 = Some L → a ∈ L → a ≠ header) as Hnh.
  { intros j0 L a HL Ha ->. by apply (sh_not_header _ _ Hsh _ _ HL). }
  assert (X ∈ l1 ++ X :: l2) as HX by set_solver.
  assert (header ≠ X) as HhX by (intros E; by apply (Hnh _ _ _ Hj HX)).
  assert (∀ x, prv t X = Some x → x = header ∨ x ∈ l1) as HpXin.
  { intros x. rewrite HpX. destruct (last l1) as [y|] eqn:Ey; simpl.
    - intros [= ->]. right. by apply last_Some_elem_of.
    - destruct j; simpl; [|done]. intros [= <-]. by left. }
  assert (∀ x, nxt t X = Some x → x = header ∨ x ∈ l2) as HnXin.
  { intros x. rewrite HnX. destruct (head l2) as [y|] eqn:Ey; simpl.
    - intros [= ->]. right. by apply head_Some_elem_of.
    - destruct j; simpl; [|done]. intros [= <-]. by left. }
  assert (∀ a, a ∈ l1 ++ l2 → a ≠ X) as HneX.
  { intros a Ha ->. apply NoDup_app in Hnd as (_ & Hd & [HX' _]%NoDup_cons).
    apply elem_of_app in Ha as [Ha|Ha]; [|done]. apply (Hd X Ha). set_solver. }
  apply (shape_remove t t' Ls j l1 X l2); try done.
  - intros j0 L a HL Ha HaX. split; [|by apply Hleaf].
    apply Hlive; [done|]. by eapply sh_live.
  - apply Hlive; [done|]. apply (sh_header _ _ Hsh).
  - intros j0 L a Hne0 HL Ha.
    assert (a ≠ X) as H1.
    { intros ->. by pose proof (sh_disj _ _ Hsh _ _ _ _ _ HL Hj Ha HX). }
    assert (a ∉ l1 ++ X :: l2) as H2.
    { intros Hin. by pose proof (sh_disj _ _ Hsh _ _ _ _ _ HL Hj Ha Hin). }
    rewrite Hn, Hv by done. rewrite !decide_False; [done| |].
    + intros E. destruct (HnXin a E) as [->|Hin]; [by apply (Hnh _ _ _ HL Ha)|].
      apply H2. set_solver.
    + intros E. destruct (HpXin a E) as [->|Hin]; [by apply (Hnh _ _ _ HL Ha)|].
      apply H2. set_solver.
  - eapply chain_remove; [done| | | |by apply (sh_chain _ _ Hsh)].
    + intros a Ha. split; (destruct j; simpl; [|done]); intros [= <-];
        by apply (Hnh _ _ _ Hj Ha).
    + intros a Ha. apply Hn. by apply HneX.
    + intros a Ha. apply Hv. by apply HneX.
  - rewrite Hn by done. rewrite (sh_hdr_next _ _ Hsh).
    destruct j as [|j].
    + rewrite list_lookup_insert_eq by (by eapply lookup_lt_Some). rewrite Hj.
      rewrite HpX, HnX. cbn [mbind option_bind from_option endp].
      destruct l1 as [|x l1].
      * cbn [last from_option app head]. rewrite decide_True by done.
        destruct l2; [done|]. done.
      * rewrite decide_False; [done|].
        destruct (last (x :: l1)) as [y|] eqn:Ey; [|by apply last_None in Ey].
        simpl. intros [= ->]. apply last_Some_elem_of in Ey.
        eapply (Hnh 0%nat _ header Hj); [|done]. set_solver.
    + rewrite list_lookup_insert_ne by done. rewrite decide_False; [done|].
      rewrite HpX. destruct (last l1) as [y|] eqn:Ey; simpl; [|done].
      intros [= ->]. apply last_Some_elem_of in Ey.
      eapply (Hnh _ _ header Hj); [|done]. set_solver.
  - rewrite Hv by done. rewrite (sh_hdr_pre _ _ Hsh).
    destruct j as [|j].
    + rewrite list_lookup_insert_eq by (by eapply lookup_lt_Some). rewrite Hj.
      rewrite HpX, HnX. cbn [mbind option_bind from_option endp].
      destruct l2 as [|y l2].
      * cbn [head from_option]. rewrite decide_True by done.
        by rewrite app_nil_r.
      * cbn [head from_option]. rewrite decide_False.
        -- by rewrite !last_app_cons, last_cons_cons.
        -- intros [= ->]. eapply (Hnh 0%nat _ header Hj); [|done]. set_solver.
    + rewrite list_lookup_insert_ne by done. rewrite decide_False; [done|].
      rewrite HnX. destruct (head l2) as [y|] eqn:Ey; simpl; [|done].
      intros [= ->]. apply head_Some_elem_of in Ey.
      eapply (Hnh _ _ header Hj); [|done]. set_solver.
Qed.

Lemma fam_first t h lk up lo c l :
  fam t h lk up lo → (∀ a, a ∈ up → erecs h t a ≠ []) → lo = c :: l →
  ∃ p u k rs, up = p :: u ∧ erecs h t p = (k, Some c) :: rs ∧
    par t c = Some p ∧ lk c = Some k.
Proof.
  intros [Hk Hr] Hne ->. rewrite fmap_cons in Hk.
  apply concat_cons_inv in Hk as (k1 & ls' & Hup & _); [|by apply kids_nonempty].
  destruct up as [|p u]; [done|]. rewrite fmap_cons in Hup. injection Hup as Hp _.
  apply (kids_middle_inv _ []) in Hp as (rs1 & k & rs & Hp & ->%eq_sym%fmap_nil_inv & _).
  simpl in Hp.
  destruct (Hr p (k, Some c) c) as [? ?]; [set_solver|rewrite Hp; set_solver|done|].
  by exists p, u, k, rs.
Qed.

Lemma fits_true order t n a :
  live t a → is_end (Some a) = false → par t a = parent n →
  (1 ≤ length (records n))%nat →
  (length (records n) - 1 + length (recs t a) ≤ order)%nat →
  fits order t n (Some a) = true.
Proof.
  intros [sn Hsn] He Hp H1 Hle. unfold fits, is_slibing, node_at. simpl.
  rewrite He, Hsn. simpl. unfold par in Hp. rewrite (nd_lookup _ _ _ Hsn) in Hp.
  unfold ptr_eqb. rewrite bool_decide_eq_true_2 by done. simpl.
  unfold merge_fits. apply Z.leb_le.
  unfold recs in Hle. rewrite (nd_lookup _ _ _ Hsn) in Hle.
  etrans; [apply Z.mod_le; lia|]. lia.
Qed.

Lemma classify_single_child_inv order t n :
  classify order t n = SINGLE_CHILD →
  ¬ (half_order order < length (records n))%nat ∧
  fits order t n (pre n) = false ∧ fits order t n (next n) = false ∧
  lends order t (pre n) = false ∧ lends order t (next n) = false.
Proof.
  unfold classify.
  repeat match goal with
         | |- context [if ?b then _ else _] => destruct b eqn:?
         end; try done; intros _; repeat split; try done;
  match goal with H : bool_decide _ = false |- _ => by apply bool_decide_eq_false in H end.
Qed.

Lemma bind_assoc {A B C} (m : M A) (f : A → M B) (g : B → M C) t :
  bind (bind m f) g t = bind m (λ a, bind (f a) g) t.
Proof. unfold bind. by destruct (m t) as [[a t1]|]. Qed.

(** Taking [P] out of the doubly linked list of its level, as the
    SINGLE_CHILD arm does it, in front of any continuation. *)
Lemma splice_run {B} (k : M B) s P :
  live s P →
  (∀ x, prv s P = Some x → live s x ∧ x ≠ P) →
  (∀ y, nxt s P = Some y → live s y ∧ y ≠ P) →
  ∃ s',
    (n1 <- load (Some P) ;;
     when (negb (ptr_eqb (pre n1) None))
       (modify (pre n1) (set_next (nxt s P)) ;;;
        when (negb (ptr_eqb (nxt s P) None))
          (n2 <- load (Some P) ;; modify (nxt s P) (set_pre (pre n2)))) ;;;
     n3 <- load (Some P) ;;
     when (negb (ptr_eqb (next n3) None))
       (modify (next n3) (set_pre (prv s P)) ;;;
        when (negb (ptr_eqb (prv s P) None))
          (n4 <- load (Some P) ;; modify (prv s P) (set_next (next n4)))) ;;;
     k) s = k s' ∧
    m_root s' = m_root s ∧ m_size s' = m_size s ∧
    (∀ a, live s' a ↔ live s a) ∧
    (∀ a, recs s' a = recs s a) ∧ (∀ a, par s' a = par s a) ∧
    (∀ a, leaf s' a = leaf s a) ∧
    (∀ a, nxt s' a = if decide (prv s P = Some a) then nxt s P else nxt s a) ∧
    (∀ a, prv s' a = if decide (nxt s P = Some a) then prv s P else prv s a).
Proof.
  intros HlP HpL HnR.
  destruct (prv s P) as [x|] eqn:EpL; destruct (nxt s P) as [y|] eqn:EnR.
  - destruct (HpL x eq_refl) as [Hlx HxP]. destruct (HnR y eq_refl) as [Hly HyP].
    set (s1 := wr x (set_next (Some y)) s).
    set (s2 := wr y (set_pre (Some x)) s1).
    set (s3 := wr y (set_pre (Some x)) s2).
    set (s4 := wr x (set_next (Some y)) s3).
    exists s4. split.
    + rewrite (bind_run _ _ _ _ _ (load_live s P HlP)).
      change (pre (nd s P)) with (prv s P). rewrite EpL. simpl.
      rewrite bind_assoc, (bind_run _ _ _ _ _ (modify_live s x _ Hlx)). fold s1.
      assert (live s1 P) as Hl1 by (unfold s1; auto with live).
      rewrite bind_assoc, (bind_run _ _ _ _ _ (load_live s1 P Hl1)).
      change (pre (nd s1 P)) with (prv s1 P).
      assert (prv s1 P = Some x) as -> by (unfold s1; by autorewrite with st).
      rewrite (bind_run _ _ _ _ _
        (modify_live s1 y _ ltac:(unfold s1; auto with live))). fold s2.
      assert (live s2 P) as Hl2 by (unfold s2; auto with live).
      rewrite (bind_run _ _ _ _ _ (load_live s2 P Hl2)).
      change (next (nd s2 P)) with (nxt s2 P).
      assert (nxt s2 P = Some y) as ->.
      { unfold s2, s1. autorewrite with st. by rewrite decide_False by done. }
      simpl.
      rewrite bind_assoc, (bind_run _ _ _ _ _
        (modify_live s2 y _ ltac:(unfold s2, s1; auto with live))).
      fold s3.
      assert (live s3 P) as Hl3 by (unfold s3; auto with live).
      rewrite bind_assoc, (bind_run _ _ _ _ _ (load_live s3 P Hl3)).
      change (next (nd s3 P)) with (nxt s3 P).
      assert (nxt s3 P = Some y) as ->.
      { unfold s3, s2, s1. autorewrite with st. by rewrite decide_False by done. }
      rewrite (bind_run _ _ _ _ _
        (modify_live s3 x _ ltac:(unfold s3, s2, s1; auto 10 with live))). done.
    + refine (conj _ (conj _ (conj _ (conj _ (conj _ (conj _ (conj _ _)))))));
        try intros a; unfold s4, s3, s2, s1; autorewrite with st; try done.
      * rewrite !live_wr; auto 10 with live.
      * repeat case_decide; congruence.
      * repeat case_decide; congruence.
  - destruct (HpL x eq_refl) as [Hlx HxP].
    set (s1 := wr x (set_next None) s).
    exists s1. split.
    + rewrite (bind_run _ _ _ _ _ (load_live s P HlP)).
      change (pre (nd s P)) with (prv s P). rewrite EpL. simpl.
      rewrite bind_assoc, (bind_run _ _ _ _ _ (modify_live s x _ Hlx)). fold s1.
      assert (live s1 P) as Hl1 by (unfold s1; auto with live).
      simpl. rewrite (bind_run (ret tt) _ s1 tt s1 eq_refl).
      rewrite (bind_run _ _ _ _ _ (load_live s1 P Hl1)).
      change (next (nd s1 P)) with (nxt s1 P).
      assert (nxt s1 P = None) as ->.
      { unfold s1. autorewrite with st. by rewrite decide_False by done. }
      done.
    + refine (conj _ (conj _ (conj _ (conj _ (conj _ (conj _ (conj _ _)))))));
        try intros a; unfold s1; autorewrite with st; try done;
        try (rewrite !live_wr; by auto 10 with live); repeat case_decide; congruence.
  - destruct (HnR y eq_refl) as [Hly HyP].
    set (s1 := wr y (set_pre None) s).
    exists s1. split.
    + rewrite (bind_run _ _ _ _ _ (load_live s P HlP)).
      change (pre (nd s P)) with (prv s P). rewrite EpL. simpl.
      rewrite (bind_run (ret tt) _ s tt s eq_refl).
      rewrite (bind_run _ _ _ _ _ (load_live s P HlP)).
      change (next (nd s P)) with (nxt s P). rewrite EnR. simpl.
      rewrite bind_assoc, (bind_run _ _ _ _ _ (modify_live s y _ Hly)). reflexivity.
    + refine (conj _ (conj _ (conj _ (conj _ (conj _ (conj _ (conj _ _)))))));
        try intros a; unfold s1; autorewrite with st; try done;
        try (rewrite !live_wr; by auto 10 with live); repeat case_decide; congruence.
  - exists s. split.
    + rewrite (bind_run _ _ _ _ _ (load_live s P HlP)).
      change (pre (nd s P)) with (prv s P). rewrite EpL. simpl.
      rewrite (bind_run (ret tt) _ s tt s eq_refl).
      rewrite (bind_run _ _ _ _ _ (load_live s P HlP)).
      change (next (nd s P)) with (nxt s P). rewrite EnR. reflexivity.
    + refine (conj _ (conj _ (conj _ (conj _ (conj _ (conj _ (conj _ _))))))); done.
Qed.

Section LevelSizes.

Context (order : nat) (h : option (nat * nat)) (over : option nat) (rmin : nat).
Context (t : tree) (Ls : list (list nat)) (K : list Z).
Context (Hsh : shape t Ls) (Hct : content order h over rmin t Ls K).
Context (Hord : (2 ≤ order)%nat) (Hrmin : (2 ≤ rmin)%nat).
Context (j : nat).
Context (Hhole : ∀ P i j0 L0, h = Some (P, i) → Ls !! j0 = Some L0 → P ∈ L0 → (j0 ≤ j)%nat).

(** Every level below the root has at least two nodes. *)
Lemma level_two n : ∀ j' L,
  (j ≤ j')%nat → length Ls = (S (S j') + n)%nat → Ls !! j' = Some L → (2 ≤ length L)%nat.
Proof.
  induction n as [|n IH]; intros j' L Hle Hlen HL.
  - destruct (lookup_lt_is_Some_2 Ls (S j')) as [up Hup]; [lia|].
    destruct (top_level _ _ Hsh _ _ Hup) as (r & -> & Hr & _); [lia|].
    pose proof (content_above _ _ _ _ _ _ _ Hct j Hhole j' [r] L Hle Hup HL) as Hf.
    pose proof (fam_kids _ _ _ _ _ Hf) as Hk. erecs_none. simpl in Hk.
    rewrite app_nil_r in Hk. apply (f_equal length) in Hk.
    unfold kids in Hk. rewrite !length_fmap in Hk. rewrite <- Hk.
    destruct (ct_fill _ _ _ _ _ _ _ Hct (S j') [r] r Hup) as [_ Hlb]; [set_solver|].
    rewrite decide_True in Hlb by done. change (erecs None t r) with (recs t r). lia.
  - destruct (lookup_lt_is_Some_2 Ls (S j')) as [up Hup]; [lia|].
    pose proof (IH (S j') up ltac:(lia) ltac:(lia) Hup) as Hup2.
    pose proof (content_above _ _ _ _ _ _ _ Hct j Hhole j' up L Hle Hup HL) as Hf.
    assert (fam t None (alk t) up L) as Hf' by (by case_decide).
    pose proof (fam_kids _ _ _ _ _ Hf') as Hk.
    change (erecs None t) with (recs t) in Hk.
    destruct up as [|a [|b up]]; simpl in Hup2; [lia|lia|].
    apply (f_equal length) in Hk. csimpl in Hk.
    rewrite !length_app, !length_fmap in Hk.
    assert (∀ x, x ∈ a :: b :: up → (1 ≤ length (recs t x))%nat) as Hne.
    { intros x Hx. pose proof (level_nonempty _ _ _ _ _ _ _ Hct (S j') _ x Hord
        ltac:(lia) Hup Hx) as Hx'. destruct (recs t x); [done|simpl; lia]. }
    pose proof (Hne a ltac:(set_solver)). pose proof (Hne b ltac:(set_solver)).
    unfold kids in Hk. rewrite !length_fmap in Hk. lia.
Qed.

Lemma level_has_two j' L :
  (j ≤ j')%nat → (S j' < length Ls)%nat → Ls !! j' = Some L → (2 ≤ length L)%nat.
Proof.
  intros Hle Hlt HL. apply (level_two (length Ls - S (S j')) j' L); [done|lia|done].
Qed.

End LevelSizes.

Lemma half_order_double order : (2 * half_order order ≤ order + 1)%nat.
Proof.
  unfold half_order. pose proof (Nat.div_mod_eq (order + 1) 2).
  pose proof (Nat.mod_upper_bound (order + 1) 2). lia.
Qed.

Section ArmSingleChild.

Context (order : nat) (t : tree) (Ls : list (list nat)) (K : list Z).
Context (j P i : nat) (Hh : holed order t Ls K j P i).
Context (Hr : m_root t ≠ Some P) (Hcl : classify order t (nd t P) = SINGLE_CHILD).

(** A node with this strategy is the only child of its parent and holds
    a single record. *)
Lemma only_child l1 l2 :
  Ls !! j = Some (l1 ++ P :: l2) →
  ∃ up pp k, Ls !! S j = Some up ∧ pp ∈ up ∧ par t P = Some pp ∧
    recs t pp = [(k, Some P)] ∧ length (recs t P) = 1%nat ∧ l1 ++ l2 ≠ [].
Proof.
  intros Hj.
  pose proof (holed_shape _ _ _ _ _ _ _ Hh) as Hsh.
  pose proof (holed_content _ _ _ _ _ _ _ Hh) as Hct.
  pose proof (holed_live _ _ _ _ _ _ _ Hh) as HlP.
  pose proof (holed_order _ _ _ _ _ _ _ Hh) as Hord.
  pose proof (half_order_pos order Hord) as Hho.
  pose proof (half_order_double order) as Hhd.
  destruct (holed_record _ _ _ _ _ _ _ Hh) as (ki & Hki).
  pose proof (lookup_lt_Some _ _ _ Hki) as Hi.
  pose proof (sh_nodup _ _ Hsh _ _ Hj) as Hnd.
  assert (P ∈ l1 ++ P :: l2) as HPin by set_solver.
  destruct (classify_single_child_inv _ _ _ Hcl) as (Hlen & HfL & HfR & HlL & HlR).
  change (pre (nd t P)) with (prv t P) in HfL, HlL.
  change (next (nd t P)) with (nxt t P) in HfR, HlR.
  change (records (nd t P)) with (recs t P) in Hlen.
  assert (∀ P0 i0 j0 L0, Some (P, i) = Some (P0, i0) → Ls !! j0 = Some L0 → P0 ∈ L0 →
            (j0 ≤ j)%nat) as Hhole.
  { intros P0 i0 j0 L0 [= <- <-] HL0 HP0.
    by rewrite (holed_at _ _ _ _ _ _ _ Hh _ _ HL0 HP0). }
  assert (S j < length Ls)%nat as Hlt.
  { pose proof (lookup_lt_Some _ _ _ Hj).
    destruct (decide (length Ls = S j)) as [E|]; [|lia].
    destruct (top_level _ _ Hsh _ _ Hj E) as (r & EL & Hr' & _).
    rewrite EL in HPin. apply list_elem_of_singleton in HPin. by subst. }
  pose proof (level_has_two _ _ _ _ _ _ _ Hsh Hct Hord ltac:(lia) j Hhole j _
                ltac:(lia) Hlt Hj) as Htwo.
  destruct (lookup_lt_is_Some_2 Ls (S j) Hlt) as [up Hup].
  pose proof (holed_above _ _ _ _ _ _ _ Hh j up _ (le_n _) Hup Hj) as Hf.
  rewrite decide_True in Hf by done.
  assert (∀ a, a ∈ up → erecs None t a ≠ []) as Hne.
  { intros a Ha. by eapply (level_nonempty _ _ _ _ _ _ _ Hct); [|lia|exact Hup|]. }
  assert (∀ S0, S0 ∈ l1 ++ P :: l2 → S0 ≠ P → par t S0 = par t P →
            lends order t (Some S0) = false → fits order t (nd t P) (Some S0) = true) as Hfit.
  { intros S0 HS HSP Hpar Hl.
    assert (live t S0) as HlS by exact (sh_live _ _ Hsh _ _ _ Hj HS).
    assert (is_end (Some S0) = false) as HeS by exact (is_end_node _ _ _ _ _ Hsh Hj HS).
    apply fits_true; [done|done|done|..];
      change (records (nd t P)) with (recs t P); [lia|].
    assert (length (recs t S0) ≤ half_order order)%nat; [|lia].
    by apply lends_false_inv. }
  assert (∃ p rs k, p ∈ up ∧ recs t p = rs ++ [(k, Some P)] ∧ par t P = Some p)
    as (p & rs & k & Hp & Ers & HpP).
  { destruct l2 as [|R l2'].
    - destruct (fam_last _ _ _ _ _ l1 P Hf Hne eq_refl) as (u & p & rs & k & -> & E & Hp & _).
      exists p, rs, k. split; [set_solver|done].
    - pose proof (chain_next _ _ _ _ _ _ Hsh Hj) as HnR. simpl in HnR.
      rewrite HnR in HfR, HlR.
      destruct (fam_adjacent _ _ _ _ _ _ _ _ _ Hf Hne eq_refl)
        as [(u1 & p & u2 & rs1 & k & k' & rs2 & -> & _ & HpP & HpR & _)|
            (u1 & p & p' & u2 & rs1 & k & k' & rs2 & -> & E & _ & HpP & _)].
      + rewrite Hfit in HfR; [done|set_solver| |congruence|done].
        intros ->. apply NoDup_app in Hnd as (_ & _ & [Hnd _]%NoDup_cons). set_solver.
      + exists p, rs1, k. split; [set_solver|done]. }
  assert (∃ p' rs' k', recs t p' = (k', Some P) :: rs' ∧ par t P = Some p')
    as (p' & rs' & k' & Ers' & HpP').
  { destruct l1 as [|Lf l1' _] using rev_ind.
    - destruct (fam_first _ _ _ _ _ P l2 Hf Hne eq_refl) as (p' & u & k' & rs' & -> & E & Hp' & _).
      by exists p', rs', k'.
    - pose proof (chain_prev _ _ _ _ _ _ Hsh Hj) as HpL. rewrite last_snoc in HpL.
      simpl in HpL. rewrite HpL in HfL, HlL.
      rewrite <- app_assoc in Hf, Hnd. simpl in Hf, Hnd.
      destruct (fam_adjacent _ _ _ _ _ _ _ _ _ Hf Hne eq_refl)
        as [(u1 & p0 & u2 & rs1 & k0 & k' & rs2 & -> & _ & HpL' & HpP' & _)|
            (u1 & p0 & p' & u2 & rs1 & k0 & k' & rs2 & -> & _ & E & _ & HpP' & _)].
      + rewrite Hfit in HfL; [done|set_solver| |congruence|done].
        intros ->. apply NoDup_app in Hnd as (_ & _ & [Hnd _]%NoDup_cons). set_solver.
      + by exists p', rs2, k'. }
  assert (p' = p) as -> by congruence.
  destruct (fam_unique _ _ _ _ _ p rs k P [] Hf Hnd (sh_nodup _ _ Hsh _ _ Hup) Hp)
    as (Hu1 & _ & _); [done|].
  assert (rs = []) as ->.
  { change (erecs None t p) with (recs t p) in *. rewrite Ers in Ers'.
    destruct rs as [|x rs0]; [done|]. injection Ers' as -> _.
    exfalso. apply Hu1. unfold kids. set_solver. }
  simpl in Ers. exists up, p, k. repeat split; try done.
  - destruct (ct_fill _ _ _ _ _ _ _ Hct _ _ _ Hup Hp) as [_ Hlb].
    rewrite Ers in Hlb. simpl in Hlb. case_decide; lia.
  - intros E. rewrite length_app in Htwo. simpl in Htwo.
    apply (f_equal length) in E. rewrite length_app in E. simpl in E. lia.
Qed.

Lemma arm_single_child :
  ∃ t' pp q L', erase_helper order (Some P) i t = Some ((true, (Some pp, q)), t') ∧
                holed order t' (<[j := L']> Ls) K (S j) pp q.
Proof.
  pose proof (holed_shape _ _ _ _ _ _ _ Hh) as Hsh.
  pose proof (holed_content _ _ _ _ _ _ _ Hh) as Hct.
  pose proof (holed_live _ _ _ _ _ _ _ Hh) as HlP.
  destruct (erase_helper_prefix _ _ _ _ _ _ _ Hh SINGLE_CHILD) as (ki & Hki & Hs & Hd & Hl).
  { by rewrite decide_False. }
  destruct (holed_level _ _ _ _ _ _ _ Hh) as (l1 & l2 & Hj).
  destruct (only_child l1 l2 Hj) as (up & pp & k & Hup & Hpp & HpP & Epp & Hlen & Hne).
  pose proof (sh_nodup _ _ Hsh _ _ Hj) as Hnd.
  assert (P ∈ l1 ++ P :: l2) as HPin by set_solver.
  assert (∀ a, a ∈ l1 ++ l2 → a ∈ l1 ++ P :: l2 ∧ a ≠ P) as Hsub.
  { intros a Ha. split; [set_solver|]. intros ->.
    apply NoDup_app in Hnd as (_ & Hd1 & [Hd2 _]%NoDup_cons).
    apply elem_of_app in Ha as [Ha|Ha]; [|done]. apply (Hd1 P Ha). set_solver. }
  assert (∀ j0 L a, Ls !! j0 = Some L → a ∈ L → a ≠ header) as Hnh.
  { intros j0 L a HL Ha ->. by apply (sh_not_header _ _ Hsh _ _ HL). }
  assert (upper Ls j pp) as Hupp by (by eapply upper_level).
  assert (pp ≠ P) as HppP.
  { intros ->. by apply (not_upper_level _ _ Hsh _ _ _ Hj) in Hupp. }
  assert (live t pp) as Hlpp by exact (sh_live _ _ Hsh _ _ _ Hup Hpp).
  assert (erecs (Some (P, i)) t P = []) as EdP.
  { rewrite erecs_hole. apply length_zero_iff_nil.
    rewrite length_delete by (by eexists). lia. }
  set (s1 := wr pp (set_records [(k, None)]) t).
  assert (same_links t s1) as Hsl1 by (by apply same_links_set_records).
  assert (live s1 P) as HlP1 by (by apply (sl_live _ _ Hsl1)).
  assert (∀ x, prv t P = Some x → live t x ∧ x ≠ P) as HpLx.
  { intros x. rewrite (chain_prev _ _ _ _ _ _ Hsh Hj).
    destruct (last l1) as [y|] eqn:Ey; simpl.
    - intros [= ->]. apply last_Some_elem_of in Ey.
      destruct (Hsub x ltac:(set_solver)) as [Hx HxP].
      split; [exact (sh_live _ _ Hsh _ _ _ Hj Hx)|done].
    - destruct j; simpl; [|done]. intros [= <-].
      split; [apply (sh_header _ _ Hsh)|]. intros E. by apply (Hnh _ _ _ Hj HPin). }
  assert (∀ x, nxt t P = Some x → live t x ∧ x ≠ P) as HnRx.
  { intros x. rewrite (chain_next _ _ _ _ _ _ Hsh Hj).
    destruct (head l2) as [y|] eqn:Ey; simpl.
    - intros [= ->]. apply head_Some_elem_of in Ey.
      destruct (Hsub x ltac:(set_solver)) as [Hx HxP].
      split; [exact (sh_live _ _ Hsh _ _ _ Hj Hx)|done].
    - destruct j; simpl; [|done]. intros [= <-].
      split; [apply (sh_header _ _ Hsh)|]. intros E. by apply (Hnh _ _ _ Hj HPin). }
  destruct (splice_run
              (delete_node (Some P) ;;; load (Some pp) ;;; ret (true, (Some pp, 0%nat)))
              s1 P HlP1)
    as (s2 & Hrun2 & Hroot2 & Hsize2 & Hlive2 & Hrecs2 & Hpar2 & Hleaf2 & Hnxt2 & Hprv2).
  { intros x. rewrite (sl_prv _ _ Hsl1). intros Hx. destruct (HpLx x Hx).
    split; [by apply (sl_live _ _ Hsl1)|done]. }
  { intros x. rewrite (sl_nxt _ _ Hsl1). intros Hx. destruct (HnRx x Hx).
    split; [by apply (sl_live _ _ Hsl1)|done]. }
  rewrite (sl_prv _ _ Hsl1), (sl_nxt _ _ Hsl1) in Hrun2, Hnxt2, Hprv2.
  set (s3 := free P s2).
  assert (∀ a, a ≠ P → recs s3 a = if decide (a = pp) then [(k, None)] else recs t a) as Er3.
  { intros a Ha. unfold s3. rewrite recs_free, Hrecs2 by done. unfold s1.
    autorewrite with st. repeat case_decide; by simplify_eq. }
  assert (∀ a, a ≠ P → par s3 a = par t a) as Ep3.
  { intros a Ha. unfold s3. rewrite par_free, Hpar2 by done. apply (sl_par _ _ Hsl1). }
  assert (∀ a, a ≠ P → live t a → live s3 a) as Hl3.
  { intros a Ha Hla. unfold s3. apply live_free_2; [done|].
    by apply Hlive2, (sl_live _ _ Hsl1). }
  assert (m_root s3 = m_root t ∧ m_size s3 = m_size t) as [Hroot3 Hsize3].
  { unfold s3. autorewrite with st. rewrite Hroot2, Hsize2.
    by rewrite (sl_root _ _ Hsl1), (sl_size _ _ Hsl1). }
  assert (∀ j0 L0 a, <[j := l1 ++ l2]> Ls !! j0 = Some L0 → a ∈ L0 →
            a ≠ P ∧ ∃ L, Ls !! j0 = Some L ∧ a ∈ L) as Hlev.
  { intros j0 L0 a HL0 Ha. destruct (decide (j0 = j)) as [->|Hne0].
    - rewrite list_lookup_insert_eq in HL0 by (by eapply lookup_lt_Some).
      injection HL0 as <-. destruct (Hsub a Ha). split; [done|]. by eexists.
    - rewrite list_lookup_insert_ne in HL0 by done. split; [|by eexists].
      intros ->. by pose proof (sh_disj _ _ Hsh _ _ _ _ _ Hj HL0 HPin Ha). }
  exists s3, pp, 0%nat, (l1 ++ l2). split.
  { unfold erase_helper.
    rewrite (bind_run _ _ _ _ _ Hs), (bind_run _ _ _ _ _ Hd), (bind_run _ _ _ _ _ Hl).
    change (pre (nd t P)) with (prv t P). change (next (nd t P)) with (nxt t P).
    change (parent (nd t P)) with (par t P). rewrite HpP.
    rewrite (bind_run _ _ _ _ _
      (overwrite_child_run t pp 0 (k, Some P) None Hlpp ltac:(by rewrite Epp))).
    rewrite Epp. simpl. fold s1.
    etrans; [exact Hrun2|].
    rewrite (bind_run _ _ _ _ _ (delete_node_live s2 P ltac:(by apply Hlive2))). fold s3.
    by rewrite (bind_run _ _ _ _ _ (load_live s3 pp (Hl3 _ HppP Hlpp))). }
  assert (shape s3 (<[j := l1 ++ l2]> Ls)) as Hsh3.
  { apply (remove_shape t s3 Ls j l1 P l2); try done.
    - intros a Ha. unfold s3. rewrite leaf_free, Hleaf2 by done. apply (sl_leaf _ _ Hsl1).
    - intros a Ha. unfold s3. rewrite nxt_free, Hnxt2 by done.
      by rewrite (sl_nxt _ _ Hsl1).
    - intros a Ha. unfold s3. rewrite prv_free, Hprv2 by done.
      by rewrite (sl_prv _ _ Hsl1).
    - intros r Hr'. apply Ep3. by intros ->. }
  split; [done|]. split; [|split; [|split]].
  - eapply (content_regroup order t Ls K j P i Hh l1 l2 Hj); try done.
    + intros j0 L0 a Hlt0 HL0 Ha.
      assert (a ≠ P ∧ a ≠ pp) as [H1 H2].
      { split; intros ->.
        - pose proof (sh_disj _ _ Hsh _ _ _ _ _ HL0 Hj Ha HPin). lia.
        - pose proof (sh_disj _ _ Hsh _ _ _ _ _ HL0 Hup Ha Hpp). lia. }
      split; [by rewrite Er3, decide_False|intros _; by apply Ep3].
    + intros P' i' j0 L0 [= <- <-] HL0 HP'.
      destruct (Hlev _ _ _ HL0 HP') as (_ & L & HL & HpL).
      pose proof (sh_disj _ _ Hsh _ _ _ _ _ HL Hup HpL Hpp). lia.
    + rewrite !fmap_app, !concat_app. csimpl. rewrite EdP. simpl.
      assert (∀ u : list nat, (∀ a, a ∈ u → a ∈ l1 ++ l2) →
                recs s3 <$> u = erecs (Some (P, i)) t <$> u) as Hu.
      { intros u Hu. apply list_fmap_ext. intros ? a Ha%list_elem_of_lookup_2.
        destruct (Hsub a (Hu a Ha)) as [Hin HaP].
        rewrite Er3, decide_False, erecs_other; try done.
        intros ->. by apply (not_upper_level _ _ Hsh _ _ _ Hj) in Hupp. }
      rewrite (Hu l1), (Hu l2); [done|set_solver..].
    + intros a r c Ha Hr' Hc. destruct (Hsub a Ha) as [Hin HaP].
      assert (a ≠ pp) as Hap.
      { intros ->. by apply (not_upper_level _ _ Hsh _ _ _ Hj) in Hupp. }
      rewrite Er3, decide_False in Hr' by done.
      destruct (kid_level _ _ _ _ _ _ _ Hct j _ a r c Hj Hin) as (j' & lo & -> & Hlo & Hc' & Hp & _);
        [by rewrite erecs_other|done|].
      rewrite Ep3; [done|]. intros ->.
      pose proof (sh_disj _ _ Hsh _ _ _ _ _ Hj Hlo HPin Hc'). lia.
    + intros i' up' lo Hle Hup' Hlo.
      eapply (unlink_fam t t s3 Ls j (alk t) l1 l2 up P pp 0 k); try done.
      * apply (holed_above _ _ _ _ _ _ _ Hh).
      * by rewrite Epp.
      * intros a Ha. rewrite Epp. simpl. apply Er3.
        intros ->. by apply (not_upper_level _ _ Hsh _ _ _ Hj) in Ha.
      * intros i0 L a Hle0 HL Ha HaP. by apply Ep3.
      * intros a Ha. destruct (Hsub a Ha) as [Hin HaP]. unfold alk.
        rewrite Er3 by done. rewrite decide_False; [done|].
        intros ->. by apply (not_upper_level _ _ Hsh _ _ _ Hj) in Hupp.
    + intros j0 L0 a HL0 Ha. destruct (Hlev _ _ _ HL0 Ha) as (HaP & L & HL & HaL).
      destruct (ct_fill _ _ _ _ _ _ _ Hct _ _ _ HL HaL) as [Hub Hlb].
      rewrite Hroot3. rewrite Er3 by done.
      destruct (decide (a = pp)) as [->|Hap]; [by rewrite Epp in Hub, Hlb|done].
    + intros Hall Hkeys. split.
      * exists (S j), up. split; [by rewrite list_lookup_insert_ne by lia|].
        split; [done|].
        rewrite (omap_ext_in _ (alk t)).
        -- by apply (level_sorted _ _ _ _ _ _ _ Hsh Hct (S j)).
        -- intros a Ha. unfold alk. rewrite Er3.
           ++ case_decide as E; [|done]. subst a. by rewrite Epp.
           ++ intros ->. pose proof (sh_disj _ _ Hsh _ _ _ _ _ Hj Hup HPin Ha). lia.
      * exists k. by rewrite Er3, decide_True.
  - exists up. split; [|done]. by rewrite list_lookup_insert_ne by lia.
  - apply (holed_order _ _ _ _ _ _ _ Hh).
  - by destruct Hh as (_ & _ & _ & _ & HK).
Qed.

End ArmSingleChild.

(** ** The loop of [erase] *)

Lemma content_rmin order h over t Ls K :
  content order h over 2 t Ls K → content order h over 1 t Ls K.
Proof.
  intros [H1 H2 H3 H4 H5 H6 H7]. split; try done.
  intros j L a HL Ha. destruct (H6 j L a HL Ha) as [Hub Hlb]. split; [done|].
  case_decide; [|done]. destruct j; lia.
Qed.

Section EraseLoop.

Context (order : nat) (K : list Z).

(** One call of [erase_helper] either ends the repair, with the invariant
    re-established but for a root that may hold a single record, or moves
    the record to remove one level up. *)
Lemma erase_helper_step t Ls j P i :
  holed order t Ls K j P i →
  (∃ t' r, erase_helper order (Some P) i t = Some ((false, r), t') ∧
           shape t' Ls ∧ content order None None 1 t' Ls K) ∨
  (∃ t' pp q L', erase_helper order (Some P) i t = Some ((true, (Some pp, q)), t') ∧
                 holed order t' (<[j := L']> Ls) K (S j) pp q).
Proof.
  intros Hh. destruct (decide (m_root t = Some P)) as [Hr|Hr].
  { left. destruct (arm_root _ _ _ _ _ _ _ Hh Hr) as (t' & Hrun & Hsh & Hct).
    by exists t', (Some P, i). }
  destruct (classify order t (nd t P)) eqn:Hcl;
    lazymatch type of Hcl with
    | _ = ROOT =>
        exfalso; revert Hcl; unfold classify;
        repeat match goal with
               | |- context [if ?b then _ else _] => destruct b
               end; done
    | _ = MERGE_LEFT => right; exact (arm_merge_left _ _ _ _ _ _ _ Hh Hr Hcl)
    | _ = MERGE_RIGHT => right; exact (arm_merge_right _ _ _ _ _ _ _ Hh Hr Hcl)
    | _ = SINGLE_CHILD => right; exact (arm_single_child _ _ _ _ _ _ _ Hh Hr Hcl)
    | _ = REMOVE_DIRECTLY =>
        left; destruct (arm_remove _ _ _ _ _ _ _ Hh Hr Hcl) as (t' & Hrun & Hsh & Hct);
        exists t', (Some P, i); split; [done|]; split; [done|]; by apply content_rmin
    | _ = BORROW_RIGHT =>
        left; destruct (arm_borrow_right _ _ _ _ _ _ _ Hh Hr Hcl) as (t' & Hrun & Hsh & Hct);
        exists t', (Some P, i); split; [done|]; split; [done|]; by apply content_rmin
    | _ = BORROW_LEFT =>
        left; destruct (arm_borrow_left _ _ _ _ _ _ _ Hh Hr Hcl) as (t' & Hrun & Hsh & Hct);
        exists t', (Some P, i); split; [done|]; split; [done|]; by apply content_rmin
    end.
Qed.

Lemma erase_loop_spec d : ∀ fuel t Ls j P i,
  holed order t Ls K j P i → (length Ls ≤ j + d)%nat → (d ≤ fuel)%nat →
  ∃ t' Ls', erase_loop order fuel (Some P) i t = Some (tt, t') ∧
            shape t' Ls' ∧ content order None None 1 t' Ls' K ∧ length Ls' = length Ls.
Proof.
  induction d as [|d IH]; intros fuel t Ls j P i Hh Hlen Hfuel.
  - destruct (holed_level _ _ _ _ _ _ _ Hh) as (l1 & l2 & Hj).
    apply lookup_lt_Some in Hj. lia.
  - destruct fuel as [|fuel]; [lia|].
    destruct (erase_helper_step t Ls j P i Hh)
      as [(t' & r & Hrun & Hsh & Hct)|(t' & pp & q & L' & Hrun & Hh')].
    + exists t', Ls. simpl. by rewrite (bind_run _ _ _ _ _ Hrun).
    + destruct (IH fuel t' (<[j := L']> Ls) (S j) pp q Hh') as (t2 & Ls2 & Hrun2 & Hsh2 & Hct2 & Hl2).
      { rewrite length_insert. lia. }
      { lia. }
      exists t2, Ls2. simpl. rewrite (bind_run _ _ _ _ _ Hrun). simpl.
      split; [done|]. split; [done|]. split; [done|]. by rewrite Hl2, length_insert.
Qed.

End EraseLoop.

(** ** The root with a single child *)

Lemma recs_with_root p t a : recs (with_root p t) a = recs t a.
Proof. done. Qed.
Lemma nxt_with_root p t a : nxt (with_root p t) a = nxt t a.
Proof. done. Qed.
Lemma prv_with_root p t a : prv (with_root p t) a = prv t a.
Proof. done. Qed.
Lemma par_with_root p t a : par (with_root p t) a = par t a.
Proof. done. Qed.
Lemma leaf_with_root p t a : leaf (with_root p t) a = leaf t a.
Proof. done. Qed.
Lemma recs_with_size n t a : recs (with_size n t) a = recs t a.
Proof. done. Qed.
Lemma nxt_with_size n t a : nxt (with_size n t) a = nxt t a.
Proof. done. Qed.
Lemma prv_with_size n t a : prv (with_size n t) a = prv t a.
Proof. done. Qed.
Lemma par_with_size n t a : par (with_size n t) a = par t a.
Proof. done. Qed.
Lemma leaf_with_size n t a : leaf (with_size n t) a = leaf t a.
Proof. done. Qed.

#[global] Hint Rewrite recs_with_root nxt_with_root prv_with_root par_with_root
  leaf_with_root recs_with_size nxt_with_size prv_with_size par_with_size
  leaf_with_size : st.

Lemma shrink_root_unfold fuel :
  shrink_root fuel =
  (root <- get_root ;;
   rn <- load root ;;
   if negb (is_leaf rn) && bool_decide (length (records rn) = 1%nat) then
     match fuel with
     | O => undefined
     | S fuel' =>
         f <- first_record root ;;
         delete_node root ;;;
         put_root f.2 ;;;
         modify f.2 (set_parent None) ;;;
         shrink_root fuel'
     end
   else ret tt).
Proof. by destruct fuel. Qed.

Lemma content_nonempty_levels order h over rmin t Ls K :
  content order h over rmin t Ls K → K ≠ [] → Ls ≠ [].
Proof.
  intros Hct HK ->. apply HK. by rewrite <- (ct_keys _ _ _ _ _ _ _ Hct).
Qed.

Section ShrinkRoot.

Context (order : nat) (K : list Z) (Hord : (2 ≤ order)%nat) (HK : K ≠ []).

Lemma shrink_done t Ls r :
  shape t Ls → content order None None 1 t Ls K → m_root t = Some r →
  negb (leaf t r) && bool_decide (length (recs t r) = 1%nat) = false →
  WF order t Ls K.
Proof.
  intros Hsh Hct Hr Hc. split; [done|].
  destruct Hct as [H1 H2 H3 H4 H5 H6 H7]. split; try done.
  intros j L a HL Ha. destruct (H6 j L a HL Ha) as [Hub Hlb]. split; [done|].
  case_decide as E; [|done]. destruct j as [|j]; [done|].
  rewrite Hr in E. injection E as <-.
  rewrite (sh_leaf _ _ Hsh _ _ _ HL Ha) in Hc.
  rewrite bool_decide_eq_false_2 in Hc by done. simpl in Hc.
  apply bool_decide_eq_false in Hc. lia.
Qed.

Lemma shrink_step t Ls r :
  shape t Ls → content order None None 1 t Ls K → m_root t = Some r →
  negb (leaf t r) && bool_decide (length (recs t r) = 1%nat) = true →
  ∃ c k Ls0,
    Ls = Ls0 ++ [[r]] ∧ recs t r = [(k, Some c)] ∧ live t c ∧ c ≠ r ∧
    let t' := wr c (set_parent None) (with_root (Some c) (free r t)) in
    shape t' Ls0 ∧ content order None None 1 t' Ls0 K.
Proof.
  intros Hsh Hct Hr Hc. apply andb_prop in Hc as [Hnl Hone].
  apply bool_decide_eq_true in Hone. apply negb_true_iff in Hnl.
  pose proof (content_nonempty_levels _ _ _ _ _ _ _ Hct HK) as Hne.
  destruct Ls as [|Ltop Ls0 _] using rev_ind; [done|]. clear Hne.
  assert ((Ls0 ++ [Ltop]) !! length Ls0 = Some Ltop) as Htop.
  { by apply list_lookup_middle. }
  destruct (top_level _ _ Hsh _ _ Htop) as (r' & -> & Hr' & Hpr).
  { rewrite length_app. simpl. lia. }
  rewrite Hr in Hr'. injection Hr' as <-.
  assert (r ∈ [r]) as Hrin by set_solver.
  rewrite (sh_leaf _ _ Hsh _ _ _ Htop Hrin) in Hnl.
  apply bool_decide_eq_false in Hnl.
  destruct Ls0 as [|lo Ls1 _] using rev_ind; [done|]. clear Hnl.
  assert (((Ls1 ++ [lo]) ++ [[r]]) !! length Ls1 = Some lo) as Hlo.
  { rewrite <- app_assoc. simpl. by apply list_lookup_middle. }
  rewrite length_app in Htop. simpl in Htop. rewrite Nat.add_1_r in Htop.
  pose proof (ct_fam _ _ _ _ _ _ _ Hct _ _ _ Htop Hlo) as Hf.
  pose proof (fam_kids _ _ _ _ _ Hf) as Hk.
  change (erecs None t) with (recs t) in Hk. simpl in Hk.
  rewrite app_nil_r in Hk.
  destruct (recs t r) as [|[k c] [|? ?]] eqn:Er; try done. simpl in Hk.
  destruct lo as [|c' [|? ?]]; try done. simpl in Hk. injection Hk as ->.
  assert (c' ∈ [c']) as Hcin by set_solver.
  assert (c' ≠ r) as Hcr.
  { intros ->. pose proof (sh_disj _ _ Hsh _ _ _ _ _ Htop Hlo Hrin Hcin). lia. }
  exists c', k, (Ls1 ++ [[c']]). split; [done|]. split; [done|].
  split; [exact (sh_live _ _ Hsh _ _ _ Hlo Hcin)|]. split; [done|].
  set (t' := wr c' (set_parent None) (with_root (Some c') (free r t))).
  assert (∀ j L, (Ls1 ++ [[c']]) !! j = Some L →
            ((Ls1 ++ [[c']]) ++ [[r]]) !! j = Some L ∧ (j < S (length Ls1))%nat) as Hsub.
  { intros j L HL. split; [by apply lookup_app_l_Some|].
    apply lookup_lt_Some in HL. rewrite length_app in HL. simpl in HL. lia. }
  assert (∀ j L a, (Ls1 ++ [[c']]) !! j = Some L → a ∈ L → a ≠ r) as Hnr.
  { intros j L a HL Ha ->. destruct (Hsub j L HL) as [HL' Hlt].
    pose proof (sh_disj _ _ Hsh _ _ _ _ _ HL' Htop Ha Hrin). lia. }
  assert (∀ a, a ≠ r → recs t' a = recs t a ∧ nxt t' a = nxt t a ∧ prv t' a = prv t a ∧
            leaf t' a = leaf t a ∧ (a ≠ c' → par t' a = par t a)) as Hfr.
  { intros a Ha. unfold t'. autorewrite with st.
    rewrite recs_free, nxt_free, prv_free, leaf_free, par_free by done.
    repeat split; try done. intros Hac. by rewrite decide_False by done. }
  assert (∀ a, a ≠ r → live t a → live t' a) as Hlive.
  { intros a Ha Hl. unfold t'. apply live_wr_2, live_with_root. by apply live_free_2. }
  assert (header ≠ r) as Hhr.
  { intros E. apply (sh_not_header _ _ Hsh _ _ Htop). by rewrite E. }
  assert (shape t' (Ls1 ++ [[c']])) as Hsh'.
  { split.
    - intros j L HL. destruct (Hsub j L HL) as [HL' _]. by eapply sh_nodup.
    - intros i i' L L' a HL HL' Ha Ha'.
      destruct (Hsub _ _ HL) as [H1 _]. destruct (Hsub _ _ HL') as [H2 _].
      by eapply (sh_disj _ _ Hsh).
    - intros j L a HL Ha. destruct (Hsub j L HL) as [HL' _].
      apply Hlive; [by eapply Hnr|]. by eapply sh_live.
    - apply Hlive; [done|]. apply (sh_header _ _ Hsh).
    - intros j L HL. destruct (Hsub j L HL) as [HL' _]. by eapply sh_not_header.
    - intros j L HL. destruct (Hsub j L HL) as [HL' _]. by eapply sh_nonempty.
    - unfold t'. autorewrite with st. simpl. by rewrite last_snoc.
    - intros L. rewrite last_snoc. by intros [= <-].
    - intros r0. unfold t'. autorewrite with st. simpl. intros [= <-].
      autorewrite with st. by rewrite decide_True.
    - intros j L a HL Ha. destruct (Hsub j L HL) as [HL' _].
      destruct (Hfr a) as (_ & _ & _ & -> & _); [by eapply Hnr|]. by eapply sh_leaf.
    - intros j L HL. destruct (Hsub j L HL) as [HL' _].
      eapply chain_from_ext; [|by apply (sh_chain _ _ Hsh)].
      intros a Ha. destruct (Hfr a) as (_ & -> & -> & _); [by eapply Hnr|done].
    - destruct (Hfr header) as (_ & -> & _); [done|]. rewrite (sh_hdr_next _ _ Hsh).
      destruct Ls1; done.
    - destruct (Hfr header) as (_ & _ & -> & _); [done|]. rewrite (sh_hdr_pre _ _ Hsh).
      destruct Ls1; done. }
  split; [done|].
  destruct Hct as [H1 H2 H3 H4 H5 H6 H7]. split; try done.
  - intros j up lo Hup Hlo'. destruct (Hsub _ _ Hup) as [Hup' Hlt].
    destruct (Hsub _ _ Hlo') as [Hlo'' _].
    eapply fam_ext; [| | |exact (H1 _ _ _ Hup' Hlo'')].
    + intros a Ha. erecs_none. destruct (Hfr a) as (-> & _); [exact (Hnr _ _ _ Hup Ha)|done].
    + intros x Hx. destruct (Hfr x) as (_ & _ & _ & _ & Hp); [exact (Hnr _ _ _ Hlo' Hx)|].
      apply Hp. intros ->.
      pose proof (sh_disj _ _ Hsh _ _ _ _ _ Hlo'' Hlo Hx Hcin). lia.
    + intros x Hx. unfold alk.
      destruct (Hfr x) as (-> & _); [exact (Hnr _ _ _ Hlo' Hx)|done].
  - intros L a r0 HL Ha Hr0. destruct (Hsub _ _ HL) as [HL' _].
    destruct (Hfr a) as (E & _); [by eapply Hnr|]. rewrite E in Hr0.
    by eapply H2.
  - rewrite <- H3. unfold level_keys.
    assert ((Ls1 ++ [[c']]) !! 0%nat = ((Ls1 ++ [[c']]) ++ [[r]]) !! 0%nat) as ->.
    { by destruct Ls1. }
    destruct (((Ls1 ++ [[c']]) ++ [[r]]) !! 0%nat) as [L0|] eqn:E0; [|done]. simpl.
    f_equal. apply list_fmap_ext. intros ? a Ha%list_elem_of_lookup_2. simpl.
    erecs_none. destruct (Hfr a) as (-> & _); [|done].
    intros ->. pose proof (sh_disj _ _ Hsh _ _ _ _ _ E0 Htop Ha Hrin). lia.
  - intros j L a HL Ha. destruct (Hsub _ _ HL) as [HL' Hlt].
    assert (a ≠ r) as Har by (by eapply Hnr).
    destruct (Hfr a) as (-> & _); [done|].
    destruct (H6 j L a HL' Ha) as [Hub Hlb]. split; [done|].
    rewrite decide_False in Hlb by (rewrite Hr; by intros [= ->]).
    pose proof (half_order_pos order Hord).
    destruct (decide (m_root t' = Some a)); [destruct j; lia|done].
Qed.

Lemma shrink_root_spec n : ∀ fuel t Ls,
  shape t Ls → content order None None 1 t Ls K →
  (length Ls ≤ S n)%nat → (n ≤ fuel)%nat →
  ∃ t' Ls', shrink_root fuel t = Some (tt, t') ∧ WF order t' Ls' K.
Proof.
  induction n as [|n IH]; intros fuel t Ls Hsh Hct Hlen Hfuel.
  all: pose proof (content_nonempty_levels _ _ _ _ _ _ _ Hct HK) as Hne.
  all: destruct (last Ls) as [Ltop|] eqn:Elast; [|by apply last_None in Elast].
  all: pose proof (sh_top _ _ Hsh _ Elast) as Htop1.
  all: destruct Ltop as [|r [|? ?]]; try done.
  all: assert (m_root t = Some r) as Hr by (by rewrite (sh_root _ _ Hsh), Elast).
  all: assert (live t r) as Hlr.
  1,3: rewrite last_lookup in Elast; apply (sh_live _ _ Hsh _ _ _ Elast); set_solver.
  all: rewrite shrink_root_unfold.
  all: unfold get_root; rewrite (bind_run _ _ t (m_root t) t eq_refl), Hr.
  all: rewrite (bind_run _ _ _ _ _ (load_live t r Hlr)).
  all: change (is_leaf (nd t r)) with (leaf t r).
  all: change (records (nd t r)) with (recs t r).
  all: destruct (negb (leaf t r) && bool_decide (length (recs t r) = 1%nat)) eqn:Hc.
  all: try (exists t, Ls; split; [done|]; by eapply shrink_done).
  - destruct (shrink_step t Ls r Hsh Hct Hr Hc) as (c & k & Ls0 & -> & _ & _ & _ & Hsh' & _).
    rewrite length_app in Hlen. simpl in Hlen.
    assert (Ls0 = []) as -> by (destruct Ls0; [done|simpl in Hlen; lia]).
    pose proof (sh_root _ _ Hsh') as E. simpl in E. unfold wr, with_root in E. simpl in E. done.
  - destruct (shrink_step t Ls r Hsh Hct Hr Hc)
      as (c & k & Ls0 & -> & Er & Hlc & Hcr & Hsh' & Hct').
    destruct fuel as [|fuel]; [lia|].
    unfold first_record.
    rewrite (bind_run _ _ _ _ _ (record_at_run t r 0 (k, Some c) Hlr ltac:(by rewrite Er))).
    rewrite (bind_run _ _ _ _ _ (delete_node_live t r Hlr)). simpl.
    unfold put_root.
    rewrite (bind_run _ _ (free r t) tt (with_root (Some c) (free r t)) eq_refl).
    rewrite (bind_run _ _ _ _ _ (modify_live (with_root (Some c) (free r t)) c _
      ltac:(by apply live_with_root, live_free_2))).
    apply (IH fuel _ Ls0); [done|done| |lia].
    rewrite length_app in Hlen. simpl in Hlen. lia.
Qed.

End ShrinkRoot.

(** ** Descent to a leaf *)

Lemma key_le_last (rs : list (Z * option nat)) r kl :
  StronglySorted Z.lt (keys rs) → r ∈ rs → last_key rs = Some kl → r.1 ≤ kl.
Proof.
  intros Hs Hr Hl. unfold last_key in Hl.
  destruct rs as [|q rs _] using rev_ind; [done|].
  rewrite last_snoc in Hl. injection Hl as <-.
  apply elem_of_app in Hr as [Hr|Hr]; [|apply list_elem_of_singleton in Hr; subst; lia].
  unfold keys in Hs. rewrite fmap_app in Hs.
  assert (r.1 < q.1); [|lia].
  eapply (StronglySorted_app_1_elem_of _ _ _ _ _ Hs); [|set_solver].
  apply list_elem_of_fmap. by exists r.
Qed.

Section Descent.

Context (order : nat) (over : option nat) (rmin : nat).
Context (t : tree) (Ls : list (list nat)) (K : list Z).
Context (Hsh : shape t Ls) (Hct : content order None over rmin t Ls K).
Context (Hord : (2 ≤ order)%nat) (Hrmin : (1 ≤ rmin)%nat).

Lemma alk_Some j L a : Ls !! j = Some L → a ∈ L → ∃ ka, alk t a = Some ka.
Proof.
  intros HL Ha. pose proof (level_nonempty _ _ _ _ _ _ _ Hct j L a Hord Hrmin HL Ha) as Hne.
  unfold alk, last_key. destruct (last (recs t a)) as [r|] eqn:E; [by eexists|].
  by apply last_None in E.
Qed.

Lemma descend_step j up lo k a :
  Ls !! S j = Some up → Ls !! j = Some lo → first_ge t up k a →
  ∃ ki c, recs t a !! lower_bound_idx k (recs t a) = Some (ki, Some c) ∧
          first_ge t lo k c ∧ live t c.
Proof.
  intros Hup Hlo (u1 & u2 & ka & -> & Hka & Hle & Hbefore).
  pose proof (ct_fam _ _ _ _ _ _ _ Hct _ _ _ Hup Hlo) as Hf.
  assert (a ∈ u1 ++ a :: u2) as Ha by set_solver.
  pose proof (node_sorted _ _ _ _ _ _ _ Hsh Hct (S j) _ a Hup Ha) as Hs.
  change (erecs None t a) with (recs t a) in Hs.
  set (i := lower_bound_idx k (recs t a)).
  assert (i < length (recs t a))%nat as Hi.
  { pose proof (lower_bound_idx_le k (recs t a)). fold i in H.
    destruct (decide (i = length (recs t a))) as [E|]; [|lia]. exfalso.
    pose proof (take_lower_bound_idx k (recs t a)) as Hall. fold i in Hall.
    rewrite E, firstn_all in Hall. rewrite Forall_forall in Hall.
    unfold alk, last_key in Hka. destruct (last (recs t a)) as [r|] eqn:El; [|done].
    injection Hka as <-. apply last_Some_elem_of in El. specialize (Hall r El). lia. }
  destruct (lookup_lt_is_Some_2 _ _ Hi) as [[ki c] Hr].
  pose proof (lower_bound_idx_at k (recs t a) (ki, c) Hr) as Hki. simpl in Hki.
  pose proof (take_drop_middle _ _ _ Hr) as Esp.
  pose proof (take_lower_bound_idx k (recs t a)) as Hall. fold i in Hall.
  rewrite Forall_forall in Hall.
  pose proof (fam_kids _ _ _ _ _ Hf) as Hk. change (erecs None t) with (recs t) in Hk.
  rewrite fmap_app, concat_app in Hk. csimpl in Hk. rewrite <- Esp in Hk.
  unfold kids in Hk. rewrite fmap_app in Hk. csimpl in Hk.
  rewrite <- !app_assoc in Hk. simpl in Hk. rewrite app_assoc in Hk.
  symmetry in Hk.
  apply fmap_app_inv in Hk as (lo1 & lo2' & E1 & E2 & ->).
  symmetry in E2. apply fmap_cons_inv in E2 as (c' & lo2 & -> & _ & ->).
  assert (c' ∈ lo1 ++ c' :: lo2) as Hc by set_solver.
  destruct (fam_rec _ _ _ _ _ Hf a (ki, Some c') c' Ha) as [Hp Hkc]; [|done|].
  { change (erecs None t a) with (recs t a). by eapply list_elem_of_lookup_2. }
  exists ki, c'. split; [done|]. split; [|exact (sh_live _ _ Hsh _ _ _ Hlo Hc)].
  exists lo1, lo2, ki. split; [done|]. split; [done|]. split; [done|].
  intros x kx Hx Hkx.
  assert (Some x ∈ Some <$> lo1) as Hin by (apply list_elem_of_fmap; by exists x).
  rewrite <- E1 in Hin. apply elem_of_app in Hin as [Hin|Hin].
  - apply elem_of_concat in Hin as (l & Hin & (y & -> & Hy)%list_elem_of_fmap).
    apply list_elem_of_fmap in Hin as (r & Hrx & Hr').
    destruct (fam_rec _ _ _ _ _ Hf y r x) as [_ Hkx']; [set_solver|done|done|].
    rewrite Hkx in Hkx'. injection Hkx' as ->.
    destruct (alk_Some (S j) _ y Hup) as [ky Hky]; [set_solver|].
    pose proof (Hbefore y ky Hy Hky).
    assert (r.1 ≤ ky); [|lia].
    eapply key_le_last; [|exact Hr'|exact Hky].
    eapply (node_sorted _ _ _ _ _ _ _ Hsh Hct (S j) _ y Hup). set_solver.
  - apply list_elem_of_fmap in Hin as (r & Hrx & Hr').
    destruct (fam_rec _ _ _ _ _ Hf a r x Ha) as [_ Hkx']; [|done|].
    { change (erecs None t a) with (recs t a). rewrite <- Esp. set_solver. }
    rewrite Hkx in Hkx'. injection Hkx' as ->. by apply Hall.
Qed.

(** The keys of the tree that are not less than [k] start in the leaf in
    which the descent ends. *)
Lemma first_ge_leaf L k P :
  Ls !! 0%nat = Some L → first_ge t L k P → k ∈ K → k ∈ keys (recs t P).
Proof.
  intros HL (l1 & l2 & kP & -> & HkP & Hle & Hbefore) Hk.
  rewrite <- (ct_keys _ _ _ _ _ _ _ Hct), HL in Hk. simpl in Hk.
  apply elem_of_concat in Hk as (l & Hk & (x & -> & Hx)%list_elem_of_fmap).
  change (erecs None t x) with (recs t x) in Hk.
  apply list_elem_of_fmap in Hk as (r & -> & Hr).
  assert (P ∈ l1 ++ P :: l2) as HP by set_solver.
  apply elem_of_app in Hx as [Hx|[->|Hx]%elem_of_cons].
  - exfalso. destruct (alk_Some 0 _ x HL) as [kx Hkx]; [set_solver|].
    pose proof (Hbefore x kx Hx Hkx).
    assert (r.1 ≤ kx); [|lia].
    eapply key_le_last; [|exact Hr|exact Hkx].
    eapply (node_sorted _ _ _ _ _ _ _ Hsh Hct 0 _ x HL). set_solver.
  - apply list_elem_of_fmap. by exists r.
  - exfalso. unfold alk, last_key in HkP.
    destruct (last (recs t P)) as [q|] eqn:El; [|done]. injection HkP as <-.
    apply last_Some_elem_of in El.
    pose proof (level_keys_lt _ _ _ _ _ _ _ Hsh Hct 0 l1 P l2 x q r HL Hx El Hr). lia.
Qed.

Lemma leaf_record L P i r :
  Ls !! 0%nat = Some L → P ∈ L → recs t P !! i = Some r → r.2 = None ∧ r.1 ∈ K.
Proof.
  intros HL HP Hr. apply list_elem_of_lookup_2 in Hr. split.
  - by eapply (ct_leaves _ _ _ _ _ _ _ Hct).
  - rewrite <- (ct_keys _ _ _ _ _ _ _ Hct), HL. simpl.
    apply elem_of_concat. exists (keys (recs t P)). split.
    + apply list_elem_of_fmap. by exists r.
    + apply list_elem_of_fmap. by exists P.
Qed.

End Descent.

(** ** [find] and [lower_bound] on a well-formed tree *)

Section Search.

Context (order : nat) (over : option nat) (rmin : nat).
Context (t : tree) (Ls : list (list nat)) (K : list Z).
Context (Hsh : shape t Ls) (Hct : content order None over rmin t Ls K).
Context (Hord : (2 ≤ order)%nat) (Hrmin : (1 ≤ rmin)%nat).

Lemma root_max d : ∀ j L a ka,
  Ls !! j = Some L → a ∈ L → alk t a = Some ka → length Ls = (S j + d)%nat →
  ∃ r kr, m_root t = Some r ∧ alk t r = Some kr ∧ ka ≤ kr.
Proof.
  induction d as [|d IH]; intros j L a ka HL Ha Hka Hlen.
  - destruct (top_level _ _ Hsh _ _ HL) as (r & -> & Hr & _); [lia|].
    apply list_elem_of_singleton in Ha as ->. exists r, ka. split; [done|]. split; [done|lia].
  - destruct (lookup_lt_is_Some_2 Ls (S j)) as [up Hup]; [lia|].
    pose proof (ct_fam _ _ _ _ _ _ _ Hct _ _ _ Hup HL) as Hf.
    destruct (fam_child _ _ _ _ _ _ Hf Ha) as (p & rs1 & k & rs2 & Hp & Ers & _ & Hk).
    change (erecs None t p) with (recs t p) in Ers.
    rewrite Hka in Hk. injection Hk as <-.
    destruct (alk_Some _ _ _ _ _ _ Hct Hord Hrmin (S j) _ p Hup Hp) as [kp Hkp].
    destruct (IH (S j) up p kp Hup Hp Hkp ltac:(lia)) as (r & kr & Hr & Hkr & Hle).
    exists r, kr. split; [done|]. split; [done|].
    assert (ka ≤ kp); [|lia].
    apply (key_le_last (recs t p) (ka, Some a) kp); [|rewrite Ers; set_solver|done].
    exact (node_sorted _ _ _ _ _ _ _ Hsh Hct (S j) _ p Hup Hp).
Qed.

Lemma key_le_root k r kr :
  k ∈ K → m_root t = Some r → alk t r = Some kr → k ≤ kr.
Proof.
  intros Hk Hr Hkr.
  rewrite <- (ct_keys _ _ _ _ _ _ _ Hct) in Hk.
  destruct (Ls !! 0%nat) as [L0|] eqn:HL0; [|by apply elem_of_nil in Hk]. simpl in Hk.
  apply elem_of_concat in Hk as (l & Hk & (x & -> & Hx)%list_elem_of_fmap).
  change (erecs None t x) with (recs t x) in Hk.
  apply list_elem_of_fmap in Hk as (q & -> & Hq).
  destruct (alk_Some _ _ _ _ _ _ Hct Hord Hrmin 0 _ x HL0 Hx) as [kx Hkx].
  pose proof (lookup_lt_Some _ _ _ HL0) as Hlt.
  destruct (root_max (length Ls - 1) 0 L0 x kx HL0 Hx Hkx ltac:(lia))
    as (r' & kr' & Hr' & Hkr' & Hle).
  rewrite Hr in Hr'. injection Hr' as <-. rewrite Hkr in Hkr'. injection Hkr' as <-.
  assert (q.1 ≤ kx); [|lia].
  apply (key_le_last (recs t x) q kx); [|done|done].
  exact (node_sorted _ _ _ _ _ _ _ Hsh Hct 0 _ x HL0 Hx).
Qed.

Lemma find_leaf k L a fuel :
  Ls !! 0%nat = Some L → a ∈ L → (k ∈ K → k ∈ keys (recs t a)) →
  ∃ it, find_loop (S fuel) k (Some a) t = Some (it, t) ∧ finds t Ls K k it.
Proof.
  intros HL Ha Hin. simpl.
  rewrite (bind_run _ _ _ _ _ (load_live t a (sh_live _ _ Hsh _ _ _ HL Ha))).
  change (is_leaf (nd t a)) with (leaf t a). change (records (nd t a)) with (recs t a).
  rewrite (sh_leaf _ _ Hsh _ _ _ HL Ha). rewrite bool_decide_eq_true_2 by done. simpl.
  pose proof (node_sorted _ _ _ _ _ _ _ Hsh Hct 0 _ a HL Ha) as Hs.
  change (erecs None t a) with (recs t a) in Hs.
  destruct (decide (k ∈ keys (recs t a))) as [Hk|Hk].
  - apply list_elem_of_fmap in Hk as ([k' c] & Ek & Hr). simpl in Ek. subst k'.
    apply list_elem_of_split in Hr as (rs1 & rs2 & Ers).
    rewrite Ers in Hs |- *.
    rewrite find_idx_found by (exact (sorted_keys_before rs1 (k, c) rs2 Hs)).
    rewrite bool_decide_eq_true_2 by (rewrite length_app; simpl; lia).
    eexists. split; [done|]. left.
    assert (recs t a !! length rs1 = Some (k, c)) as Hlk.
    { rewrite Ers. by apply list_lookup_middle. }
    destruct (leaf_record _ _ _ _ _ _ Hct _ _ _ _ HL Ha Hlk) as [Hc HkK].
    simpl in Hc, HkK. subst c. split; [done|].
    by exists a, (length rs1), L.
  - rewrite find_idx_missing by done. rewrite bool_decide_eq_false_2 by (intros ?; done).
    eexists. split; [done|]. right. split; [|done]. intros HkK. by apply Hk, Hin.
Qed.

Lemma find_loop_spec k j : ∀ fuel L a,
  Ls !! j = Some L → first_ge t L k a → (j < fuel)%nat →
  ∃ it, find_loop fuel k (Some a) t = Some (it, t) ∧ finds t Ls K k it.
Proof.
  induction j as [|j IH]; intros fuel L a HL Hge Hfuel;
    (destruct fuel as [|fuel]; [lia|]).
  - assert (a ∈ L) as Ha.
    { destruct Hge as (l1 & l2 & ? & -> & _). set_solver. }
    apply (find_leaf k L a fuel HL Ha).
    by apply (first_ge_leaf _ _ _ _ _ _ Hsh Hct Hord Hrmin L k a).
  - assert (a ∈ L) as Ha.
    { destruct Hge as (l1 & l2 & ? & -> & _). set_solver. }
    destruct (lookup_lt_is_Some_2 Ls j) as [lo Hlo].
    { apply lookup_lt_Some in HL. lia. }
    destruct (descend_step _ _ _ _ _ _ Hsh Hct Hord Hrmin j L lo k a HL Hlo Hge)
      as (ki & c & Hr & Hge' & Hlc).
    destruct (IH fuel lo c Hlo Hge' ltac:(lia)) as (it & Hrun & Hit).
    exists it. split; [|done]. simpl.
    rewrite (bind_run _ _ _ _ _ (load_live t a (sh_live _ _ Hsh _ _ _ HL Ha))).
    change (is_leaf (nd t a)) with (leaf t a). change (records (nd t a)) with (recs t a).
    rewrite (sh_leaf _ _ Hsh _ _ _ HL Ha). rewrite bool_decide_eq_false_2 by done. simpl.
    rewrite bool_decide_eq_false_2 by (apply lookup_lt_Some in Hr; lia).
    rewrite (bind_run _ _ _ _ _ (record_at_run t a _ _ (sh_live _ _ Hsh _ _ _ HL Ha) Hr)).
    done.
Qed.

Lemma lower_bound_loop_spec k j : ∀ fuel L a,
  Ls !! j = Some L → first_ge t L k a → (j < fuel)%nat →
  ∃ it, lower_bound_loop fuel k (Some a) t = Some (it, t).
Proof.
  induction j as [|j IH]; intros fuel L a HL Hge Hfuel;
    (destruct fuel as [|fuel]; [lia|]).
  all: assert (a ∈ L) as Ha by (destruct Hge as (l1 & l2 & ? & -> & _); set_solver).
  all: simpl; rewrite (bind_run _ _ _ _ _ (load_live t a (sh_live _ _ Hsh _ _ _ HL Ha))).
  all: change (is_leaf (nd t a)) with (leaf t a).
  all: change (records (nd t a)) with (recs t a).
  all: rewrite (sh_leaf _ _ Hsh _ _ _ HL Ha).
  - rewrite bool_decide_eq_true_2 by done. simpl. by eexists.
  - destruct (lookup_lt_is_Some_2 Ls j) as [lo Hlo].
    { apply lookup_lt_Some in HL. lia. }
    destruct (descend_step _ _ _ _ _ _ Hsh Hct Hord Hrmin j L lo k a HL Hlo Hge)
      as (ki & c & Hr & Hge' & Hlc).
    destruct (IH fuel lo c Hlo Hge' ltac:(lia)) as (it & Hrun).
    exists it. rewrite bool_decide_eq_false_2 by done. simpl.
    rewrite bool_decide_eq_false_2 by (apply lookup_lt_Some in Hr; lia).
    by rewrite (bind_run _ _ _ _ _ (record_at_run t a _ _ (sh_live _ _ Hsh _ _ _ HL Ha) Hr)).
Qed.

(** The root, when there is one: the only node of the last level. *)
Lemma root_node :
  Ls ≠ [] → ∃ r kr, Ls !! (length Ls - 1)%nat = Some [r] ∧ m_root t = Some r ∧
                     alk t r = Some kr ∧ live t r.
Proof.
  intros Hne. destruct (last Ls) as [Ltop|] eqn:El; [|by apply last_None in El].
  pose proof (sh_top _ _ Hsh _ El) as H1. destruct Ltop as [|r [|? ?]]; try done.
  rewrite last_lookup in El.
  replace (Nat.pred (length Ls)) with (length Ls - 1)%nat in El by lia.
  destruct (alk_Some _ _ _ _ _ _ Hct Hord Hrmin _ _ r El) as [kr Hkr]; [set_solver|].
  exists r, kr. split; [done|]. split; [|split; [done|]].
  - rewrite (sh_root _ _ Hsh), last_lookup.
    replace (Nat.pred (length Ls)) with (length Ls - 1)%nat by lia. by rewrite El.
  - apply (sh_live _ _ Hsh _ _ _ El). set_solver.
Qed.

Lemma find_spec k : ∃ it, find k t = Some (it, t) ∧ finds t Ls K k it.
Proof.
  unfold find, loop_bound, get_root.
  rewrite (bind_run _ _ t (S (base.size (heap t))) t eq_refl).
  rewrite (bind_run _ _ t (m_root t) t eq_refl).
  destruct (decide (Ls = [])) as [->|Hne].
  - rewrite (sh_root _ _ Hsh). simpl. eexists. split; [done|]. right. split; [|done].
    rewrite <- (ct_keys _ _ _ _ _ _ _ Hct). simpl. apply not_elem_of_nil.
  - destruct (root_node Hne) as (r & kr & Htop & Hr & Hkr & Hlr). rewrite Hr.
    pose proof (levels_bound _ _ Hsh) as Hb.
    assert (r ∈ [r]) as Hrin by set_solver.
    destruct (decide (k ≤ kr)) as [Hle|Hgt].
    + apply (find_loop_spec k (length Ls - 1) _ [r] r Htop); [|lia].
      exists [], [], kr. repeat split; try done. intros x kx Hx. set_solver.
    + assert (k ∉ K) as HnK.
      { intros Hk. pose proof (key_le_root k r kr Hk Hr Hkr). lia. }
      pose proof (node_sorted _ _ _ _ _ _ _ Hsh Hct _ _ r Htop Hrin) as Hs.
      change (erecs None t r) with (recs t r) in Hs.
      assert (Forall (λ q, q.1 < k) (recs t r)) as Hall.
      { apply Forall_forall. intros q Hq.
        pose proof (key_le_last _ _ _ Hs Hq Hkr). lia. }
      destruct (length Ls - 1)%nat as [|m] eqn:Em.
      * destruct (find_leaf k [r] r (base.size (heap t)) Htop Hrin) as (it & Hrun & Hit);
          [done|]. by exists it.
      * eexists. split; [|right; by split]. simpl.
        rewrite (bind_run _ _ _ _ _ (load_live t r Hlr)).
        change (is_leaf (nd t r)) with (leaf t r).
        change (records (nd t r)) with (recs t r).
        rewrite (sh_leaf _ _ Hsh _ _ _ Htop Hrin).
        rewrite bool_decide_eq_false_2 by done. simpl.
        by rewrite lower_bound_idx_all, bool_decide_eq_true_2.
Qed.

Lemma lower_bound_returns k : ∃ it, lower_bound k t = Some (it, t).
Proof.
  unfold lower_bound, loop_bound, get_root.
  rewrite (bind_run _ _ t (S (base.size (heap t))) t eq_refl).
  rewrite (bind_run _ _ t (m_root t) t eq_refl).
  destruct (decide (Ls = [])) as [->|Hne].
  - rewrite (sh_root _ _ Hsh). simpl. by eexists.
  - destruct (root_node Hne) as (r & kr & Htop & Hr & Hkr & Hlr). rewrite Hr.
    pose proof (levels_bound _ _ Hsh) as Hb.
    assert (r ∈ [r]) as Hrin by set_solver.
    destruct (decide (k ≤ kr)) as [Hle|Hgt].
    + apply (lower_bound_loop_spec k (length Ls - 1) _ [r] r Htop); [|lia].
      exists [], [], kr. repeat split; try done. intros x kx Hx. set_solver.
    + pose proof (node_sorted _ _ _ _ _ _ _ Hsh Hct _ _ r Htop Hrin) as Hs.
      change (erecs None t r) with (recs t r) in Hs.
      assert (Forall (λ q, q.1 < k) (recs t r)) as Hall.
      { apply Forall_forall. intros q Hq.
        pose proof (key_le_last _ _ _ Hs Hq Hkr). lia. }
      simpl. rewrite (bind_run _ _ _ _ _ (load_live t r Hlr)).
      change (is_leaf (nd t r)) with (leaf t r).
      change (records (nd t r)) with (recs t r).
      destruct (leaf t r); simpl; [by eexists|].
      rewrite lower_bound_idx_all, bool_decide_eq_true_2 by done. by eexists.
Qed.

End Search.

(** ** [erase] of a record of a leaf *)

Lemma sorted_remove (l1 : list Z) x l2 :
  StronglySorted Z.lt (l1 ++ x :: l2) → StronglySorted Z.lt (l1 ++ l2).
Proof.
  rewrite !StronglySorted_app. intros (H1 & H2 & [_ H3]%StronglySorted_cons).
  split; [|done]. intros a b Ha Hb. apply H1; set_solver.
Qed.

Lemma shape_with_size n t Ls : shape t Ls → shape (with_size n t) Ls.
Proof.
  intros Hsh. apply (shape_ext t); try done.
  - intros j L a HL Ha. split; [|done]. apply live_with_size. by eapply sh_live.
  - apply live_with_size, (sh_header _ _ Hsh).
Qed.

Section EnterHoled.

Context (order : nat) (t : tree) (Ls : list (list nat)) (K : list Z).
Context (Hwf : WF order t Ls K) (Hord : (2 ≤ order)%nat).
Context (L0 : list nat) (P i : nat) (k : Z).
Context (HL0 : Ls !! 0%nat = Some L0) (HP : P ∈ L0).
Context (Hrec : recs t P !! i = Some (k, None)).

Lemma enter_holed :
  (2 ≤ length K)%nat →
  ∃ K1 K2, K = K1 ++ k :: K2 ∧
    holed order (with_size (Nat.pred (m_size t)) t) Ls (K1 ++ K2) 0 P i.
Proof.
  intros HK2. destruct Hwf as [Hsh Hct].
  set (t0 := with_size (Nat.pred (m_size t)) t).
  apply list_elem_of_split in HP as (l1 & l2 & EL).
  pose proof (take_drop_middle _ _ _ Hrec) as Esp.
  set (rs1 := take i (recs t P)) in *. set (rs2 := drop (S i) (recs t P)) in *.
  set (A := concat ((λ a, keys (recs t a)) <$> l1)).
  set (B := concat ((λ a, keys (recs t a)) <$> l2)).
  assert (K = (A ++ keys rs1) ++ k :: (keys rs2 ++ B)) as EK.
  { rewrite <- (ct_keys _ _ _ _ _ _ _ Hct), HL0, EL. simpl. unfold level_keys.
    change (erecs None t) with (recs t).
    rewrite fmap_app, concat_app. csimpl. rewrite <- Esp. unfold keys.
    rewrite fmap_app. csimpl. by rewrite <- !app_assoc. }
  assert (P ∉ l1 ∧ P ∉ l2) as [HP1 HP2].
  { pose proof (sh_nodup _ _ Hsh _ _ HL0) as Hnd. rewrite EL in Hnd.
    apply NoDup_app in Hnd as (_ & Hd & [? _]%NoDup_cons). set_solver. }
  assert (level_keys (Some (P, i)) t0 L0 = (A ++ keys rs1) ++ keys rs2 ++ B) as EK'.
  { rewrite EL. unfold level_keys. rewrite fmap_app, concat_app. csimpl.
    rewrite erecs_hole. change (recs t0 P) with (recs t P).
    rewrite delete_take_drop. fold rs1 rs2. unfold keys at 2. rewrite fmap_app.
    rewrite <- !app_assoc. f_equal; [|f_equal; f_equal].
    - f_equal. apply list_fmap_ext. intros ? a Ha%list_elem_of_lookup_2. simpl.
      rewrite erecs_other; [done|]. intros ->. set_solver.
    - f_equal. apply list_fmap_ext. intros ? a Ha%list_elem_of_lookup_2. simpl.
      rewrite erecs_other; [done|]. intros ->. set_solver. }
  exists (A ++ keys rs1), (keys rs2 ++ B). split; [done|].
  assert (shape t0 Ls) as Hsh0.
  { by apply shape_with_size. }
  split; [done|]. split; [|split; [|split]].
  - split.
    + intros j up lo Hup Hlo.
      eapply fam_ext; [| | |exact (ct_fam _ _ _ _ _ _ _ Hct _ _ _ Hup Hlo)]; [|done..].
      intros a Ha. change (erecs None t a) with (recs t a).
      rewrite erecs_other; [done|]. intros ->.
      assert (P ∈ L0) as HP' by (rewrite EL; set_solver).
      pose proof (sh_disj _ _ Hsh _ _ _ _ _ Hup HL0 Ha HP'). lia.
    + intros L a r HL Ha Hr. by eapply (ct_leaves _ _ _ _ _ _ _ Hct).
    + by rewrite HL0.
    + pose proof (ct_sorted _ _ _ _ _ _ _ Hct) as Hs. rewrite EK in Hs.
      by apply sorted_remove in Hs.
    + simpl. rewrite (ct_size _ _ _ _ _ _ _ Hct), EK.
      rewrite !length_app. simpl. rewrite !length_app. lia.
    + intros j L a HL Ha. apply (ct_fill _ _ _ _ _ _ _ Hct _ _ _ HL Ha).
    + split; [|by exists k]. exists 0%nat, L0. split; [done|].
      split; [rewrite EL; set_solver|].
      by apply (level_sorted _ _ _ _ _ _ _ Hsh Hct 0).
  - exists L0. split; [done|]. rewrite EL. set_solver.
  - done.
  - intros E. rewrite EK, !length_app in HK2. simpl in HK2.
    rewrite !length_app in HK2.
    apply (f_equal length) in E. rewrite !length_app in E. simpl in E. lia.
Qed.

Lemma erase_spec b :
  (2 ≤ length K)%nat →
  ∃ it t' Ls' K1 K2,
    erase order (mkIt b (Some P) i) t = Some (erased it, t') ∧
    K = K1 ++ k :: K2 ∧ WF order t' Ls' (K1 ++ K2).
Proof.
  intros HK2. destruct (enter_holed HK2) as (K1 & K2 & EK & Hh).
  destruct Hwf as [Hsh Hct].
  set (t0 := with_size (Nat.pred (m_size t)) t) in *.
  pose proof (levels_bound _ _ (holed_shape _ _ _ _ _ _ _ Hh)) as Hb.
  set (fuel := S (base.size (heap t0))).
  destruct (erase_loop_spec order (K1 ++ K2) (length Ls) fuel t0 Ls 0 P i Hh)
    as (t1 & Ls1 & Hrun1 & Hsh1 & Hct1 & Hlen1); [lia|unfold fuel; lia|].
  assert (K1 ++ K2 ≠ []) as HKne by (by destruct Hh as (_ & _ & _ & _ & ?)).
  destruct (shrink_root_spec order (K1 ++ K2) Hord HKne (length Ls1) fuel t1 Ls1 Hsh1 Hct1)
    as (t2 & Ls2 & Hrun2 & Hwf2); [lia|unfold fuel; lia|].
  destruct Hwf2 as [Hsh2 Hct2].
  destruct (lower_bound_returns order None 2 t2 Ls2 (K1 ++ K2) Hsh2 Hct2 Hord ltac:(lia) k)
    as (it & Hrun3).
  exists it, t2, Ls2, K1, K2. split; [|done].
  unfold erase, get_size. rewrite (bind_run _ _ t (m_size t) t eq_refl).
  rewrite (ct_size _ _ _ _ _ _ _ Hct).
  rewrite bool_decide_eq_false_2 by lia.
  unfold put_size.
  rewrite (bind_run _ _ t tt (with_size (Nat.pred (length K)) t) eq_refl).
  rewrite bool_decide_eq_false_2 by lia.
  rewrite <- (ct_size _ _ _ _ _ _ _ Hct). fold t0. simpl.
  rewrite (bind_run _ _ _ _ _
    (record_at_run t0 P i (k, None) (holed_live _ _ _ _ _ _ _ Hh) Hrec)).
  unfold loop_bound. rewrite (bind_run _ _ t0 fuel t0 eq_refl).
  rewrite (bind_run _ _ _ _ _ Hrun1), (bind_run _ _ _ _ _ Hrun2).
  by rewrite (bind_run _ _ _ _ _ Hrun3).
Qed.

End EnterHoled.

(** ** [clear] *)

Lemma anc_snoc t n x c a : anc t n x = Some c → par t c = Some a → anc t (S n) x = Some a.
Proof.
  revert x. induction n as [|n IH]; intros x Hc Hp; simpl in *.
  - injection Hc as ->. by rewrite Hp.
  - destruct (par t x) as [y|]; [|done]. simpl in *. by apply IH.
Qed.

Section Clear.

Context (order : nat) (t : tree) (Ls : list (list nat)) (K : list Z).
Context (Hsh : shape t Ls) (Hct : content order None None 2 t Ls K).

Lemma under_self j L a : Ls !! j = Some L → a ∈ L → under t Ls j a a.
Proof. intros HL Ha. exists j, L. by rewrite Nat.sub_diag. Qed.

Lemma under_child j up a r c x :
  Ls !! S j = Some up → a ∈ up → r ∈ recs t a → r.2 = Some c →
  under t Ls j c x → under t Ls (S j) a x.
Proof.
  intros Hup Ha Hr Hc (i & L & Hle & HL & Hx & Hanc).
  destruct (kid_level _ _ _ _ _ _ _ Hct (S j) up a r c Hup Ha Hr Hc)
    as (j' & lo & [= <-] & Hlo & Hcin & Hp & _).
  exists i, L. split; [lia|]. split; [done|]. split; [done|].
  replace (S j - i)%nat with (S (j - i)) by lia. by eapply anc_snoc.
Qed.

Lemma under_level j a x L :
  under t Ls j a x → Ls !! j = Some L → x ∈ L → x = a.
Proof.
  intros (i & L' & Hle & HL' & Hx' & Hanc) HL Hx.
  pose proof (sh_disj _ _ Hsh _ _ _ _ _ HL HL' Hx Hx') as <-.
  rewrite Nat.sub_diag in Hanc. simpl in Hanc. by injection Hanc.
Qed.

Lemma under_disjoint j c c' x : under t Ls j c x → under t Ls j c' x → c = c'.
Proof.
  intros (i & L & Hle & HL & Hx & Hanc) (i' & L' & Hle' & HL' & Hx' & Hanc').
  pose proof (sh_disj _ _ Hsh _ _ _ _ _ HL HL' Hx Hx') as <-. congruence.
Qed.

Lemma clear_helper_spec j : ∀ fuel a L s,
  Ls !! j = Some L → a ∈ L → (j < fuel)%nat →
  (∀ x, under t Ls j a x → heap s !! x = heap t !! x) →
  ∃ s', clear_helper fuel (Some a) s = Some (tt, s') ∧
        m_root s' = m_root s ∧ m_size s' = m_size s ∧
        (∀ x, ¬ under t Ls j a x → heap s' !! x = heap s !! x).
Proof.
  induction j as [|j IH]; intros fuel a L s HL Ha Hfuel Hs;
    (destruct fuel as [|fuel]; [lia|]).
  all: pose proof (Hs a (under_self _ _ _ HL Ha)) as Hsa.
  all: pose proof (live_lookup _ _ (sh_live _ _ Hsh _ _ _ HL Ha)) as Hta.
  all: rewrite Hta in Hsa.
  all: assert (live s a) as Hla by (by eexists).
  all: cbn [clear_helper]; rewrite (bind_run _ _ _ _ _ (load_run _ _ _ Hsa)).
  all: change (records (nd t a)) with (recs t a).
  - assert (foldr (λ r k, clear_helper fuel r.2 ;;; k) (ret tt) (recs t a) s = Some (tt, s))
      as Hfold.
    { assert (∀ r, r ∈ recs t a → r.2 = None) as Hnone.
      { intros r Hr. by eapply (ct_leaves _ _ _ _ _ _ _ Hct). }
      induction (recs t a) as [|r rs IHr]; [done|]. simpl.
      rewrite (Hnone r) by set_solver. destruct fuel; simpl; apply IHr; set_solver. }
    rewrite (bind_run _ _ _ _ _ Hfold).
    rewrite (delete_node_live s a Hla). eexists. split; [done|]. split; [done|].
    split; [done|]. intros x Hx. simpl. rewrite lookup_delete_ne; [done|].
    intros <-. apply Hx. by eapply under_self.
  - destruct (lookup_lt_is_Some_2 Ls j) as [lo Hlo].
    { apply lookup_lt_Some in HL. lia. }
    pose proof (ct_fam _ _ _ _ _ _ _ Hct _ _ _ HL Hlo) as Hf.
    assert (∀ rs s0, (∀ r, r ∈ rs → r ∈ recs t a) → NoDup (kids rs) →
              (∀ r c x, r ∈ rs → r.2 = Some c → under t Ls j c x →
                 heap s0 !! x = heap t !! x) →
              ∃ s', foldr (λ r k, clear_helper fuel r.2 ;;; k) (ret tt) rs s0 = Some (tt, s') ∧
                    m_root s' = m_root s0 ∧ m_size s' = m_size s0 ∧
                    (∀ x, (∀ r c, r ∈ rs → r.2 = Some c → ¬ under t Ls j c x) →
                       heap s' !! x = heap s0 !! x)) as Hfold.
    { induction rs as [|r rs IHr]; intros s0 Hsub Hnd Hs0.
      - exists s0. by repeat split.
      - unfold kids in Hnd. rewrite fmap_cons in Hnd. apply NoDup_cons in Hnd as [Hr Hnd].
        assert (∃ c, r.2 = Some c ∧ c ∈ lo) as (c & Ec & Hcin).
        { pose proof (fam_kids _ _ _ _ _ Hf) as Hk.
          change (erecs None t) with (recs t) in Hk.
          assert (r.2 ∈ Some <$> lo) as Hin.
          { rewrite <- Hk. apply elem_of_concat. exists (kids (recs t a)). split.
            - apply list_elem_of_fmap. exists r. split; [done|]. apply Hsub. set_solver.
            - apply list_elem_of_fmap. by exists a. }
          apply list_elem_of_fmap in Hin as (c & Ec & Hc). by exists c. }
        destruct (IH fuel c lo s0 Hlo Hcin ltac:(lia)) as (s1 & Hrun1 & Hr1 & Hz1 & Hfr1).
        { intros x Hx. apply (Hs0 r c x); [set_solver|done|done]. }
        destruct (IHr s1) as (s2 & Hrun2 & Hr2 & Hz2 & Hfr2).
        { intros q Hq. apply Hsub. set_solver. }
        { done. }
        { intros q c' x Hq Hc' Hx. rewrite Hfr1.
          - apply (Hs0 q c' x); [set_solver|done|done].
          - intros Hx'. pose proof (under_disjoint _ _ _ _ Hx Hx') as ->.
            apply Hr. rewrite Ec, <- Hc'. apply list_elem_of_fmap. by exists q. }
        exists s2. split; [|split; [congruence|split; [congruence|]]].
        + simpl. rewrite Ec. by rewrite (bind_run _ _ _ _ _ Hrun1).
        + intros x Hx. rewrite Hfr2, Hfr1; [done| |].
          * apply (Hx r c); [set_solver|done].
          * intros q c' Hq Hc'. apply (Hx q c'); [set_solver|done]. }
    assert (NoDup (kids (recs t a))) as Hnda.
    { pose proof (fam_kids _ _ _ _ _ Hf) as Hk.
      change (erecs None t) with (recs t) in Hk.
      pose proof (sh_nodup _ _ Hsh _ _ Hlo) as Hnd.
      apply (NoDup_fmap_2 Some) in Hnd. rewrite <- Hk in Hnd.
      apply list_elem_of_split in Ha as (u1 & u2 & ->).
      rewrite fmap_app, concat_app in Hnd. csimpl in Hnd.
      apply NoDup_app in Hnd as (_ & _ & Hnd). by apply NoDup_app in Hnd as (Hnd & _). }
    assert (∀ r c x, r ∈ recs t a → r.2 = Some c → under t Ls j c x →
              heap s !! x = heap t !! x) as Hs'.
    { intros r c x Hr Hc Hx. apply Hs. by eapply under_child. }
    destruct (Hfold (recs t a) s (λ r H, H) Hnda Hs') as (s1 & Hrun1 & Hr1 & Hz1 & Hfr1).
    rewrite (bind_run _ _ _ _ _ Hrun1).
    assert (heap s1 !! a = heap s !! a) as Ea.
    { apply Hfr1. intros r c Hr Hc Hx.
      pose proof (under_level _ _ _ _ (under_child _ _ _ _ _ _ HL Ha Hr Hc Hx) HL Ha).
      destruct Hx as (i & L' & Hle & HL' & Hx' & _).
      pose proof (sh_disj _ _ Hsh _ _ _ _ _ HL HL' Ha Hx'). lia. }
    rewrite (delete_node_live s1 a ltac:(unfold live; by rewrite Ea)).
    eexists. split; [done|]. split; [done|]. split; [done|].
    intros x Hx. simpl. rewrite lookup_delete_ne.
    + apply Hfr1. intros r c Hr Hc Hx'. apply Hx. by eapply under_child.
    + intros <-. apply Hx. by eapply under_self.
Qed.

End Clear.

Lemma WF_nil order t :
  m_root t = None → m_size t = 0%nat → live t header →
  nxt t header = Some header → prv t header = Some header → WF order t [] [].
Proof.
  intros Hr Hz Hl Hn Hp. split.
  - split; try done. intros r. by rewrite Hr.
  - split; try done. constructor.
Qed.

Lemma clear_spec order t Ls K s :
  shape t Ls → content order None None 2 t Ls K →
  m_root s = m_root t → heap s = heap t →
  ∃ t', clear s = Some (tt, t') ∧ WF order t' [] [].
Proof.
  intros Hsh Hct Hroot Hheap.
  assert (∃ s1, clear_helper (S (base.size (heap s))) (m_root s) s = Some (tt, s1) ∧
                live s1 header) as (s1 & Hrun & Hlive).
  { destruct (decide (Ls = [])) as [->|Hne].
    - rewrite Hroot, (sh_root _ _ Hsh). simpl. exists s. split; [done|].
      unfold live. rewrite Hheap. apply (sh_header _ _ Hsh).
    - destruct (last Ls) as [Ltop|] eqn:El; [|by apply last_None in El].
      rewrite last_lookup in El.
      assert (length Ls = S (Nat.pred (length Ls))) as Hlen.
      { destruct Ls; [done|simpl; lia]. }
      destruct (top_level _ _ Hsh _ _ El Hlen) as (r & -> & Hr & _).
      pose proof (levels_bound _ _ Hsh) as Hb.
      destruct (clear_helper_spec order t Ls K Hsh Hct (Nat.pred (length Ls))
                  (S (base.size (heap s))) r [r] s El ltac:(set_solver))
        as (s1 & Hrun & _ & _ & Hfr).
      + rewrite Hheap. lia.
      + intros x _. by rewrite Hheap.
      + exists s1. rewrite Hroot, Hr. split; [done|].
        unfold live. rewrite Hfr, Hheap; [apply (sh_header _ _ Hsh)|].
        intros (i & L & _ & HL & Hin & _).
        by apply (sh_not_header _ _ Hsh _ _ HL). }
  set (s2 := with_root None s1).
  set (s3 := wr header (set_next (Some header)) s2).
  set (s4 := wr header (set_pre (Some header)) s3).
  exists (with_size 0 s4). split.
  - unfold clear, loop_bound, get_root.
    rewrite (bind_run _ _ s (S (base.size (heap s))) s eq_refl).
    rewrite (bind_run _ _ s (m_root s) s eq_refl).
    rewrite (bind_run _ _ _ _ _ Hrun).
    rewrite (bind_run (put_root None) _ s1 tt s2 eq_refl).
    unfold reset_header.
    assert (live s2 header) as Hl2 by done.
    assert (live s3 header) as Hl3.
    { unfold live, s3, wr. simpl. rewrite lookup_insert_eq. by eexists. }
    rewrite (bind_run (_ ;;; _) _ s2 tt s4); [done|].
    rewrite (bind_run _ _ _ _ _ (modify_live _ _ _ Hl2)).
    by rewrite (modify_live _ _ _ Hl3).
  - apply WF_nil; try done.
    + unfold live, s4, wr. simpl. rewrite lookup_insert_eq. by eexists.
    + unfold nxt, nd. simpl. rewrite lookup_insert_eq. simpl.
      unfold nd. simpl. by rewrite lookup_insert_eq.
    + unfold prv, nd. simpl. by rewrite lookup_insert_eq.
Qed.

(** ** [erase] on a well-formed tree *)

Section EraseWF.

Context (order : nat) (t : tree) (Ls : list (list nat)) (K : list Z).
Context (Hwf : WF order t Ls K) (Hord : (2 ≤ order)%nat).
Context (L0 : list nat) (P i : nat) (k : Z).
Context (HL0 : Ls !! 0%nat = Some L0) (HP : P ∈ L0).
Context (Hrec : recs t P !! i = Some (k, None)).

Lemma erase_last b :
  length K = 1%nat →
  ∃ t', erase order (mkIt b (Some P) i) t = Some (erased make_end, t') ∧
        K = [k] ∧ WF order t' [] [].
Proof.
  intros HK1. destruct Hwf as [Hsh Hct].
  destruct (leaf_record order None 2 t Ls K Hct L0 P i (k, None) HL0 HP Hrec) as [_ Hk].
  simpl in Hk.
  assert (K = [k]) as EK.
  { destruct K as [|k' [|? ?]]; try done. by apply list_elem_of_singleton in Hk as ->. }
  set (t0 := with_size (Nat.pred (m_size t)) t).
  destruct (clear_spec order t Ls K t0 Hsh Hct eq_refl eq_refl) as (t' & Hrun & Hwf').
  exists t'. split; [|done].
  unfold erase, get_size. rewrite (bind_run _ _ t (m_size t) t eq_refl).
  rewrite (ct_size _ _ _ _ _ _ _ Hct), HK1.
  rewrite bool_decide_eq_false_2 by lia.
  rewrite (bind_run (put_size _) _ t tt (with_size 0 t) eq_refl).
  rewrite bool_decide_eq_true_2 by done.
  unfold t0 in Hrun. rewrite (ct_size _ _ _ _ _ _ _ Hct), HK1 in Hrun. simpl in Hrun.
  by rewrite (bind_run _ _ _ _ _ Hrun).
Qed.

Lemma erase_wf b :
  ∃ it t' Ls' K1 K2,
    erase order (mkIt b (Some P) i) t = Some (erased it, t') ∧
    K = K1 ++ k :: K2 ∧ WF order t' Ls' (K1 ++ K2).
Proof.
  destruct (decide (length K = 1%nat)) as [H1|H1].
  - destruct (erase_last b H1) as (t' & Hrun & EK & Hwf').
    by exists make_end, t', [], [], [].
  - apply (erase_spec order t Ls K Hwf Hord L0 P i k HL0 HP Hrec b).
    destruct Hwf as [Hsh Hct].
    destruct (leaf_record order None 2 t Ls K Hct L0 P i (k, None) HL0 HP Hrec) as [_ Hk].
    destruct K as [|? [|? ?]]; simpl in *; try lia. by apply elem_of_nil in Hk.
Qed.

End EraseWF.

(** ** [insert] *)

Lemma recs_alloc a t b : recs (alloc a t) b = if decide (a = b) then [] else recs t b.
Proof. unfold recs. rewrite nd_alloc. by case_decide. Qed.

Lemma nxt_alloc a t b : nxt (alloc a t) b = if decide (a = b) then None else nxt t b.
Proof. unfold nxt. rewrite nd_alloc. by case_decide. Qed.

Lemma prv_alloc a t b : prv (alloc a t) b = if decide (a = b) then None else prv t b.
Proof. unfold prv. rewrite nd_alloc. by case_decide. Qed.

Lemma par_alloc a t b : par (alloc a t) b = if decide (a = b) then None else par t b.
Proof. unfold par. rewrite nd_alloc. by case_decide. Qed.

Lemma leaf_alloc a t b : leaf (alloc a t) b = if decide (a = b) then true else leaf t b.
Proof. unfold leaf. rewrite nd_alloc. by case_decide. Qed.

Lemma root_alloc a t : m_root (alloc a t) = m_root t.
Proof. done. Qed.

Lemma size_alloc a t : m_size (alloc a t) = m_size t.
Proof. done. Qed.

Lemma live_alloc_2 a t b : live t b → live (alloc a t) b.
Proof. intros. apply live_alloc. by right. Qed.

Lemma live_alloc_1 a t : live (alloc a t) a.
Proof. apply live_alloc. by left. Qed.

Lemma live_with_root_2 p t a : live t a → live (with_root p t) a.
Proof. done. Qed.

Lemma live_with_size_2 n t a : live t a → live (with_size n t) a.
Proof. done. Qed.

#[global] Hint Rewrite recs_alloc nxt_alloc prv_alloc par_alloc leaf_alloc root_alloc
  size_alloc : st.
#[global] Hint Resolve live_alloc_2 live_alloc_1 live_with_root_2 live_with_size_2 : live.

Ltac decides := repeat (destruct (decide _); try congruence; try done).

Lemma insert_empty order t K k :
  WF order t [] K → (1 ≤ order)%nat →
  ∃ t' r, insert order k t = Some ((mkIt true (Some r) 0, true), t') ∧
          K = [] ∧ WF order t' [[r]] [k] ∧ recs t' r = [(k, None)].
Proof.
  intros [Hsh Hct] Hord.
  pose proof (sh_root _ _ Hsh) as Hroot. simpl in Hroot.
  pose proof (sh_header _ _ Hsh) as Hhd.
  pose proof (ct_keys _ _ _ _ _ _ _ Hct) as HK. simpl in HK.
  pose proof (ct_size _ _ _ _ _ _ _ Hct) as Hsz. rewrite <- HK in Hsz. simpl in Hsz.
  destruct (make_node_run t) as [Hmk Hfresh].
  set (r := fresh (dom (heap t))) in *.
  assert (r ≠ header) as Hrh by (by intros ->).
  set (t1 := with_root (Some r) (alloc r t)).
  set (t2 := wr r (set_is_leaf true) t1).
  set (t3 := wr r (set_pre (Some header)) t2).
  set (t4 := wr r (set_next (Some header)) t3).
  set (t5 := wr header (set_next (Some r)) t4).
  set (t6 := wr header (set_pre (Some r)) t5).
  set (t7 := wr r (set_records [(k, None)]) t6).
  set (t8 := with_size 1 t7).
  assert (live t1 r) as Hl1 by (unfold t1; auto with live).
  assert (live t1 header) as Hh1 by (unfold t1; auto with live).
  exists t8, r. split; [|split; [done|split]].
  - unfold insert, get_root. rewrite (bind_run _ _ t (m_root t) t eq_refl).
    rewrite Hroot. simpl.
    rewrite (bind_run _ _ _ _ _ Hmk).
    rewrite (bind_run (put_root _) _ _ tt t1 eq_refl).
    rewrite (bind_run _ _ _ _ _ (modify_live t1 r _ Hl1)). fold t2.
    rewrite (bind_run _ _ _ _ _ (modify_live t2 r _ ltac:(unfold t2; auto with live))). fold t3.
    rewrite (bind_run _ _ _ _ _ (modify_live t3 r _ ltac:(unfold t3, t2; auto with live))). fold t4.
    rewrite (bind_run _ _ _ _ _ (modify_live t4 header _ ltac:(unfold t4, t3, t2; auto with live))).
    fold t5.
    rewrite (bind_run _ _ _ _ _
      (modify_live t5 header _ ltac:(unfold t5, t4, t3, t2; auto 10 with live))).
    fold t6.
    rewrite (bind_run _ _ _ _ _
      (insert_record_run t6 r (k, None) ltac:(unfold t6, t5, t4, t3, t2; auto 10 with live))).
    assert (recs t6 r = []) as E6.
    { unfold t6, t5, t4, t3, t2, t1. autorewrite with st. by rewrite decide_True. }
    rewrite E6. simpl. fold t7.
    unfold get_size. rewrite (bind_run _ _ t7 (m_size t7) t7 eq_refl).
    replace (m_size t7) with 0%nat by done.
    by rewrite (bind_run (put_size 1) _ t7 tt t8 eq_refl).
  - assert (∀ x, recs t8 x = if decide (x = r) then [(k, None)] else recs t x) as Hrecs.
    { intros x. unfold t8, t7, t6, t5, t4, t3, t2, t1. autorewrite with st.
      destruct (decide (r = x)) as [->|E]; [by rewrite decide_True|].
      by rewrite decide_False by done. }
    split.
    + split.
      * intros [|j] L ?; simplify_eq/=. apply NoDup_singleton.
      * intros [|i] [|i'] L L' a H1 H2; by simplify_eq/=.
      * intros [|j] L a ? Ha; simplify_eq/=; apply list_elem_of_singleton in Ha as ->.
        unfold t8, t7, t6, t5, t4, t3, t2. auto 10 with live.
      * unfold t8, t7, t6, t5, t4, t3, t2. auto 10 with live.
      * intros [|j] L ?; simplify_eq/=. intros Hx%list_elem_of_singleton. by apply Hrh.
      * by intros [|j] L ?; simplify_eq/=.
      * done.
      * by intros L [= <-].
      * intros r' [= <-]. unfold t8, t7, t6, t5, t4, t3, t2, t1. autorewrite with st.
        by rewrite decide_True.
      * intros [|j] L a ? Ha; simplify_eq/=; apply list_elem_of_singleton in Ha as ->.
        unfold t8, t7, t6, t5, t4, t3, t2, t1. autorewrite with st.
        by rewrite !decide_True.
      * intros [|j] L ?; simplify_eq/=. simpl.
        unfold t8, t7, t6, t5, t4, t3, t2, t1. autorewrite with st.
        decides.
      * simpl. unfold t8, t7, t6, t5, t4, t3, t2, t1. autorewrite with st. decides.
      * simpl. unfold t8, t7, t6, t5, t4, t3, t2, t1. autorewrite with st. decides.
    + split; try done.
      * intros L a q [= <-] ->%list_elem_of_singleton. rewrite Hrecs, decide_True by done.
        by intros ->%list_elem_of_singleton.
      * simpl. unfold level_keys. simpl. change (erecs None t8 r) with (recs t8 r).
        rewrite Hrecs, decide_True by done. done.
      * repeat constructor.
      * intros [|j] L a ? Ha; simplify_eq/=; apply list_elem_of_singleton in Ha as ->. rewrite Hrecs, !decide_True by done.
        simpl. split; lia.
  - unfold t8, t7, t6, t5, t4, t3, t2, t1. autorewrite with st. decides.
Qed.

(** *** The descent of [insert] *)

Section InsertDescent.

Context (order : nat) (t : tree) (Ls : list (list nat)) (K : list Z).
Context (Hsh : shape t Ls) (Hct : content order None None 2 t Ls K).
Context (Hord : (2 ≤ order)%nat) (k : Z).

(** The key is not above the last key of the root: nothing is written on
    the way down. *)
Lemma insert_loop_descend j : ∀ fuel L a,
  Ls !! j = Some L → first_ge t L k a →
  ∃ L0 P, Ls !! 0%nat = Some L0 ∧ first_ge t L0 k P ∧
    insert_loop order (j + S fuel) k (Some a) t = insert_loop order (S fuel) k (Some P) t.
Proof.
  induction j as [|j IH]; intros fuel L a HL Hge.
  - by exists L, a.
  - destruct (lookup_lt_is_Some_2 Ls j) as [lo Hlo].
    { apply lookup_lt_Some in HL. lia. }
    assert (a ∈ L) as Ha by (destruct Hge as (l1 & l2 & ? & -> & _); set_solver).
    destruct (descend_step order None 2 t Ls K Hsh Hct Hord ltac:(lia) j L lo k a HL Hlo Hge)
      as (ki & c & Hr & Hge' & Hlc).
    destruct (IH fuel lo c Hlo Hge') as (L0 & P & HL0 & HP & Hrun).
    exists L0, P. split; [done|]. split; [done|]. rewrite <- Hrun.
    change (S j + S fuel)%nat with (S (j + S fuel)). cbn [insert_loop].
    pose proof (sh_live _ _ Hsh _ _ _ HL Ha) as Hla.
    rewrite (bind_run _ _ _ _ _ (load_live t a Hla)).
    change (is_leaf (nd t a)) with (leaf t a). change (records (nd t a)) with (recs t a).
    rewrite (sh_leaf _ _ Hsh _ _ _ HL Ha). rewrite bool_decide_eq_false_2 by done. simpl.
    rewrite bool_decide_eq_false_2.
    + by rewrite (bind_run _ _ _ _ _ (record_at_run t a _ _ Hla Hr)).
    + apply lookup_lt_Some in Hr. lia.
Qed.

(** Every key of every node is at most the last key of the root. *)
Lemma node_key_le_root j L a q r kr :
  Ls !! j = Some L → a ∈ L → q ∈ recs t a →
  m_root t = Some r → alk t r = Some kr → q.1 ≤ kr.
Proof.
  intros HL Ha Hq Hr Hkr.
  destruct (alk_Some order None 2 t Ls K Hct Hord ltac:(lia) j L a HL Ha) as [ka Hka].
  pose proof (lookup_lt_Some _ _ _ HL) as Hlt.
  destruct (root_max order None 2 t Ls K Hsh Hct Hord ltac:(lia) (length Ls - S j) j L a ka
              HL Ha Hka ltac:(lia)) as (r' & kr' & Hr' & Hkr' & Hle).
  assert (r' = r) as -> by congruence.
  assert (kr' = kr) as -> by congruence.
  assert (q.1 ≤ ka); [|lia].
  eapply key_le_last; [|exact Hq|exact Hka].
  exact (node_sorted _ _ _ _ _ _ _ Hsh Hct j L a HL Ha).
Qed.

(** The key is above every key of the tree: the last key of the last
    node of every level is overwritten on the way down. *)
Lemma insert_loop_raise r kr (Hr : m_root t = Some r) (Hkr : alk t r = Some kr) (Hlt : kr < k) j :
  ∀ fuel s l a,
  Ls !! j = Some (l ++ [a]) →
  keys_only t s →
  (∀ x, ¬ upper Ls j x → recs s x = recs t x) →
  above s Ls j (upd (alk s) a k) →
  ∃ s' l0 P, Ls !! 0%nat = Some (l0 ++ [P]) ∧
    keys_only t s' ∧ (∀ x, ¬ upper Ls 0 x → recs s' x = recs t x) ∧
    above s' Ls 0 (upd (alk s') P k) ∧
    insert_loop order (j + S fuel) k (Some a) s = insert_loop order (S fuel) k (Some P) s'.
Proof.
  induction j as [|j IH]; intros fuel s l a HL Hko Hfr Hab.
  - by exists s, l, a.
  - destruct (lookup_lt_is_Some_2 Ls j) as [lo Hlo].
    { apply lookup_lt_Some in HL. lia. }
    assert (a ∈ l ++ [a]) as Ha by set_solver.
    assert (¬ upper Ls (S j) a) as Hnu.
    { intros (i & L' & Hi & HL' & Ha').
      pose proof (sh_disj _ _ Hsh _ _ _ _ _ HL HL' Ha Ha'). lia. }
    pose proof (Hfr a Hnu) as Hra.
    pose proof (ct_fam _ _ _ _ _ _ _ Hct _ _ _ HL Hlo) as Hf.
    destruct lo as [|c lo' _] using rev_ind.
    { by destruct (sh_nonempty _ _ Hsh _ _ Hlo). }
    rename lo' into lo. destruct (fam_last _ _ _ _ _ lo c Hf) as (u & p & rs & kc & Eu & Ers & Hpc & Hkc).
    { intros x Hx. change (erecs None t x) with (recs t x).
      eapply (level_nonempty _ _ _ _ _ _ _ Hct); [done|lia|exact HL|done]. }
    { done. }
    apply app_inj_tail in Eu as [<- <-].
    change (erecs None t a) with (recs t a) in Ers.
    pose proof (sh_live _ _ Hsh _ _ _ HL Ha) as Hla.
    assert (live s a) as Hlsa by (by apply (ko_live _ _ Hko)).
    assert (Forall (λ q, q.1 < k) (recs s a)) as Hall.
    { rewrite Hra. apply Forall_forall. intros q Hq.
      pose proof (node_key_le_root _ _ _ q r kr HL Ha Hq Hr Hkr). lia. }
    assert (recs s a !! Nat.pred (length (recs s a)) = Some (kc, Some c)) as Hlast.
    { rewrite Hra, Ers. rewrite length_app. simpl.
      replace (Nat.pred (length rs + 1)) with (length rs) by lia.
      by apply list_lookup_middle. }
    set (s1 := wr a (set_records (<[Nat.pred (length (recs s a)) := (k, Some c)]> (recs s a))) s).
    assert (recs s1 a = rs ++ [(k, Some c)]) as Hra1.
    { unfold s1. rewrite recs_wr_records, decide_True by done. rewrite Hra, Ers.
      rewrite length_app. simpl. replace (Nat.pred (length rs + 1)) with (length rs) by lia.
      by rewrite insert_middle. }
    assert (∀ x, x ≠ a → recs s1 x = recs s x) as Hrx.
    { intros x Hx. unfold s1. by rewrite recs_wr_records, decide_False. }
    assert (keys_only s s1) as Hko1.
    { exact (keys_only_overwrite s a _ (kc, Some c) k Hlsa Hlast). }
    destruct (IH fuel s1 lo c Hlo) as (s' & l0 & P & HL0 & Hko' & Hfr' & Hab' & Hrun).
    + by eapply keys_only_trans.
    + intros x Hx. rewrite Hrx; [apply Hfr|].
      * intros (i & L' & Hi & HL' & Hx'). apply Hx. exists i, L'. split; [lia|done].
      * intros ->. apply Hx. exists (S j), (l ++ [a]). split; [lia|done].
    + apply (above_lift Ls k s s1 s1 j (alk s1) (l ++ [a]) (lo ++ [c]) c a rs); try done.
      * eapply shape_keys_only; [exact Hko|done].
      * split.
        -- rewrite <- (fam_kids _ _ _ _ _ Hf). f_equal. apply list_fmap_ext.
           intros ? x Hx%list_elem_of_lookup_2. simpl.
           change (erecs None s1 x) with (recs s1 x). change (erecs None t x) with (recs t x).
           destruct (decide (x = a)) as [->|Hne].
           ++ rewrite Hra1, Ers. unfold kids. by rewrite !fmap_app.
           ++ rewrite Hrx by done. rewrite Hfr; [done|].
              intros (i' & L' & Hi & HL' & Hx').
              pose proof (sh_disj _ _ Hsh _ _ _ _ _ HL HL' Hx Hx'). lia.
        -- intros x q c' Hx Hq Hc'. change (erecs None s1 x) with (recs s1 x) in Hq.
           rewrite (ko_par _ _ Hko1), (ko_par _ _ Hko).
           assert (recs s x = recs t x) as Hsx.
           { apply Hfr. intros (i & L' & Hi & HL' & Hx').
             pose proof (sh_disj _ _ Hsh _ _ _ _ _ HL HL' Hx Hx'). lia. }
           assert (alk s1 c' = alk t c') as Halk.
           { unfold alk. rewrite Hrx, Hfr; [done| |].
             - intros (i & L' & Hi & HL' & Hx').
               assert (c' ∈ lo ++ [c]) as Hc'in.
               { destruct (decide (x = a)) as [->|Hne].
                 - rewrite Hra1 in Hq. apply elem_of_app in Hq as [Hq|Hq].
                   + eapply (fam_kid_in _ _ _ _ _ a q c' Hf Ha); [|done].
                     change (erecs None t a) with (recs t a). rewrite Ers. set_solver.
                   + apply list_elem_of_singleton in Hq as ->. simpl in Hc'.
                     injection Hc' as <-. set_solver.
                 - rewrite Hrx, Hsx in Hq by done.
                   by eapply (fam_kid_in _ _ _ _ _ x q c' Hf Hx). }
               pose proof (sh_disj _ _ Hsh _ _ _ _ _ Hlo HL' Hc'in Hx'). lia.
             - intros ->.
               assert (a ∈ lo ++ [c]) as Hain.
               { destruct (decide (x = a)) as [->|Hne].
                 - rewrite Hra1 in Hq. apply elem_of_app in Hq as [Hq|Hq].
                   + eapply (fam_kid_in _ _ _ _ _ a q a Hf Ha); [|done].
                     change (erecs None t a) with (recs t a). rewrite Ers. set_solver.
                   + apply list_elem_of_singleton in Hq as ->. simpl in Hc'.
                     injection Hc' as <-. set_solver.
                 - rewrite Hrx, Hsx in Hq by done.
                   by eapply (fam_kid_in _ _ _ _ _ x q a Hf Hx). }
               pose proof (sh_disj _ _ Hsh _ _ _ _ _ Hlo HL Hain Ha). lia. }
           unfold upd. destruct (decide (x = a)) as [->|Hne].
           ++ rewrite Hra1 in Hq. apply elem_of_app in Hq as [Hq|Hq].
              ** destruct (fam_rec _ _ _ _ _ Hf a q c' Ha) as [Hp Hk']; [|done|].
                 { change (erecs None t a) with (recs t a). rewrite Ers. set_solver. }
                 split; [done|]. rewrite decide_False; [by rewrite Halk|].
                 intros ->.
                 pose proof (sh_nodup _ _ Hsh _ _ Hlo) as Hnd.
                 pose proof (sh_nodup _ _ Hsh _ _ HL) as Hndu.
                 destruct (fam_unique _ _ _ _ _ a rs kc c [] Hf Hnd Hndu Ha Ers) as (Hn1 & _).
                 apply Hn1. unfold kids. rewrite <- Hc'. by apply list_elem_of_fmap_2.
              ** apply list_elem_of_singleton in Hq as ->. simpl in Hc'. injection Hc' as <-.
                 split; [done|]. by rewrite decide_True.
           ++ rewrite Hrx, Hsx in Hq by done.
              destruct (fam_rec _ _ _ _ _ Hf x q c' Hx Hq Hc') as [Hp Hk'].
              split; [done|]. rewrite decide_False; [by rewrite Halk|].
              intros ->.
              pose proof (sh_nodup _ _ Hsh _ _ Hlo) as Hnd.
              pose proof (sh_nodup _ _ Hsh _ _ HL) as Hndu.
              destruct (fam_unique _ _ _ _ _ a rs kc c [] Hf Hnd Hndu Ha Ers) as (_ & _ & Hn3).
              apply (Hn3 x Hx Hne). unfold kids. rewrite <- Hc'.
              change (erecs None t x) with (recs t x). by apply list_elem_of_fmap_2.
      * eapply (above_frame_in s s1); [| |exact Hab].
        -- intros x Hx. apply Hrx. intros ->. done.
        -- intros. apply (ko_par _ _ Hko1).
    + exists s', l0, P. split; [done|]. split; [done|]. split; [done|]. split; [done|].
      rewrite <- Hrun. change (S j + S fuel)%nat with (S (j + S fuel)). cbn [insert_loop].
      rewrite (bind_run _ _ _ _ _ (load_live s a Hlsa)).
      change (is_leaf (nd s a)) with (leaf s a). change (records (nd s a)) with (recs s a).
      rewrite (ko_leaf _ _ Hko), (sh_leaf _ _ Hsh _ _ _ HL Ha).
      rewrite bool_decide_eq_false_2 by done. simpl.
      rewrite (lower_bound_idx_all k (recs s a) Hall).
      rewrite bool_decide_eq_true_2 by done.
      assert (recs s a ≠ []) as Hne by (intros E; by rewrite E in Hlast).
      rewrite (bind_run _ _ _ _ _ (last_index_run s a Hlsa Hne)).
      rewrite (bind_run _ _ _ _ _ (overwrite_key_run s a _ _ k Hlsa Hlast)). simpl. fold s1.
      assert (live s1 a) as Hl1 by (unfold s1; auto with live).
      assert (recs s1 a !! Nat.pred (length (recs s a)) = Some (k, Some c)) as Hlast1.
      { rewrite Hra1, Hra, Ers, length_app. simpl.
        replace (Nat.pred (length rs + 1)) with (length rs) by lia.
        by apply list_lookup_middle. }
      by rewrite (bind_run _ _ _ _ _ (record_at_run s1 a _ _ Hl1 Hlast1)).
Qed.

End InsertDescent.

(** *** The record enters its leaf *)

Lemma sorted_insert_mid (X Y : list Z) k :
  StronglySorted Z.lt (X ++ Y) → Forall (λ x, x < k) X → Forall (λ x, k < x) Y →
  StronglySorted Z.lt (X ++ k :: Y).
Proof.
  rewrite !StronglySorted_app. intros (H1 & H2 & H3) HX HY.
  rewrite Forall_forall in HX, HY.
  split; [|split; [done|]].
  - intros a b Ha [->|Hb]%elem_of_cons; [by apply HX|by apply H1].
  - apply StronglySorted_cons. split; [|done]. by apply Forall_forall.
Qed.

Section LeafInsert.

Context (order : nat) (t : tree) (Ls : list (list nat)) (K : list Z).
Context (Hsh : shape t Ls) (Hct : content order None None 2 t Ls K).
Context (Hord : (2 ≤ order)%nat) (k : Z).
Context (s : tree) (Hko : keys_only t s).
Context (Hfr : ∀ x, ¬ upper Ls 0 x → recs s x = recs t x).
Context (l1 l2 : list nat) (P : nat) (HL0 : Ls !! 0%nat = Some (l1 ++ P :: l2)).
Context (rs1 rs2 : list (Z * option nat)) (Hrs : recs t P = rs1 ++ rs2).
Context (H1 : Forall (λ x, x < k) (level_keys None t l1 ++ keys rs1)).
Context (H2 : Forall (λ x, k < x) (keys rs2 ++ level_keys None t l2)).
Context (kk : Z) (Hkk : last_key (rs1 ++ (k, None) :: rs2) = Some kk).
Context (Hab : above s Ls 0 (upd (alk s) P kk)).

Lemma leaf_not_upper x : x ∈ l1 ++ P :: l2 → ¬ upper Ls 0 x.
Proof.
  intros Hx (i & L & Hi & HL & Hx').
  pose proof (sh_disj _ _ Hsh _ _ _ _ _ HL0 HL Hx Hx'). lia.
Qed.

Lemma leaf_insert_P : P ∈ l1 ++ P :: l2.
Proof. set_solver. Qed.

Lemma leaf_insert_recs : recs s P = rs1 ++ rs2.
Proof. rewrite Hfr; [done|]. apply leaf_not_upper, leaf_insert_P. Qed.

Lemma leaf_insert_live : live s P.
Proof. apply (ko_live _ _ Hko). exact (sh_live _ _ Hsh _ _ _ HL0 leaf_insert_P). Qed.

Lemma leaf_insert_split : K = (level_keys None t l1 ++ keys rs1) ++ keys rs2 ++ level_keys None t l2.
Proof.
  rewrite <- (ct_keys _ _ _ _ _ _ _ Hct), HL0. simpl. unfold level_keys.
  rewrite fmap_app, concat_app. csimpl. change (erecs None t P) with (recs t P).
  rewrite Hrs. unfold keys. rewrite fmap_app. by rewrite <- !app_assoc.
Qed.

Lemma leaf_insert_set :
  set_insert (k, None) (recs s P) = (rs1 ++ (k, None) :: rs2, length rs1).
Proof.
  rewrite leaf_insert_recs. apply set_insert_split.
  - apply Forall_app in H1 as [_ H1']. unfold keys in H1'. by rewrite Forall_fmap in H1'.
  - destruct rs2 as [|q rs2']; [done|]. simpl.
    apply Forall_app in H2 as [H2' _]. by apply Forall_inv in H2'.
Qed.

Lemma leaf_insert_missing : find_idx k (recs s P) = length (recs s P).
Proof.
  apply find_idx_missing.
  - rewrite leaf_insert_recs, <- Hrs.
    exact (node_sorted _ _ _ _ _ _ _ Hsh Hct 0 _ P HL0 leaf_insert_P).
  - rewrite leaf_insert_recs, fmap_app. intros [Hin|Hin]%elem_of_app.
    + apply Forall_app in H1 as [_ H1']. rewrite Forall_forall in H1'.
      specialize (H1' k Hin). lia.
    + apply Forall_app in H2 as [H2' _]. rewrite Forall_forall in H2'.
      specialize (H2' k Hin). lia.
Qed.

Lemma leaf_insert_shape :
  shape (with_size (S (m_size s)) (wr P (set_records (rs1 ++ (k, None) :: rs2)) s)) Ls.
Proof.
  apply shape_with_size. eapply shape_same_links.
  - apply same_links_set_records, leaf_insert_live.
  - eapply shape_keys_only; [exact Hko|done].
Qed.

Lemma leaf_insert_content :
  content order None (Some P) 2
    (with_size (S (m_size s)) (wr P (set_records (rs1 ++ (k, None) :: rs2)) s)) Ls
    ((level_keys None t l1 ++ keys rs1) ++ k :: keys rs2 ++ level_keys None t l2).
Proof.
  set (s2 := with_size _ _).
  assert (∀ x, recs s2 x = if decide (P = x) then rs1 ++ (k, None) :: rs2 else recs s x) as Hr2.
  { intros x. unfold s2. by autorewrite with st. }
  assert (∀ x, par s2 x = par s x) as Hp2.
  { intros x. unfold s2. by autorewrite with st. }
  pose proof (sh_nodup _ _ Hsh _ _ HL0) as Hnd.
  apply NoDup_app in Hnd as (_ & HP1 & [HP2 _]%NoDup_cons).
  assert (P ∉ l1) as HP1' by (intros ?; apply (HP1 P); set_solver).
  assert (∀ l, P ∉ l → (∀ x, x ∈ l → x ∈ l1 ++ P :: l2) →
            level_keys None s2 l = level_keys None t l) as Hlk.
  { intros l Hl Hsub. unfold level_keys. f_equal. apply list_fmap_ext.
    intros ? x Hx%list_elem_of_lookup_2. simpl.
    change (erecs None s2 x) with (recs s2 x). change (erecs None t x) with (recs t x).
    rewrite Hr2, decide_False by (intros ->; done).
    rewrite Hfr; [done|]. apply leaf_not_upper. by apply Hsub. }
  split.
  - intros j up lo Hup Hlo.
    pose proof (Hab j up lo ltac:(lia) Hup Hlo) as Hf.
    eapply fam_ext; [| | |exact Hf].
    + intros a Ha. change (erecs None s2 a) with (recs s2 a).
      change (erecs None s a) with (recs s a). rewrite Hr2, decide_False; [done|].
      intros <-. pose proof (sh_disj _ _ Hsh _ _ _ _ _ HL0 Hup leaf_insert_P Ha). lia.
    + intros c _. apply Hp2.
    + intros c Hc. unfold alk at 1. rewrite Hr2.
      destruct (decide (P = c)) as [<-|Hne].
      * assert (j = 0%nat) as -> by exact (sh_disj _ _ Hsh _ _ _ _ _ Hlo HL0 Hc leaf_insert_P).
        rewrite decide_True by done. unfold upd. by rewrite decide_True.
      * destruct (decide (j = 0%nat)); [|done]. unfold upd. by rewrite decide_False.
  - intros L a q HL Ha Hq. rewrite HL0 in HL. injection HL as <-.
    rewrite Hr2 in Hq. destruct (decide (P = a)) as [<-|Hne].
    + apply elem_of_app in Hq as [Hq|[->|Hq]%elem_of_cons]; [|done|].
      * apply (ct_leaves _ _ _ _ _ _ _ Hct _ P q HL0 leaf_insert_P). rewrite Hrs. set_solver.
      * apply (ct_leaves _ _ _ _ _ _ _ Hct _ P q HL0 leaf_insert_P). rewrite Hrs. set_solver.
    + rewrite Hfr in Hq by (by apply leaf_not_upper).
      by apply (ct_leaves _ _ _ _ _ _ _ Hct _ a q HL0 Ha).
  - rewrite HL0. simpl. unfold level_keys at 1. rewrite fmap_app, concat_app. csimpl.
    change (erecs None s2 P) with (recs s2 P). rewrite Hr2, decide_True by done.
    fold (level_keys None s2 l1) (level_keys None s2 l2).
    rewrite !Hlk by set_solver. unfold keys at 1. rewrite fmap_app. csimpl.
    by rewrite <- !app_assoc.
  - apply sorted_insert_mid; [|done..]. rewrite <- leaf_insert_split.
    apply (ct_sorted _ _ _ _ _ _ _ Hct).
  - unfold s2. simpl. rewrite (ko_size _ _ Hko), (ct_size _ _ _ _ _ _ _ Hct).
    rewrite leaf_insert_split. rewrite !length_app. simpl. rewrite !length_app. lia.
  - intros j L a HL Ha.
    destruct (ct_fill _ _ _ _ _ _ _ Hct j L a HL Ha) as [Hle Hge].
    rewrite decide_False in Hle by done.
    replace (m_root s2) with (m_root t) by (symmetry; apply (ko_root _ _ Hko)).
    rewrite Hr2. destruct (decide (P = a)) as [<-|Hne].
    + rewrite decide_True by done. rewrite Hrs in Hle, Hge.
      rewrite !length_app in *. simpl. split; [lia|].
      destruct (decide (m_root t = Some P)); [destruct j|]; lia.
    + rewrite decide_False by congruence.
      rewrite (length_kids_eq _ _ (ko_kids _ _ Hko a)). split; [lia|done].
  - done.
Qed.

(** The leaf has room for the record. *)
Lemma leaf_insert_fits fuel :
  (length (rs1 ++ rs2) < order)%nat →
  insert_loop order (S fuel) k (Some P) s =
    Some ((mkIt true (Some P) (length rs1), true),
          with_size (S (m_size s)) (wr P (set_records (rs1 ++ (k, None) :: rs2)) s)).
Proof.
  intros Hlen. cbn [insert_loop].
  rewrite (bind_run _ _ _ _ _ (load_live s P leaf_insert_live)).
  change (is_leaf (nd s P)) with (leaf s P). change (records (nd s P)) with (recs s P).
  rewrite (ko_leaf _ _ Hko), (sh_leaf _ _ Hsh _ _ _ HL0 leaf_insert_P).
  rewrite bool_decide_eq_true_2 by done. simpl.
  rewrite leaf_insert_missing. rewrite bool_decide_eq_false_2 by (intros H; by apply H).
  rewrite (bind_run _ _ _ _ _ (insert_record_run s P (k, None) leaf_insert_live)).
  rewrite leaf_insert_set. simpl.
  set (s1 := wr P _ s).
  unfold get_size. rewrite (bind_run _ _ s1 (m_size s1) s1 eq_refl).
  rewrite (bind_run (put_size _) _ s1 tt (with_size (S (m_size s)) s1) eq_refl).
  set (s2 := with_size _ s1).
  assert (live s2 P) as Hl2.
  { pose proof leaf_insert_live. unfold s2, s1. auto with live. }
  rewrite (bind_run _ _ _ _ _ (records_size_run s2 P Hl2)).
  assert (recs s2 P = rs1 ++ (k, None) :: rs2) as Hr2.
  { unfold s2, s1. autorewrite with st. by rewrite decide_True. }
  rewrite Hr2. rewrite bool_decide_eq_true_2; [done|].
  rewrite !length_app in *. simpl. lia.
Qed.

(** The leaf is full: the rest of [insert] runs on the state in which
    the leaf holds one record more than [order]. *)
Lemma leaf_insert_over fuel :
  (order ≤ length (rs1 ++ rs2))%nat →
  insert_loop order (S fuel) k (Some P) s =
    (up <- loop_bound ;;
     pl <- split order (Some P) ;;
     f <- first_record (Some P) ;;
     let insert_node := if keycomp k f.1 then pl.2 else Some P in
     m <- load insert_node ;;
     let find_result := find_idx k (records m) in
     split_up order up pl.1 ;;;
     ret (make_iterator_uncheck insert_node find_result, true))
    (with_size (S (m_size s)) (wr P (set_records (rs1 ++ (k, None) :: rs2)) s)).
Proof.
  intros Hlen. cbn [insert_loop].
  rewrite (bind_run _ _ _ _ _ (load_live s P leaf_insert_live)).
  change (is_leaf (nd s P)) with (leaf s P). change (records (nd s P)) with (recs s P).
  rewrite (ko_leaf _ _ Hko), (sh_leaf _ _ Hsh _ _ _ HL0 leaf_insert_P).
  rewrite bool_decide_eq_true_2 by done. simpl.
  rewrite leaf_insert_missing. rewrite bool_decide_eq_false_2 by (intros H; by apply H).
  rewrite (bind_run _ _ _ _ _ (insert_record_run s P (k, None) leaf_insert_live)).
  rewrite leaf_insert_set. simpl.
  set (s1 := wr P _ s).
  unfold get_size. rewrite (bind_run _ _ s1 (m_size s1) s1 eq_refl).
  rewrite (bind_run (put_size _) _ s1 tt (with_size (S (m_size s)) s1) eq_refl).
  set (s2 := with_size _ s1).
  assert (live s2 P) as Hl2.
  { pose proof leaf_insert_live. unfold s2, s1. auto with live. }
  rewrite (bind_run _ _ _ _ _ (records_size_run s2 P Hl2)).
  assert (recs s2 P = rs1 ++ (k, None) :: rs2) as Hr2.
  { unfold s2, s1. autorewrite with st. by rewrite decide_True. }
  rewrite Hr2. rewrite bool_decide_eq_false_2; [done|].
  rewrite !length_app in *. simpl. lia.
Qed.

End LeafInsert.

(** *** A node enters the list of its level *)

Lemma chain_retarget t t' p l e e' :
  NoDup l → chain_from t p l e →
  (∀ x, x ∈ l → prv t' x = prv t x) →
  (∀ x, x ∈ l → nxt t' x = if decide (last l = Some x) then e' else nxt t x) →
  chain_from t' p l e'.
Proof.
  revert p. induction l as [|a l IH]; intros p Hnd Hc Hp Hn; [done|].
  apply NoDup_cons in Hnd as [Ha Hnd]. destruct Hc as (Hpa & Hna & Hc).
  cbn [chain_from]. split; [|split].
  - rewrite Hp by set_solver. done.
  - rewrite Hn by set_solver. destruct l as [|b l]; simpl.
    + by rewrite decide_True.
    + rewrite decide_False; [done|]. intros Hl.
      apply Ha. by apply last_Some_elem_of.
  - apply IH; try done.
    + intros x Hx. apply Hp. set_solver.
    + intros x Hx. rewrite Hn by set_solver. destruct l as [|b l]; [by apply elem_of_nil in Hx|].
      by rewrite last_cons_cons.
Qed.

Lemma chain_insert t t' p l1 a l2 e left pp cs :
  NoDup (l1 ++ a :: l2) → left ∉ l1 ++ a :: l2 →
  (∀ x, x ∈ l1 ++ a :: l2 → p ≠ Some x) →
  split_from t t' a left pp cs →
  chain_from t p (l1 ++ a :: l2) e →
  chain_from t' p (l1 ++ left :: a :: l2) e.
Proof.
  intros Hnd Hl Hp Hsf Hc.
  apply chain_from_app in Hc as [Hc1 Hc2]. cbn [head from_option] in Hc1.
  destruct Hc2 as (Hpa & Hna & Hc2).
  apply NoDup_app in Hnd as (Hnd1 & Hd & [Ha2 Hnd2]%NoDup_cons).
  assert (a ∉ l1) as Ha1 by (intros ?; apply (Hd a); set_solver).
  apply chain_from_app. cbn [head from_option]. split.
  - eapply (chain_retarget t t'); [done|exact Hc1| |].
    + intros x Hx. rewrite (sf_prv _ _ _ _ _ _ Hsf).
      rewrite !decide_False; [done| |]; intros ->; set_solver.
    + intros x Hx. rewrite (sf_nxt _ _ _ _ _ _ Hsf).
      rewrite decide_False by (intros ->; set_solver). rewrite Hpa.
      destruct (last l1) as [y|] eqn:El; simpl.
      * by repeat case_decide.
      * apply last_None in El. subst. by apply elem_of_nil in Hx.
  - cbn [chain_from]. split; [|split; [|split; [|split]]].
    + rewrite (sf_prv _ _ _ _ _ _ Hsf), decide_True by done. done.
    + rewrite (sf_nxt _ _ _ _ _ _ Hsf), decide_True by done. done.
    + rewrite (sf_prv _ _ _ _ _ _ Hsf). rewrite decide_False by (intros ->; set_solver).
      by rewrite decide_True.
    + rewrite (sf_nxt _ _ _ _ _ _ Hsf). rewrite decide_False by (intros ->; set_solver).
      rewrite decide_False; [done|]. rewrite Hpa.
      destruct (last l1) as [y|] eqn:El; simpl.
      * intros [= ->]. apply Ha1. by apply last_Some_elem_of.
      * apply Hp. set_solver.
    + eapply chain_from_ext; [|exact Hc2]. intros x Hx.
      rewrite (sf_nxt _ _ _ _ _ _ Hsf), (sf_prv _ _ _ _ _ _ Hsf).
      rewrite !decide_False; [done| | | |].
      * intros ->. done.
      * intros ->. set_solver.
      * rewrite Hpa. destruct (last l1) as [y|] eqn:El; simpl.
        -- intros [= ->]. apply (Hd x); [by apply last_Some_elem_of|set_solver].
        -- apply Hp. set_solver.
      * intros ->. set_solver.
Qed.

Lemma shape_insert t t' Ls j l1 a l2 left pp cs :
  shape t Ls → Ls !! j = Some (l1 ++ a :: l2) → (S j < length Ls)%nat →
  ¬ live t left → split_from t t' a left pp cs →
  (∀ r, m_root t = Some r → Some r ∉ cs) →
  shape t' (<[j := l1 ++ left :: a :: l2]> Ls).
Proof.
  intros Hsh Hj Hnt Hfresh Hsf Hcs.
  pose proof (lookup_lt_Some _ _ _ Hj) as Hlt.
  assert (a ∈ l1 ++ a :: l2) as Ha by set_solver.
  assert (∀ j0 L x, Ls !! j0 = Some L → x ∈ L → x ≠ left) as Hnl.
  { intros j0 L x HL Hx ->. apply Hfresh. by eapply (sh_live _ _ Hsh). }
  assert (left ≠ header) as Hlh.
  { intros ->. apply Hfresh, (sh_header _ _ Hsh). }
  assert (NoDup (l1 ++ a :: l2)) as Hnd by (by eapply sh_nodup).
  assert (left ∉ l1 ++ a :: l2) as Hl by (intros ?; by eapply (Hnl j)).
  assert (∀ j0 L, <[j := l1 ++ left :: a :: l2]> Ls !! j0 = Some L →
          ∃ L0, Ls !! j0 = Some L0 ∧ (∀ x, x ∈ L → x = left ∧ j0 = j ∨ x ∈ L0) ∧
                (j0 ≠ j → L = L0) ∧
                (j0 = j → L = l1 ++ left :: a :: l2 ∧ L0 = l1 ++ a :: l2)) as Hlk.
  { intros j0 L HL. destruct (decide (j0 = j)) as [->|Hjj].
    - rewrite list_lookup_insert_eq in HL by done. injection HL as <-.
      exists (l1 ++ a :: l2). split; [done|]. split; [|done].
      intros x Hx. set_solver.
    - rewrite list_lookup_insert_ne in HL by done. exists L. split; [done|].
      split; [|done]. intros x Hx. by right. }
  split.
  - intros j0 L (L0 & HL0 & Hsub & He1 & He)%Hlk. destruct (decide (j0 = j)) as [->|Hjj].
    + destruct (He eq_refl) as [-> ->].
      apply NoDup_app in Hnd as (? & ? & ?).
      apply NoDup_app. split; [done|]. split.
      * intros x Hx [->|Hx']%elem_of_cons; [set_solver|]. by eapply H0.
      * apply NoDup_cons. split; [set_solver|done].
    + rewrite He1 by done. by eapply sh_nodup.
  - intros i i' L L' x (L0 & HL0 & Hsub & _)%Hlk (L0' & HL0' & Hsub' & _)%Hlk Hx Hx'.
    destruct (Hsub x Hx) as [[E1 E2]|Hx0]; destruct (Hsub' x Hx') as [[E1' E2']|Hx0'].
    + congruence.
    + subst x. by destruct (Hnl _ _ _ HL0' Hx0').
    + subst x. by destruct (Hnl _ _ _ HL0 Hx0).
    + eapply (sh_disj _ _ Hsh); eauto.
  - intros j0 L x (L0 & HL0 & Hsub & _)%Hlk Hx. apply (sf_live _ _ _ _ _ _ Hsf).
    destruct (Hsub x Hx) as [[-> _]|Hx0]; [by left|]. right. by eapply (sh_live _ _ Hsh).
  - apply (sf_live _ _ _ _ _ _ Hsf). right. apply (sh_header _ _ Hsh).
  - intros j0 L (L0 & HL0 & Hsub & _)%Hlk Hx.
    destruct (Hsub _ Hx) as [[E _]|Hx0]; [done|]. by eapply (sh_not_header _ _ Hsh).
  - intros j0 L HL. destruct (Hlk _ _ HL) as (L0 & HL0 & _ & E1 & E2).
    destruct (decide (j0 = j)) as [->|Hjj]; [destruct (E2 eq_refl) as [-> _]; by destruct l1|].
    rewrite E1 by done. by eapply sh_nonempty.
  - rewrite (sf_root _ _ _ _ _ _ Hsf), last_insert_ne by done. apply (sh_root _ _ Hsh).
  - intros L. rewrite last_insert_ne by done. apply (sh_top _ _ Hsh).
  - intros r Hr. rewrite (sf_root _ _ _ _ _ _ Hsf) in Hr.
    rewrite (sf_par _ _ _ _ _ _ Hsf).
    assert (live t r) as Hlr.
    { pose proof (sh_root _ _ Hsh) as Hrt. rewrite Hr in Hrt.
      destruct (last Ls) as [Lt|] eqn:El; [|done]. simpl in Hrt.
      rewrite last_lookup in El. eapply (sh_live _ _ Hsh _ _ _ El).
      destruct Lt; [done|]. simpl in Hrt. injection Hrt as ->. set_solver. }
    rewrite decide_False by (intros ->; done).
    rewrite decide_False by (by apply Hcs). by apply (sh_root_par _ _ Hsh).
  - intros j0 L x HL Hx. destruct (Hlk _ _ HL) as (L0 & HL0 & Hsub & _).
    rewrite (sf_leaf _ _ _ _ _ _ Hsf).
    destruct (Hsub x Hx) as [[-> ->]|Hx0].
    + rewrite decide_True by done. exact (sh_leaf _ _ Hsh _ _ _ Hj Ha).
    + rewrite decide_False by (by eapply Hnl). by eapply (sh_leaf _ _ Hsh).
  - intros j0 L HL. destruct (Hlk _ _ HL) as (L0 & HL0 & _ & E1 & E2).
    destruct (decide (j0 = j)) as [->|Hjj].
    + destruct (E2 eq_refl) as [-> _].
      eapply chain_insert; [done|done| |exact Hsf|by eapply (sh_chain _ _ Hsh)].
      intros x Hx. pose proof (sh_not_header _ _ Hsh _ _ Hj). destruct j; simpl; [|done].
      intros [= <-]. done.
    + rewrite E1 by done. eapply chain_from_ext; [|by eapply (sh_chain _ _ Hsh)].
      intros x Hx. rewrite (sf_nxt _ _ _ _ _ _ Hsf), (sf_prv _ _ _ _ _ _ Hsf).
      assert (x ≠ left) as Hxl by (by eapply Hnl).
      assert (x ≠ a) as Hxa.
      { intros ->. apply Hjj. eapply (sh_disj _ _ Hsh); eauto. }
      assert (prv t a ≠ Some x) as Hpx.
      { rewrite (chain_prev _ _ _ _ _ _ Hsh Hj).
        destruct (last l1) as [y|] eqn:El; simpl.
        - intros [= ->]. apply Hjj. eapply (sh_disj _ _ Hsh); eauto.
          apply last_Some_elem_of in El. set_solver.
        - destruct j; simpl; [|done]. intros [= <-].
          by eapply (sh_not_header _ _ Hsh). }
      by rewrite !decide_False by done.
  - rewrite (sf_nxt _ _ _ _ _ _ Hsf). rewrite decide_False by done.
    rewrite (sh_hdr_next _ _ Hsh). destruct (decide (j = 0%nat)) as [->|Hj0].
    + rewrite list_lookup_insert_eq by done. rewrite Hj. simpl.
      rewrite (chain_prev _ _ _ _ _ _ Hsh Hj). simpl.
      destruct l1 as [|b l1]; simpl.
      * done.
      * rewrite decide_False; [done|].
        destruct (last (b :: l1)) as [y|] eqn:El; [|by apply last_None in El]. simpl.
        intros [= ->]. apply last_Some_elem_of in El.
        eapply (sh_not_header _ _ Hsh _ _ Hj). set_solver.
    + rewrite list_lookup_insert_ne by done.
      rewrite decide_False; [done|].
      rewrite (chain_prev _ _ _ _ _ _ Hsh Hj).
      destruct (last l1) as [y|] eqn:El; simpl.
      * intros [= ->]. apply last_Some_elem_of in El.
        eapply (sh_not_header _ _ Hsh _ _ Hj). set_solver.
      * by destruct j.
  - rewrite (sf_prv _ _ _ _ _ _ Hsf). rewrite decide_False by done.
    rewrite decide_False by (intros <-; by eapply (sh_not_header _ _ Hsh _ _ Hj)).
    rewrite (sh_hdr_pre _ _ Hsh). destruct (decide (j = 0%nat)) as [->|Hj0].
    + rewrite list_lookup_insert_eq by done. rewrite Hj. simpl.
      by rewrite !last_app_cons, last_cons_cons.
    + by rewrite list_lookup_insert_ne by done.
Qed.

Lemma app_pivot {A} (x y x' y' : list A) a :
  NoDup (x ++ a :: y) → x ++ a :: y = x' ++ a :: y' → x = x' ∧ y = y'.
Proof.
  revert x'. induction x as [|c x IH]; intros x' Hnd E.
  - destruct x' as [|b x']; simpl in E.
    + by injection E.
    + injection E as <- ->. apply NoDup_cons in Hnd as [Hn _]. set_solver.
  - destruct x' as [|c' x']; simpl in E.
    + injection E as -> <-. apply NoDup_cons in Hnd as [Hn _]. set_solver.
    + injection E as <- E. apply NoDup_cons in Hnd as [_ Hnd].
      destruct (IH x' Hnd E) as [-> ->]. done.
Qed.

Lemma last_key_app (l1 l2 : list (Z * option nat)) :
  l2 ≠ [] → last_key (l1 ++ l2) = last_key l2.
Proof.
  intros H. unfold last_key. destruct l2 as [|q l2]; [done|]. by rewrite last_app_cons.
Qed.

Lemma half_order_le order : (half_order order ≤ order)%nat.
Proof.
  unfold half_order. destruct order as [|n]; [done|].
  apply Nat.Div0.div_le_upper_bound. lia.
Qed.

Lemma half_order_rest order : (half_order order ≤ S order - half_order order)%nat.
Proof.
  unfold half_order.
  pose proof (Nat.Div0.mul_div_le (order + 1) 2). lia.
Qed.

(** The children of a node are distinct. *)
Lemma kids_NoDup order h over rmin t Ls K j L a :
  shape t Ls → content order h over rmin t Ls K →
  Ls !! S j = Some L → a ∈ L → NoDup (kids (erecs h t a)).
Proof.
  intros Hsh Hct HL Ha.
  destruct (lookup_lt_is_Some_2 Ls j) as [lo Hlo].
  { apply lookup_lt_Some in HL. lia. }
  pose proof (fam_kids _ _ _ _ _ (ct_fam _ _ _ _ _ _ _ Hct _ _ _ HL Hlo)) as Hk.
  pose proof (sh_nodup _ _ Hsh _ _ Hlo) as Hnd.
  apply (NoDup_fmap_2 Some) in Hnd. rewrite <- Hk in Hnd.
  apply list_elem_of_split in Ha as (u1 & u2 & ->).
  rewrite fmap_app, concat_app in Hnd. csimpl in Hnd.
  apply NoDup_app in Hnd as (_ & _ & Hnd). by apply NoDup_app in Hnd as (Hnd & _).
Qed.

(** *** The state after [split] *)

Section SplitPost.

Context (order r0 : nat) (u t' : tree) (Ls : list (list nat)) (K : list Z).
Context (Hsh : shape u Ls) (a : nat) (Hct : content order None (Some a) r0 u Ls K).
Context (Hord : (2 ≤ order)%nat) (Hr0 : (1 ≤ r0)%nat).
Context (j : nat) (l1 l2 : list nat) (Hj : Ls !! j = Some (l1 ++ a :: l2)).
Context (up : list nat) (Hup : Ls !! S j = Some up) (pp : nat) (Hpp : pp ∈ up).
Context (left : nat) (Hfresh : ¬ live u left).
Context (rsL rsR : list (Z * option nat)) (Hsplit : recs u a = rsL ++ rsR).
Context (HrsL : length rsL = half_order order) (Hlen : length (recs u a) = S order).
Context (q1 q2 : list (Z * option nat)) (ka : Z).
Context (Hq : recs u pp = q1 ++ (ka, Some a) :: q2).
Context (kl : Z) (Hkl : last_key rsL = Some kl).
Context (Hsf : split_from u t' a left (Some pp) (kids rsL)).
Context (Hrecs : ∀ x, recs t' x =
  if decide (x = left) then rsL
  else if decide (x = a) then rsR
  else if decide (x = pp) then q1 ++ (kl, Some left) :: (ka, Some a) :: q2
  else recs u x).
Context (Hroot2 : r0 = 2%nat ∨ m_root u = Some pp).

Lemma split_a_in : a ∈ l1 ++ a :: l2.
Proof. apply elem_of_app. right. apply elem_of_cons. by left. Qed.

Lemma split_not_left i L x : Ls !! i = Some L → x ∈ L → x ≠ left.
Proof. intros HL Hx ->. apply Hfresh. by eapply (sh_live _ _ Hsh). Qed.

Lemma split_pp_ne_a : pp ≠ a.
Proof.
  intros E. pose proof Hpp as Hpp'. rewrite E in Hpp'.
  pose proof (sh_disj _ _ Hsh _ _ _ _ _ Hj Hup split_a_in Hpp'). lia.
Qed.

Lemma split_rsR_nonempty : rsR ≠ [].
Proof.
  intros ->. rewrite Hsplit, app_nil_r in Hlen. pose proof (half_order_le order). lia.
Qed.

Lemma split_rsL_nonempty : rsL ≠ [].
Proof. intros ->. done. Qed.

(** The nodes whose parent pointer [split] sets are on the level below. *)
Lemma split_moved x : Some x ∈ kids rsL →
  ∃ j' lo, j = S j' ∧ Ls !! j' = Some lo ∧ x ∈ lo ∧ par u x = Some a.
Proof.
  intros (r & Hr2 & Hr)%list_elem_of_fmap.
  destruct (kid_level _ _ _ _ _ _ _ Hct j _ a r x Hj split_a_in) as (j' & lo & ? & ? & ? & ? & _).
  - change (erecs None u a) with (recs u a). rewrite Hsplit. set_solver.
  - done.
  - by exists j', lo.
Qed.

Lemma split_recs_other i L x : Ls !! i = Some L → x ∈ L → i ≠ j → i ≠ S j →
  recs t' x = recs u x.
Proof.
  intros HL Hx Hij Hisj. rewrite Hrecs.
  rewrite !decide_False; [done| | |].
  - intros ->. apply Hisj. exact (sh_disj _ _ Hsh _ _ _ _ _ HL Hup Hx Hpp).
  - intros ->. apply Hij. exact (sh_disj _ _ Hsh _ _ _ _ _ HL Hj Hx split_a_in).
  - by eapply split_not_left.
Qed.

Lemma split_alk x : x ≠ left → alk t' x = alk u x.
Proof.
  intros Hx. unfold alk. rewrite Hrecs, decide_False by done.
  destruct (decide (x = a)) as [->|Hxa].
  - rewrite Hsplit. symmetry. apply last_key_app, split_rsR_nonempty.
  - destruct (decide (x = pp)) as [->|Hxp]; [|done].
    rewrite Hq. rewrite (last_key_app q1) by done.
    rewrite (last_key_app q1) by done.
    change ((kl, Some left) :: (ka, Some a) :: q2) with ([(kl, Some left)] ++ (ka, Some a) :: q2).
    by rewrite last_key_app.
Qed.

Lemma split_alk_left : alk t' left = Some kl.
Proof. unfold alk. by rewrite Hrecs, decide_True. Qed.

Lemma split_par i L x : Ls !! i = Some L → x ∈ L → S i ≠ j → par t' x = par u x.
Proof.
  intros HL Hx Hij. rewrite (sf_par _ _ _ _ _ _ Hsf).
  rewrite decide_False by (by eapply split_not_left).
  rewrite decide_False; [done|].
  intros (j' & lo & Ej & Hlo & Hx' & _)%split_moved.
  apply Hij. rewrite Ej. f_equal. exact (sh_disj _ _ Hsh _ _ _ _ _ HL Hlo Hx Hx').
Qed.

Lemma split_lookup i L :
  <[j := l1 ++ left :: a :: l2]> Ls !! i = Some L →
  (i = j ∧ L = l1 ++ left :: a :: l2) ∨ (i ≠ j ∧ Ls !! i = Some L).
Proof.
  intros HL. destruct (decide (i = j)) as [->|Hne].
  - rewrite list_lookup_insert_eq in HL by (by eapply lookup_lt_Some). left. by injection HL.
  - rewrite list_lookup_insert_ne in HL by done. by right.
Qed.

Lemma split_fam_below j' lo :
  j = S j' → Ls !! j' = Some lo → fam t' None (alk t') (l1 ++ left :: a :: l2) lo.
Proof.
  intros Ej Hlo.
  assert (Ls !! S j' = Some (l1 ++ a :: l2)) as Hj' by (by rewrite <- Ej).
  pose proof (ct_fam _ _ _ _ _ _ _ Hct _ _ _ Hj' Hlo) as Hf.
  pose proof (sh_nodup _ _ Hsh _ _ Hj) as Hnd.
  apply NoDup_app in Hnd as (_ & Hd & [Ha2 _]%NoDup_cons).
  assert (a ∉ l1) as Ha1 by (intros ?; apply (Hd a); set_solver).
  assert (∀ x, x ∈ l1 ++ l2 → recs t' x = recs u x) as Hsame.
  { intros x Hx. rewrite Hrecs. rewrite !decide_False; [done| | |].
    - intros ->. assert (pp ∈ l1 ++ a :: l2) as Hin by set_solver.
      pose proof (sh_disj _ _ Hsh _ _ _ _ _ Hj Hup Hin Hpp). lia.
    - intros ->. set_solver.
    - apply (split_not_left _ _ x Hj). set_solver. }
  eapply (fam_regroup u t' None None (l1 ++ a :: l2)); [exact Hf| | |].
  - change (erecs None t') with (recs t'). change (erecs None u) with (recs u).
    rewrite !fmap_app, !concat_app. csimpl.
    rewrite (Hrecs left), decide_True by done.
    rewrite (Hrecs a), decide_False, decide_True; [|done|].
    2:{ intros E. apply (split_not_left _ _ a Hj split_a_in). done. }
    rewrite Hsplit, <- app_assoc. f_equal; [|f_equal; f_equal].
    + f_equal. apply list_fmap_ext. intros ? x Hx%list_elem_of_lookup_2. apply Hsame. set_solver.
    + f_equal. apply list_fmap_ext. intros ? x Hx%list_elem_of_lookup_2. apply Hsame. set_solver.
  - intros x r c Hx Hr Hc. change (erecs None t' x) with (recs t' x) in Hr.
    rewrite (sf_par _ _ _ _ _ _ Hsf).
    assert (∀ y q, y ∈ l1 ++ a :: l2 → q ∈ recs u y → q.2 = Some c →
              c ≠ left ∧ par u c = Some y) as Hold.
    { intros y q Hy Hq' Hqc.
      destruct (fam_rec _ _ _ _ _ Hf y q c Hy Hq' Hqc) as [Hp _]. split; [|done].
      eapply (split_not_left _ _ c Hlo). by eapply (fam_kid_in _ _ _ _ _ y q c Hf). }
    destruct (decide (x = left)) as [->|Hxl].
    + rewrite Hrecs, decide_True in Hr by done.
      destruct (Hold a r split_a_in) as [Hcl Hp]; [rewrite Hsplit; set_solver|done|].
      rewrite decide_False by done. rewrite decide_True; [done|].
      unfold kids. rewrite <- Hc. by apply list_elem_of_fmap_2.
    + assert (x ∈ l1 ++ a :: l2) as Hx' by set_solver.
      destruct (decide (x = a)) as [->|Hxa].
      * rewrite Hrecs, decide_False, decide_True in Hr by done.
        destruct (Hold a r split_a_in) as [Hcl Hp]; [rewrite Hsplit; set_solver|done|].
        rewrite decide_False by done. rewrite decide_False; [done|].
        pose proof (kids_NoDup _ _ _ _ _ _ _ _ _ a Hsh Hct Hj' split_a_in) as Hndk.
        change (erecs None u a) with (recs u a) in Hndk. rewrite Hsplit in Hndk.
        unfold kids in Hndk. rewrite fmap_app in Hndk.
        apply NoDup_app in Hndk as (_ & Hdk & _). intros Hin.
        apply (Hdk _ Hin). rewrite <- Hc. by apply list_elem_of_fmap_2.
      * rewrite Hsame in Hr by set_solver.
        destruct (Hold x r Hx' Hr Hc) as [Hcl Hp].
        rewrite decide_False by done. rewrite decide_False; [done|].
        intros (? & ? & _ & _ & _ & Hpa)%split_moved. congruence.
  - intros c Hc. apply split_alk. exact (split_not_left _ _ c Hlo Hc).
Qed.

Lemma split_fam_above :
  fam t' None (alk t') up (l1 ++ left :: a :: l2).
Proof.
  pose proof (ct_fam _ _ _ _ _ _ _ Hct _ _ _ Hup Hj) as Hf.
  pose proof (sh_nodup _ _ Hsh _ _ Hup) as Hndu.
  pose proof (sh_nodup _ _ Hsh _ _ Hj) as Hnd.
  pose proof Hpp as (u1 & u2 & Eu)%list_elem_of_split.
  assert (∀ x, x ∈ u1 ++ u2 → recs t' x = recs u x) as Hsame.
  { intros x Hx. rewrite Hrecs. rewrite Eu in Hndu.
    apply NoDup_app in Hndu as (_ & Hd & [Hp2 _]%NoDup_cons).
    rewrite !decide_False; [done| | |].
    - intros ->. apply elem_of_app in Hx as [Hx|Hx]; [|done]. apply (Hd pp Hx). set_solver.
    - intros ->. assert (a ∈ up) as Hin by (rewrite Eu; set_solver).
      pose proof (sh_disj _ _ Hsh _ _ _ _ _ Hj Hup split_a_in Hin). lia.
    - apply (split_not_left _ _ x Hup). rewrite Eu. set_solver. }
  assert (pp ≠ left) as Hpl by exact (split_not_left _ _ pp Hup Hpp).
  assert (recs t' pp = q1 ++ (kl, Some left) :: (ka, Some a) :: q2) as Hrp.
  { rewrite Hrecs, decide_False, decide_False, decide_True; try done. apply split_pp_ne_a. }
  split.
  - pose proof (fam_kids _ _ _ _ _ Hf) as Hk.
    change (erecs None t') with (recs t'). change (erecs None u) with (recs u) in Hk.
    rewrite Eu in Hk |- *. rewrite fmap_app, concat_app in Hk |- *. csimpl in Hk. csimpl.
    rewrite Hq in Hk. rewrite Hrp. unfold kids in Hk |- *.
    rewrite fmap_app in Hk |- *. csimpl in Hk. csimpl.
    rewrite fmap_app in Hk. csimpl in Hk.
    rewrite <- !app_assoc in Hk. simpl in Hk. rewrite app_assoc in Hk.
    apply app_pivot in Hk as [E1 E2].
    2:{ rewrite Hk. apply (NoDup_fmap_2 Some) in Hnd. by rewrite fmap_app in Hnd. }
    rewrite fmap_app. csimpl. rewrite <- E1, <- E2. rewrite <- !app_assoc. simpl.
    f_equal; [|f_equal; f_equal; f_equal; f_equal].
    + f_equal. apply list_fmap_ext. intros ? x Hx%list_elem_of_lookup_2. simpl.
      rewrite Hsame; [done|set_solver].
    + f_equal. apply list_fmap_ext. intros ? x Hx%list_elem_of_lookup_2. simpl.
      rewrite Hsame; [done|set_solver].
  - intros x r c Hx Hr Hc. change (erecs None t' x) with (recs t' x) in Hr.
    assert (∀ q, q ∈ recs u x → q.2 = Some c → par t' c = Some x ∧ alk t' c = Some q.1) as Hold.
    { intros q Hq' Hqc.
      destruct (fam_rec _ _ _ _ _ Hf x q c Hx Hq' Hqc) as [Hp Hk].
      assert (c ∈ l1 ++ a :: l2) as Hcin by (by eapply (fam_kid_in _ _ _ _ _ x q c Hf)).
      rewrite (split_par _ _ c Hj Hcin) by lia.
      rewrite split_alk by exact (split_not_left _ _ c Hj Hcin). done. }
    destruct (decide (x = pp)) as [->|Hxp].
    + rewrite Hrp in Hr.
      apply elem_of_app in Hr as [Hr|[->|Hr]%elem_of_cons].
      * apply Hold; [|done]. rewrite Hq. set_solver.
      * simpl in Hc. injection Hc as <-. simpl. split; [|apply split_alk_left].
        rewrite (sf_par _ _ _ _ _ _ Hsf). by rewrite decide_True.
      * apply Hold; [|done]. rewrite Hq. set_solver.
    + rewrite Hsame in Hr; [by apply Hold|].
      rewrite Eu in Hx. set_solver.
Qed.

Lemma split_fam_other i upi loi :
  i ≠ j → S i ≠ j → Ls !! S i = Some upi → Ls !! i = Some loi →
  fam t' None (alk t') upi loi.
Proof.
  intros Hij Hisj Hupi Hloi.
  eapply fam_ext; [| | |exact (ct_fam _ _ _ _ _ _ _ Hct _ _ _ Hupi Hloi)].
  - intros x Hx. change (erecs None t' x) with (recs t' x).
    change (erecs None u x) with (recs u x).
    apply (split_recs_other (S i) upi x Hupi Hx); [done|lia].
  - intros c Hc. by apply (split_par i loi).
  - intros c Hc. apply split_alk. exact (split_not_left _ _ c Hloi Hc).
Qed.

Lemma split_content :
  content order None (Some pp) 2 t' (<[j := l1 ++ left :: a :: l2]> Ls) K.
Proof.
  pose proof (lookup_lt_Some _ _ _ Hj) as Hltj.
  assert (a ≠ left) as Hal by exact (split_not_left _ _ a Hj split_a_in).
  assert (pp ≠ left) as Hpl by exact (split_not_left _ _ pp Hup Hpp).
  pose proof split_pp_ne_a as Hpa.
  assert (recs t' left = rsL) as Hrl by (by rewrite Hrecs, decide_True).
  assert (recs t' a = rsR) as Hra by (by rewrite Hrecs, decide_False, decide_True).
  assert (∀ x, x ∈ l1 ++ l2 → recs t' x = recs u x) as Hsame.
  { intros x Hx. rewrite Hrecs.
    pose proof (sh_nodup _ _ Hsh _ _ Hj) as Hnd.
    apply NoDup_app in Hnd as (_ & Hd & [Ha2 _]%NoDup_cons).
    rewrite !decide_False; [done| | |].
    - intros ->. assert (pp ∈ l1 ++ a :: l2) as Hin by set_solver.
      pose proof (sh_disj _ _ Hsh _ _ _ _ _ Hj Hup Hin Hpp). lia.
    - intros ->. apply elem_of_app in Hx as [Hx|Hx]; [|done]. apply (Hd a Hx). set_solver.
    - apply (split_not_left _ _ x Hj). set_solver. }
  split.
  - intros i upi loi Hupi Hloi.
    apply split_lookup in Hupi as [[Ei ->]|[Ei Hupi]];
      apply split_lookup in Hloi as [[Ei' ->]|[Ei' Hloi]]; try lia.
    + by eapply split_fam_below.
    + assert (i = j) as -> by done. rewrite Hup in Hupi. injection Hupi as <-.
      apply split_fam_above.
    + by eapply split_fam_other.
  - intros L x r HL Hx Hr.
    apply split_lookup in HL as [[Ei ->]|[Ei HL]].
    + assert (Ls !! 0%nat = Some (l1 ++ a :: l2)) as HL0 by (by rewrite Ei).
      assert (∀ q, q ∈ recs u a → q.2 = None) as Hnone.
      { intros q Hq'. exact (ct_leaves _ _ _ _ _ _ _ Hct _ a q HL0 split_a_in Hq'). }
      apply elem_of_app in Hx as [Hx|[->|[->|Hx]%elem_of_cons]%elem_of_cons].
      * rewrite Hsame in Hr by set_solver.
        apply (ct_leaves _ _ _ _ _ _ _ Hct _ x r HL0); [set_solver|done].
      * rewrite Hrl in Hr. apply Hnone. rewrite Hsplit. set_solver.
      * rewrite Hra in Hr. apply Hnone. rewrite Hsplit. set_solver.
      * rewrite Hsame in Hr by set_solver.
        apply (ct_leaves _ _ _ _ _ _ _ Hct _ x r HL0); [set_solver|done].
    + rewrite (split_recs_other 0 L x HL Hx) in Hr by (done || lia).
      by apply (ct_leaves _ _ _ _ _ _ _ Hct _ x r HL).
  - rewrite <- (ct_keys _ _ _ _ _ _ _ Hct).
    destruct (decide (j = 0%nat)) as [Ej|Ej].
    + assert (Ls !! 0%nat = Some (l1 ++ a :: l2)) as HL0 by (by rewrite <- Ej).
      rewrite Ej, list_lookup_insert_eq by lia. rewrite HL0. simpl.
      unfold level_keys. change (erecs None t') with (recs t').
      change (erecs None u) with (recs u).
      rewrite !fmap_app, !concat_app. csimpl.
      rewrite Hrl, Hra, Hsplit. unfold keys. rewrite fmap_app, <- app_assoc.
      f_equal; [|f_equal; f_equal].
      * f_equal. apply list_fmap_ext. intros ? x Hx%list_elem_of_lookup_2. simpl.
        rewrite Hsame; [done|set_solver].
      * f_equal. apply list_fmap_ext. intros ? x Hx%list_elem_of_lookup_2. simpl.
        rewrite Hsame; [done|set_solver].
    + rewrite list_lookup_insert_ne by done.
      destruct (Ls !! 0%nat) as [L0|] eqn:HL0; [|done]. simpl.
      unfold level_keys. f_equal. apply list_fmap_ext.
      intros ? x Hx%list_elem_of_lookup_2. simpl.
      change (erecs None t' x) with (recs t' x). change (erecs None u x) with (recs u x).
      by rewrite (split_recs_other 0 L0 x HL0 Hx) by (done || lia).
  - apply (ct_sorted _ _ _ _ _ _ _ Hct).
  - rewrite (sf_size _ _ _ _ _ _ Hsf). apply (ct_size _ _ _ _ _ _ _ Hct).
  - intros i L x HL Hx. rewrite (sf_root _ _ _ _ _ _ Hsf).
    pose proof (half_order_le order) as Hho. pose proof (half_order_rest order) as Hhr.
    pose proof (half_order_pos order Hord) as Hhp.
    assert (m_root u ≠ Some a) as Hnra.
    { intros Hr. destruct (root_level _ _ _ _ _ Hsh Hj split_a_in Hr) as [_ El].
      apply lookup_lt_Some in Hup. lia. }
    assert (m_root u ≠ Some left) as Hnrl.
    { intros Hr. pose proof (sh_root _ _ Hsh) as Hrt. rewrite Hr in Hrt.
      destruct (last Ls) as [Lt|] eqn:El; [|done]. simpl in Hrt.
      rewrite last_lookup in El. apply (split_not_left _ _ left El); [|done].
      destruct Lt; [done|]. simpl in Hrt. injection Hrt as ->. set_solver. }
    assert (length rsR = (S order - half_order order)%nat) as HlR.
    { rewrite Hsplit, length_app in Hlen. lia. }
    assert (∀ i0 L0, Ls !! i0 = Some L0 → x ∈ L0 → x ≠ a → x ≠ pp →
      (length (recs t' x) ≤ (if decide (Some pp = Some x) then S order else order))%nat ∧
      (if decide (m_root u = Some x)
       then (match i0 with O => 1 | S _ => 2 end ≤ length (recs t' x))%nat
       else (half_order order ≤ length (recs t' x))%nat)) as Hold.
    { intros i0 L0 HL0 Hx0 Hxa Hxp.
      destruct (ct_fill _ _ _ _ _ _ _ Hct i0 L0 x HL0 Hx0) as [Hle Hge].
      rewrite decide_False in Hle by congruence.
      rewrite Hrecs, !decide_False by (done || exact (split_not_left _ _ x HL0 Hx0)).
      rewrite decide_False by congruence. split; [done|].
      destruct (decide (m_root u = Some x)) as [Hr|]; [|done].
      destruct i0; [done|]. destruct Hroot2 as [->|Hr']; [done|congruence]. }
    assert (pp ∈ up → 
      (length (recs t' pp) ≤ S order)%nat ∧
      (if decide (m_root u = Some pp) then (2 ≤ length (recs t' pp))%nat
       else (half_order order ≤ length (recs t' pp))%nat)) as Hppf.
    { intros _. destruct (ct_fill _ _ _ _ _ _ _ Hct (S j) up pp Hup Hpp) as [Hle Hge].
      rewrite decide_False in Hle by congruence.
      rewrite Hrecs, decide_False, decide_False, decide_True by done.
      rewrite Hq in Hle, Hge. rewrite !length_app in *. simpl in *. split; [lia|].
      destruct (decide (m_root u = Some pp)); lia. }
    apply split_lookup in HL as [[-> ->]|[Ei HL]].
    + apply elem_of_app in Hx as [Hx|[->|[->|Hx]%elem_of_cons]%elem_of_cons].
      * apply (Hold j _ Hj); [set_solver| |].
        -- intros ->. pose proof (sh_nodup _ _ Hsh _ _ Hj) as Hnd.
           apply NoDup_app in Hnd as (_ & Hd & _). apply (Hd a Hx). set_solver.
        -- intros ->. assert (pp ∈ l1 ++ a :: l2) as Hin by set_solver.
           pose proof (sh_disj _ _ Hsh _ _ _ _ _ Hj Hup Hin Hpp). lia.
      * rewrite Hrl, HrsL. rewrite decide_False by congruence.
        rewrite decide_False by done. split; lia.
      * rewrite Hra, HlR. rewrite decide_False by congruence.
        rewrite decide_False by done. split; lia.
      * apply (Hold j _ Hj); [set_solver| |].
        -- intros ->. pose proof (sh_nodup _ _ Hsh _ _ Hj) as Hnd.
           apply NoDup_app in Hnd as (_ & _ & [Hn _]%NoDup_cons). done.
        -- intros ->. assert (pp ∈ l1 ++ a :: l2) as Hin by set_solver.
           pose proof (sh_disj _ _ Hsh _ _ _ _ _ Hj Hup Hin Hpp). lia.
    + destruct (decide (x = pp)) as [->|Hxp].
      * assert (i = S j) as -> by exact (sh_disj _ _ Hsh _ _ _ _ _ HL Hup Hx Hpp).
        rewrite decide_True by done. by apply Hppf.
      * apply (Hold i L HL Hx); [|done].
        intros ->. apply Ei. exact (sh_disj _ _ Hsh _ _ _ _ _ HL Hj Hx split_a_in).
  - done.
Qed.

Lemma split_shape : shape t' (<[j := l1 ++ left :: a :: l2]> Ls).
Proof.
  eapply shape_insert; [exact Hsh|exact Hj| |exact Hfresh|exact Hsf|].
  - by apply lookup_lt_Some in Hup.
  - intros r Hr (j' & lo & _ & Hlo & Hx & Hp)%split_moved.
    rewrite (sh_root_par _ _ Hsh r Hr) in Hp. done.
Qed.

End SplitPost.

Lemma split_move_run mv : ∀ t node left m keep,
  live t node → live t left → node ≠ left →
  (∀ r c, r ∈ mv → r.2 = Some c → live t c) →
  recs t node = mv ++ keep → recs t left = m →
  StronglySorted Z.lt (keys (m ++ mv)) →
  ∃ t', split_move (length mv) (Some node) (Some left) t = Some (tt, t') ∧
        reparented t t' (kids mv) left ∧
        (∀ a, recs t' a = if decide (a = node) then keep
                          else if decide (a = left) then m ++ mv else recs t a).
Proof.
  induction mv as [|r mv IH]; intros t node left m keep Hl Hll Hne Hc En El Hs.
  - exists t. split; [done|]. split; [apply reparented_nil|].
    intros a. repeat case_decide; subst; try done. by rewrite app_nil_r.
  - set (t1 := adopted r.2 (Some left) t).
    set (t2 := wr left (set_records (m ++ [r])) t1).
    set (t3 := wr node (set_records (mv ++ keep)) t2).
    assert (∀ a, r.2 = Some a → live t a) as Hc0.
    { intros a Ha. apply (Hc r a); [set_solver|done]. }
    assert (live t1 left) as Hl1 by (unfold t1; auto with live).
    assert (live t2 node) as Hl2 by (unfold t2, t1; auto with live).
    assert (recs t1 left = m) as E1 by (unfold t1; by autorewrite with st).
    assert (recs t2 node = r :: mv ++ keep) as E2.
    { unfold t2, t1. autorewrite with st. by rewrite decide_False by done. }
    destruct (IH t3 node left (m ++ [r]) keep) as (t' & Hrun & Hrp & Hrecs); try done.
    { unfold t3. auto with live. }
    { unfold t3, t2, t1. auto 10 with live. }
    { intros q c Hq Hqc. unfold t3, t2, t1. do 2 apply live_wr_2. apply live_adopted.
      apply (Hc q c); [set_solver|done]. }
    { unfold t3. autorewrite with st. by rewrite decide_True. }
    { unfold t3, t2. autorewrite with st. by rewrite decide_False, decide_True by done. }
    { by rewrite <- app_assoc. }
    exists t'. split; [|split].
    + simpl. unfold first_record.
      rewrite (bind_run _ _ _ _ _ (record_at_run t node 0 r Hl ltac:(by rewrite En))).
      rewrite (bind_run _ _ _ _ _ (adopt_run t r.2 (Some left) Hc0)). fold t1.
      rewrite (bind_run _ _ _ _ _ (insert_record_run t1 left r Hl1)).
      rewrite E1, set_insert_end.
      * simpl. fold t2.
        rewrite (bind_run _ _ _ _ _
          (erase_record_run t2 node 0 Hl2 ltac:(rewrite E2; simpl; lia))).
        rewrite E2. simpl. fold t3. exact Hrun.
      * apply Forall_forall. intros q Hq. unfold keys in Hs. rewrite fmap_app in Hs.
        eapply (StronglySorted_app_1_elem_of _ _ _ _ _ Hs).
        -- apply list_elem_of_fmap. by exists q.
        -- csimpl. set_solver.
    + eapply (reparented_step t t3); [done| |exact Hrp].
      unfold t3, t2. eapply same_links_trans; apply same_links_set_records; auto with live.
    + intros a. rewrite Hrecs. unfold t3, t2, t1. autorewrite with st.
      destruct (decide (a = node)) as [->|Hn]; [done|].
      destruct (decide (a = left)) as [->|Hr].
      * by rewrite <- !app_assoc.
      * by rewrite !decide_False by done.
Qed.

(** A node that may hold one record too many and does not. *)
Lemma content_over_done order rmin t Ls K a :
  content order None (Some a) rmin t Ls K → (length (recs t a) ≤ order)%nat →
  content order None None rmin t Ls K.
Proof.
  intros [H1 H2 H3 H4 H5 H6 H7] Hle. split; try done.
  intros j L x HL Hx. destruct (H6 j L x HL Hx) as [Hu Hl]. split; [|done].
  destruct (decide (Some a = Some x)) as [[= ->]|]; [done|]. done.
Qed.

Lemma content_over_any order rmin t Ls K a :
  content order None None rmin t Ls K → content order None (Some a) rmin t Ls K.
Proof.
  intros [H1 H2 H3 H4 H5 H6 H7]. split; try done.
  intros j L x HL Hx. destruct (H6 j L x HL Hx) as [Hu Hl]. split; [|done].
  rewrite decide_False in Hu by done. destruct (decide (Some a = Some x)); lia.
Qed.

(** *** A new root above the old one *)

Section GrowRoot.

Context (order : nat) (over : option nat) (t : tree) (Ls : list (list nat)) (K : list Z).
Context (Hsh : shape t Ls) (Hct : content order None over 2 t Ls K).
Context (Hord : (2 ≤ order)%nat).
Context (a : nat) (Hroot : m_root t = Some a) (ka : Z) (Hka : alk t a = Some ka).
Context (Hhalf : (half_order order ≤ length (recs t a))%nat).
Context (p : nat) (Hfresh : ¬ live t p).
Context (u : tree).
Context (Hu_root : m_root u = Some p) (Hu_size : m_size u = m_size t).
Context (Hu_live : ∀ x, live u x ↔ x = p ∨ live t x).
Context (Hu_recs : ∀ x, recs u x = if decide (x = p) then [(ka, Some a)] else recs t x).
Context (Hu_nxt : ∀ x, nxt u x = if decide (x = p) then None else nxt t x).
Context (Hu_prv : ∀ x, prv u x = if decide (x = p) then None else prv t x).
Context (Hu_leaf : ∀ x, leaf u x = if decide (x = p) then false else leaf t x).
Context (Hu_par : ∀ x, par u x = if decide (x = p) then None
                                 else if decide (x = a) then Some p else par t x).

Lemma grow_not_p i L x : Ls !! i = Some L → x ∈ L → x ≠ p.
Proof. intros HL Hx E. apply Hfresh. rewrite <- E. by eapply (sh_live _ _ Hsh). Qed.

Lemma grow_top : ∃ n, length Ls = S n ∧ Ls !! n = Some [a].
Proof.
  pose proof (sh_root _ _ Hsh) as Hr. rewrite Hroot in Hr.
  destruct (last Ls) as [Lt|] eqn:El; [|done]. simpl in Hr.
  pose proof (sh_top _ _ Hsh _ El) as H1. destruct Lt as [|r [|? ?]]; try done.
  simpl in Hr. injection Hr as <-. rewrite last_lookup in El.
  destruct Ls as [|L0 Ls']; [done|]. exists (length Ls'). done.
Qed.

Lemma grow_lookup i L :
  (Ls ++ [[p]]) !! i = Some L →
  (i = length Ls ∧ L = [p]) ∨ ((i < length Ls)%nat ∧ Ls !! i = Some L).
Proof.
  intros HL. destruct (decide (i < length Ls)%nat) as [Hlt|Hge].
  - rewrite lookup_app_l in HL by done. by right.
  - rewrite lookup_app_r in HL by lia. left.
    destruct (i - length Ls)%nat as [|n] eqn:E; simpl in HL; [|done].
    injection HL as <-. split; [lia|done].
Qed.

Lemma grow_shape : shape u (Ls ++ [[p]]).
Proof.
  destruct grow_top as (n & Hlen & Hn).
  assert (p ≠ header) as Hph.
  { intros E. apply Hfresh. rewrite E. apply (sh_header _ _ Hsh). }
  split.
  - intros i L [[-> ->]|[_ HL]]%grow_lookup; [apply NoDup_singleton|by eapply sh_nodup].
  - intros i i' L L' x [[-> ->]|[_ HL]]%grow_lookup [[-> ->]|[_ HL']]%grow_lookup Hx Hx'.
    + done.
    + apply list_elem_of_singleton in Hx. by destruct (grow_not_p _ _ _ HL' Hx').
    + apply list_elem_of_singleton in Hx'. by destruct (grow_not_p _ _ _ HL Hx).
    + eapply (sh_disj _ _ Hsh); eauto.
  - intros i L x [[-> ->]|[_ HL]]%grow_lookup Hx; apply Hu_live.
    + left. by apply list_elem_of_singleton in Hx.
    + right. by eapply (sh_live _ _ Hsh).
  - apply Hu_live. right. apply (sh_header _ _ Hsh).
  - intros i L [[-> ->]|[_ HL]]%grow_lookup.
    + intros Hx%list_elem_of_singleton. done.
    + by eapply (sh_not_header _ _ Hsh).
  - intros i L [[-> ->]|[_ HL]]%grow_lookup; [done|by eapply (sh_nonempty _ _ Hsh)].
  - rewrite Hu_root. by rewrite last_snoc.
  - intros L. rewrite last_snoc. by intros [= <-].
  - intros r. rewrite Hu_root. intros [= <-]. by rewrite Hu_par, decide_True.
  - intros i L x [[-> ->]|[Hlt HL]]%grow_lookup Hx.
    + apply list_elem_of_singleton in Hx as ->. rewrite Hu_leaf, decide_True by done.
      rewrite bool_decide_eq_false_2; [done|lia].
    + rewrite Hu_leaf, decide_False by (by eapply grow_not_p).
      by eapply (sh_leaf _ _ Hsh).
  - intros i L [[-> ->]|[Hlt HL]]%grow_lookup.
    + rewrite Hlen. simpl. by rewrite Hu_nxt, Hu_prv, !decide_True.
    + eapply chain_from_ext; [|by eapply (sh_chain _ _ Hsh)].
      intros x Hx. rewrite Hu_nxt, Hu_prv.
      by rewrite !decide_False by (by eapply grow_not_p).
  - rewrite Hu_nxt, decide_False by done. rewrite (sh_hdr_next _ _ Hsh).
    by rewrite lookup_app_l by lia.
  - rewrite Hu_prv, decide_False by done. rewrite (sh_hdr_pre _ _ Hsh).
    by rewrite lookup_app_l by lia.
Qed.

Lemma grow_content : content order None over 1 u (Ls ++ [[p]]) K.
Proof.
  destruct grow_top as (n & Hlen & Hn).
  assert (∀ i L x, Ls !! i = Some L → x ∈ L → recs u x = recs t x) as Hsame.
  { intros i L x HL Hx. by rewrite Hu_recs, decide_False by (by eapply grow_not_p). }
  split.
  - intros i up lo Hup Hlo.
    apply grow_lookup in Hup as [[Ei ->]|[Hlt Hup]];
      apply grow_lookup in Hlo as [[Ei' ->]|[Hlt' Hlo]]; try lia.
    + assert (i = n) as -> by lia. rewrite Hn in Hlo. injection Hlo as <-.
      split.
      * simpl. change (erecs None u p) with (recs u p). by rewrite Hu_recs, decide_True.
      * intros x r c ->%list_elem_of_singleton. change (erecs None u p) with (recs u p).
        rewrite Hu_recs, decide_True by done. intros ->%list_elem_of_singleton [= <-].
        assert (a ≠ p) as Hap by (eapply (grow_not_p _ _ _ Hn); set_solver).
        rewrite Hu_par, decide_False, decide_True by done. split; [done|].
        unfold alk. rewrite Hu_recs, decide_False by done. exact Hka.
    + eapply fam_ext; [| | |exact (ct_fam _ _ _ _ _ _ _ Hct _ _ _ Hup Hlo)].
      * intros x Hx. change (erecs None u x) with (recs u x).
        exact (Hsame _ _ x Hup Hx).
      * intros c Hc. rewrite Hu_par, decide_False by exact (grow_not_p _ _ c Hlo Hc).
        rewrite decide_False; [done|]. intros ->.
        assert (a ∈ [a]) as Ha by set_solver.
        pose proof (sh_disj _ _ Hsh _ _ _ _ _ Hlo Hn Hc Ha). lia.
      * intros c Hc. unfold alk. by rewrite (Hsame _ _ c Hlo Hc).
  - intros L x r HL Hx Hr. rewrite lookup_app_l in HL by lia.
    rewrite (Hsame _ _ _ HL Hx) in Hr. by eapply (ct_leaves _ _ _ _ _ _ _ Hct).
  - rewrite lookup_app_l by lia. rewrite <- (ct_keys _ _ _ _ _ _ _ Hct).
    destruct (Ls !! 0%nat) as [L0|] eqn:HL0; [|done]. simpl.
    unfold level_keys. f_equal. apply list_fmap_ext.
    intros ? x Hx%list_elem_of_lookup_2. simpl.
    change (erecs None u x) with (recs u x). change (erecs None t x) with (recs t x).
    by rewrite (Hsame _ _ x HL0 Hx).
  - apply (ct_sorted _ _ _ _ _ _ _ Hct).
  - rewrite Hu_size. apply (ct_size _ _ _ _ _ _ _ Hct).
  - intros i L x [[-> ->]|[Hlt HL]]%grow_lookup Hx.
    + apply list_elem_of_singleton in Hx as ->. rewrite Hu_recs, decide_True by done.
      rewrite Hu_root. rewrite Hlen. simpl. split.
      * destruct (decide (over = Some p)); lia.
      * destruct (decide (Some p = Some p)); [lia|done].
    + rewrite (Hsame _ _ _ HL Hx). rewrite Hu_root.
      destruct (ct_fill _ _ _ _ _ _ _ Hct i L x HL Hx) as [Hle Hge]. split; [done|].
      destruct (decide (Some p = Some x)) as [[= E]|_].
      { by destruct (grow_not_p _ _ _ HL Hx). }
      destruct (decide (m_root t = Some x)) as [Hr|]; [|done].
      rewrite Hroot in Hr. injection Hr as <-. done.
  - done.
Qed.

End GrowRoot.

(** *** [split], run *)

Section SplitRun.

Context (order r0 : nat) (t : tree) (Ls : list (list nat)) (K : list Z).
Context (Hsh : shape t Ls) (a : nat) (Hct : content order None (Some a) r0 t Ls K).
Context (Hord : (2 ≤ order)%nat) (Hr0 : (1 ≤ r0)%nat).
Context (j : nat) (l1 l2 : list nat) (Hj : Ls !! j = Some (l1 ++ a :: l2)).
Context (Hlen : length (recs t a) = S order).
Context (left : nat) (Hleft : left = fresh (dom (heap t))).
Context (rsL rsR : list (Z * option nat)).
Context (HrsL : rsL = take (half_order order) (recs t a)).
Context (HrsR : rsR = drop (half_order order) (recs t a)).

Lemma split_run_a_in : a ∈ l1 ++ a :: l2.
Proof. apply elem_of_app. right. apply elem_of_cons. by left. Qed.

Lemma split_run_fresh : ¬ live t left.
Proof. rewrite Hleft. apply make_node_run. Qed.

Lemma split_run_recs : recs t a = rsL ++ rsR.
Proof. rewrite HrsL, HrsR. by rewrite take_drop. Qed.

Lemma split_run_length : length rsL = half_order order.
Proof. rewrite HrsL, length_take, Hlen. pose proof (half_order_le order). lia. Qed.

Lemma split_run_rsR : rsR ≠ [].
Proof.
  intros E. pose proof split_run_recs as Hr. rewrite E, app_nil_r in Hr.
  pose proof split_run_length. pose proof (half_order_le order).
  rewrite Hr in Hlen. lia.
Qed.

Lemma split_run_rsL : rsL ≠ [].
Proof.
  intros E. pose proof split_run_length as Hl. rewrite E in Hl.
  pose proof (half_order_pos order Hord). simpl in Hl. lia.
Qed.

Lemma split_run_sorted : StronglySorted Z.lt (keys (rsL ++ rsR)).
Proof.
  rewrite <- split_run_recs.
  exact (node_sorted _ _ _ _ _ _ _ Hsh Hct j _ a Hj split_run_a_in).
Qed.

Lemma split_run_kid r c : r ∈ rsL → r.2 = Some c →
  ∃ j' lo, j = S j' ∧ Ls !! j' = Some lo ∧ c ∈ lo ∧ par t c = Some a.
Proof.
  intros Hr Hc.
  destruct (kid_level _ _ _ _ _ _ _ Hct j _ a r c Hj split_run_a_in) as (j' & lo & ? & ? & ? & ? & _).
  - change (erecs None t a) with (recs t a). rewrite split_run_recs.
    apply elem_of_app. by left.
  - done.
  - by exists j', lo.
Qed.

Lemma split_run_not_kid x i L : Ls !! i = Some L → x ∈ L → (j ≤ i)%nat → Some x ∉ kids rsL.
Proof.
  intros HL Hx Hle (r & Hr2 & Hr)%list_elem_of_fmap.
  destruct (split_run_kid r x Hr (eq_sym Hr2)) as (j' & lo & Ej & Hlo & Hx' & _).
  pose proof (sh_disj _ _ Hsh _ _ _ _ _ HL Hlo Hx Hx'). lia.
Qed.

Lemma split_run_prev pa : prv t a = Some pa → live t pa ∧ pa ≠ a ∧ pa ≠ left.
Proof.
  intros Hp. rewrite (chain_prev _ _ _ _ _ _ Hsh Hj) in Hp.
  assert (live t pa ∧ pa ≠ a) as [Hl Hne].
  { destruct (last l1) as [y|] eqn:El; simpl in Hp.
    - injection Hp as ->. apply last_Some_elem_of in El. split.
      + apply (sh_live _ _ Hsh _ _ _ Hj). apply elem_of_app. by left.
      + intros E. pose proof (sh_nodup _ _ Hsh _ _ Hj) as Hnd.
        apply NoDup_app in Hnd as (_ & Hd & _). apply (Hd pa El). rewrite E.
        apply elem_of_cons. by left.
    - destruct j; simpl in Hp; [|done]. injection Hp as <-. split.
      + apply (sh_header _ _ Hsh).
      + intros E. apply (sh_not_header _ _ Hsh _ _ Hj). rewrite E. apply split_run_a_in. }
  split; [done|]. split; [done|]. intros E. apply split_run_fresh. by rewrite <- E.
Qed.

Lemma split_prefix_run :
  ∃ t7, split_from t t7 a left None (kids rsL) ∧
    (∀ x, recs t7 x = if decide (x = left) then rsL
                      else if decide (x = a) then rsR else recs t x) ∧
    split order (Some a) t =
      (parent_ <- (if ptr_eqb (par t a) None then
                     p <- make_node ;;
                     modify p (set_is_leaf false) ;;;
                     put_root p ;;;
                     r <- last_record (Some a) ;;
                     insert_record p (r.1, Some a) ;;;
                     ret p
                   else ret (par t a)) ;;
       lr <- last_record (Some left) ;;
       insert_record parent_ (lr.1, Some left) ;;;
       modify (Some a) (set_parent parent_) ;;;
       modify (Some left) (set_parent parent_) ;;;
       ret (parent_, Some left)) t7.
Proof.
  pose proof split_run_fresh as Hfresh.
  pose proof (sh_live _ _ Hsh _ _ _ Hj split_run_a_in) as Hla.
  assert (a ≠ left) as Hal by (intros E; apply Hfresh; by rewrite <- E).
  set (t1 := alloc left t).
  destruct (split_move_run rsL t1 a left [] rsR) as (t2 & Hrun2 & Hrp & Hrecs2).
  { unfold t1. auto with live. }
  { unfold t1. auto with live. }
  { done. }
  { intros r c Hr Hc. destruct (split_run_kid r c Hr Hc) as (j' & lo & _ & Hlo & Hc' & _).
    unfold t1. apply live_alloc_2. exact (sh_live _ _ Hsh _ _ _ Hlo Hc'). }
  { unfold t1. rewrite recs_alloc, decide_False by done. apply split_run_recs. }
  { unfold t1. by rewrite recs_alloc, decide_True. }
  { simpl. pose proof split_run_sorted as Hs. unfold keys in Hs. rewrite fmap_app in Hs.
    by apply StronglySorted_app_1_l in Hs. }
  rewrite split_run_length in Hrun2. simpl in Hrecs2.
  assert (Some a ∉ kids rsL) as Hak.
  { apply (split_run_not_kid a j _ Hj split_run_a_in). lia. }
  assert (leaf t2 a = leaf t a) as Hleaf2.
  { rewrite (rp_leaf _ _ _ _ Hrp). unfold t1. by rewrite leaf_alloc, decide_False. }
  assert (prv t2 a = prv t a) as Hprv2.
  { rewrite (rp_prv _ _ _ _ Hrp). unfold t1. by rewrite prv_alloc, decide_False. }
  assert (par t2 a = par t a) as Hpar2.
  { rewrite (rp_par _ _ _ _ Hrp), decide_False by done.
    unfold t1. by rewrite par_alloc, decide_False. }
  assert (live t2 a) as Hl2a.
  { apply (rp_live _ _ _ _ Hrp). unfold t1. auto with live. }
  assert (live t2 left) as Hl2l.
  { apply (rp_live _ _ _ _ Hrp). unfold t1. auto with live. }
  set (t3 := wr left (set_is_leaf (leaf t a)) t2).
  set (t4 := wr left (set_next (Some a)) t3).
  set (t6 := match prv t a with
             | Some pa => wr pa (set_next (Some left)) (wr left (set_pre (Some pa)) t4)
             | None => t4
             end).
  set (t7 := wr a (set_pre (Some left)) t6).
  assert (∀ x, live t6 x ↔ live t2 x) as Hlive6.
  { intros x. unfold t6. destruct (prv t a) as [pa|] eqn:Hp.
    - destruct (split_run_prev pa Hp) as (Hlp & _ & _).
      assert (live t2 pa) as Hl2p.
      { apply (rp_live _ _ _ _ Hrp). unfold t1. auto with live. }
      rewrite live_wr by (unfold t4, t3; auto 10 with live).
      rewrite live_wr by (unfold t4, t3; auto 10 with live).
      unfold t4, t3. rewrite !live_wr by auto with live. done.
    - unfold t4, t3. rewrite !live_wr by auto with live. done. }
  exists t7. split; [|split].
  - split.
    + unfold t7, t6. destruct (prv t a); unfold t4, t3; autorewrite with st;
        by rewrite (rp_root _ _ _ _ Hrp).
    + unfold t7, t6. destruct (prv t a); unfold t4, t3; autorewrite with st;
        by rewrite (rp_size _ _ _ _ Hrp).
    + intros x. unfold t7. rewrite live_wr by (by apply Hlive6).
      rewrite Hlive6, (rp_live _ _ _ _ Hrp). unfold t1. rewrite live_alloc.
      split; intros [?|?]; auto.
    + intros x. unfold t7, t6. destruct (prv t a) as [pa|] eqn:Hp.
      * destruct (split_run_prev pa Hp) as (Hlp & Hpa & Hpl).
        unfold t4, t3. autorewrite with st. rewrite (rp_nxt _ _ _ _ Hrp).
        unfold t1. rewrite nxt_alloc.
        destruct (decide (x = left)) as [->|Hxl].
        -- rewrite decide_False by done. by rewrite decide_True.
        -- destruct (decide (Some pa = Some x)) as [[= ->]|Hne].
           ++ by rewrite decide_True.
           ++ rewrite decide_False by congruence. by rewrite !decide_False by done.
      * unfold t4, t3. autorewrite with st. rewrite (rp_nxt _ _ _ _ Hrp).
        unfold t1. rewrite nxt_alloc.
        destruct (decide (x = left)) as [->|Hxl]; [by rewrite decide_True|].
        rewrite !decide_False by done. done.
    + intros x. unfold t7, t6. destruct (prv t a) as [pa|] eqn:Hp.
      * destruct (split_run_prev pa Hp) as (Hlp & Hpa & Hpl).
        unfold t4, t3. autorewrite with st. rewrite (rp_prv _ _ _ _ Hrp).
        unfold t1. rewrite prv_alloc.
        destruct (decide (x = left)) as [->|Hxl].
        -- rewrite decide_False by done. by rewrite decide_True.
        -- destruct (decide (x = a)) as [->|Hxa]; [by rewrite decide_True|].
           by rewrite !decide_False by done.
      * unfold t4, t3. autorewrite with st. rewrite (rp_prv _ _ _ _ Hrp).
        unfold t1. rewrite prv_alloc.
        destruct (decide (x = left)) as [->|Hxl].
        -- rewrite decide_False by done. by rewrite decide_True.
        -- destruct (decide (x = a)) as [->|Hxa]; [by rewrite decide_True|].
           by rewrite !decide_False by done.
    + intros x. unfold t7, t6. destruct (prv t a) as [pa|] eqn:Hp;
        unfold t4, t3; autorewrite with st; rewrite (rp_leaf _ _ _ _ Hrp);
        unfold t1; rewrite leaf_alloc.
      * destruct (decide (x = left)) as [->|Hxl]; [by rewrite decide_True|].
        by rewrite !decide_False by done.
      * destruct (decide (x = left)) as [->|Hxl]; [by rewrite decide_True|].
        by rewrite !decide_False by done.
    + intros x.
      assert (par t7 x = par t2 x) as ->.
      { unfold t7, t6. destruct (prv t a); unfold t4, t3; by autorewrite with st. }
      rewrite (rp_par _ _ _ _ Hrp).
      unfold t1. rewrite par_alloc.
      destruct (decide (x = left)) as [->|Hxl].
      * rewrite decide_False; [by rewrite decide_True|].
        intros Hin. apply Hfresh.
        apply list_elem_of_fmap in Hin as (r & Hr2 & Hr).
        destruct (split_run_kid r left Hr (eq_sym Hr2)) as (j' & lo & _ & Hlo & Hc' & _).
        exact (sh_live _ _ Hsh _ _ _ Hlo Hc').
      * by rewrite (decide_False (P := left = x)) by done.
  - intros x.
    assert (recs t7 x = recs t2 x) as ->.
    { unfold t7, t6. destruct (prv t a); unfold t4, t3; by autorewrite with st. }
    rewrite Hrecs2. unfold t1. rewrite recs_alloc.
    destruct (decide (x = left)) as [->|Hxl].
    + by rewrite decide_False by done.
    + destruct (decide (x = a)) as [->|Hxa]; [done|]. by rewrite decide_False by done.
  - unfold split.
    rewrite (bind_run _ _ _ _ _ (proj1 (make_node_run t))). rewrite <- Hleft. fold t1.
    rewrite (bind_run _ _ _ _ _ Hrun2).
    assert (is_Some (recs t2 a !! 0%nat)) as [rf Hfirst].
    { apply lookup_lt_is_Some_2. rewrite Hrecs2, decide_True by done.
      pose proof split_run_rsR as Hne. clear -Hne. destruct rsR; simpl; [done|lia]. }
    unfold first_record. rewrite (bind_run _ _ _ _ _ (record_at_run t2 a 0 rf Hl2a Hfirst)).
    rewrite (bind_run _ _ _ _ _ (load_live t2 a Hl2a)).
    change (is_leaf (nd t2 a)) with (leaf t2 a). change (pre (nd t2 a)) with (prv t2 a).
    change (parent (nd t2 a)) with (par t2 a).
    rewrite Hleaf2, Hprv2, Hpar2.
    rewrite (bind_run _ _ _ _ _ (modify_live t2 left _ Hl2l)). fold t3.
    rewrite (bind_run _ _ _ _ _ (modify_live t3 left _ ltac:(unfold t3; auto with live))).
    fold t4.
    assert ((when (negb (ptr_eqb (prv t a) None))
               (modify (Some left) (set_pre (prv t a)) ;;;
                modify (prv t a) (set_next (Some left)))) t4 = Some (tt, t6)) as Hwhen.
    { unfold t6. destruct (prv t a) as [pa|] eqn:Hp; simpl; [|done].
      destruct (split_run_prev pa Hp) as (Hlp & _ & _).
      assert (live t2 pa) as Hl2p.
      { apply (rp_live _ _ _ _ Hrp). unfold t1. auto with live. }
      rewrite (bind_run _ _ _ _ _ (modify_live t4 left _
                 ltac:(unfold t4, t3; auto with live))).
      apply modify_live. unfold t4, t3. auto 10 with live. }
    rewrite (bind_run _ _ _ _ _ Hwhen).
    rewrite (bind_run _ _ _ _ _ (modify_live t6 a _ (proj2 (Hlive6 a) Hl2a))).
    fold t7. done.
Qed.

End SplitRun.

(** The record of a node in its parent, and the children before it. *)
Lemma parent_record t h lk up l1 a l2 :
  fam t h lk up (l1 ++ a :: l2) →
  ∃ pp q1 ka q2, pp ∈ up ∧ erecs h t pp = q1 ++ (ka, Some a) :: q2 ∧
    par t a = Some pp ∧ lk a = Some ka ∧
    (∀ r, r ∈ q1 → ∃ c, r.2 = Some c ∧ c ∈ l1 ∧ lk c = Some r.1).
Proof.
  intros Hf. pose proof (fam_kids _ _ _ _ _ Hf) as Hk.
  rewrite fmap_app, fmap_cons in Hk.
  apply concat_middle_inv in Hk as (u1 & k1 & k2 & u2 & Hup & E1 & _).
  apply concat_fmap_inv in Hup as (v1 & p & v2 & -> & _ & Hp & _).
  symmetry in Hp. apply kids_middle_inv in Hp as (rs1 & k & rs2 & Hp & -> & _).
  assert (p ∈ v1 ++ p :: v2) as Hin by set_solver.
  destruct (fam_rec _ _ _ _ _ Hf p (k, Some a) a Hin) as [Hpa Hka]; [rewrite Hp; set_solver|done|].
  exists p, rs1, k, rs2. split; [done|]. split; [done|]. split; [done|]. split; [done|].
  intros r Hr.
  assert (r.2 ∈ Some <$> l1) as Hr2.
  { rewrite E1. apply elem_of_app. right. by apply list_elem_of_fmap_2. }
  apply list_elem_of_fmap in Hr2 as (c & Hc & Hcin).
  exists c. split; [done|]. split; [done|].
  destruct (fam_rec _ _ _ _ _ Hf p r c Hin) as [_ Hkc]; [rewrite Hp; set_solver|done|done].
Qed.

Section SplitInner.

Context (order : nat) (t : tree) (Ls : list (list nat)) (K : list Z).
Context (Hsh : shape t Ls) (a : nat) (Hct : content order None (Some a) 2 t Ls K).
Context (Hord : (2 ≤ order)%nat).
Context (j : nat) (l1 l2 : list nat) (Hj : Ls !! j = Some (l1 ++ a :: l2)).
Context (Hlen : length (recs t a) = S order).
Context (up : list nat) (Hup : Ls !! S j = Some up).

(** [split] of a node that has a parent: the new node is its left
    neighbour and the parent holds one record more. *)
Lemma split_run :
  ∃ t' pp left,
    split order (Some a) t = Some ((Some pp, Some left), t') ∧ pp ∈ up ∧
    shape t' (<[j := l1 ++ left :: a :: l2]> Ls) ∧
    content order None (Some pp) 2 t' (<[j := l1 ++ left :: a :: l2]> Ls) K ∧
    live t' left ∧
    recs t' left = take (half_order order) (recs t a) ∧
    recs t' a = drop (half_order order) (recs t a) ∧
    (∀ i L x, Ls !! i = Some L → x ∈ L → (i < j)%nat → recs t' x = recs t x).
Proof.
  set (left := fresh (dom (heap t))).
  set (rsL := take (half_order order) (recs t a)).
  set (rsR := drop (half_order order) (recs t a)).
  assert (a ∈ l1 ++ a :: l2) as Ha by set_solver.
  pose proof (split_run_fresh t left eq_refl) as Hfresh.
  pose proof (split_run_recs order t a rsL rsR eq_refl eq_refl) as Hsplit.
  assert (1 ≤ 2)%nat as H12 by lia.
  pose proof (split_run_length order 2 t a Hord H12 Hlen left eq_refl rsL eq_refl) as HlenL.
  pose proof (split_run_rsL order 2 t a Hord H12 Hlen left eq_refl rsL eq_refl) as HneL.
  pose proof (split_run_rsR order 2 t a Hord H12 Hlen left eq_refl rsL rsR eq_refl eq_refl)
    as HneR.
  pose proof (split_run_sorted order 2 t Ls K Hsh a Hct j l1 l2 Hj rsL rsR eq_refl eq_refl) as Hs.
  destruct (split_prefix_run order 2 t Ls K Hsh a Hct Hord H12 j l1 l2 Hj Hlen left eq_refl
              rsL rsR eq_refl eq_refl) as (t7 & Hsf7 & Hrecs7 & Hrun).
  pose proof (ct_fam _ _ _ _ _ _ _ Hct _ _ _ Hup Hj) as Hf.
  destruct (parent_record _ _ _ _ _ _ _ Hf) as (pp & q1 & ka & q2 & Hpp & Hq & Hpar & Hka & Hq1).
  change (erecs None t pp) with (recs t pp) in Hq.
  assert (pp ≠ left) as Hpl.
  { intros E. apply Hfresh. rewrite <- E. exact (sh_live _ _ Hsh _ _ _ Hup Hpp). }
  assert (a ≠ left) as Hal.
  { intros E. apply Hfresh. rewrite <- E. exact (sh_live _ _ Hsh _ _ _ Hj Ha). }
  assert (pp ≠ a) as Hpa.
  { intros E. rewrite E in Hpp. pose proof (sh_disj _ _ Hsh _ _ _ _ _ Hj Hup Ha Hpp). lia. }
  destruct (last rsL) as [[kl cl]|] eqn:El; [|by apply last_None in El].
  assert (last_key rsL = Some kl) as Hkl by (unfold last_key; by rewrite El).
  assert (live t7 left) as Hl7l by (apply (sf_live _ _ _ _ _ _ Hsf7); by left).
  assert (live t7 pp) as Hl7p.
  { apply (sf_live _ _ _ _ _ _ Hsf7). right. exact (sh_live _ _ Hsh _ _ _ Hup Hpp). }
  assert (live t7 a) as Hl7a.
  { apply (sf_live _ _ _ _ _ _ Hsf7). right. exact (sh_live _ _ Hsh _ _ _ Hj Ha). }
  assert (recs t7 pp = q1 ++ (ka, Some a) :: q2) as Hq7.
  { by rewrite Hrecs7, !decide_False by done. }
  assert (kl < ka) as Hlt.
  { unfold alk in Hka. rewrite Hsplit, last_key_app in Hka by done.
    unfold last_key in Hka. destruct (last rsR) as [rl|] eqn:Elr; [|done].
    simpl in Hka. injection Hka as <-.
    unfold keys in Hs. rewrite fmap_app in Hs.
    eapply (StronglySorted_app_1_elem_of _ _ _ _ _ Hs).
    - apply list_elem_of_fmap. exists (kl, cl). split; [done|]. by apply last_Some_elem_of.
    - apply list_elem_of_fmap. exists rl. split; [done|]. by apply last_Some_elem_of. }
  assert (Forall (λ q, q.1 < kl) q1) as Hbefore.
  { apply Forall_forall. intros r Hr. destruct (Hq1 r Hr) as (c & Hc & Hcin & Hkc).
    apply list_elem_of_split in Hcin as (x1 & x2 & Ex).
    assert (Ls !! j = Some (x1 ++ c :: (x2 ++ a :: l2))) as Hj'.
    { rewrite Hj, Ex. by rewrite <- app_assoc. }
    unfold alk, last_key in Hkc. destruct (last (recs t c)) as [rc|] eqn:Ec; [|done].
    simpl in Hkc. injection Hkc as Hkc. rewrite <- Hkc.
    apply (level_keys_lt _ _ _ _ _ _ _ Hsh Hct j x1 c (x2 ++ a :: l2) a rc (kl, cl) Hj').
    - set_solver.
    - change (erecs None t c) with (recs t c). by apply last_Some_elem_of.
    - change (erecs None t a) with (recs t a). rewrite Hsplit.
      apply elem_of_app. left. by apply last_Some_elem_of. }
  set (t8 := wr pp (set_records (q1 ++ (kl, Some left) :: (ka, Some a) :: q2)) t7).
  set (t9 := wr a (set_parent (Some pp)) t8).
  set (t' := wr left (set_parent (Some pp)) t9).
  assert (split_from t t' a left (Some pp) (kids rsL)) as Hsf.
  { split.
    - unfold t', t9, t8. autorewrite with st. apply (sf_root _ _ _ _ _ _ Hsf7).
    - unfold t', t9, t8. autorewrite with st. apply (sf_size _ _ _ _ _ _ Hsf7).
    - intros x. unfold t', t9, t8. rewrite !live_wr by auto 10 with live.
      apply (sf_live _ _ _ _ _ _ Hsf7).
    - intros x. unfold t', t9, t8. autorewrite with st. apply (sf_nxt _ _ _ _ _ _ Hsf7).
    - intros x. unfold t', t9, t8. autorewrite with st. apply (sf_prv _ _ _ _ _ _ Hsf7).
    - intros x. unfold t', t9, t8. autorewrite with st. apply (sf_leaf _ _ _ _ _ _ Hsf7).
    - intros x. unfold t', t9, t8. autorewrite with st. rewrite (sf_par _ _ _ _ _ _ Hsf7).
      destruct (decide (x = left)) as [->|Hxl]; [by rewrite decide_True|].
      rewrite (decide_False (P := left = x)) by done.
      destruct (decide (a = x)) as [<-|Hxa]; [|done].
      rewrite decide_False; [done|].
      apply (split_run_not_kid order 2 t Ls K Hsh a Hct Hord H12 j l1 l2 Hj Hlen left eq_refl
               rsL rsR eq_refl eq_refl a j _ Hj Ha). lia. }
  assert (∀ x, recs t' x =
    if decide (x = left) then rsL
    else if decide (x = a) then rsR
    else if decide (x = pp) then q1 ++ (kl, Some left) :: (ka, Some a) :: q2
    else recs t x) as Hrecs.
  { intros x. unfold t', t9, t8. autorewrite with st. rewrite Hrecs7.
    destruct (decide (x = left)) as [->|Hxl]; [by rewrite decide_False by done|].
    destruct (decide (x = a)) as [->|Hxa]; [by rewrite decide_False by done|].
    destruct (decide (pp = x)) as [<-|Hxp]; [by rewrite decide_True|].
    by rewrite decide_False by done. }
  exists t', pp, left. split; [|split; [done|split; [|split; [|split; [|split; [|split]]]]]].
  - rewrite Hrun, Hpar. simpl.
    rewrite (bind_run (ret (Some pp)) _ t7 (Some pp) t7 eq_refl).
    rewrite (bind_run _ _ _ _ _ (last_record_run t7 left (kl, cl) Hl7l
               ltac:(by rewrite Hrecs7, decide_True))).
    rewrite (bind_run _ _ _ _ _ (insert_record_run t7 pp _ Hl7p)).
    rewrite Hq7, set_insert_split by done. simpl. fold t8.
    rewrite (bind_run _ _ _ _ _ (modify_live t8 a _ ltac:(unfold t8; auto with live))).
    fold t9.
    rewrite (bind_run _ _ _ _ _ (modify_live t9 left _ ltac:(unfold t9, t8; auto with live))).
    done.
  - apply (split_shape order 2 t t' Ls K Hsh a Hct Hord H12 j l1 l2 Hj up Hup pp Hpp left
             Hfresh rsL rsR Hsplit HlenL Hlen q1 q2 ka Hq kl Hkl Hsf Hrecs). by left.
  - apply (split_content order 2 t t' Ls K Hsh a Hct Hord H12 j l1 l2 Hj up Hup pp Hpp left
             Hfresh rsL rsR Hsplit HlenL Hlen q1 q2 ka Hq kl Hkl Hsf Hrecs). by left.
  - apply (sf_live _ _ _ _ _ _ Hsf). by left.
  - by rewrite Hrecs, decide_True.
  - by rewrite Hrecs, decide_False, decide_True.
  - intros i L x HL Hx Hlt'. rewrite Hrecs. rewrite !decide_False; [done| | |].
    + intros E. rewrite E in Hx. pose proof (sh_disj _ _ Hsh _ _ _ _ _ HL Hup Hx Hpp). lia.
    + intros E. rewrite E in Hx. pose proof (sh_disj _ _ Hsh _ _ _ _ _ HL Hj Hx Ha). lia.
    + intros E. apply Hfresh. rewrite <- E. exact (sh_live _ _ Hsh _ _ _ HL Hx).
Qed.

End SplitInner.

Section SplitRoot.

Context (order : nat) (t : tree) (Ls : list (list nat)) (K : list Z).
Context (Hsh : shape t Ls) (a : nat) (Hct : content order None (Some a) 2 t Ls K).
Context (Hord : (2 ≤ order)%nat).
Context (Hroot : m_root t = Some a).
Context (Hlen : length (recs t a) = S order).

(** [split] of the root: the tree gets a new root with two records. *)
Lemma split_root_run :
  ∃ t' p left Ls',
    split order (Some a) t = Some ((Some p, Some left), t') ∧
    shape t' Ls' ∧ content order None None 2 t' Ls' K ∧
    length Ls' = S (length Ls) ∧ m_root t' = Some p ∧ length (recs t' p) = 2%nat ∧
    live t' left ∧
    recs t' left = take (half_order order) (recs t a) ∧
    recs t' a = drop (half_order order) (recs t a) ∧
    (∀ i L x, Ls !! i = Some L → x ∈ L → Ls' !! i = Some L ∨ x = a) ∧
    (∀ i L x, Ls !! i = Some L → x ∈ L → x ≠ a → recs t' x = recs t x) ∧
    Ls' = <[Nat.pred (length Ls) := [left; a]]> (Ls ++ [[p]]).
Proof.
  set (left := fresh (dom (heap t))).
  set (rsL := take (half_order order) (recs t a)).
  set (rsR := drop (half_order order) (recs t a)).
  assert (1 ≤ 2)%nat as H12 by lia.
  destruct (grow_top order (Some a) t Ls K Hsh Hct a Hroot) as (n & HlenLs & Hn).
  assert (Ls !! n = Some ([] ++ a :: [])) as Hj by done.
  assert (a ∈ [a]) as Ha by set_solver.
  pose proof (split_run_fresh t left eq_refl) as Hfresh.
  pose proof (split_run_recs order t a rsL rsR eq_refl eq_refl) as Hsplit.
  pose proof (split_run_length order 2 t a Hord H12 Hlen left eq_refl rsL eq_refl) as HlenL.
  pose proof (split_run_rsL order 2 t a Hord H12 Hlen left eq_refl rsL eq_refl) as HneL.
  pose proof (split_run_rsR order 2 t a Hord H12 Hlen left eq_refl rsL rsR eq_refl eq_refl)
    as HneR.
  pose proof (split_run_sorted order 2 t Ls K Hsh a Hct n [] [] Hj rsL rsR eq_refl eq_refl) as Hs.
  destruct (split_prefix_run order 2 t Ls K Hsh a Hct Hord H12 n [] [] Hj Hlen left eq_refl
              rsL rsR eq_refl eq_refl) as (t7 & Hsf7 & Hrecs7 & Hrun).
  pose proof (sh_root_par _ _ Hsh a Hroot) as Hpar.
  pose proof (sh_live _ _ Hsh _ _ _ Hn Ha) as Hla.
  assert (a ≠ left) as Hal by (intros E; apply Hfresh; by rewrite <- E).
  destruct (make_node_run t7) as [Hmk Hfresh7].
  set (p := fresh (dom (heap t7))) in *.
  assert (¬ live t p ∧ p ≠ left) as [Hfp Hpl].
  { split.
    - intros Hl. apply Hfresh7. apply (sf_live _ _ _ _ _ _ Hsf7). by right.
    - intros E. apply Hfresh7. apply (sf_live _ _ _ _ _ _ Hsf7). by left. }
  assert (a ≠ p) as Hap by (intros E; apply Hfp; by rewrite <- E).
  destruct (last rsL) as [[kl cl]|] eqn:El; [|by apply last_None in El].
  destruct (last rsR) as [[ka ca]|] eqn:Er; [|by apply last_None in Er].
  assert (last_key rsL = Some kl) as Hkl by (unfold last_key; by rewrite El).
  assert (alk t a = Some ka) as Hka.
  { unfold alk. rewrite Hsplit, last_key_app by done. unfold last_key. by rewrite Er. }
  assert (kl < ka) as Hlt.
  { unfold keys in Hs. rewrite fmap_app in Hs.
    eapply (StronglySorted_app_1_elem_of _ _ _ _ _ Hs).
    - apply list_elem_of_fmap. exists (kl, cl). split; [done|]. by apply last_Some_elem_of.
    - apply list_elem_of_fmap. exists (ka, ca). split; [done|]. by apply last_Some_elem_of. }
  set (t8 := alloc p t7).
  set (t9 := wr p (set_is_leaf false) t8).
  set (t10 := with_root (Some p) t9).
  set (t11 := wr p (set_records [(ka, Some a)]) t10).
  set (t12 := wr p (set_records [(kl, Some left); (ka, Some a)]) t11).
  set (t13 := wr a (set_parent (Some p)) t12).
  set (t' := wr left (set_parent (Some p)) t13).
  assert (live t7 a) as Hl7a by (apply (sf_live _ _ _ _ _ _ Hsf7); by right).
  assert (live t7 left) as Hl7l by (apply (sf_live _ _ _ _ _ _ Hsf7); by left).
  assert (∀ x, live t' x ↔ x = p ∨ live t7 x) as Hlive'.
  { intros x. unfold t', t13, t12, t11, t10, t9. rewrite !live_wr.
    - rewrite live_with_root. rewrite live_wr by (unfold t8; auto with live).
      unfold t8. rewrite live_alloc. split; intros [?|?]; auto.
    - unfold t8. auto with live.
    - unfold t8. auto with live.
    - unfold t8. auto 10 with live.
    - unfold t8. auto 10 with live. }
  set (u := wr a (set_parent (Some p)) (wr p (set_records [(ka, Some a)])
              (with_root (Some p) (wr p (set_is_leaf false) (alloc p t))))).
  assert (m_root u = Some p) as Hu_root by done.
  assert (m_size u = m_size t) as Hu_size by done.
  assert (∀ x, live u x ↔ x = p ∨ live t x) as Hu_live.
  { intros x. unfold u. rewrite !live_wr.
    - rewrite live_with_root. rewrite live_wr by auto with live.
      rewrite live_alloc. split; intros [?|?]; auto.
    - auto with live.
    - auto with live. }
  assert (∀ x, recs u x = if decide (x = p) then [(ka, Some a)] else recs t x) as Hu_recs.
  { intros x. unfold u. autorewrite with st.
    destruct (decide (x = p)) as [->|Hx]; [by rewrite decide_True|].
    by rewrite !decide_False by done. }
  assert (∀ x, nxt u x = if decide (x = p) then None else nxt t x) as Hu_nxt.
  { intros x. unfold u. autorewrite with st.
    destruct (decide (x = p)) as [->|Hx]; [by rewrite decide_True|].
    by rewrite !decide_False by done. }
  assert (∀ x, prv u x = if decide (x = p) then None else prv t x) as Hu_prv.
  { intros x. unfold u. autorewrite with st.
    destruct (decide (x = p)) as [->|Hx]; [by rewrite decide_True|].
    by rewrite !decide_False by done. }
  assert (∀ x, leaf u x = if decide (x = p) then false else leaf t x) as Hu_leaf.
  { intros x. unfold u. autorewrite with st.
    destruct (decide (x = p)) as [->|Hx]; [by rewrite decide_True|].
    by rewrite !decide_False by done. }
  assert (∀ x, par u x = if decide (x = p) then None
                         else if decide (x = a) then Some p else par t x) as Hu_par.
  { intros x. unfold u. autorewrite with st.
    destruct (decide (x = p)) as [->|Hx].
    - rewrite decide_False by done. by rewrite decide_True.
    - destruct (decide (a = x)) as [<-|Hxa]; [by rewrite decide_True|].
      by rewrite !decide_False by done. }
  assert (half_order order ≤ length (recs t a))%nat as Hhalf.
  { pose proof (half_order_le order). lia. }
  pose proof (grow_shape order (Some a) t Ls K Hsh Hct Hord a Hroot Hhalf p Hfp u
                Hu_root Hu_size Hu_live Hu_nxt Hu_prv Hu_leaf Hu_par) as Hshu.
  pose proof (grow_content order (Some a) t Ls K Hsh Hct Hord a Hroot ka Hka Hhalf p Hfp u
                Hu_root Hu_size Hu_live Hu_recs Hu_nxt Hu_prv Hu_leaf Hu_par) as Hctu.
  assert ((Ls ++ [[p]]) !! n = Some ([] ++ a :: [])) as Hju.
  { rewrite lookup_app_l by lia. done. }
  assert ((Ls ++ [[p]]) !! S n = Some [p]) as Hupu.
  { rewrite lookup_app_r by lia. by replace (S n - length Ls)%nat with 0%nat by lia. }
  assert (¬ live u left) as Hfu.
  { intros [E|Hl]%Hu_live; [by apply Hpl|by apply Hfresh]. }
  assert (recs u a = rsL ++ rsR) as Hsplitu by (by rewrite Hu_recs, decide_False).
  assert (length (recs u a) = S order) as Hlenu by (by rewrite Hu_recs, decide_False).
  assert (recs u p = [] ++ (ka, Some a) :: []) as Hqu by (by rewrite Hu_recs, decide_True).
  assert (Some a ∉ kids rsL) as Hak.
  { apply (split_run_not_kid order 2 t Ls K Hsh a Hct Hord H12 n [] [] Hj Hlen left eq_refl
             rsL rsR eq_refl eq_refl a n _ Hn Ha). lia. }
  assert (∀ x, Some x ∈ kids rsL → x ≠ p) as Hkp.
  { intros x (r & Hr2 & Hr)%list_elem_of_fmap E.
    destruct (split_run_kid order 2 t Ls K a Hct n [] [] Hj rsL rsR eq_refl eq_refl
                r x Hr (eq_sym Hr2)) as (j' & lo & _ & Hlo & Hx' & _).
    apply Hfp. rewrite <- E. exact (sh_live _ _ Hsh _ _ _ Hlo Hx'). }
  assert (prv t a ≠ Some p) as Hpp.
  { intros E. destruct (split_run_prev t Ls Hsh a n [] [] Hj left eq_refl p E) as (Hl & _).
    by apply Hfp. }
  assert (split_from u t' a left (Some p) (kids rsL)) as Hsf.
  { split.
    - done.
    - transitivity (m_size t7); [done|]. by rewrite (sf_size _ _ _ _ _ _ Hsf7).
    - intros x. rewrite Hlive', (sf_live _ _ _ _ _ _ Hsf7), Hu_live. tauto.
    - intros x. unfold t', t13, t12, t11, t10, t9, t8. autorewrite with st.
      rewrite (sf_nxt _ _ _ _ _ _ Hsf7), Hu_prv, Hu_nxt.
      rewrite (decide_False (P := a = p)) by done.
      destruct (decide (p = x)) as [<-|Hxp].
      + rewrite decide_False by done. rewrite decide_False by done. by rewrite decide_True.
      + rewrite (decide_False (P := x = p)) by done. done.
    - intros x. unfold t', t13, t12, t11, t10, t9, t8. autorewrite with st.
      rewrite (sf_prv _ _ _ _ _ _ Hsf7), Hu_prv, Hu_prv.
      rewrite (decide_False (P := a = p)) by done.
      destruct (decide (p = x)) as [<-|Hxp].
      + rewrite decide_False by done. rewrite decide_False by done. by rewrite decide_True.
      + rewrite (decide_False (P := x = p)) by done. done.
    - intros x. unfold t', t13, t12, t11, t10, t9, t8. autorewrite with st.
      rewrite (sf_leaf _ _ _ _ _ _ Hsf7), Hu_leaf, Hu_leaf.
      rewrite (decide_False (P := a = p)) by done.
      destruct (decide (p = x)) as [<-|Hxp].
      + rewrite decide_False by done. by rewrite decide_True.
      + rewrite (decide_False (P := x = p)) by done. done.
    - intros x. unfold t', t13, t12, t11, t10, t9, t8. autorewrite with st.
      rewrite (sf_par _ _ _ _ _ _ Hsf7), Hu_par.
      destruct (decide (x = left)) as [->|Hxl]; [by rewrite decide_True|].
      rewrite (decide_False (P := left = x)) by done.
      destruct (decide (a = x)) as [<-|Hxa].
      + rewrite decide_False by done. rewrite decide_False by done. by rewrite decide_True.
      + destruct (decide (p = x)) as [<-|Hxp].
        * rewrite decide_False; [by rewrite decide_True|].
          intros Hin. by apply (Hkp p Hin).
        * rewrite (decide_False (P := x = p)) by done.
          by rewrite (decide_False (P := x = a)) by done. }
  assert (∀ x, recs t' x =
    if decide (x = left) then rsL
    else if decide (x = a) then rsR
    else if decide (x = p) then [] ++ (kl, Some left) :: (ka, Some a) :: []
    else recs u x) as Hrecs.
  { intros x. unfold t', t13, t12, t11, t10, t9, t8. autorewrite with st.
    rewrite Hrecs7, Hu_recs.
    destruct (decide (x = left)) as [->|Hxl]; [by rewrite !decide_False by done|].
    destruct (decide (x = a)) as [->|Hxa]; [by rewrite !decide_False by done|].
    destruct (decide (p = x)) as [<-|Hxp]; [by rewrite decide_True|].
    by rewrite !decide_False by done. }
  assert (p ∈ [p]) as Hpin by set_solver.
  pose proof (split_shape order 1 u t' (Ls ++ [[p]]) K Hshu a Hctu Hord ltac:(lia) n [] [] Hju
                [p] Hupu p Hpin left Hfu rsL rsR Hsplitu HlenL Hlenu [] [] ka Hqu kl Hkl Hsf
                Hrecs (or_intror Hu_root)) as Hsh'.
  pose proof (split_content order 1 u t' (Ls ++ [[p]]) K Hshu a Hctu Hord ltac:(lia) n [] [] Hju
                [p] Hupu p Hpin left Hfu rsL rsR Hsplitu HlenL Hlenu [] [] ka Hqu kl Hkl Hsf
                Hrecs (or_intror Hu_root)) as Hct'.
  assert (recs t' p = [(kl, Some left); (ka, Some a)]) as Hrp.
  { rewrite Hrecs. by rewrite decide_False, decide_False, decide_True by done. }
  exists t', p, left, (<[n := [] ++ left :: a :: []]> (Ls ++ [[p]])).
  split; [|split; [done|split; [|split; [|split; [done|split; [|split; [|split; [|split; [|split; [|split]]]]]]]]]].
  - rewrite Hrun, Hpar. simpl.
    rewrite bind_assoc, (bind_run _ _ _ _ _ Hmk). fold t8.
    rewrite bind_assoc,
      (bind_run _ _ _ _ _ (modify_live t8 p _ ltac:(unfold t8; auto with live))).
    fold t9. rewrite bind_assoc, (bind_run (put_root _) _ t9 tt t10 eq_refl).
    assert (live t10 a) as Hl10a by (unfold t10, t9, t8; auto 10 with live).
    assert (last (recs t10 a) = Some (ka, ca)) as Hlast10.
    { unfold t10, t9, t8. autorewrite with st. rewrite decide_False by done.
      rewrite Hrecs7, decide_False, decide_True by done. done. }
    rewrite bind_assoc, (bind_run _ _ _ _ _ (last_record_run t10 a _ Hl10a Hlast10)).
    assert (live t10 p) as Hl10p by (unfold t10, t9, t8; auto 10 with live).
    rewrite bind_assoc, (bind_run _ _ _ _ _ (insert_record_run t10 p _ Hl10p)).
    assert (recs t10 p = []) as Hr10.
    { unfold t10, t9, t8. autorewrite with st. by rewrite decide_True. }
    rewrite Hr10. simpl. fold t11.
    rewrite (bind_run (ret (Some p)) _ t11 (Some p) t11 eq_refl).
    assert (live t11 left) as Hl11l by (unfold t11, t10, t9, t8; auto 10 with live).
    assert (last (recs t11 left) = Some (kl, cl)) as Hlast11.
    { unfold t11, t10, t9, t8. autorewrite with st. rewrite !decide_False by done.
      rewrite Hrecs7, decide_True by done. done. }
    rewrite (bind_run _ _ _ _ _ (last_record_run t11 left _ Hl11l Hlast11)).
    assert (live t11 p) as Hl11p by (unfold t11; auto with live).
    rewrite (bind_run _ _ _ _ _ (insert_record_run t11 p _ Hl11p)).
    assert (recs t11 p = [(ka, Some a)]) as Hr11.
    { unfold t11. autorewrite with st. by rewrite decide_True. }
    rewrite Hr11. simpl fst.
    rewrite (set_insert_front (kl, Some left) [(ka, Some a)]) by done. simpl. fold t12.
    rewrite (bind_run _ _ _ _ _ (modify_live t12 a _
               ltac:(unfold t12, t11; auto 10 with live))). fold t13.
    rewrite (bind_run _ _ _ _ _ (modify_live t13 left _
               ltac:(unfold t13, t12; auto 10 with live))). done.
  - apply (content_over_done _ _ _ _ _ p Hct'). rewrite Hrp. simpl. lia.
  - rewrite length_insert, length_app. simpl. lia.
  - by rewrite Hrp.
  - apply Hlive'. by right.
  - by rewrite Hrecs, decide_True.
  - by rewrite Hrecs, decide_False, decide_True.
  - intros i L x HL Hx. destruct (decide (i = n)) as [->|Hne].
    + right. rewrite Hn in HL. injection HL as <-. by apply list_elem_of_singleton in Hx.
    + left. rewrite list_lookup_insert_ne by done.
      rewrite lookup_app_l by (by eapply lookup_lt_Some). done.
  - intros i L x HL Hx Hxa. pose proof (sh_live _ _ Hsh _ _ _ HL Hx) as Hlx.
    assert (x ≠ p) as Hxp by (intros E; apply Hfp; by rewrite <- E).
    assert (x ≠ left) as Hxl by (intros E; apply Hfresh; by rewrite <- E).
    rewrite Hrecs, Hu_recs. by rewrite !decide_False by done.
  - by rewrite HlenLs.
Qed.

End SplitRoot.

(** *** The loop that splits the ancestors *)

Section SplitUp.

Context (order : nat) (K : list Z) (Hord : (2 ≤ order)%nat).

Lemma split_up_spec d : ∀ fuel t Ls j a l1 l2,
  shape t Ls → content order None (Some a) 2 t Ls K →
  Ls !! j = Some (l1 ++ a :: l2) → (length Ls ≤ j + d)%nat → (d ≤ fuel)%nat →
  ∃ t' Ls', split_up order fuel (Some a) t = Some (tt, t') ∧ WF order t' Ls' K ∧
    (∀ i L x, Ls !! i = Some L → x ∈ L → (i < j)%nat →
       Ls' !! i = Some L ∧ recs t' x = recs t x).
Proof.
  induction d as [|d IH]; intros fuel t Ls j a l1 l2 Hsh Hct Hj Hlen Hfuel.
  { apply lookup_lt_Some in Hj. lia. }
  destruct fuel as [|fuel]; [lia|].
  assert (a ∈ l1 ++ a :: l2) as Ha by set_solver.
  pose proof (sh_live _ _ Hsh _ _ _ Hj Ha) as Hla.
  cbn [split_up]. rewrite (bind_run _ _ _ _ _ (records_size_run t a Hla)).
  destruct (decide (order < length (recs t a))%nat) as [Hover|Hfit].
  - rewrite bool_decide_eq_true_2 by done.
    assert (length (recs t a) = S order) as Hl.
    { destruct (ct_fill _ _ _ _ _ _ _ Hct j _ a Hj Ha) as [Hle _].
      rewrite decide_True in Hle by done. lia. }
    destruct (decide (m_root t = Some a)) as [Hroot|Hnr].
    + destruct (split_root_run order t Ls K Hsh a Hct Hord Hroot Hl)
        as (t' & p & left & Ls' & Hrun & Hsh' & Hct' & _ & Hr' & Hlp & _ & _ & _ & Hlv & Hrs & _).
      exists t', Ls'. split; [|split; [done|]].
      * rewrite (bind_run _ _ _ _ _ Hrun). simpl.
        assert (live t' p) as Hlp'.
        { pose proof (sh_root _ _ Hsh') as Hrt. rewrite Hr' in Hrt.
          destruct (last Ls') as [Lt|] eqn:El; [|done]. simpl in Hrt.
          rewrite last_lookup in El. eapply (sh_live _ _ Hsh' _ _ _ El).
          destruct Lt; [done|]. simpl in Hrt. injection Hrt as ->. set_solver. }
        destruct fuel; simpl; rewrite (bind_run _ _ _ _ _ (records_size_run t' p Hlp'));
          rewrite Hlp; by rewrite bool_decide_eq_false_2 by lia.
      * intros i L x HL Hx Hlt.
        assert (x ≠ a) as Hxa.
        { intros E. rewrite E in Hx. pose proof (sh_disj _ _ Hsh _ _ _ _ _ HL Hj Hx Ha). lia. }
        split; [|by eapply Hrs].
        by destruct (Hlv i L x HL Hx).
    + assert (S j < length Ls)%nat as Hnt.
      { destruct (decide (S j = length Ls)) as [E|]; [|apply lookup_lt_Some in Hj; lia].
        destruct (top_level _ _ Hsh _ _ Hj (eq_sym E)) as (r & Hr' & Hr & _).
        destruct l1; [|by destruct l1]. simpl in Hr'. injection Hr' as -> _. done. }
      destruct (lookup_lt_is_Some_2 _ _ Hnt) as [up Hup].
      destruct (split_run order t Ls K Hsh a Hct Hord j l1 l2 Hj Hl up Hup)
        as (t' & pp & left & Hrun & Hpp & Hsh' & Hct' & _ & _ & _ & Hrs).
      apply list_elem_of_split in Hpp as (u1 & u2 & Eu).
      destruct (IH fuel t' (<[j := l1 ++ left :: a :: l2]> Ls) (S j) pp u1 u2 Hsh' Hct')
        as (t'' & Ls'' & Hrun' & Hwf & Hkeep).
      { rewrite list_lookup_insert_ne by lia. by rewrite Hup, Eu. }
      { rewrite length_insert. lia. }
      { lia. }
      exists t'', Ls''. split; [|split; [done|]].
      * rewrite (bind_run _ _ _ _ _ Hrun). exact Hrun'.
      * intros i L x HL Hx Hlt.
        destruct (Hkeep i L x) as [HL'' Hr'']; [|done|lia|].
        { by rewrite list_lookup_insert_ne by lia. }
        split; [done|]. rewrite Hr''. by eapply Hrs.
  - rewrite bool_decide_eq_false_2 by done.
    exists t, Ls. split; [done|]. split; [|done].
    split; [done|]. apply (content_over_done _ _ _ _ _ a Hct). lia.
Qed.

End SplitUp.

(** *** [insert] on a well-formed tree *)

Lemma find_idx_in k c (l : list (Z * option nat)) :
  StronglySorted Z.lt (keys l) → (k, c) ∈ l →
  ∃ i, find_idx k l = i ∧ l !! i = Some (k, c).
Proof.
  intros Hs (l1 & l2 & ->)%list_elem_of_split.
  exists (length l1). split; [|by apply list_lookup_middle].
  apply find_idx_found. apply Forall_forall. intros q Hq.
  unfold keys in Hs. rewrite fmap_app in Hs. csimpl in Hs.
  apply (StronglySorted_app_1_elem_of _ _ _ _ _ Hs).
  - apply list_elem_of_fmap. by exists q.
  - set_solver.
Qed.

Section InsertTail.

Context (order : nat) (t : tree) (Ls : list (list nat)) (K : list Z).
Context (Hsh : shape t Ls) (P : nat) (Hct : content order None (Some P) 2 t Ls K).
Context (Hord : (2 ≤ order)%nat).
Context (l1 l2 : list nat) (HL0 : Ls !! 0%nat = Some (l1 ++ P :: l2)).
Context (Hlen : length (recs t P) = S order).
Context (k : Z) (Hk : (k, None) ∈ recs t P).

Lemma insert_tail_split :
  ∃ t3 pp left Ls3 u1 u2 L03,
    split order (Some P) t = Some ((Some pp, Some left), t3) ∧
    shape t3 Ls3 ∧ content order None (Some pp) 2 t3 Ls3 K ∧
    Ls3 !! 1%nat = Some (u1 ++ pp :: u2) ∧ (length Ls3 ≤ S (length Ls))%nat ∧
    Ls3 !! 0%nat = Some L03 ∧ left ∈ L03 ∧ P ∈ L03 ∧
    recs t3 left = take (half_order order) (recs t P) ∧
    recs t3 P = drop (half_order order) (recs t P).
Proof.
  assert (P ∈ l1 ++ P :: l2) as HP by set_solver.
  destruct (decide (m_root t = Some P)) as [Hroot|Hnr].
  - destruct (root_level _ _ _ _ _ Hsh HL0 HP Hroot) as [EL Hl1].
    destruct (split_root_run order t Ls K Hsh P Hct Hord Hroot Hlen)
      as (t3 & p & left & Ls3 & Hrun & Hsh3 & Hct3 & Hlen3 & Hr3 & Hlp & Hll & HrL & HrR & _ & _ & ELs).
    rewrite Hl1 in ELs. simpl in ELs.
    destruct Ls as [|L0 [|? ?]]; try done. simpl in ELs.
    exists t3, p, left, Ls3, [], [], [left; P].
    split; [done|]. split; [done|]. split; [by apply content_over_any|].
    rewrite ELs. simpl. repeat split; try done; try lia; set_solver.
  - assert (1 < length Ls)%nat as Hnt.
    { destruct (decide (1 = length Ls)%nat) as [E|]; [|apply lookup_lt_Some in HL0; lia].
      destruct (top_level _ _ Hsh _ _ HL0 (eq_sym E)) as (r & Hr' & Hr & _).
      exfalso. pose proof HP as HP'. rewrite Hr' in HP'.
      apply list_elem_of_singleton in HP'. congruence. }
    destruct (lookup_lt_is_Some_2 _ _ Hnt) as [up Hup].
    destruct (split_run order t Ls K Hsh P Hct Hord 0 l1 l2 HL0 Hlen up Hup)
      as (t3 & pp & left & Hrun & Hpp & Hsh3 & Hct3 & Hll & HrL & HrR & _).
    apply list_elem_of_split in Hpp as (u1 & u2 & Eu).
    exists t3, pp, left, (<[0%nat := l1 ++ left :: P :: l2]> Ls), u1, u2, (l1 ++ left :: P :: l2).
    split; [done|]. split; [done|]. split; [done|].
    rewrite list_lookup_insert_ne by lia. rewrite list_lookup_insert_eq by lia.
    rewrite length_insert, Hup, Eu. repeat split; try done; try lia; set_solver.
Qed.

Lemma insert_tail :
  ∃ Q i t' Ls' L0',
    (up <- loop_bound ;;
     pl <- split order (Some P) ;;
     f <- first_record (Some P) ;;
     let insert_node := if keycomp k f.1 then pl.2 else Some P in
     m <- load insert_node ;;
     let find_result := find_idx k (records m) in
     split_up order up pl.1 ;;;
     ret (make_iterator_uncheck insert_node find_result, true)) t
      = Some ((mkIt true (Some Q) i, true), t') ∧
    WF order t' Ls' K ∧ Ls' !! 0%nat = Some L0' ∧ Q ∈ L0' ∧
    recs t' Q !! i = Some (k, None).
Proof.
  assert (P ∈ l1 ++ P :: l2) as HP by set_solver.
  pose proof (node_sorted _ _ _ _ _ _ _ Hsh Hct 0 _ P HL0 HP) as Hs.
  change (erecs None t P) with (recs t P) in Hs.
  destruct insert_tail_split
    as (t3 & pp & left & Ls3 & u1 & u2 & L03 & Hrun & Hsh3 & Hct3 & H1 & Hlen3 & H0 & Hl3 & HP3 &
        HrL & HrR).
  set (rsL := take (half_order order) (recs t P)) in *.
  set (rsR := drop (half_order order) (recs t P)) in *.
  assert (recs t P = rsL ++ rsR) as Hsplit by (unfold rsL, rsR; by rewrite take_drop).
  assert (rsR ≠ []) as HneR.
  { unfold rsR. intros E. apply (f_equal length) in E. rewrite length_drop, Hlen in E.
    simpl in E. pose proof (half_order_le order). lia. }
  pose proof (levels_bound _ _ Hsh) as Hb.
  destruct (split_up_spec order K Hord (length Ls) (S (base.size (heap t))) t3 Ls3 1 pp u1 u2
              Hsh3 Hct3 H1 ltac:(lia) ltac:(lia)) as (t4 & Ls4 & Hrun4 & Hwf4 & Hkeep).
  pose proof (sh_live _ _ Hsh3 _ _ _ H0 Hl3) as Hll3.
  pose proof (sh_live _ _ Hsh3 _ _ _ H0 HP3) as HlP3.
  destruct (lookup_lt_is_Some_2 rsR 0) as [f Hf].
  { destruct rsR; simpl; [done|lia]. }
  rewrite Hsplit in Hs, Hk. unfold keys in Hs. rewrite fmap_app in Hs.
  assert (f ∈ rsR) as Hfin by (by eapply list_elem_of_lookup_2).
  assert (∀ q, q ∈ rsR → f.1 ≤ q.1) as Hmin.
  { intros q Hq. apply StronglySorted_app_1_r in Hs.
    destruct rsR as [|f' rsR']; [done|]. simpl in Hf. injection Hf as ->.
    apply elem_of_cons in Hq as [->|Hq]; [lia|].
    csimpl in Hs. apply StronglySorted_cons in Hs as [Hall _].
    rewrite Forall_forall in Hall. assert (f.1 < q.1); [|lia].
    apply Hall. apply list_elem_of_fmap. by exists q. }
  assert (∃ Q i, (if keycomp k f.1 then Some left else Some P) = Some Q ∧ Q ∈ L03 ∧
                 live t3 Q ∧ find_idx k (recs t3 Q) = i ∧ recs t3 Q !! i = Some (k, None))
    as (Q & i & EQ & HQ & HlQ & Hfi & Hri).
  { destruct (keycomp_spec k f.1) as [Hlt|Hge].
    - assert ((k, None) ∈ rsL) as HkL.
      { apply elem_of_app in Hk as [?|HkR]; [done|]. specialize (Hmin _ HkR). simpl in Hmin. lia. }
      destruct (find_idx_in k None rsL) as (i & Hi & Hi'); [|done|].
      { by apply StronglySorted_app_1_l in Hs. }
      exists left, i. rewrite HrL. done.
    - assert ((k, None) ∈ rsR) as HkR.
      { apply elem_of_app in Hk as [HkL|?]; [|done].
        assert (k < f.1); [|lia].
        apply (StronglySorted_app_1_elem_of _ _ _ _ _ Hs).
        - apply list_elem_of_fmap. by exists (k, None).
        - apply list_elem_of_fmap. by exists f. }
      destruct (find_idx_in k None rsR) as (i & Hi & Hi'); [|done|].
      { by apply StronglySorted_app_1_r in Hs. }
      exists P, i. rewrite HrR. done. }
  destruct (Hkeep 0%nat L03 Q H0 HQ ltac:(lia)) as [H04 Hr4].
  exists Q, i, t4, Ls4, L03.
  split; [|split; [done|split; [done|split; [done|by rewrite Hr4]]]].
  unfold loop_bound. rewrite (bind_run _ _ t (S (base.size (heap t))) t eq_refl).
  rewrite (bind_run _ _ _ _ _ Hrun).
  unfold first_record.
  rewrite (bind_run _ _ _ _ _ (record_at_run t3 P 0 f HlP3 ltac:(by rewrite HrR))).
  simpl. rewrite EQ.
  rewrite (bind_run _ _ _ _ _ (load_live t3 Q HlQ)).
  change (records (nd t3 Q)) with (recs t3 Q). rewrite Hfi.
  by rewrite (bind_run _ _ _ _ _ Hrun4).
Qed.

End InsertTail.

Lemma leaf_insert_finish order t Ls K k s l1 l2 P rs1 rs2 kk fuel :
  shape t Ls → content order None None 2 t Ls K → (2 ≤ order)%nat →
  keys_only t s → (∀ x, ¬ upper Ls 0 x → recs s x = recs t x) →
  Ls !! 0%nat = Some (l1 ++ P :: l2) → recs t P = rs1 ++ rs2 →
  Forall (λ x, x < k) (level_keys None t l1 ++ keys rs1) →
  Forall (λ x, k < x) (keys rs2 ++ level_keys None t l2) →
  last_key (rs1 ++ (k, None) :: rs2) = Some kk →
  above s Ls 0 (upd (alk s) P kk) →
  ∃ Q i t' Ls' L0',
    insert_loop order (S fuel) k (Some P) s = Some ((mkIt true (Some Q) i, true), t') ∧
    WF order t' Ls' ((level_keys None t l1 ++ keys rs1) ++ k :: keys rs2 ++ level_keys None t l2) ∧
    K = (level_keys None t l1 ++ keys rs1) ++ keys rs2 ++ level_keys None t l2 ∧
    Ls' !! 0%nat = Some L0' ∧ Q ∈ L0' ∧ recs t' Q !! i = Some (k, None).
Proof.
  intros Hsh Hct Hord Hko Hfr HL0 Hrs H1 H2 Hkk Hab.
  pose proof (leaf_insert_shape order t Ls K Hsh Hct Hord k s Hko Hfr l1 l2 P HL0 rs1 rs2 Hrs
                H1 H2 kk Hkk Hab) as Hsh2.
  pose proof (leaf_insert_content order t Ls K Hsh Hct Hord k s Hko Hfr l1 l2 P HL0 rs1 rs2 Hrs
                H1 H2 kk Hkk Hab) as Hct2.
  pose proof (leaf_insert_split order t Ls K Hct l1 l2 P HL0 rs1 rs2 Hrs) as HK.
  set (s2 := with_size (S (m_size s)) (wr P (set_records (rs1 ++ (k, None) :: rs2)) s)) in *.
  assert (recs s2 P = rs1 ++ (k, None) :: rs2) as Hr2.
  { unfold s2. autorewrite with st. by rewrite decide_True. }
  assert (P ∈ l1 ++ P :: l2) as HP by set_solver.
  destruct (decide (length (rs1 ++ rs2) < order)%nat) as [Hfit|Hover].
  - exists P, (length rs1), s2, Ls, (l1 ++ P :: l2).
    split; [|split; [|split; [done|split; [done|split; [done|]]]]].
    + exact (leaf_insert_fits order t Ls K Hsh Hct Hord k s Hko Hfr l1 l2 P HL0 rs1 rs2 Hrs
               H1 H2 kk Hkk Hab fuel Hfit).
    + split; [done|]. apply (content_over_done _ _ _ _ _ P Hct2).
      rewrite Hr2. rewrite !length_app in *. simpl. lia.
    + rewrite Hr2. by apply list_lookup_middle.
  - assert (length (rs1 ++ rs2) = order) as Hl.
    { destruct (ct_fill _ _ _ _ _ _ _ Hct 0%nat _ P HL0 HP) as [Hle _].
      rewrite decide_False in Hle by done. rewrite Hrs in Hle. lia. }
    destruct (insert_tail order s2 Ls _ Hsh2 P Hct2 Hord l1 l2 HL0) with (k := k)
      as (Q & i & t' & Ls' & L0' & Hrun & Hwf & H0 & HQ & Hri).
    { rewrite Hr2. rewrite !length_app in *. simpl. lia. }
    { rewrite Hr2. set_solver. }
    exists Q, i, t', Ls', L0'. split; [|done].
    rewrite (leaf_insert_over order t Ls K Hsh Hct Hord k s Hko Hfr l1 l2 P HL0 rs1 rs2 Hrs
               H1 H2 kk Hkk Hab fuel ltac:(lia)).
    exact Hrun.
Qed.

Section InsertSpec.

Context (order : nat) (t : tree) (Ls : list (list nat)) (K : list Z).
Context (Hsh : shape t Ls) (Hct : content order None None 2 t Ls K).
Context (Hord : (2 ≤ order)%nat) (k : Z).

(** The key is in the tree: [insert] finds it and changes nothing. *)
Lemma insert_loop_found fuel L0 P :
  Ls !! 0%nat = Some L0 → P ∈ L0 → k ∈ keys (recs t P) →
  ∃ i, insert_loop order (S fuel) k (Some P) t = Some ((mkIt true (Some P) i, false), t) ∧
       recs t P !! i = Some (k, None).
Proof.
  intros HL0 HP Hk.
  apply list_elem_of_fmap in Hk as ([k' c] & Ek & Hr). simpl in Ek. subst k'.
  assert (c = None) as -> by exact (ct_leaves _ _ _ _ _ _ _ Hct _ _ _ HL0 HP Hr).
  pose proof (node_sorted _ _ _ _ _ _ _ Hsh Hct 0%nat _ P HL0 HP) as Hs.
  change (erecs None t P) with (recs t P) in Hs.
  destruct (find_idx_in k None (recs t P) Hs Hr) as (i & Hi & Hi').
  exists i. split; [|done]. cbn [insert_loop].
  rewrite (bind_run _ _ _ _ _ (load_live t P (sh_live _ _ Hsh _ _ _ HL0 HP))).
  change (is_leaf (nd t P)) with (leaf t P). change (records (nd t P)) with (recs t P).
  rewrite (sh_leaf _ _ Hsh _ _ _ HL0 HP). rewrite bool_decide_eq_true_2 by done. simpl.
  rewrite Hi. rewrite bool_decide_eq_true_2; [done|].
  apply lookup_lt_Some in Hi'. lia.
Qed.

Lemma insert_spec :
  ∃ Q i b t' Ls' K' L0',
    insert order k t = Some ((mkIt true (Some Q) i, b), t') ∧ WF order t' Ls' K' ∧
    Ls' !! 0%nat = Some L0' ∧ Q ∈ L0' ∧ recs t' Q !! i = Some (k, None) ∧
    ((k ∈ K ∧ b = false ∧ t' = t ∧ Ls' = Ls ∧ K' = K) ∨
     (k ∉ K ∧ b = true ∧ ∃ K1 K2, K = K1 ++ K2 ∧ K' = K1 ++ k :: K2)).
Proof.
  destruct (decide (Ls = [])) as [ELs|Hne].
  { assert (WF order t [] K) as Hwf by (by rewrite <- ELs).
    destruct (insert_empty order t K k Hwf ltac:(lia)) as (t' & r & Hrun & EK & Hwf' & Hr).
    exists r, 0%nat, true, t', [[r]], [k], [r].
    split; [done|]. split; [done|]. split; [done|]. split; [set_solver|].
    split; [by rewrite Hr|]. right. rewrite EK. split; [set_solver|]. split; [done|].
    by exists [], []. }
  assert (1 ≤ 2)%nat as H12 by lia.
  destruct (root_node order None 2 t Ls K Hsh Hct Hord H12 Hne) as (r & kr & Htop & Hroot & Hkr & Hlr).
  pose proof (levels_bound _ _ Hsh) as Hb.
  assert (1 ≤ length Ls)%nat as Hl1 by (apply lookup_lt_Some in Htop; lia).
  set (fuel0 := (S (base.size (heap t)) - length Ls)%nat).
  assert (S (base.size (heap t)) = (length Ls - 1) + S fuel0)%nat as Efuel by (unfold fuel0; lia).
  assert (insert order k t = insert_loop order ((length Ls - 1) + S fuel0) k (Some r) t) as Hins.
  { unfold insert, get_root. rewrite (bind_run _ _ t (m_root t) t eq_refl).
    rewrite Hroot. simpl. unfold loop_bound.
    rewrite (bind_run _ _ t (S (base.size (heap t))) t eq_refl). by rewrite Efuel. }
  rewrite Hins.
  destruct (decide (k ≤ kr)) as [Hle|Hgt].
  - assert (first_ge t [r] k r) as Hge.
    { exists [], [], kr. split; [done|]. split; [done|]. split; [done|].
      intros x kx Hx. by apply elem_of_nil in Hx. }
    destruct (insert_loop_descend order t Ls K Hsh Hct Hord k (length Ls - 1) fuel0 [r] r Htop Hge)
      as (L0 & P & HL0 & HgeP & Hrun).
    rewrite Hrun.
    destruct (decide (k ∈ K)) as [Hk|Hk].
    + pose proof (first_ge_leaf order None 2 t Ls K Hsh Hct Hord H12 L0 k P HL0 HgeP Hk) as HkP.
      assert (P ∈ L0) as HP.
      { destruct HgeP as (l1 & l2 & ? & -> & _). set_solver. }
      destruct (insert_loop_found fuel0 L0 P HL0 HP HkP) as (i & Hrun' & Hi).
      exists P, i, false, t, Ls, K, L0. split; [done|]. split; [done|].
      split; [done|]. split; [done|]. split; [done|]. by left.
    + destruct HgeP as (l1 & l2 & kp & EL & Hkp & Hlep & Hbefore).
      rewrite EL in HL0.
      assert (P ∈ l1 ++ P :: l2) as HP by set_solver.
      pose proof (node_sorted _ _ _ _ _ _ _ Hsh Hct 0%nat _ P HL0 HP) as Hs.
      change (erecs None t P) with (recs t P) in Hs.
      set (i := lower_bound_idx k (recs t P)).
      set (rs1 := take i (recs t P)). set (rs2 := drop i (recs t P)).
      assert (recs t P = rs1 ++ rs2) as Hrs by (unfold rs1, rs2; by rewrite take_drop).
      assert (∀ q, q ∈ recs t P → q.1 ≠ k) as Hnk.
      { intros q [n Hq]%list_elem_of_lookup E.
        destruct (leaf_record order None 2 t Ls K Hct _ P n q HL0 HP Hq) as [_ HqK].
        rewrite E in HqK. done. }
      assert (Forall (λ q, q.1 < k) rs1) as Hrs1 by apply take_lower_bound_idx.
      assert (Forall (λ q, k < q.1) rs2) as Hrs2.
      { apply Forall_forall. intros q Hq.
        assert (q ∈ recs t P) as Hq' by (rewrite Hrs; set_solver).
        pose proof (Hnk q Hq') as Hne'.
        assert (k ≤ q.1); [|lia].
        destruct rs2 as [|q0 rs2'] eqn:E2; [by apply elem_of_nil in Hq|].
        assert (recs t P !! i = Some q0) as Hq0.
        { rewrite Hrs. rewrite lookup_app_r; unfold rs1; rewrite length_take.
          - replace (i - i `min` length (recs t P))%nat with 0%nat; [done|].
            pose proof (lower_bound_idx_le k (recs t P)). fold i in H. lia.
          - lia. }
        pose proof (lower_bound_idx_at k (recs t P) q0 Hq0) as Hq0k.
        apply elem_of_cons in Hq as [->|Hq]; [done|].
        rewrite Hrs in Hs. unfold keys in Hs. rewrite fmap_app in Hs.
        apply StronglySorted_app_1_r in Hs. csimpl in Hs.
        apply StronglySorted_cons in Hs as [Hall _]. rewrite Forall_forall in Hall.
        assert (q0.1 < q.1); [|lia]. apply Hall. apply list_elem_of_fmap. by exists q. }
      assert (rs2 ≠ []) as Hne2.
      { intros E. rewrite E, app_nil_r in Hrs.
        unfold alk, last_key in Hkp. destruct (last (recs t P)) as [ql|] eqn:El; [|done].
        simpl in Hkp. injection Hkp as Hkp. apply last_Some_elem_of in El.
        rewrite Hrs in El. rewrite Forall_forall in Hrs1. specialize (Hrs1 ql El). lia. }
      destruct (leaf_insert_finish order t Ls K k t l1 l2 P rs1 rs2 kp fuel0 Hsh Hct Hord)
        as (Q & i' & t' & Ls' & L0' & Hrun' & Hwf & HK & H0 & HQ & Hri); try done.
      * apply Forall_app. split; [|unfold keys; by apply Forall_fmap].
        apply Forall_forall. intros x Hx. unfold level_keys in Hx.
        apply elem_of_concat in Hx as (l & Hx & (y & -> & Hy)%list_elem_of_fmap).
        change (erecs None t y) with (recs t y) in Hx.
        apply list_elem_of_fmap in Hx as (q & -> & Hq).
        assert (y ∈ l1 ++ P :: l2) as Hy' by set_solver.
        destruct (alk_Some order None 2 t Ls K Hct Hord H12 0%nat _ y HL0 Hy') as [ky Hky].
        pose proof (Hbefore y ky Hy Hky).
        assert (q.1 ≤ ky); [|lia].
        eapply key_le_last; [|exact Hq|exact Hky].
        exact (node_sorted _ _ _ _ _ _ _ Hsh Hct 0%nat _ y HL0 Hy').
      * apply Forall_app. split; [unfold keys; by apply Forall_fmap|].
        apply Forall_forall. intros x Hx. unfold level_keys in Hx.
        apply elem_of_concat in Hx as (l & Hx & (y & -> & Hy)%list_elem_of_fmap).
        apply list_elem_of_fmap in Hx as (q & -> & Hq).
        unfold alk, last_key in Hkp. destruct (last (recs t P)) as [ql|] eqn:El; [|done].
        simpl in Hkp. injection Hkp as Hkp. apply last_Some_elem_of in El.
        pose proof (level_keys_lt _ _ _ _ _ _ _ Hsh Hct 0%nat l1 P l2 y ql q HL0 Hy El Hq). lia.
      * rewrite (last_key_app rs1) by done.
        change ((k, None) :: rs2) with ([(k, None)] ++ rs2). rewrite last_key_app by done.
        rewrite <- (last_key_app rs1) by done. by rewrite <- Hrs.
      * eapply (above_ext Ls t 0%nat (alk t)).
        -- intros L a _ _. unfold upd. case_decide; [by subst|done].
        -- apply (content_above _ _ _ _ _ _ _ Hct 0%nat). by intros.
      * eexists Q, i', true, t', Ls', _, L0'. split; [done|]. split; [exact Hwf|].
        split; [done|]. split; [done|]. split; [done|]. right.
        split; [done|]. split; [done|]. by eexists _, _.
  - assert (kr < k) as Hlt by lia.
    assert (k ∉ K) as Hk.
    { intros Hk. pose proof (key_le_root order None 2 t Ls K Hsh Hct Hord H12 k r kr Hk Hroot Hkr).
      lia. }
    destruct (insert_loop_raise order t Ls K Hsh Hct Hord k r kr Hroot Hkr Hlt (length Ls - 1)
                fuel0 t [] r Htop (keys_only_refl t) ltac:(done))
      as (s & l0 & P & HL0 & Hko & Hfr & Hab & Hrun).
    { apply above_top. lia. }
    rewrite Hrun.
    assert (P ∈ l0 ++ [P]) as HP by set_solver.
    pose proof (level_nonempty _ _ _ _ _ _ _ Hct 0%nat _ P Hord H12 HL0 HP) as HneP.
    destruct (leaf_insert_finish order t Ls K k s l0 [] P (recs t P) [] k fuel0 Hsh Hct Hord)
      as (Q & i' & t' & Ls' & L0' & Hrun' & Hwf & HK & H0 & HQ & Hri); try done.
    + by rewrite app_nil_r.
    + apply Forall_forall. intros x Hx.
      assert (∃ y q, y ∈ l0 ++ [P] ∧ q ∈ recs t y ∧ x = q.1) as (y & q & Hy & Hq & ->).
      { apply elem_of_app in Hx as [Hx|Hx].
        - unfold level_keys in Hx.
          apply elem_of_concat in Hx as (l & Hx & (y & -> & Hy)%list_elem_of_fmap).
          apply list_elem_of_fmap in Hx as (q & -> & Hq).
          exists y, q. split; [set_solver|done].
        - apply list_elem_of_fmap in Hx as (q & -> & Hq). by exists P, q. }
      pose proof (node_key_le_root order t Ls K Hsh Hct Hord 0%nat _ y q r kr HL0 Hy Hq Hroot Hkr).
      lia.
    + unfold last_key. by rewrite last_snoc.
    + eexists Q, i', true, t', Ls', _, L0'. split; [done|]. split; [exact Hwf|].
      split; [done|]. split; [done|]. split; [done|]. right.
      split; [done|]. split; [done|]. by eexists _, _.
Qed.

End InsertSpec.

(** ** The invariant holds in every state of a program *)

Lemma elem_of_sorted_remove (K1 K2 : list Z) k x :
  StronglySorted Z.lt (K1 ++ k :: K2) → x ∈ K1 ++ K2 ↔ x ∈ K1 ++ k :: K2 ∧ x ≠ k.
Proof.
  intros Hs. apply StronglySorted_app in Hs as (H12 & _ & [H2 _]%StronglySorted_cons).
  rewrite Forall_forall in H2.
  rewrite !elem_of_app, elem_of_cons. split.
  - intros [Hx|Hx].
    + split; [by left|]. intros ->. specialize (H12 k k Hx ltac:(set_solver)). lia.
    + split; [by right; right|]. intros ->. specialize (H2 k Hx). lia.
  - intros [[Hx|[->|Hx]] Hne]; [by left|done|by right].
Qed.

Lemma WF_empty_tree order : WF order empty_tree [] [].
Proof.
  apply WF_nil; try done.
  unfold live, empty_tree. simpl. rewrite lookup_singleton_eq. by eexists.
Qed.

Lemma reach_WF order t S :
  (2 ≤ order)%nat → reach order t S →
  ∃ Ls K, WF order t Ls K ∧ ∀ k, k ∈ K ↔ k ∈ S.
Proof.
  intros Hord H.
  induction H as [|t S k r t' H IH Hrun|t S k it r t' H IH Hf Hne Hrun|t S t' H IH Hrun].
  - exists [], []. split; [apply WF_empty_tree|]. intros k. set_solver.
  - destruct IH as (Ls & K & [Hsh Hct] & HK).
    destruct (insert_spec order t Ls K Hsh Hct Hord k)
      as (Q & i & b & t1 & Ls' & K' & L0' & Hrun' & Hwf & _ & _ & _ & Hcase).
    rewrite Hrun in Hrun'. injection Hrun' as _ ->.
    exists Ls', K'. split; [done|].
    destruct Hcase as [(Hk & _ & _ & _ & ->)|(Hk & _ & K1 & K2 & EK & ->)].
    + intros x. rewrite elem_of_union, elem_of_singleton, <- HK.
      split; [auto|]. by intros [->|?].
    + intros x. rewrite elem_of_union, elem_of_singleton, <- HK. rewrite EK.
      rewrite !elem_of_app, elem_of_cons. tauto.
  - destruct IH as (Ls & K & [Hsh Hct] & HK).
    destruct (find_spec order None 2 t Ls K Hsh Hct Hord ltac:(lia) k) as (it' & Hf' & Hfinds).
    rewrite Hf in Hf'. injection Hf' as <-.
    destruct Hfinds as [(Hk & P & i & L0 & -> & HL0 & HP & Hrec)|[_ ->]]; [|done].
    destruct (erase_wf order t Ls K (conj Hsh Hct) Hord L0 P i k HL0 HP Hrec true)
      as (it2 & t'' & Ls' & K1 & K2 & Hrun' & EK & Hwf).
    rewrite Hrun in Hrun'. injection Hrun' as _ ->.
    exists Ls', (K1 ++ K2). split; [done|].
    intros x. rewrite elem_of_difference, elem_of_singleton, <- HK. rewrite EK.
    apply elem_of_sorted_remove. rewrite <- EK. apply (ct_sorted _ _ _ _ _ _ _ Hct).
  - destruct IH as (Ls & K & [Hsh Hct] & HK).
    destruct (clear_spec order t Ls K t Hsh Hct eq_refl eq_refl) as (t1 & Hrun' & Hwf).
    rewrite Hrun in Hrun'. injection Hrun' as ->.
    exists [], []. split; [done|]. intros k. set_solver.
Qed.

(** Keys in order without repetition, as a set. *)
Lemma sorted_keys_unique (K K' : list Z) :
  StronglySorted Z.lt K → StronglySorted Z.lt K' → (∀ k, k ∈ K ↔ k ∈ K') → K = K'.
Proof.
  intros Hs. revert K'. induction Hs as [|x K Hs IH Hx]; intros K' Hs' He.
  - destruct K' as [|y K']; [done|]. specialize (He y). set_solver.
  - destruct Hs' as [|y K' Hs' Hy].
    { specialize (He x). set_solver. }
    rewrite Forall_forall in Hx, Hy.
    assert (x = y) as ->.
    { assert (x ∈ y :: K') as [->|Hx']%elem_of_cons by (apply He; set_solver); [done|].
      assert (y ∈ x :: K) as [->|Hy']%elem_of_cons by (apply He; set_solver); [done|].
      specialize (Hx _ Hy'). specialize (Hy _ Hx'). lia. }
    f_equal. apply IH; [done|]. intros k. split; intros Hk.
    + assert (k ∈ y :: K') as [->|?]%elem_of_cons by (apply He; set_solver); [|done].
      specialize (Hx _ Hk). lia.
    + assert (k ∈ y :: K) as [->|?]%elem_of_cons by (apply He; set_solver); [|done].
      specialize (Hy _ Hk). lia.
Qed.

(** ** What a program observes *)

Lemma deref_run t P i r b :
  live t P → recs t P !! i = Some r → deref (mkIt true (Some P) i) t = Some (r.1, t) ∧
  it_eq (mkIt true (Some P) i) (mkIt b None 0) = false.
Proof.
  intros Hl Hr. split.
  - unfold deref. simpl. by rewrite (bind_run _ _ _ _ _ (record_at_run t P i r Hl Hr)).
  - unfold it_eq. simpl. by destruct b.
Qed.

Section Reach.

Context (order : nat) (Hord : (2 ≤ order)%nat).

Lemma reach_find t X k : reach order t X →
  ∃ it, find k t = Some (it, t) ∧
    ((k ∈ X ∧ ∃ P i, it = mkIt true (Some P) i ∧ live t P ∧ recs t P !! i = Some (k, None)) ∨
     (k ∉ X ∧ it = make_end)).
Proof.
  intros Hr. destruct (reach_WF order t X Hord Hr) as (Ls & K & [Hsh Hct] & HK).
  destruct (find_spec order None 2 t Ls K Hsh Hct Hord ltac:(lia) k) as (it & Hf & Hfinds).
  exists it. split; [done|].
  destruct Hfinds as [(Hk & P & i & L0 & -> & HL0 & HP & Hrec)|[Hk ->]].
  - left. split; [by apply HK|]. exists P, i. split; [done|]. split; [|done].
    exact (sh_live _ _ Hsh _ _ _ HL0 HP).
  - right. split; [|done]. by rewrite <- HK.
Qed.

Lemma reach_insert_run t X k : reach order t X →
  ∃ Q i t', insert order k t = Some ((mkIt true (Some Q) i, bool_decide (k ∉ X)), t') ∧
    live t' Q ∧ recs t' Q !! i = Some (k, None) ∧
    (k ∈ X → t' = t) ∧ (k ∉ X → m_size t' = S (m_size t)).
Proof.
  intros Hr. destruct (reach_WF order t X Hord Hr) as (Ls & K & [Hsh Hct] & HK).
  destruct (insert_spec order t Ls K Hsh Hct Hord k)
    as (Q & i & b & t' & Ls' & K' & L0' & Hrun & [Hsh' Hct'] & HL0' & HQ & Hrec & Hcase).
  exists Q, i, t'.
  pose proof (sh_live _ _ Hsh' _ _ _ HL0' HQ) as HlQ.
  destruct Hcase as [(Hk & -> & -> & -> & ->)|(Hk & -> & K1 & K2 & EK & ->)].
  - rewrite bool_decide_eq_false_2 by (rewrite <- HK; tauto).
    split; [done|]. split; [done|]. split; [done|]. split; [done|].
    intros Hn. by rewrite <- HK in Hn.
  - rewrite bool_decide_eq_true_2 by (by rewrite <- HK).
    split; [done|]. split; [done|]. split; [done|]. split.
    + intros Hk'. by rewrite <- HK in Hk'.
    + intros _. rewrite (ct_size _ _ _ _ _ _ _ Hct), (ct_size _ _ _ _ _ _ _ Hct'), EK.
      rewrite !length_app. simpl. lia.
Qed.

Lemma reach_erase_run t X k it : reach order t X →
  find k t = Some (it, t) → it_eq it make_end = false →
  ∃ r t', erase order it t = Some (erased r, t') ∧ k ∈ X ∧
          m_size t' = Nat.pred (m_size t) ∧ (0 < m_size t)%nat.
Proof.
  intros Hr Hf Hne. destruct (reach_WF order t X Hord Hr) as (Ls & K & [Hsh Hct] & HK).
  destruct (find_spec order None 2 t Ls K Hsh Hct Hord ltac:(lia) k) as (it' & Hf' & Hfinds).
  rewrite Hf in Hf'. injection Hf' as <-.
  destruct Hfinds as [(Hk & P & i & L0 & -> & HL0 & HP & Hrec)|[_ ->]]; [|done].
  destruct (erase_wf order t Ls K (conj Hsh Hct) Hord L0 P i k HL0 HP Hrec true)
    as (it2 & t' & Ls' & K1 & K2 & Hrun & EK & [Hsh' Hct']).
  exists it2, t'. split; [done|]. split; [by apply HK|].
  rewrite (ct_size _ _ _ _ _ _ _ Hct), (ct_size _ _ _ _ _ _ _ Hct'), EK.
  rewrite !length_app. simpl. lia.
Qed.

Lemma reach_clear_run t X : reach order t X →
  ∃ t', clear t = Some (tt, t') ∧ m_root t' = None ∧ m_size t' = 0%nat ∧
        nxt t' header = Some header ∧ prv t' header = Some header ∧ live t' header.
Proof.
  intros Hr. destruct (reach_WF order t X Hord Hr) as (Ls & K & [Hsh Hct] & HK).
  destruct (clear_spec order t Ls K t Hsh Hct eq_refl eq_refl) as (t' & Hrun & [Hsh' Hct']).
  exists t'. split; [done|].
  split; [exact (sh_root _ _ Hsh')|]. split; [exact (ct_size _ _ _ _ _ _ _ Hct')|].
  split; [exact (sh_hdr_next _ _ Hsh')|]. split; [exact (sh_hdr_pre _ _ Hsh')|].
  exact (sh_header _ _ Hsh').
Qed.

Lemma reach_size t X : reach order t X → m_size t = base.size X.
Proof.
  intros Hr. destruct (reach_WF order t X Hord Hr) as (Ls & K & [Hsh Hct] & HK).
  rewrite (ct_size _ _ _ _ _ _ _ Hct).
  assert (NoDup K) as Hnd.
  { pose proof (ct_sorted _ _ _ _ _ _ _ Hct) as Hs. clear -Hs.
    induction Hs as [|x K Hs IH Hx]; [constructor|]. apply NoDup_cons. split; [|done].
    intros Hin. rewrite Forall_forall in Hx. specialize (Hx x Hin). lia. }
  assert (X = list_to_set K) as ->.
  { apply set_eq. intros x. rewrite elem_of_list_to_set. by rewrite HK. }
  by rewrite size_list_to_set.
Qed.

Lemma reach_root t X : reach order t X → (m_root t = None ↔ X = ∅).
Proof.
  intros Hr. destruct (reach_WF order t X Hord Hr) as (Ls & K & [Hsh Hct] & HK).
  rewrite (sh_root _ _ Hsh). split.
  - intros Hn. assert (Ls = []) as ->.
    { destruct (last Ls) as [Lt|] eqn:El.
      - simpl in Hn. pose proof (sh_top _ _ Hsh _ El). by destruct Lt.
      - by apply last_None in El. }
    apply set_eq. intros x. rewrite <- HK, <- (ct_keys _ _ _ _ _ _ _ Hct). set_solver.
  - intros ->. destruct (decide (Ls = [])) as [->|Hne]; [done|]. exfalso.
    destruct (lookup_lt_is_Some_2 Ls 0) as [L0 HL0].
    { destruct Ls; [done|simpl; lia]. }
    pose proof (sh_nonempty _ _ Hsh _ _ HL0) as HneL.
    destruct L0 as [|a L0]; [done|].
    assert (a ∈ a :: L0) as Ha by set_solver.
    pose proof (level_nonempty _ _ _ _ _ _ _ Hct 0%nat _ a Hord ltac:(lia) HL0 Ha) as Hne'.
    destruct (recs t a) as [|q' rs] eqn:Era; [done|].
    destruct (leaf_record order None 2 t Ls K Hct _ a 0%nat q' HL0 Ha) as [_ Hin].
    { by rewrite Era. }
    apply HK in Hin. set_solver.
Qed.

Lemma reach_insert_keys ks : ∀ t X, reach order t X →
  ∃ t', insert_keys order ks t = Some (tt, t') ∧ reach order t' (list_to_set ks ∪ X).
Proof.
  induction ks as [|k ks IH]; intros t X Hr.
  - exists t. split; [done|]. by replace (list_to_set [] ∪ X) with X by set_solver.
  - destruct (reach_insert_run t X k Hr) as (Q & i & t1 & Hrun & _).
    destruct (IH t1 ({[k]} ∪ X) (reach_insert order t X k _ t1 Hr Hrun)) as (t' & Hrun' & Hr').
    exists t'. split.
    + simpl. by rewrite (bind_run _ _ _ _ _ Hrun).
    + by replace (list_to_set (k :: ks) ∪ X) with (list_to_set ks ∪ ({[k]} ∪ X)) by set_solver.
Qed.

Lemma reach_erase_keys ks : ∀ t X, reach order t X →
  ∃ t', erase_keys order ks t = Some (tt, t') ∧ reach order t' (X ∖ list_to_set ks).
Proof.
  induction ks as [|k ks IH]; intros t X Hr.
  - exists t. split; [done|]. by replace (X ∖ list_to_set []) with X by set_solver.
  - destruct (reach_find t X k Hr) as (it & Hf & Hcase).
    assert (∃ r t1, erase_key order k t = Some (r, t1) ∧ reach order t1 (X ∖ {[k]}))
      as (r & t1 & Hrun & Hr1).
    { unfold erase_key. rewrite (bind_run _ _ _ _ _ Hf).
      destruct Hcase as [(Hk & P & i & -> & Hl & Hrec)|[Hk ->]].
      - destruct (deref_run t P i _ true Hl Hrec) as [_ Hne].
        change (mkIt true None 0) with make_end in Hne.
        rewrite Hne. simpl.
        destruct (reach_erase_run t X k _ Hr Hf Hne) as (r & t1 & Hrun & _).
        exists (Some (erased r)), t1. rewrite (bind_run _ _ _ _ _ Hrun). split; [done|].
        exact (reach_erase order t X k _ _ t1 Hr Hf Hne Hrun).
      - exists None, t. split; [done|].
        by replace (X ∖ {[k]}) with X by set_solver. }
    destruct (IH t1 _ Hr1) as (t' & Hrun' & Hr').
    exists t'. split.
    + simpl. by rewrite (bind_run _ _ _ _ _ Hrun).
    + by replace (X ∖ list_to_set (k :: ks)) with (X ∖ {[k]} ∖ list_to_set ks) by set_solver.
Qed.

End Reach.

(** ** Iterators as positions in the list of the keys *)

Lemma level_keys_app h t l1 l2 :
  level_keys h t (l1 ++ l2) = level_keys h t l1 ++ level_keys h t l2.
Proof. unfold level_keys. by rewrite fmap_app, concat_app. Qed.

Lemma level_keys_cons t a l :
  level_keys None t (a :: l) = keys (recs t a) ++ level_keys None t l.
Proof. done. Qed.

Lemma length_keys (rs : list RecordPair) : length (keys rs) = length rs.
Proof. unfold keys. by rewrite length_fmap. Qed.

Lemma at_pos_exists t L : ∀ n,
  (n < length (level_keys None t L))%nat → ∃ it, at_pos t L n it.
Proof.
  induction L as [|a L IH]; intros n Hn; [simpl in Hn; lia|].
  rewrite level_keys_cons, length_app, length_keys in Hn. simpl in Hn.
  destruct (decide (n < length (recs t a))%nat) as [Hlt|Hge].
  - exists (mkIt true (Some a) n), [], a, L, n. simpl. done.
  - destruct (IH (n - length (recs t a))%nat ltac:(lia))
      as (it & l1 & P & l2 & i & -> & -> & Hi & En).
    exists (mkIt true (Some P) i), (a :: l1), P, l2, i.
    split; [done|]. split; [done|]. split; [done|].
    rewrite level_keys_cons, length_app, length_keys. simpl. lia.
Qed.

Lemma at_pos_unique t : ∀ L n it it',
  at_pos t L n it → at_pos t L n it' → it = it'.
Proof.
  intros L n it it' (l1 & P & l2 & i & EL & -> & Hi & En)
    (l1' & P' & l2' & i' & EL' & -> & Hi' & En').
  revert L n l1' EL EL' En En'.
  induction l1 as [|a l1 IH]; intros L n l1' EL EL' En En'.
  - destruct l1' as [|a' l1'].
    + simpl in *. simplify_eq. done.
    + rewrite EL in EL'. simpl in EL'. injection EL' as <- _.
      rewrite level_keys_cons, length_app, length_keys in En'. simpl in *. lia.
  - destruct l1' as [|a' l1'].
    + rewrite EL in EL'. simpl in EL'. injection EL' as -> _.
      rewrite level_keys_cons, length_app, length_keys in En. simpl in *. lia.
    + rewrite EL in EL'. simpl in EL'. injection EL' as <- EL'.
      rewrite level_keys_cons, length_app, length_keys in En, En'. simpl in En, En'.
      apply (IH (l1 ++ P :: l2) (n - length (recs t a))%nat l1'); [done|done|lia|lia].
Qed.

Lemma at_pos_lookup t L n it :
  at_pos t L n it →
  ∃ P i r, it = mkIt true (Some P) i ∧ P ∈ L ∧ recs t P !! i = Some r ∧
    level_keys None t L !! n = Some r.1.
Proof.
  intros (l1 & P & l2 & i & -> & -> & Hi & ->).
  destruct (lookup_lt_is_Some_2 (recs t P) i Hi) as [r Hr].
  exists P, i, r. split; [done|]. split; [set_solver|]. split; [done|].
  rewrite level_keys_app, lookup_app_r by lia.
  replace (length (level_keys None t l1) + i - length (level_keys None t l1))%nat with i by lia.
  rewrite level_keys_cons. rewrite lookup_app_l by (rewrite length_keys; exact Hi).
  unfold keys. simpl. rewrite list_lookup_fmap, Hr. done.
Qed.

Lemma at_pos_of t l1 P l2 i :
  (i < length (recs t P))%nat →
  at_pos t (l1 ++ P :: l2) (length (level_keys None t l1) + i) (mkIt true (Some P) i).
Proof. intros Hi. by exists l1, P, l2, i. Qed.

(** [operator++] and [operator--], case by case. *)

Lemma incr_inner t P i :
  m_root t ≠ None → live t P → (S i < length (recs t P))%nat →
  incr (mkIt true (Some P) i) t = Some (mkIt true (Some P) (S i), t).
Proof.
  intros Hr Hl Hi. unfold incr, get_root.
  rewrite (bind_run _ _ t (m_root t) t eq_refl). simpl.
  unfold ptr_eqb. rewrite bool_decide_eq_false_2 by done.
  rewrite (bind_run _ _ _ _ _ (load_live t P Hl)). fold (recs t P).
  rewrite bool_decide_eq_false_2 by lia.
  rewrite bool_decide_eq_false_2 by lia. done.
Qed.

Lemma incr_next t P i Q :
  m_root t ≠ None → live t P → S i = length (recs t P) →
  nxt t P = Some Q → Q ≠ header → live t Q →
  incr (mkIt true (Some P) i) t = Some (mkIt true (Some Q) 0, t).
Proof.
  intros Hr Hl Hi Hn Hq Hlq. unfold incr, get_root.
  rewrite (bind_run _ _ t (m_root t) t eq_refl). simpl.
  unfold ptr_eqb. rewrite bool_decide_eq_false_2 by done.
  rewrite (bind_run _ _ _ _ _ (load_live t P Hl)). fold (recs t P). fold (nxt t P).
  rewrite bool_decide_eq_false_2 by lia.
  rewrite bool_decide_eq_true_2 by lia. rewrite Hn.
  rewrite bool_decide_eq_false_2 by congruence. simpl.
  by rewrite (bind_run _ _ _ _ _ (load_live t Q Hlq)).
Qed.

Lemma incr_last t P i :
  m_root t ≠ None → live t P → S i = length (recs t P) → nxt t P = Some header →
  incr (mkIt true (Some P) i) t = Some (mkIt true None (S i), t).
Proof.
  intros Hr Hl Hi Hn. unfold incr, get_root.
  rewrite (bind_run _ _ t (m_root t) t eq_refl). simpl.
  unfold ptr_eqb. rewrite bool_decide_eq_false_2 by done.
  rewrite (bind_run _ _ _ _ _ (load_live t P Hl)). fold (recs t P). fold (nxt t P).
  rewrite bool_decide_eq_false_2 by lia.
  rewrite bool_decide_eq_true_2 by lia. rewrite Hn.
  rewrite bool_decide_eq_true_2 by done. done.
Qed.

Section Positions.

Context (order : nat) (t : tree) (Ls : list (list nat)) (K : list Z).
Context (Hsh : shape t Ls) (Hct : content order None None 2 t Ls K).
Context (Hord : (2 ≤ order)%nat).
Context (L0 : list nat) (HL0 : Ls !! 0%nat = Some L0).

Lemma keys_level0 : K = level_keys None t L0.
Proof. rewrite <- (ct_keys _ _ _ _ _ _ _ Hct), HL0. done. Qed.

Lemma leaf_nonempty P : P ∈ L0 → (0 < length (recs t P))%nat.
Proof.
  intros HP.
  pose proof (level_nonempty order None None 2 t Ls K Hct 0 L0 P Hord ltac:(lia) HL0 HP).
  destruct (recs t P); [done|simpl; lia].
Qed.

Lemma leaf_live P : P ∈ L0 → live t P.
Proof. intros HP. exact (sh_live _ _ Hsh _ _ _ HL0 HP). Qed.

Lemma root_not_null : m_root t ≠ None.
Proof.
  rewrite (sh_root _ _ Hsh). destruct (last Ls) as [L|] eqn:El.
  - pose proof (sh_top _ _ Hsh _ El). destruct L; [done|]. done.
  - apply last_None in El. rewrite El in HL0. done.
Qed.

Lemma at_pos_key n it :
  at_pos t L0 n it →
  ∃ P i k, it = mkIt true (Some P) i ∧ P ∈ L0 ∧ recs t P !! i = Some (k, None) ∧
    K !! n = Some k ∧ deref it t = Some (k, t) ∧ it_eq it make_end = false.
Proof.
  intros Hp. destruct (at_pos_lookup _ _ _ _ Hp) as (P & i & r & -> & HP & Hr & Hk).
  destruct (leaf_record order None 2 t Ls K Hct _ P i r HL0 HP Hr) as [Hc _].
  destruct r as [k c]. simpl in Hc. subst c.
  exists P, i, k. split; [done|]. split; [done|]. split; [done|].
  rewrite keys_level0. split; [done|].
  exact (deref_run t P i (k, None) true (leaf_live P HP) Hr).
Qed.

Lemma at_pos_lt n it : at_pos t L0 n it → (n < length K)%nat.
Proof.
  intros Hp. destruct (at_pos_key n it Hp) as (_ & _ & k & _ & _ & _ & Hk & _).
  by apply lookup_lt_Some in Hk.
Qed.

Lemma incr_pos n it :
  at_pos t L0 n it →
  ∃ it', incr it t = Some (it', t) ∧
    if decide (S n < length K)%nat then at_pos t L0 (S n) it'
    else it_node it' = None ∧ it_tree it' = true.
Proof.
  intros Hp. pose proof (at_pos_lt n it Hp) as Hn.
  destruct Hp as (l1 & P & l2 & i & EL & -> & Hi & En).
  assert (P ∈ L0) as HP by (rewrite EL; set_solver).
  pose proof (leaf_live P HP) as Hl.
  pose proof keys_level0 as EK. rewrite EL in EK.
  rewrite level_keys_app, level_keys_cons in EK.
  assert (length K = length (level_keys None t l1) + length (recs t P)
                     + length (level_keys None t l2))%nat as HlenK.
  { rewrite EK, !length_app, length_keys. simpl. lia. }
  destruct (decide (S i < length (recs t P))%nat) as [Hin|Hout].
  - exists (mkIt true (Some P) (S i)). split; [by apply incr_inner; [apply root_not_null|..]|].
    rewrite decide_True by lia.
    exists l1, P, l2, (S i). split; [done|]. split; [done|]. split; [done|]. lia.
  - assert (S i = length (recs t P)) as Ei by lia.
    pose proof (chain_next t Ls 0 l1 P l2 Hsh ltac:(by rewrite HL0, EL)) as Hnx.
    destruct l2 as [|Q l2]; simpl in Hnx.
    + exists (mkIt true None (S i)). split; [by apply incr_last; [apply root_not_null|..]|].
      simpl in HlenK. rewrite decide_False by lia. done.
    + assert (Q ∈ L0) as HQ by (rewrite EL; set_solver).
      exists (mkIt true (Some Q) 0). split.
      * apply incr_next; [apply root_not_null|done|done|done| |by apply leaf_live].
        exact (level_not_header _ _ Hsh _ _ _ HL0 HQ).
      * pose proof (leaf_nonempty Q HQ) as HQn.
        rewrite level_keys_cons, length_app, length_keys in HlenK. simpl in HlenK.
        rewrite decide_True by lia.
        exists (l1 ++ [P]), Q, l2, 0%nat. split; [by rewrite <- app_assoc|].
        split; [done|]. split; [done|].
        rewrite level_keys_app, length_app, level_keys_cons, length_app, length_keys.
        simpl. lia.
Qed.

Lemma begin_pos :
  ∃ it, begin t = Some (it, t) ∧ at_pos t L0 0 it.
Proof.
  pose proof (sh_nonempty _ _ Hsh _ _ HL0) as Hne.
  assert (∀ L : list nat, L ≠ [] → ∃ P l2, L = P :: l2) as Hex
    by (intros [|P l2] ?; [done|eauto]).
  destruct (Hex L0 Hne) as (P & l2 & EL).
  assert (P ∈ L0) as HP by (rewrite EL; set_solver).
  pose proof (leaf_nonempty P HP) as HPn.
  pose proof keys_level0 as EK. rewrite EL, level_keys_cons in EK.
  assert (m_size t ≠ 0%nat) as Hsz.
  { rewrite (ct_size _ _ _ _ _ _ _ Hct), EK, length_app, length_keys. simpl. lia. }
  exists (mkIt true (Some P) 0). split.
  - unfold begin, get_size. rewrite (bind_run _ _ t (m_size t) t eq_refl).
    rewrite bool_decide_eq_false_2 by done.
    rewrite (bind_run _ _ _ _ _ (load_live t header (sh_header _ _ Hsh))).
    fold (nxt t header). rewrite (sh_hdr_next _ _ Hsh), HL0, EL. simpl.
    by rewrite (bind_run _ _ _ _ _ (load_live t P (leaf_live P HP))).
  - exists [], P, l2, 0%nat. done.
Qed.

Lemma walk_pos m : ∀ n it fuel,
  at_pos t L0 n it → (n + m = length K)%nat → (m < fuel)%nat →
  walk fuel it t = Some (drop n K, t).
Proof.
  induction m as [|m IH]; intros n it fuel Hp Hm Hfuel.
  - pose proof (at_pos_lt n it Hp). lia.
  - destruct fuel as [|fuel]; [lia|]. simpl.
    destruct (at_pos_key n it Hp) as (P & i & k & -> & HP & Hr & Hk & Hd & He).
    rewrite He. rewrite (bind_run _ _ _ _ _ Hd).
    destruct (incr_pos n _ Hp) as (it' & Hi & Hnext).
    rewrite (bind_run _ _ _ _ _ Hi).
    rewrite (drop_S _ _ _ Hk).
    destruct (decide (S n < length K)%nat) as [Hlt|Hge].
    + rewrite (bind_run _ _ _ _ _ (IH (S n) it' fuel Hnext ltac:(lia) ltac:(lia))). done.
    + destruct Hnext as [Hnode Htree]. destruct fuel as [|fuel]; [lia|].
      simpl. unfold it_eq at 1. rewrite Hnode, Htree. simpl.
      rewrite drop_ge by lia. done.
Qed.

Lemma decr_prefix (it : iterator) (at_begin : bool) :
  it_tree it = true →
  andM (ptr_eqb (it_node it) (nxt t header))
    (load (it_node it) ;;; ret (bool_decide (it_rec it = 0%nat))) t = Some (at_begin, t) →
  decr it t =
    (if at_begin then ret it else
     if ptr_eqb (it_node it) None then
       j <- last_index (prv t header) ;; ret (mkIt true (prv t header) j)
     else
       n <- load (it_node it) ;;
       match it_rec it with
       | O => j <- last_index (pre n) ;; ret (mkIt true (pre n) j)
       | S i => ret (mkIt true (it_node it) i)
       end) t.
Proof.
  intros Ht Hb. unfold decr, get_root.
  rewrite (bind_run _ _ t (m_root t) t eq_refl). rewrite Ht. simpl.
  unfold ptr_eqb at 1.
  rewrite bool_decide_eq_false_2
    by exact root_not_null.
  rewrite (bind_run _ _ _ _ _ (load_live t header (sh_header _ _ Hsh))).
  fold (nxt t header). fold (prv t header).
  by rewrite (bind_run _ _ _ _ _ Hb).
Qed.

Lemma decr_pos n it :
  at_pos t L0 n it →
  ∃ it', decr it t = Some (it', t) ∧
    match n with O => it' = it | S m => at_pos t L0 m it' end.
Proof.
  intros (l1 & P & l2 & i & EL & -> & Hi & En).
  assert (P ∈ L0) as HP by (rewrite EL; set_solver).
  pose proof (leaf_live P HP) as Hl.
  pose proof (sh_nodup _ _ Hsh _ _ HL0) as Hnd. rewrite EL in Hnd.
  pose proof (sh_hdr_next _ _ Hsh) as Hhn. rewrite HL0 in Hhn. simpl in Hhn. rewrite EL in Hhn.
  destruct l1 as [|Q l1 _] using rev_ind.
  - simpl in Hhn, En. subst n.
    destruct i as [|i].
    + exists (mkIt true (Some P) 0). split; [|done].
      rewrite (decr_prefix _ true); [done|done|]. simpl. rewrite Hhn. unfold andM, ptr_eqb.
      rewrite bool_decide_eq_true_2 by done.
      by rewrite (bind_run _ _ _ _ _ (load_live t P Hl)).
    + exists (mkIt true (Some P) i). split.
      * rewrite (decr_prefix _ false); [|done|].
        -- simpl. by rewrite (bind_run _ _ _ _ _ (load_live t P Hl)).
        -- simpl. rewrite Hhn. unfold andM, ptr_eqb.
           rewrite bool_decide_eq_true_2 by done.
           by rewrite (bind_run _ _ _ _ _ (load_live t P Hl)).
      * exists [], P, l2, i. split; [done|]. split; [done|]. split; [lia|]. done.
  - assert (Q ∈ L0) as HQ by (rewrite EL; set_solver).
    pose proof (leaf_live Q HQ) as HlQ.
    pose proof (leaf_nonempty Q HQ) as HQn.
    assert (head ((l1 ++ [Q]) ++ P :: l2) ≠ Some P) as Hhd.
    { intros Hh. apply NoDup_app in Hnd as (_ & Hnd & _). apply (Hnd P); [|set_solver].
      destruct l1 as [|x l1]; simpl in Hh; injection Hh as ->; set_solver. }
    assert (andM (ptr_eqb (Some P) (nxt t header))
              (load (Some P) ;;; ret (bool_decide (i = 0%nat))) t = Some (false, t)) as Hb.
    { unfold andM, ptr_eqb. rewrite bool_decide_eq_false_2; [done|].
      rewrite Hhn. pose proof (level_not_header _ _ Hsh _ _ _ HL0 HP).
      destruct (head ((l1 ++ [Q]) ++ P :: l2)); simpl; congruence. }
    rewrite level_keys_app, length_app, level_keys_cons, length_app, length_keys in En.
    simpl in En.
    destruct i as [|i].
    + exists (mkIt true (Some Q) (Nat.pred (length (recs t Q)))). split.
      * rewrite (decr_prefix _ false); [|done|exact Hb]. simpl.
        rewrite (bind_run _ _ _ _ _ (load_live t P Hl)). fold (prv t P).
        rewrite (chain_prev t Ls 0 (l1 ++ [Q]) P l2 Hsh ltac:(by rewrite HL0, EL)).
        rewrite last_snoc. simpl.
        rewrite (bind_run _ _ _ _ _ (last_index_run t Q HlQ ltac:(intros E; rewrite E in HQn; simpl in HQn; lia))).
        done.
      * destruct n as [|m]; [lia|].
        exists l1, Q, (P :: l2), (Nat.pred (length (recs t Q))).
        split; [by rewrite EL, <- app_assoc|]. split; [done|]. split; [lia|]. lia.
    + exists (mkIt true (Some P) i). split.
      * rewrite (decr_prefix _ false); [|done|exact Hb]. simpl.
        by rewrite (bind_run _ _ _ _ _ (load_live t P Hl)).
      * destruct n as [|m]; [lia|].
        exists (l1 ++ [Q]), P, l2, i. split; [done|]. split; [done|]. split; [lia|].
        rewrite level_keys_app, length_app, level_keys_cons, length_app, length_keys.
        simpl. lia.
Qed.

Lemma decr_end i :
  ∃ it', decr (mkIt true None i) t = Some (it', t) ∧ at_pos t L0 (Nat.pred (length K)) it'.
Proof.
  pose proof (sh_nonempty _ _ Hsh _ _ HL0) as Hne.
  assert (∀ L : list nat, L ≠ [] → ∃ l Q, L = l ++ [Q]) as Hex.
  { intros L HL. destruct L as [|Q L _] using rev_ind; [done|eauto]. }
  destruct (Hex L0 Hne) as (l & Q & EL).
  assert (Q ∈ L0) as HQ by (rewrite EL; set_solver).
  pose proof (leaf_live Q HQ) as HlQ.
  pose proof (leaf_nonempty Q HQ) as HQn.
  pose proof (sh_hdr_next _ _ Hsh) as Hhn. rewrite HL0 in Hhn. simpl in Hhn.
  pose proof (sh_hdr_pre _ _ Hsh) as Hhp. rewrite HL0 in Hhp. simpl in Hhp.
  rewrite EL, last_snoc in Hhp. simpl in Hhp.
  exists (mkIt true (Some Q) (Nat.pred (length (recs t Q)))). split.
  - rewrite (decr_prefix _ false); [|done|].
    + simpl. rewrite Hhp.
      by rewrite (bind_run _ _ _ _ _ (last_index_run t Q HlQ ltac:(intros E; rewrite E in HQn; simpl in HQn; lia))).
    + simpl. unfold andM, ptr_eqb. rewrite bool_decide_eq_false_2; [done|].
      rewrite Hhn. destruct (head L0) eqn:E; simpl; [done|].
      apply head_None in E. done.
  - exists l, Q, [], (Nat.pred (length (recs t Q))). split; [done|]. split; [done|].
    split; [lia|].
    rewrite keys_level0, EL.
    rewrite level_keys_app, length_app, level_keys_cons, length_app, length_keys.
    simpl. lia.
Qed.

Lemma keys_NoDup : NoDup K.
Proof.
  pose proof (ct_sorted _ _ _ _ _ _ _ Hct) as Hs. clear -Hs.
  induction Hs as [|x K Hs IH Hx]; constructor; [|done].
  intros Hin. rewrite Forall_forall in Hx. specialize (Hx x Hin). lia.
Qed.

Lemma find_pos n k :
  K !! n = Some k → ∃ it, find k t = Some (it, t) ∧ at_pos t L0 n it.
Proof.
  intros Hk.
  destruct (find_spec order None 2 t Ls K Hsh Hct Hord ltac:(lia) k) as (it & Hf & Hfinds).
  exists it. split; [done|].
  destruct Hfinds as [(_ & P & i & L0' & -> & HL0' & HP & Hr)|[Hn _]].
  - rewrite HL0 in HL0'. injection HL0' as <-.
    destruct (list_elem_of_split _ _ HP) as (l1 & l2 & EL).
    assert (at_pos t L0 (length (level_keys None t l1) + i) (mkIt true (Some P) i)) as Hp.
    { exists l1, P, l2, i. split; [done|]. split; [done|]. split; [|done].
      by apply lookup_lt_Some in Hr. }
    destruct (at_pos_key _ _ Hp)
      as (P' & i' & k' & Eit & _ & Hr' & Hk' & _).
    injection Eit as <- <-. rewrite Hr in Hr'. injection Hr' as <-.
    by rewrite (NoDup_lookup K _ _ k keys_NoDup Hk Hk') .
  - exfalso. apply Hn. by eapply list_elem_of_lookup_2.
Qed.

(** The place of a key in its leaf and in the list of the keys. *)
Lemma first_ge_pos k P :
  first_ge t L0 k P →
  ∃ n k', at_pos t L0 n (mkIt true (Some P) (lower_bound_idx k (recs t P))) ∧
    K !! n = Some k' ∧ k ≤ k' ∧
    ∀ m km, K !! m = Some km → (m < n)%nat → km < k.
Proof.
  intros (l1 & l2 & kP & EL & HkP & Hle & Hbefore).
  assert (P ∈ L0) as HP by (rewrite EL; set_solver).
  pose proof (node_sorted order None None 2 t Ls K Hsh Hct 0 L0 P HL0 HP) as Hs.
  change (erecs None t P) with (recs t P) in Hs.
  set (i := lower_bound_idx k (recs t P)).
  assert (i < length (recs t P))%nat as Hi.
  { pose proof (lower_bound_idx_le k (recs t P)) as Hle'. fold i in Hle'.
    destruct (decide (i = length (recs t P))) as [E|]; [|lia]. exfalso.
    pose proof (take_lower_bound_idx k (recs t P)) as Hall. fold i in Hall.
    rewrite E, firstn_all in Hall. rewrite Forall_forall in Hall.
    unfold alk, last_key in HkP. destruct (last (recs t P)) as [q|] eqn:El; [|done].
    injection HkP as <-. apply last_Some_elem_of in El. specialize (Hall q El). lia. }
  pose proof (at_pos_of t l1 P l2 i Hi) as Hp. rewrite <- EL in Hp.
  destruct (at_pos_key _ _ Hp) as (P' & i' & k' & Eit & _ & Hr & Hk & _).
  injection Eit as <- <-.
  exists (length (level_keys None t l1) + i)%nat, k'. split; [done|]. split; [done|].
  split; [exact (lower_bound_idx_at k (recs t P) (k', None) Hr)|].
  intros m km Hm Hlt. rewrite keys_level0, EL, level_keys_app, level_keys_cons in Hm.
  destruct (decide (m < length (level_keys None t l1))%nat) as [Hin|Hout].
  - rewrite lookup_app_l in Hm by done. apply list_elem_of_lookup_2 in Hm.
    apply elem_of_concat in Hm as (l & Hm & (x & -> & Hx)%list_elem_of_fmap).
    change (erecs None t x) with (recs t x) in Hm.
    apply list_elem_of_fmap in Hm as (r & -> & Hr').
    assert (x ∈ L0) as Hx0 by (rewrite EL; set_solver).
    destruct (alk_Some order None 2 t Ls K Hct Hord ltac:(lia) 0%nat L0 x HL0 Hx0) as [kx Hkx].
    pose proof (Hbefore x kx Hx Hkx).
    assert (r.1 ≤ kx); [|lia].
    apply (key_le_last (recs t x) r kx); [|done|done].
    exact (node_sorted order None None 2 t Ls K Hsh Hct 0 L0 x HL0 Hx0).
  - rewrite lookup_app_r in Hm by lia.
    rewrite lookup_app_l in Hm by (rewrite length_keys; lia).
    unfold keys in Hm. rewrite list_lookup_fmap in Hm.
    destruct (recs t P !! (m - length (level_keys None t l1))%nat) as [r|] eqn:Er; [|done].
    simpl in Hm. injection Hm as <-.
    apply (lower_bound_idx_before k (recs t P) _ r Er). fold i. lia.
Qed.

Lemma lower_bound_loop_leaf k j : ∀ fuel L a,
  Ls !! j = Some L → first_ge t L k a → (j < fuel)%nat →
  ∃ P, first_ge t L0 k P ∧
    lower_bound_loop fuel k (Some a) t =
      Some (mkIt true (Some P) (lower_bound_idx k (recs t P)), t).
Proof.
  induction j as [|j IH]; intros fuel L a HL Hge Hfuel;
    (destruct fuel as [|fuel]; [lia|]).
  all: assert (a ∈ L) as Ha by (destruct Hge as (l1 & l2 & ? & -> & _); set_solver).
  all: simpl; rewrite (bind_run _ _ _ _ _ (load_live t a (sh_live _ _ Hsh _ _ _ HL Ha))).
  all: change (is_leaf (nd t a)) with (leaf t a).
  all: change (records (nd t a)) with (recs t a).
  all: rewrite (sh_leaf _ _ Hsh _ _ _ HL Ha).
  - rewrite bool_decide_eq_true_2 by done. simpl.
    assert (L = L0) as -> by congruence. by exists a.
  - destruct (lookup_lt_is_Some_2 Ls j) as [lo Hlo].
    { apply lookup_lt_Some in HL. lia. }
    destruct (descend_step order None 2 t Ls K Hsh Hct Hord ltac:(lia) j L lo k a HL Hlo Hge)
      as (ki & c & Hr & Hge' & Hlc).
    destruct (IH fuel lo c Hlo Hge' ltac:(lia)) as (P & HP & Hrun).
    exists P. split; [done|]. rewrite bool_decide_eq_false_2 by done. simpl.
    rewrite bool_decide_eq_false_2 by (apply lookup_lt_Some in Hr; lia).
    by rewrite (bind_run _ _ _ _ _ (record_at_run t a _ _ (sh_live _ _ Hsh _ _ _ HL Ha) Hr)).
Qed.

Lemma upper_lower_idx k (l : list RecordPair) :
  upper_bound_idx k l = lower_bound_idx (k + 1) l.
Proof.
  induction l as [|r l IH]; [done|]. simpl. rewrite IH. unfold keycomp.
  destruct (Z.ltb_spec k r.1), (Z.ltb_spec r.1 (k + 1)); try done; lia.
Qed.

Lemma upper_bound_loop_leaf k j : ∀ fuel L a,
  Ls !! j = Some L → first_ge t L (k + 1) a → (j < fuel)%nat →
  ∃ P, first_ge t L0 (k + 1) P ∧
    upper_bound_loop fuel k (Some a) t =
      Some (mkIt true (Some P) (lower_bound_idx (k + 1) (recs t P)), t).
Proof.
  induction j as [|j IH]; intros fuel L a HL Hge Hfuel;
    (destruct fuel as [|fuel]; [lia|]).
  all: assert (a ∈ L) as Ha by (destruct Hge as (l1 & l2 & ? & -> & _); set_solver).
  all: simpl; rewrite (bind_run _ _ _ _ _ (load_live t a (sh_live _ _ Hsh _ _ _ HL Ha))).
  all: change (is_leaf (nd t a)) with (leaf t a).
  all: change (records (nd t a)) with (recs t a).
  all: rewrite (sh_leaf _ _ Hsh _ _ _ HL Ha).
  - rewrite bool_decide_eq_true_2 by done. simpl.
    assert (L = L0) as EL by congruence. rewrite EL in Hge.
    exists a. split; [done|].
    destruct (first_ge_pos (k + 1) a Hge) as (n & k' & (l1 & P & l2 & i & _ & Eit & Hi & _) & _).
    injection Eit as EP Ei. rewrite <- EP in Hi. rewrite upper_lower_idx.
    unfold make_iterator.
    rewrite (bind_run _ _ _ _ _ (load_live t a (sh_live _ _ Hsh _ _ _ HL Ha))).
    change (records (nd t a)) with (recs t a).
    rewrite bool_decide_eq_true_2; [done|]. rewrite Ei. lia.
  - destruct (lookup_lt_is_Some_2 Ls j) as [lo Hlo].
    { apply lookup_lt_Some in HL. lia. }
    destruct (descend_step order None 2 t Ls K Hsh Hct Hord ltac:(lia) j L lo (k + 1) a
                HL Hlo Hge) as (ki & c & Hr & Hge' & Hlc).
    destruct (IH fuel lo c Hlo Hge' ltac:(lia)) as (P & HP & Hrun).
    exists P. split; [done|]. rewrite bool_decide_eq_false_2 by done. simpl.
    rewrite upper_lower_idx.
    rewrite bool_decide_eq_false_2 by (apply lookup_lt_Some in Hr; lia).
    by rewrite (bind_run _ _ _ _ _ (record_at_run t a _ _ (sh_live _ _ Hsh _ _ _ HL Ha) Hr)).
Qed.

(** The root and its last key, which is the greatest key of the tree. *)
Lemma root_key :
  ∃ r kr, Ls !! (length Ls - 1)%nat = Some [r] ∧ m_root t = Some r ∧ live t r ∧
    alk t r = Some kr ∧ kr ∈ K ∧ (∀ x, x ∈ K → x ≤ kr) ∧
    (leaf t r = true → L0 = [r] ∧ nxt t r = Some header) ∧
    (length Ls - 1 < S (base.size (heap t)))%nat.
Proof.
  assert (Ls ≠ []) as Hne by (intros E; rewrite E in HL0; done).
  destruct (root_node order None 2 t Ls K Hsh Hct Hord ltac:(lia) Hne)
    as (r & kr & Htop & Hr & Hkr & Hlr).
  exists r, kr. split; [done|]. split; [done|]. split; [done|]. split; [done|].
  assert (∀ x, x ∈ K → x ≤ kr) as Hmax.
  { intros x Hx.
    exact (key_le_root order None 2 t Ls K Hsh Hct Hord ltac:(lia) x r kr Hx Hr Hkr). }
  split; [|split; [done|split]].
  - destruct (insert_loop_descend order t Ls K Hsh Hct Hord kr (length Ls - 1) 0 [r] r Htop)
      as (L0' & P & HL0' & (l1 & l2 & kP & EL & HkP & Hle & _) & _).
    { exists [], [], kr. split; [done|]. split; [done|]. split; [lia|]. set_solver. }
    rewrite HL0 in HL0'. injection HL0' as <-.
    assert (P ∈ L0) as HP by (rewrite EL; set_solver).
    unfold alk, last_key in HkP. destruct (last (recs t P)) as [q|] eqn:El; [|done].
    injection HkP as <-. apply last_Some_elem_of in El.
    apply list_elem_of_lookup in El as [i Hi].
    destruct (leaf_record order None 2 t Ls K Hct L0 P i q HL0 HP Hi) as [_ Hq].
    pose proof (Hmax _ Hq). by replace kr with q.1 by lia.
  - intros Hleaf. assert (r ∈ [r]) as Hrin by set_solver.
    rewrite (sh_leaf _ _ Hsh _ _ _ Htop Hrin) in Hleaf.
    apply bool_decide_eq_true in Hleaf. rewrite Hleaf in Htop.
    assert (L0 = [r]) as EL by congruence. split; [done|].
    exact (chain_next t Ls 0 [] r [] Hsh ltac:(by rewrite HL0, EL)).
  - pose proof (levels_bound _ _ Hsh). lia.
Qed.

Lemma lower_bound_pos k kx :
  kx ∈ K → k ≤ kx →
  ∃ it n k', lower_bound k t = Some (it, t) ∧ at_pos t L0 n it ∧
    K !! n = Some k' ∧ k ≤ k' ∧ ∀ m km, K !! m = Some km → (m < n)%nat → km < k.
Proof.
  intros Hkx Hle.
  destruct root_key as (r & kr & Htop & Hr & Hlr & Hkr & _ & Hmax & _ & Hfuel).
  unfold lower_bound, loop_bound, get_root.
  rewrite (bind_run _ _ t (S (base.size (heap t))) t eq_refl).
  rewrite (bind_run _ _ t (m_root t) t eq_refl). rewrite Hr.
  destruct (lower_bound_loop_leaf k (length Ls - 1) (S (base.size (heap t))) [r] r Htop)
    as (P & HP & Hrun); [|done|].
  { exists [], [], kr. split; [done|]. split; [done|].
    split; [specialize (Hmax kx Hkx); lia|]. set_solver. }
  destruct (first_ge_pos k P HP) as (n & k' & Hp & Hk' & Hle' & Hbefore).
  by exists (mkIt true (Some P) (lower_bound_idx k (recs t P))), n, k'.
Qed.

Lemma upper_bound_pos k kx :
  kx ∈ K → k < kx →
  ∃ it n k', upper_bound k t = Some (it, t) ∧ at_pos t L0 n it ∧
    K !! n = Some k' ∧ k < k' ∧ ∀ m km, K !! m = Some km → (m < n)%nat → km ≤ k.
Proof.
  intros Hkx Hle.
  destruct root_key as (r & kr & Htop & Hr & Hlr & Hkr & _ & Hmax & _ & Hfuel).
  unfold upper_bound, loop_bound, get_root.
  rewrite (bind_run _ _ t (S (base.size (heap t))) t eq_refl).
  rewrite (bind_run _ _ t (m_root t) t eq_refl). rewrite Hr.
  destruct (upper_bound_loop_leaf k (length Ls - 1) (S (base.size (heap t))) [r] r Htop)
    as (P & HP & Hrun); [|done|].
  { exists [], [], kr. split; [done|]. split; [done|].
    split; [specialize (Hmax kx Hkx); lia|]. set_solver. }
  destruct (first_ge_pos (k + 1) P HP) as (n & k' & Hp & Hk' & Hle' & Hbefore).
  exists (mkIt true (Some P) (lower_bound_idx (k + 1) (recs t P))), n, k'.
  split; [done|]. split; [done|]. split; [done|]. split; [lia|].
  intros m km Hm Hlt. specialize (Hbefore m km Hm Hlt). lia.
Qed.

Lemma root_records_below k :
  (∀ x, x ∈ K → x < k) →
  ∃ r, m_root t = Some r ∧ live t r ∧ Forall (λ q : RecordPair, q.1 < k) (recs t r) ∧
    (leaf t r = true → nxt t r = Some header).
Proof.
  intros Hall.
  destruct root_key as (r & kr & Htop & Hr & Hlr & Hkr & HkrK & Hmax & Hleaf & Hfuel).
  exists r. split; [done|]. split; [done|]. split; [|by intros [_ ?]%Hleaf].
  assert (r ∈ [r]) as Hrin by set_solver.
  pose proof (node_sorted order None None 2 t Ls K Hsh Hct _ _ r Htop Hrin) as Hs.
  change (erecs None t r) with (recs t r) in Hs.
  apply Forall_forall. intros q Hq.
  pose proof (key_le_last _ _ _ Hs Hq Hkr). specialize (Hall kr HkrK). lia.
Qed.

Lemma lower_bound_past k :
  (∀ x, x ∈ K → x < k) →
  ∃ r, m_root t = Some r ∧
    lower_bound k t =
      Some (if leaf t r then mkIt true (Some r) (length (recs t r)) else make_end, t).
Proof.
  intros Hall. destruct (root_records_below k Hall) as (r & Hr & Hlr & Hrs & _).
  exists r. split; [done|].
  unfold lower_bound, loop_bound, get_root.
  rewrite (bind_run _ _ t (S (base.size (heap t))) t eq_refl).
  rewrite (bind_run _ _ t (m_root t) t eq_refl). rewrite Hr. simpl.
  rewrite (bind_run _ _ _ _ _ (load_live t r Hlr)).
  change (is_leaf (nd t r)) with (leaf t r). change (records (nd t r)) with (recs t r).
  rewrite lower_bound_idx_all by done.
  destruct (leaf t r); simpl; [done|]. by rewrite bool_decide_eq_true_2.
Qed.

Lemma upper_bound_past k :
  (∀ x, x ∈ K → x ≤ k) → upper_bound k t = Some (make_end, t).
Proof.
  intros Hall.
  destruct (root_records_below (k + 1)) as (r & Hr & Hlr & Hrs & Hnx).
  { intros x Hx. specialize (Hall x Hx). lia. }
  unfold upper_bound, loop_bound, get_root.
  rewrite (bind_run _ _ t (S (base.size (heap t))) t eq_refl).
  rewrite (bind_run _ _ t (m_root t) t eq_refl). rewrite Hr. simpl.
  rewrite (bind_run _ _ _ _ _ (load_live t r Hlr)).
  change (is_leaf (nd t r)) with (leaf t r). change (records (nd t r)) with (recs t r).
  rewrite upper_lower_idx, lower_bound_idx_all by done.
  destruct (leaf t r) eqn:El; simpl.
  - unfold make_iterator. rewrite (bind_run _ _ _ _ _ (load_live t r Hlr)).
    change (records (nd t r)) with (recs t r). fold (nxt t r).
    rewrite bool_decide_eq_false_2 by (intros ?; done).
    rewrite (Hnx eq_refl). unfold ptr_eqb. by rewrite bool_decide_eq_true_2.
  - by rewrite bool_decide_eq_true_2.
Qed.

End Positions.

(** The range-based [for] yields the list of the keys. *)
Lemma traverse_spec order t Ls K :
  WF order t Ls K → (2 ≤ order)%nat → traverse t = Some (K, t).
Proof.
  intros [Hsh Hct] Hord. unfold traverse, get_size.
  rewrite (bind_run _ _ t (m_size t) t eq_refl).
  destruct (Ls !! 0%nat) as [L0|] eqn:HL0.
  - destruct (begin_pos order t Ls K Hsh Hct Hord L0 HL0) as (it & Hb & Hp).
    rewrite (bind_run _ _ _ _ _ Hb).
    rewrite (walk_pos order t Ls K Hsh Hct Hord L0 HL0 (length K) 0 it (S (m_size t)) Hp);
      [done|lia|]. rewrite (ct_size _ _ _ _ _ _ _ Hct). lia.
  - pose proof (ct_keys _ _ _ _ _ _ _ Hct) as EK. rewrite HL0 in EK. simpl in EK. subst K.
    pose proof (ct_size _ _ _ _ _ _ _ Hct) as Hsz. simpl in Hsz.
    unfold begin, get_size. rewrite bind_assoc.
    rewrite (bind_run _ _ t (m_size t) t eq_refl). rewrite Hsz. simpl. done.
Qed.

(** ** Sorted lists of keys *)

Lemma sorted_lookup_lt (K : list Z) : ∀ i j a b,
  StronglySorted Z.lt K → K !! i = Some a → K !! j = Some b → (i < j)%nat → a < b.
Proof.
  intros i j a b Hs. revert i j. induction Hs as [|x K Hs IH Hx]; intros i j Hi Hj Hlt.
  - done.
  - destruct j as [|j]; [lia|]. simpl in Hj. destruct i as [|i]; simpl in Hi.
    + injection Hi as <-. rewrite Forall_forall in Hx. apply Hx.
      by eapply list_elem_of_lookup_2.
    + apply (IH i j); [done|done|lia].
Qed.

Lemma sorted_lookup_inj (K : list Z) i j a :
  StronglySorted Z.lt K → K !! i = Some a → K !! j = Some a → i = j.
Proof.
  intros Hs Hi Hj. destruct (Nat.lt_total i j) as [H|[H|H]]; [|done|].
  - pose proof (sorted_lookup_lt K i j a a Hs Hi Hj H). lia.
  - pose proof (sorted_lookup_lt K j i a a Hs Hj Hi H). lia.
Qed.

Lemma sorted_lookup_lt_inv (K : list Z) i j a b :
  StronglySorted Z.lt K → K !! i = Some a → K !! j = Some b → a < b → (i < j)%nat.
Proof.
  intros Hs Hi Hj Hlt. destruct (Nat.lt_total i j) as [H|[H|H]]; [done| |].
  - subst j. rewrite Hi in Hj. injection Hj as ->. lia.
  - pose proof (sorted_lookup_lt K j i b a Hs Hj Hi H). lia.
Qed.

Lemma idx_min (K : list Z) k :
  StronglySorted Z.lt K → k ∈ K → (∀ x, x ∈ K → k ≤ x) → K !! 0%nat = Some k.
Proof.
  intros Hs [n Hn]%list_elem_of_lookup Hmin.
  destruct n as [|n]; [done|].
  destruct (lookup_lt_is_Some_2 K 0) as [k0 H0]; [apply lookup_lt_Some in Hn; lia|].
  pose proof (sorted_lookup_lt K 0 (S n) k0 k Hs H0 Hn ltac:(lia)).
  specialize (Hmin k0 (list_elem_of_lookup_2 _ _ _ H0)). lia.
Qed.

Lemma idx_max (K : list Z) k :
  StronglySorted Z.lt K → k ∈ K → (∀ x, x ∈ K → x ≤ k) →
  K !! Nat.pred (length K) = Some k.
Proof.
  intros Hs [n Hn]%list_elem_of_lookup Hmax.
  pose proof (lookup_lt_Some _ _ _ Hn) as Hlt.
  destruct (decide (n = Nat.pred (length K))) as [<-|Hne]; [done|].
  destruct (lookup_lt_is_Some_2 K (Nat.pred (length K))) as [k1 H1]; [lia|].
  pose proof (sorted_lookup_lt K n _ k k1 Hs Hn H1 ltac:(lia)).
  specialize (Hmax k1 (list_elem_of_lookup_2 _ _ _ H1)). lia.
Qed.

Lemma idx_succ (K : list Z) n k k' :
  StronglySorted Z.lt K → K !! n = Some k → k' ∈ K → k < k' →
  (∀ x, x ∈ K → k < x → k' ≤ x) → K !! S n = Some k'.
Proof.
  intros Hs Hn [m Hm]%list_elem_of_lookup Hlt Hnext.
  pose proof (sorted_lookup_lt_inv K n m k k' Hs Hn Hm Hlt) as Hnm.
  destruct (decide (m = S n)) as [->|Hne]; [done|].
  destruct (lookup_lt_is_Some_2 K (S n)) as [k1 H1]; [apply lookup_lt_Some in Hm; lia|].
  pose proof (sorted_lookup_lt K n (S n) k k1 Hs Hn H1 ltac:(lia)).
  pose proof (sorted_lookup_lt K (S n) m k1 k' Hs H1 Hm ltac:(lia)).
  specialize (Hnext k1 (list_elem_of_lookup_2 _ _ _ H1)). lia.
Qed.

Lemma idx_pred (K : list Z) n k k' :
  StronglySorted Z.lt K → K !! n = Some k → k' ∈ K → k' < k →
  (∀ x, x ∈ K → x < k → x ≤ k') → ∃ m, n = S m ∧ K !! m = Some k'.
Proof.
  intros Hs Hn [m Hm]%list_elem_of_lookup Hlt Hprev.
  pose proof (sorted_lookup_lt_inv K m n k' k Hs Hm Hn Hlt) as Hmn.
  destruct n as [|n]; [lia|]. exists n. split; [done|].
  destruct (decide (m = n)) as [->|Hne]; [done|].
  destruct (lookup_lt_is_Some_2 K n) as [k1 H1]; [apply lookup_lt_Some in Hn; lia|].
  pose proof (sorted_lookup_lt K n (S n) k1 k Hs H1 Hn ltac:(lia)).
  pose proof (sorted_lookup_lt K m n k' k1 Hs Hm H1 ltac:(lia)).
  specialize (Hprev k1 (list_elem_of_lookup_2 _ _ _ H1)). lia.
Qed.

Lemma idx_lower (K : list Z) k n k' kk :
  StronglySorted Z.lt K → K !! n = Some k' → k ≤ k' →
  (∀ m km, K !! m = Some km → (m < n)%nat → km < k) →
  kk ∈ K → k ≤ kk → (∀ x, x ∈ K → k ≤ x → kk ≤ x) → kk = k'.
Proof.
  intros Hs Hn Hle Hbefore [j Hj]%list_elem_of_lookup Hkk Hmin.
  specialize (Hmin k' (list_elem_of_lookup_2 _ _ _ Hn) Hle).
  destruct (decide (kk = k')) as [|Hne]; [done|]. exfalso.
  pose proof (sorted_lookup_lt_inv K j n kk k' Hs Hj Hn ltac:(lia)) as Hjn.
  specialize (Hbefore j kk Hj Hjn). lia.
Qed.

(** ** Handles *)

Lemma it_eq_end (it : iterator) :
  it_tree it = true → it_node it = None → it_eq it make_end = true.
Proof. destruct it as [b p i]. simpl. intros -> ->. unfold it_eq. simpl. done. Qed.

Lemma it_eq_refl (it : iterator) : it_eq it it = true.
Proof.
  destruct it as [[] [a|] i]; unfold it_eq, ptr_eqb; simpl; try done.
  by rewrite !bool_decide_eq_true_2.
Qed.

Lemma it_eq_pos P i (it : iterator) :
  it_eq (mkIt true (Some P) i) it = true → it = mkIt true (Some P) i.
Proof.
  destruct it as [[] [a|] j]; unfold it_eq, ptr_eqb; simpl; try done.
  intros [[= ->]%bool_decide_eq_true ->%bool_decide_eq_true]%andb_true_iff. done.
Qed.

Lemma deref_past t P : live t P → deref (mkIt true (Some P) (length (recs t P))) t = None.
Proof.
  intros Hl. unfold deref, record_at. simpl. rewrite bind_assoc.
  rewrite (bind_run _ _ _ _ _ (load_live t P Hl)). fold (recs t P).
  by rewrite lookup_ge_None_2.
Qed.

Lemma incr_past t P :
  m_root t ≠ None → live t P → incr (mkIt true (Some P) (length (recs t P))) t = None.
Proof.
  intros Hr Hl. unfold incr, get_root.
  rewrite (bind_run _ _ t (m_root t) t eq_refl). simpl.
  unfold ptr_eqb. rewrite bool_decide_eq_false_2 by done.
  rewrite (bind_run _ _ _ _ _ (load_live t P Hl)). fold (recs t P).
  by rewrite bool_decide_eq_true_2.
Qed.

Lemma incr_end t i : m_root t ≠ None → incr (mkIt true None i) t = None.
Proof.
  intros Hr. unfold incr, get_root.
  rewrite (bind_run _ _ t (m_root t) t eq_refl). simpl.
  unfold ptr_eqb. rewrite bool_decide_eq_false_2 by done. done.
Qed.

(** The states of a program: well-formed, over the sorted list of the
    keys, and either without a node or with a level of leaves. *)
Lemma reach_view order t X :
  (2 ≤ order)%nat → reach order t X →
  ∃ Ls K, shape t Ls ∧ content order None None 2 t Ls K ∧ StronglySorted Z.lt K ∧
    (∀ k, k ∈ K ↔ k ∈ X) ∧
    ((Ls = [] ∧ K = [] ∧ m_root t = None ∧ m_size t = 0%nat) ∨
     (∃ L0, Ls !! 0%nat = Some L0)).
Proof.
  intros Hord Hr. destruct (reach_WF order t X Hord Hr) as (Ls & K & [Hsh Hct] & HK).
  exists Ls, K. split; [done|]. split; [done|].
  split; [exact (ct_sorted _ _ _ _ _ _ _ Hct)|]. split; [done|].
  destruct Ls as [|L0 Ls]; [left|right; by exists L0].
  pose proof (ct_keys _ _ _ _ _ _ _ Hct) as EK. simpl in EK. subst K.
  split; [done|]. split; [done|]. split; [exact (sh_root _ _ Hsh)|].
  exact (ct_size _ _ _ _ _ _ _ Hct).
Qed.

(** The trees built by a run of insertions are states of a program. *)
Lemma reach_sample (order : nat) (ks : list Z) :
  (2 ≤ order)%nat →
  reach order (state_after (insert_keys order ks) empty_tree) (list_to_set ks).
Proof.
  intros Hord.
  destruct (reach_insert_keys order Hord ks empty_tree ∅ (reach_empty order))
    as (t' & Hrun & Hr).
  unfold state_after. rewrite Hrun.
  replace (list_to_set ks : gset Z) with (list_to_set ks ∪ ∅ : gset Z) by set_solver.
  done.
Qed.

(** ** Borrowing in a deletion repair *)

(** [erase] enters the repair on the state with the size counter already
    decremented. *)
Lemma reach_repairing order t X k P i :
  (2 ≤ order)%nat → reach order t X →
  find k t = Some (mkIt true (Some P) i, t) → (2 ≤ m_size t)%nat →
  repairing order (with_size (Nat.pred (m_size t)) t) P i.
Proof.
  intros Hord Hr Hf Hsz.
  destruct (reach_WF order t X Hord Hr) as (Ls & K & [Hsh Hct] & HK).
  destruct (find_spec order None 2 t Ls K Hsh Hct Hord ltac:(lia) k) as (it & Hf' & Hfinds).
  rewrite Hf in Hf'. injection Hf' as <-.
  destruct Hfinds as [(Hk & P' & i' & L0 & Eit & HL0 & HP & Hrec)|[_ Heq]]; [|done].
  injection Eit as <- <-.
  destruct (enter_holed order t Ls K (conj Hsh Hct) Hord L0 P i k HL0 HP Hrec)
    as (K1 & K2 & _ & Hh).
  { by rewrite <- (ct_size _ _ _ _ _ _ _ Hct). }
  by exists Ls, (K1 ++ K2), 0%nat.
Qed.

(** C5, as the code has it: in a deletion repair on a node [P] other
    than the root, the classifier answers BORROW_RIGHT (BORROW_LEFT) only
    when the [next] ([pre]) neighbour of [P] in the chain of its level is
    a node other than the header that holds more than [half_order], that
    is [(order + 1) / 2] rounded down, records; the parent of that
    neighbour is not looked at.  [erase_helper] then removes the record
    at [i] from [P] and moves the first record of the [next] neighbour
    behind the records of [P] (the last record of the [pre] neighbour in
    front of them); the neighbour keeps its other records. *)
Theorem borrow_only_from_a_lending_neighbour
    (order : nat) (t t0 : tree) (P : addr) (i : nat) (s : EraseStrategy) :
  repairing order t P i → m_root t ≠ Some P →
  erase_strategy order (Some P) i t = Some (s, t0) →
  (s = BORROW_RIGHT →
     ∃ R rf tl t', nxt t P = Some R ∧ R ≠ header ∧ live t R ∧
       (half_order order < length (recs t R))%nat ∧ recs t R = rf :: tl ∧
       erase_helper order (Some P) i t = Some ((false, (Some P, i)), t') ∧
       recs t' P = base.delete i (recs t P) ++ [rf] ∧ recs t' R = tl) ∧
  (s = BORROW_LEFT →
     ∃ Lf init ll t', prv t P = Some Lf ∧ Lf ≠ header ∧ live t Lf ∧
       (half_order order < length (recs t Lf))%nat ∧ recs t Lf = init ++ [ll] ∧
       erase_helper order (Some P) i t = Some ((false, (Some P, i)), t') ∧
       recs t' P = ll :: base.delete i (recs t P) ∧ recs t' Lf = init).
Proof.
  intros (Ls & K & j & Hh) Hroot Hs.
  rewrite (erase_strategy_holed order t Ls K j P i Hh) in Hs.
  rewrite decide_False in Hs by done. injection Hs as <- <-.
  split; intros Hcl.
  - destruct (arm_borrow_right_records order t Ls K j P i Hh Hroot Hcl)
      as (t' & R & rf & tl & HnR & HlR & ER & Hrun & HP' & HR' & _).
    apply classify_borrow_right_inv in Hcl as [Hlend _].
    change (next (nd t P)) with (nxt t P) in Hlend. rewrite HnR in Hlend.
    pose proof (lends_not_end _ _ _ Hlend) as He.
    apply lends_inv in Hlend as [_ Hlen].
    exists R, rf, tl, t'. split; [done|]. split; [by intros ->|]. done.
  - destruct (arm_borrow_left_records order t Ls K j P i Hh Hroot Hcl)
      as (t' & Lf & init & ll & HpL & HlL & EL & Hrun & HP' & HL' & _).
    apply classify_borrow_left_inv in Hcl as [Hlend _].
    change (pre (nd t P)) with (prv t P) in Hlend. rewrite HpL in Hlend.
    pose proof (lends_not_end _ _ _ Hlend) as He.
    apply lends_inv in Hlend as [_ Hlen].
    exists Lf, init, ll, t'. split; [done|]. split; [by intros ->|]. done.
Qed.

Lemma borrow_only_from_a_lending_neighbour_witness :
  let X : gset Z := list_to_set [8; 9; 17; 14; 1; 19; 6; 15; 12] in
  let t := with_size (Nat.pred (m_size sample_cousins)) sample_cousins in
  (erase_strategy 3 (Some 2%nat) 0 t = Some (BORROW_RIGHT, t) ∧
   ∃ R rf tl t', nxt t 2%nat = Some R ∧ R ≠ header ∧ live t R ∧
     (half_order 3 < length (recs t R))%nat ∧ recs t R = rf :: tl ∧
     erase_helper 3 (Some 2%nat) 0 t = Some ((false, (Some 2%nat, 0%nat)), t') ∧
     recs t' 2%nat = base.delete 0%nat (recs t 2%nat) ++ [rf] ∧ recs t' R = tl) ∧
  (erase_strategy 3 (Some 1%nat) 0 t = Some (BORROW_LEFT, t) ∧
   ∃ Lf init ll t', prv t 1%nat = Some Lf ∧ Lf ≠ header ∧ live t Lf ∧
     (half_order 3 < length (recs t Lf))%nat ∧ recs t Lf = init ++ [ll] ∧
     erase_helper 3 (Some 1%nat) 0 t = Some ((false, (Some 1%nat, 0%nat)), t') ∧
     recs t' 1%nat = ll :: base.delete 0%nat (recs t 1%nat) ∧ recs t' Lf = init).
Proof.
  intros X t.
  assert (Hreach : reach 3 sample_cousins X).
  { apply (reach_sample 3 [8; 9; 17; 14; 1; 19; 6; 15; 12]). lia. }
  assert (Hsz : (2 ≤ m_size sample_cousins)%nat) by (vm_compute; lia).
  assert (H2 : repairing 3 t 2%nat 0).
  { apply (reach_repairing 3 sample_cousins X 8 2%nat 0%nat); [lia|exact Hreach| |exact Hsz].
    vm_compute. reflexivity. }
  assert (H1 : repairing 3 t 1%nat 0).
  { apply (reach_repairing 3 sample_cousins X 17 1%nat 0%nat); [lia|exact Hreach| |exact Hsz].
    vm_compute. reflexivity. }
  assert (Hs2 : erase_strategy 3 (Some 2%nat) 0 t = Some (BORROW_RIGHT, t))
    by (vm_compute; reflexivity).
  assert (Hs1 : erase_strategy 3 (Some 1%nat) 0 t = Some (BORROW_LEFT, t))
    by (vm_compute; reflexivity).
  assert (Hr2 : m_root t ≠ Some 2%nat) by (vm_compute; discriminate).
  assert (Hr1 : m_root t ≠ Some 1%nat) by (vm_compute; discriminate).
  split; (split; [assumption|]).
  - exact (proj1 (borrow_only_from_a_lending_neighbour 3 t t 2%nat 0%nat BORROW_RIGHT
                    H2 Hr2 Hs2) eq_refl).
  - exact (proj2 (borrow_only_from_a_lending_neighbour 3 t t 1%nat 0%nat BORROW_LEFT
                    H1 Hr1 Hs1) eq_refl).
Defined.

(** C5, as stated, fails in two ways.  In [sample_cousins] the leaf at
    address 2 (keys 8 and 9, parent 6) is answered BORROW_RIGHT although
    its right neighbour, the leaf at address 5, has parent 3; erasing key
    8 moves key 12 from that leaf into the leaf at address 2.  In
    [sample_4], of order 4, the leaf at address 2 (keys 1 and 2) is
    answered BORROW_RIGHT although its right sibling, the leaf at address
    1, holds 3 records, which is not more than the [h] of the claim, the
    least integer not below [(4 + 1) / 2]; the threshold of the code is
    [half_order 4], which is 2; erasing key 1 moves key 7. *)
Lemma borrow_from_another_parent_and_at_the_threshold :
  (result (erase_strategy 3 (Some 2%nat) 0) sample_cousins = Some BORROW_RIGHT ∧
   parent_of sample_cousins 2%nat = Some (Some 6%nat) ∧
   (next <$> heap sample_cousins !! 2%nat) = Some (Some 5%nat) ∧
   parent_of sample_cousins 5%nat = Some (Some 3%nat) ∧
   records_of sample_cousins 5%nat = Some [(12, None); (14, None); (15, None)] ∧
   records_of (state_after (erase_helper 3 (Some 2%nat) 0) sample_cousins) 2%nat
     = Some [(9, None); (12, None)] ∧
   records_of (state_after (erase_helper 3 (Some 2%nat) 0) sample_cousins) 5%nat
     = Some [(14, None); (15, None)]) ∧
  (result (erase_strategy 4 (Some 2%nat) 0) sample_4 = Some BORROW_RIGHT ∧
   (next <$> heap sample_4 !! 2%nat) = Some (Some 1%nat) ∧
   parent_of sample_4 2%nat = parent_of sample_4 1%nat ∧
   records_of sample_4 2%nat = Some [(1, None); (2, None)] ∧
   records_of sample_4 1%nat = Some [(7, None); (8, None); (9, None)] ∧
   (2 * (3 - 1) < 4 + 1 ≤ 2 * 3)%nat ∧ half_order 4 = 2%nat ∧
   records_of (state_after (erase_helper 4 (Some 2%nat) 0) sample_4) 2%nat
     = Some [(2, None); (7, None)] ∧
   records_of (state_after (erase_helper 4 (Some 2%nat) 0) sample_4) 1%nat
     = Some [(8, None); (9, None)]).
Proof.
  split; [vm_compute; by repeat split|].
  repeat split; try lia; vm_compute; reflexivity.
Qed.

(** ** Lookup, insertion and removal in the states of a program *)

(** X1: in every state a program reaches, [find(k)] returns without
    changing the tree; when [k] is stored the handle dereferences to [k]
    and differs from [end()], when [k] is not stored the handle is
    [end()]. *)
Theorem find_returns_the_key_or_end (order : nat) (t : tree) (X : gset Z) (k : Z) :
  reach order t X → (2 ≤ order)%nat →
  ∃ it, find k t = Some (it, t) ∧
    (k ∈ X → deref it t = Some (k, t) ∧ it_eq it make_end = false) ∧
    (k ∉ X → it = make_end).
Proof.
  intros Hr Hord. destruct (reach_find order Hord t X k Hr) as (it & Hf & Hcase).
  exists it. split; [done|].
  destruct Hcase as [(Hk & P & i & -> & Hl & Hrec)|[Hk ->]].
  - split; [|done]. intros _. exact (deref_run t P i (k, None) true Hl Hrec).
  - split; [done|]. done.
Qed.

Lemma find_returns_the_key_or_end_witness :
  let X : gset Z := list_to_set [8; 9; 17; 14; 1; 19; 6; 15; 12] in
  ∃ it, find 14 sample_cousins = Some (it, sample_cousins) ∧
    (14 ∈ X → deref it sample_cousins = Some (14, sample_cousins) ∧
              it_eq it make_end = false) ∧
    (14 ∉ X → it = make_end).
Proof.
  intros X. apply (find_returns_the_key_or_end 3 sample_cousins X 14).
  - apply (reach_sample 3 [8; 9; 17; 14; 1; 19; 6; 15; 12]). lia.
  - lia.
Defined.

(** X2: [insert(k)] of a key that is not stored returns [true] with a
    handle that dereferences to [k], the size counter grows by one, every
    key stored before is still found and [k] is found. *)
Theorem insert_adds_a_new_key (order : nat) (t : tree) (X : gset Z) (k : Z) :
  reach order t X → (2 ≤ order)%nat → k ∉ X →
  ∃ it t', insert order k t = Some ((it, true), t') ∧
    deref it t' = Some (k, t') ∧ m_size t' = S (m_size t) ∧
    ∀ k', k' = k ∨ k' ∈ X →
      ∃ it', find k' t' = Some (it', t') ∧ deref it' t' = Some (k', t').
Proof.
  intros Hr Hord Hk.
  destruct (reach_insert_run order Hord t X k Hr) as (Q & i & t' & Hrun & Hl & Hrec & _ & Hsz).
  rewrite bool_decide_eq_true_2 in Hrun by done.
  exists (mkIt true (Some Q) i), t'. split; [done|].
  split; [exact (proj1 (deref_run t' Q i (k, None) true Hl Hrec))|]. split; [by apply Hsz|].
  intros k' Hk'.
  pose proof (reach_insert order t X k _ t' Hr Hrun) as Hr'.
  destruct (reach_find order Hord t' _ k' Hr') as (it' & Hf & Hcase).
  exists it'. split; [done|].
  destruct Hcase as [(_ & P & i' & -> & Hl' & Hrec')|[Hn _]].
  - exact (proj1 (deref_run t' P i' (k', None) true Hl' Hrec')).
  - exfalso. apply Hn. set_solver.
Qed.

Lemma insert_adds_a_new_key_witness :
  let X : gset Z := list_to_set [8; 9; 17; 14; 1; 19; 6; 15; 12] in
  13 ∉ X ∧
  ∃ it t', insert 3 13 sample_cousins = Some ((it, true), t') ∧
    deref it t' = Some (13, t') ∧ m_size t' = S (m_size sample_cousins) ∧
    ∀ k', k' = 13 ∨ k' ∈ X →
      ∃ it', find k' t' = Some (it', t') ∧ deref it' t' = Some (k', t').
Proof.
  intros X. assert (H13 : 13 ∉ X) by (unfold X; simpl; set_solver).
  split; [exact H13|].
  apply (insert_adds_a_new_key 3 sample_cousins X 13).
  - apply (reach_sample 3 [8; 9; 17; 14; 1; 19; 6; 15; 12]). lia.
  - lia.
  - exact H13.
Defined.

(** X3: [insert(k)] of a key that is stored returns [false] with a
    handle that dereferences to [k] and the tree is the one before the
    call: root, size counter and every node. *)
Theorem insert_of_a_stored_key_changes_nothing (order : nat) (t : tree) (X : gset Z) (k : Z) :
  reach order t X → (2 ≤ order)%nat → k ∈ X →
  ∃ it, insert order k t = Some ((it, false), t) ∧ deref it t = Some (k, t).
Proof.
  intros Hr Hord Hk.
  destruct (reach_insert_run order Hord t X k Hr) as (Q & i & t' & Hrun & Hl & Hrec & Heq & _).
  rewrite bool_decide_eq_false_2 in Hrun by tauto.
  rewrite (Heq Hk) in *.
  exists (mkIt true (Some Q) i). split; [done|].
  exact (proj1 (deref_run t Q i (k, None) true Hl Hrec)).
Qed.

Lemma insert_of_a_stored_key_changes_nothing_witness :
  let X : gset Z := list_to_set [8; 9; 17; 14; 1; 19; 6; 15; 12] in
  15 ∈ X ∧
  ∃ it, insert 3 15 sample_cousins = Some ((it, false), sample_cousins) ∧
    deref it sample_cousins = Some (15, sample_cousins).
Proof.
  intros X. assert (H15 : 15 ∈ X) by (unfold X; simpl; set_solver).
  split; [exact H15|].
  apply (insert_of_a_stored_key_changes_nothing 3 sample_cousins X 15).
  - apply (reach_sample 3 [8; 9; 17; 14; 1; 19; 6; 15; 12]). lia.
  - lia.
  - exact H15.
Defined.

(** X4: [erase] at the handle that [find(k)] returned for a stored key
    returns (no exception), the size counter drops by one, [k] is not
    found afterwards, every other stored key is still found and no key
    appears. *)
Theorem erase_removes_the_key (order : nat) (t : tree) (X : gset Z) (k : Z) (it : iterator) :
  reach order t X → (2 ≤ order)%nat →
  find k t = Some (it, t) → it_eq it make_end = false →
  ∃ r t', erase order it t = Some (erased r, t') ∧
    S (m_size t') = m_size t ∧
    ∀ k', ∃ it', find k' t' = Some (it', t') ∧
      (k' ∈ X → k' ≠ k → deref it' t' = Some (k', t')) ∧
      (k' = k ∨ k' ∉ X → it' = make_end).
Proof.
  intros Hr Hord Hf Hne.
  destruct (reach_erase_run order Hord t X k it Hr Hf Hne) as (r & t' & Hrun & Hk & Hsz & Hpos).
  exists r, t'. split; [done|]. split; [lia|].
  intros k'. pose proof (reach_erase order t X k it _ t' Hr Hf Hne Hrun) as Hr'.
  destruct (reach_find order Hord t' _ k' Hr') as (it' & Hf' & Hcase).
  exists it'. split; [done|].
  destruct Hcase as [(Hin & P & i' & -> & Hl' & Hrec')|[Hn ->]].
  - split.
    + intros _ _. exact (proj1 (deref_run t' P i' (k', None) true Hl' Hrec')).
    + intros [->|Hn]; set_solver.
  - split; [|done]. intros Hin Hkk. exfalso. apply Hn. set_solver.
Qed.

Lemma erase_removes_the_key_witness :
  let X : gset Z := list_to_set [8; 9; 17; 14; 1; 19; 6; 15; 12] in
  let it := mkIt true (Some 2%nat) 0 in
  find 8 sample_cousins = Some (it, sample_cousins) ∧
  ∃ r t', erase 3 it sample_cousins = Some (erased r, t') ∧
    S (m_size t') = m_size sample_cousins ∧
    ∀ k', ∃ it', find k' t' = Some (it', t') ∧
      (k' ∈ X → k' ≠ 8 → deref it' t' = Some (k', t')) ∧
      (k' = 8 ∨ k' ∉ X → it' = make_end).
Proof.
  intros X it.
  assert (Hf : find 8 sample_cousins = Some (it, sample_cousins))
    by (vm_compute; reflexivity).
  split; [exact Hf|].
  apply (erase_removes_the_key 3 sample_cousins X 8 it).
  - apply (reach_sample 3 [8; 9; 17; 14; 1; 19; 6; 15; 12]). lia.
  - lia.
  - exact Hf.
  - reflexivity.
Defined.

(** X5: [size()] is the number of stored keys and [empty()] tells
    whether there is none; the root pointer is null exactly then. *)
Theorem size_counts_the_stored_keys (order : nat) (t : tree) (X : gset Z) :
  reach order t X → (2 ≤ order)%nat →
  size t = Some (base.size X, t) ∧ empty t = Some (bool_decide (X = ∅), t) ∧
  (m_root t = None ↔ X = ∅).
Proof.
  intros Hr Hord. pose proof (reach_size order Hord t X Hr) as Hsz.
  split; [|split].
  - unfold size, get_size. by rewrite Hsz.
  - unfold empty, get_size. rewrite (bind_run _ _ t (m_size t) t eq_refl). rewrite Hsz.
    unfold ret. do 2 f_equal. apply bool_decide_ext. rewrite size_empty_iff. by unfold_leibniz.
  - exact (reach_root order Hord t X Hr).
Qed.

Lemma size_counts_the_stored_keys_witness :
  let X : gset Z := list_to_set [8; 9; 17; 14; 1; 19; 6; 15; 12] in
  size sample_cousins = Some (base.size X, sample_cousins) ∧
  empty sample_cousins = Some (bool_decide (X = ∅), sample_cousins) ∧
  (m_root sample_cousins = None ↔ X = ∅).
Proof.
  intros X. apply (size_counts_the_stored_keys 3 sample_cousins X).
  - apply (reach_sample 3 [8; 9; 17; 14; 1; 19; 6; 15; 12]). lia.
  - lia.
Defined.

(** X6: [clear()] returns on every state a program reaches and leaves the
    state of a newly constructed tree as far as the members go: a null
    root, size zero, a header linked to itself; no key is found after
    it. *)
Theorem clear_empties_the_tree (order : nat) (t : tree) (X : gset Z) :
  reach order t X → (2 ≤ order)%nat →
  ∃ t', clear t = Some (tt, t') ∧
    m_root t' = None ∧ m_size t' = 0%nat ∧
    live t' header ∧ nxt t' header = Some header ∧ prv t' header = Some header ∧
    ∀ k, find k t' = Some (make_end, t').
Proof.
  intros Hr Hord.
  destruct (reach_clear_run order Hord t X Hr) as (t' & Hrun & Hroot & Hsz & Hn & Hp & Hl).
  exists t'. split; [done|]. split; [done|]. split; [done|].
  split; [done|]. split; [done|]. split; [done|].
  intros k. pose proof (reach_clear order t X t' Hr Hrun) as Hr'.
  destruct (reach_find order Hord t' ∅ k Hr') as (it & Hf & [(Hin & _)|[_ ->]]); [|done].
  set_solver.
Qed.

Lemma clear_empties_the_tree_witness :
  ∃ t', clear sample_cousins = Some (tt, t') ∧
    m_root t' = None ∧ m_size t' = 0%nat ∧
    live t' header ∧ nxt t' header = Some header ∧ prv t' header = Some header ∧
    ∀ k, find k t' = Some (make_end, t').
Proof.
  apply (clear_empties_the_tree 3 sample_cousins
           (list_to_set [8; 9; 17; 14; 1; 19; 6; 15; 12])).
  - apply (reach_sample 3 [8; 9; 17; 14; 1; 19; 6; 15; 12]). lia.
  - lia.
Defined.

(** X7: the two loops of [main] in [example.cpp], run on any keys: every
    [insert] and every [find] and [erase] returns, and in the end exactly
    the keys that were inserted and not erased are found; their number is
    the size. *)
Theorem insert_then_erase_leaves_the_difference (order : nat) (ks es : list Z) :
  (2 ≤ order)%nat →
  ∃ t1 t2, insert_keys order ks empty_tree = Some (tt, t1) ∧
    erase_keys order es t1 = Some (tt, t2) ∧
    m_size t2 = base.size (list_to_set ks ∖ list_to_set es : gset Z) ∧
    ∀ k, ∃ it, find k t2 = Some (it, t2) ∧
      (k ∈ ks → k ∉ es → deref it t2 = Some (k, t2)) ∧
      (k ∉ ks ∨ k ∈ es → it = make_end).
Proof.
  intros Hord.
  destruct (reach_insert_keys order Hord ks empty_tree ∅ (reach_empty order))
    as (t1 & Hrun1 & Hr1).
  destruct (reach_erase_keys order Hord es t1 _ Hr1) as (t2 & Hrun2 & Hr2).
  exists t1, t2. split; [done|]. split; [done|].
  replace ((list_to_set ks ∪ ∅) ∖ list_to_set es) with
    (list_to_set ks ∖ list_to_set es : gset Z) in Hr2 by set_solver.
  split; [exact (reach_size order Hord t2 _ Hr2)|].
  intros k. destruct (reach_find order Hord t2 _ k Hr2) as (it & Hf & Hcase).
  exists it. split; [done|].
  destruct Hcase as [(Hin & P & i & -> & Hl & Hrec)|[Hn ->]].
  - split.
    + intros _ _. exact (proj1 (deref_run t2 P i (k, None) true Hl Hrec)).
    + intros Hc. exfalso. apply elem_of_difference in Hin as [Hin Hout].
      rewrite elem_of_list_to_set in Hin, Hout. tauto.
  - split; [|done]. intros Hin Hout. exfalso. apply Hn.
    apply elem_of_difference. by rewrite !elem_of_list_to_set.
Qed.

Lemma insert_then_erase_leaves_the_difference_witness :
  let ks := [8; 9; 17; 14; 1; 19; 6; 15; 12] in
  let es := [14; 3; 8; 19] in
  ∃ t1 t2, insert_keys 3 ks empty_tree = Some (tt, t1) ∧
    erase_keys 3 es t1 = Some (tt, t2) ∧
    m_size t2 = base.size (list_to_set ks ∖ list_to_set es : gset Z) ∧
    ∀ k, ∃ it, find k t2 = Some (it, t2) ∧
      (k ∈ ks → k ∉ es → deref it t2 = Some (k, t2)) ∧
      (k ∉ ks ∨ k ∈ es → it = make_end).
Proof.
  intros ks es. apply (insert_then_erase_leaves_the_difference 3 ks es). lia.
Defined.

(** ** Traversal and bounds in the states of a program *)

(** X8: the range-based [for] from [begin()] to [end()] returns without
    changing the tree and yields the stored keys, each once, in strictly
    ascending order. *)
Theorem traversal_yields_the_keys_in_order (order : nat) (t : tree) (X : gset Z) :
  reach order t X → (2 ≤ order)%nat →
  ∃ K, traverse t = Some (K, t) ∧ StronglySorted Z.lt K ∧ ∀ k, k ∈ K ↔ k ∈ X.
Proof.
  intros Hr Hord. destruct (reach_WF order t X Hord Hr) as (Ls & K & Hwf & HK).
  exists K. split; [exact (traverse_spec order t Ls K Hwf Hord)|].
  split; [exact (ct_sorted _ _ _ _ _ _ _ (proj2 Hwf))|done].
Qed.

Lemma traversal_yields_the_keys_in_order_witness :
  let X : gset Z := list_to_set [8; 9; 17; 14; 1; 19; 6; 15; 12] in
  ∃ K, traverse sample_cousins = Some (K, sample_cousins) ∧
    StronglySorted Z.lt K ∧ ∀ k, k ∈ K ↔ k ∈ X.
Proof.
  intros X. apply (traversal_yields_the_keys_in_order 3 sample_cousins X).
  - apply (reach_sample 3 [8; 9; 17; 14; 1; 19; 6; 15; 12]). lia.
  - lia.
Defined.

(** X9: [begin()] is [end()] on a tree without keys; otherwise it is the
    handle of the smallest stored key, the one [find] returns for it. *)
Theorem begin_is_the_smallest_key (order : nat) (t : tree) (X : gset Z) :
  reach order t X → (2 ≤ order)%nat →
  ∃ it, begin t = Some (it, t) ∧ (X = ∅ → it = make_end) ∧
    ∀ k, k ∈ X → (∀ x, x ∈ X → k ≤ x) →
      deref it t = Some (k, t) ∧ find k t = Some (it, t).
Proof.
  intros Hr Hord.
  destruct (reach_view order t X Hord Hr)
    as (Ls & K & Hsh & Hct & Hs & HK & [(-> & -> & Hroot & Hsz)|[L0 HL0]]).
  - exists make_end. split.
    + unfold begin, get_size. rewrite (bind_run _ _ t (m_size t) t eq_refl).
      by rewrite Hsz.
    + split; [done|]. intros k Hk. apply HK in Hk. by apply elem_of_nil in Hk.
  - destruct (begin_pos order t Ls K Hsh Hct Hord L0 HL0) as (it & Hb & Hp).
    exists it. split; [done|].
    destruct (at_pos_key order t Ls K Hsh Hct L0 HL0 0%nat it Hp)
      as (P & i & k0 & -> & HP & Hrec & Hk0 & Hd & He).
    split.
    + intros ->. exfalso. apply list_elem_of_lookup_2 in Hk0. apply HK in Hk0. set_solver.
    + intros k Hk Hmin.
      assert (K !! 0%nat = Some k) as H0.
      { apply idx_min; [done|by apply HK|]. intros x Hx. apply Hmin. by apply HK. }
      assert (k0 = k) as -> by congruence. split; [done|].
      destruct (find_pos order t Ls K Hsh Hct Hord L0 HL0 0%nat k H0) as (it2 & Hf & Hp2).
      by rewrite (at_pos_unique t L0 0%nat _ _ Hp Hp2).
Qed.

Lemma begin_is_the_smallest_key_witness :
  let X : gset Z := list_to_set [8; 9; 17; 14; 1; 19; 6; 15; 12] in
  ∃ it, begin sample_cousins = Some (it, sample_cousins) ∧ (X = ∅ → it = make_end) ∧
    ∀ k, k ∈ X → (∀ x, x ∈ X → k ≤ x) →
      deref it sample_cousins = Some (k, sample_cousins) ∧
      find k sample_cousins = Some (it, sample_cousins).
Proof.
  intros X. apply (begin_is_the_smallest_key 3 sample_cousins X).
  - apply (reach_sample 3 [8; 9; 17; 14; 1; 19; 6; 15; 12]). lia.
  - lia.
Defined.

(** X10: [operator++] on the handle of a stored key returns the handle of
    the next greater stored key, and a handle equal to [end()] when the
    key is the greatest. *)
Theorem increment_moves_to_the_next_key (order : nat) (t : tree) (X : gset Z) (k : Z) :
  reach order t X → (2 ≤ order)%nat → k ∈ X →
  ∃ it it', find k t = Some (it, t) ∧ incr it t = Some (it', t) ∧
    (∀ k', k' ∈ X → k < k' → (∀ x, x ∈ X → k < x → k' ≤ x) →
       deref it' t = Some (k', t) ∧ find k' t = Some (it', t)) ∧
    ((∀ x, x ∈ X → x ≤ k) → it_eq it' make_end = true).
Proof.
  intros Hr Hord Hk.
  destruct (reach_view order t X Hord Hr)
    as (Ls & K & Hsh & Hct & Hs & HK & [(-> & -> & Hroot & Hsz)|[L0 HL0]]).
  { apply HK in Hk. by apply elem_of_nil in Hk. }
  pose proof Hk as HkK. apply HK in HkK. apply list_elem_of_lookup in HkK as [n Hn].
  destruct (find_pos order t Ls K Hsh Hct Hord L0 HL0 n k Hn) as (it & Hf & Hp).
  destruct (incr_pos order t Ls K Hsh Hct Hord L0 HL0 n it Hp) as (it' & Hi & Hnext).
  exists it, it'. split; [done|]. split; [done|]. split.
  - intros k' Hk' Hlt Hnx.
    assert (K !! S n = Some k') as HSn.
    { apply (idx_succ K n k k'); [done|done|by apply HK|done|].
      intros x Hx. apply Hnx. by apply HK. }
    rewrite decide_True in Hnext by (by apply lookup_lt_Some in HSn).
    destruct (at_pos_key order t Ls K Hsh Hct L0 HL0 (S n) it' Hnext)
      as (P & i & k1 & -> & _ & _ & Hk1 & Hd & _).
    assert (k1 = k') as -> by congruence. split; [done|].
    destruct (find_pos order t Ls K Hsh Hct Hord L0 HL0 (S n) k' HSn) as (it2 & Hf2 & Hp2).
    by rewrite (at_pos_unique t L0 (S n) _ _ Hnext Hp2).
  - intros Hmax.
    assert (K !! Nat.pred (length K) = Some k) as Hlast.
    { apply idx_max; [done|by apply HK|]. intros x Hx. apply Hmax. by apply HK. }
    pose proof (sorted_lookup_inj K _ _ k Hs Hn Hlast) as En.
    pose proof (lookup_lt_Some _ _ _ Hn).
    rewrite decide_False in Hnext by lia. destruct Hnext. by apply it_eq_end.
Qed.

Lemma increment_moves_to_the_next_key_witness :
  let X : gset Z := list_to_set [8; 9; 17; 14; 1; 19; 6; 15; 12] in
  9 ∈ X ∧
  ∃ it it', find 9 sample_cousins = Some (it, sample_cousins) ∧
    incr it sample_cousins = Some (it', sample_cousins) ∧
    (∀ k', k' ∈ X → 9 < k' → (∀ x, x ∈ X → 9 < x → k' ≤ x) →
       deref it' sample_cousins = Some (k', sample_cousins) ∧
       find k' sample_cousins = Some (it', sample_cousins)) ∧
    ((∀ x, x ∈ X → x ≤ 9) → it_eq it' make_end = true).
Proof.
  intros X. assert (H9 : 9 ∈ X) by (unfold X; simpl; set_solver).
  split; [exact H9|].
  apply (increment_moves_to_the_next_key 3 sample_cousins X 9).
  - apply (reach_sample 3 [8; 9; 17; 14; 1; 19; 6; 15; 12]). lia.
  - lia.
  - exact H9.
Defined.

(** X11: [operator--] on the handle of a stored key returns the handle of
    the next smaller stored key; on the handle of the smallest key, which
    is [begin()], it returns the handle unchanged. *)
Theorem decrement_moves_to_the_previous_key (order : nat) (t : tree) (X : gset Z) (k : Z) :
  reach order t X → (2 ≤ order)%nat → k ∈ X →
  ∃ it it', find k t = Some (it, t) ∧ decr it t = Some (it', t) ∧
    (∀ k', k' ∈ X → k' < k → (∀ x, x ∈ X → x < k → x ≤ k') →
       deref it' t = Some (k', t) ∧ find k' t = Some (it', t)) ∧
    ((∀ x, x ∈ X → k ≤ x) → it' = it ∧ begin t = Some (it, t)).
Proof.
  intros Hr Hord Hk.
  destruct (reach_view order t X Hord Hr)
    as (Ls & K & Hsh & Hct & Hs & HK & [(-> & -> & Hroot & Hsz)|[L0 HL0]]).
  { apply HK in Hk. by apply elem_of_nil in Hk. }
  pose proof Hk as HkK. apply HK in HkK. apply list_elem_of_lookup in HkK as [n Hn].
  destruct (find_pos order t Ls K Hsh Hct Hord L0 HL0 n k Hn) as (it & Hf & Hp).
  destruct (decr_pos order t Ls K Hsh Hct Hord L0 HL0 n it Hp) as (it' & Hi & Hprev).
  exists it, it'. split; [done|]. split; [done|]. split.
  - intros k' Hk' Hlt Hpv.
    destruct (idx_pred K n k k') as (m & -> & Hm); [done|done|by apply HK|done| |].
    { intros x Hx. apply Hpv. by apply HK. }
    destruct (at_pos_key order t Ls K Hsh Hct L0 HL0 m it' Hprev)
      as (P & i & k1 & -> & _ & _ & Hk1 & Hd & _).
    assert (k1 = k') as -> by congruence. split; [done|].
    destruct (find_pos order t Ls K Hsh Hct Hord L0 HL0 m k' Hm) as (it2 & Hf2 & Hp2).
    by rewrite (at_pos_unique t L0 m _ _ Hprev Hp2).
  - intros Hmin.
    assert (K !! 0%nat = Some k) as H0.
    { apply idx_min; [done|by apply HK|]. intros x Hx. apply Hmin. by apply HK. }
    pose proof (sorted_lookup_inj K _ _ k Hs Hn H0) as ->. split; [done|].
    destruct (begin_pos order t Ls K Hsh Hct Hord L0 HL0) as (it2 & Hb & Hp2).
    by rewrite (at_pos_unique t L0 0%nat _ _ Hp Hp2).
Qed.

Lemma decrement_moves_to_the_previous_key_witness :
  let X : gset Z := list_to_set [8; 9; 17; 14; 1; 19; 6; 15; 12] in
  12 ∈ X ∧
  ∃ it it', find 12 sample_cousins = Some (it, sample_cousins) ∧
    decr it sample_cousins = Some (it', sample_cousins) ∧
    (∀ k', k' ∈ X → k' < 12 → (∀ x, x ∈ X → x < 12 → x ≤ k') →
       deref it' sample_cousins = Some (k', sample_cousins) ∧
       find k' sample_cousins = Some (it', sample_cousins)) ∧
    ((∀ x, x ∈ X → 12 ≤ x) → it' = it ∧ begin sample_cousins = Some (it, sample_cousins)).
Proof.
  intros X. assert (H12 : 12 ∈ X) by (unfold X; simpl; set_solver).
  split; [exact H12|].
  apply (decrement_moves_to_the_previous_key 3 sample_cousins X 12).
  - apply (reach_sample 3 [8; 9; 17; 14; 1; 19; 6; 15; 12]). lia.
  - lia.
  - exact H12.
Defined.

(** X12: [operator--] on [end()], and on the handle equal to [end()]
    that [operator++] produces after the last key, returns the handle of
    the greatest stored key. *)
Theorem decrement_of_end_is_the_greatest_key
    (order : nat) (t : tree) (X : gset Z) (k : Z) (i : nat) :
  reach order t X → (2 ≤ order)%nat → k ∈ X → (∀ x, x ∈ X → x ≤ k) →
  ∃ it, decr (mkIt true None i) t = Some (it, t) ∧
    deref it t = Some (k, t) ∧ find k t = Some (it, t).
Proof.
  intros Hr Hord Hk Hmax.
  destruct (reach_view order t X Hord Hr)
    as (Ls & K & Hsh & Hct & Hs & HK & [(-> & -> & Hroot & Hsz)|[L0 HL0]]).
  { apply HK in Hk. by apply elem_of_nil in Hk. }
  destruct (decr_end order t Ls K Hsh Hct Hord L0 HL0 i) as (it & Hd & Hp).
  exists it. split; [done|].
  assert (K !! Nat.pred (length K) = Some k) as Hlast.
  { apply idx_max; [done|by apply HK|]. intros x Hx. apply Hmax. by apply HK. }
  destruct (at_pos_key order t Ls K Hsh Hct L0 HL0 _ it Hp)
    as (P & j & k1 & -> & _ & _ & Hk1 & Hdr & _).
  assert (k1 = k) as -> by congruence. split; [done|].
  destruct (find_pos order t Ls K Hsh Hct Hord L0 HL0 _ k Hlast) as (it2 & Hf2 & Hp2).
  by rewrite (at_pos_unique t L0 _ _ _ Hp Hp2).
Qed.

Lemma decrement_of_end_is_the_greatest_key_witness :
  let X : gset Z := list_to_set [8; 9; 17; 14; 1; 19; 6; 15; 12] in
  (19 ∈ X ∧ ∀ x, x ∈ X → x ≤ 19) ∧
  ∃ it, decr make_end sample_cousins = Some (it, sample_cousins) ∧
    deref it sample_cousins = Some (19, sample_cousins) ∧
    find 19 sample_cousins = Some (it, sample_cousins).
Proof.
  intros X. assert (H19 : 19 ∈ X) by (unfold X; simpl; set_solver).
  assert (Hmax : ∀ x, x ∈ X → x ≤ 19).
  { intros x Hx. unfold X in Hx. simpl in Hx. set_unfold in Hx. lia. }
  split; [split; [exact H19|exact Hmax]|].
  apply (decrement_of_end_is_the_greatest_key 3 sample_cousins X 19 0).
  - apply (reach_sample 3 [8; 9; 17; 14; 1; 19; 6; 15; 12]). lia.
  - lia.
  - exact H19.
  - exact Hmax.
Defined.

(** X13: for the handle of any stored key, [operator++] followed by
    [operator--] gives the handle back, also from the greatest key, where
    [operator++] gives a handle equal to [end()]. *)
Theorem decrement_undoes_increment
    (order : nat) (t : tree) (X : gset Z) (k : Z) (it : iterator) :
  reach order t X → (2 ≤ order)%nat → k ∈ X → find k t = Some (it, t) →
  ∃ it', incr it t = Some (it', t) ∧ decr it' t = Some (it, t).
Proof.
  intros Hr Hord Hk Hfind.
  destruct (reach_view order t X Hord Hr)
    as (Ls & K & Hsh & Hct & Hs & HK & [(-> & -> & Hroot & Hsz)|[L0 HL0]]).
  { apply HK in Hk. by apply elem_of_nil in Hk. }
  pose proof Hk as HkK. apply HK in HkK. apply list_elem_of_lookup in HkK as [n Hn].
  destruct (find_pos order t Ls K Hsh Hct Hord L0 HL0 n k Hn) as (it0 & Hf & Hp).
  rewrite Hfind in Hf. injection Hf as <-.
  destruct (incr_pos order t Ls K Hsh Hct Hord L0 HL0 n it Hp) as (it' & Hi & Hnext).
  exists it'. split; [done|].
  destruct (decide (S n < length K)%nat) as [Hlt|Hge].
  - destruct (decr_pos order t Ls K Hsh Hct Hord L0 HL0 (S n) it' Hnext)
      as (it2 & Hd & Hp2). simpl in Hp2.
    by rewrite (at_pos_unique t L0 n _ _ Hp Hp2).
  - destruct Hnext as [Hnode Htree]. destruct it' as [b p j]. simpl in Hnode, Htree.
    subst b p.
    destruct (decr_end order t Ls K Hsh Hct Hord L0 HL0 j) as (it2 & Hd & Hp2).
    pose proof (lookup_lt_Some _ _ _ Hn).
    replace (Nat.pred (length K)) with n in Hp2 by lia.
    by rewrite (at_pos_unique t L0 n _ _ Hp Hp2).
Qed.

Lemma decrement_undoes_increment_witness :
  let it := mkIt true (Some 2%nat) 1 in
  find 9 sample_cousins = Some (it, sample_cousins) ∧
  ∃ it', incr it sample_cousins = Some (it', sample_cousins) ∧
    decr it' sample_cousins = Some (it, sample_cousins).
Proof.
  intros it.
  assert (Hf : find 9 sample_cousins = Some (it, sample_cousins))
    by (vm_compute; reflexivity).
  split; [exact Hf|].
  apply (decrement_undoes_increment 3 sample_cousins
           (list_to_set [8; 9; 17; 14; 1; 19; 6; 15; 12]) 9 it).
  - apply (reach_sample 3 [8; 9; 17; 14; 1; 19; 6; 15; 12]). lia.
  - lia.
  - simpl. set_solver.
  - exact Hf.
Defined.

(** X14: [upper_bound(k)] returns the handle of the smallest stored key
    greater than [k], and [end()] when no stored key is greater. *)
Theorem upper_bound_is_the_next_greater_key (order : nat) (t : tree) (X : gset Z) (k : Z) :
  reach order t X → (2 ≤ order)%nat →
  ∃ it, upper_bound k t = Some (it, t) ∧
    (∀ k', k' ∈ X → k < k' → (∀ x, x ∈ X → k < x → k' ≤ x) →
       deref it t = Some (k', t) ∧ find k' t = Some (it, t)) ∧
    ((∀ x, x ∈ X → x ≤ k) → it = make_end).
Proof.
  intros Hr Hord.
  destruct (reach_view order t X Hord Hr)
    as (Ls & K & Hsh & Hct & Hs & HK & [(-> & -> & Hroot & Hsz)|[L0 HL0]]).
  { exists make_end. split.
    - unfold upper_bound, loop_bound, get_root.
      rewrite (bind_run _ _ t (S (base.size (heap t))) t eq_refl).
      rewrite (bind_run _ _ t (m_root t) t eq_refl). by rewrite Hroot.
    - split; [|done]. intros k' Hk'. apply HK in Hk'. by apply elem_of_nil in Hk'. }
  destruct (decide (Exists (λ x, k < x) K)) as [Hex|Hnex].
  - apply Exists_exists in Hex as (kx & Hkx & Hlt).
    destruct (upper_bound_pos order t Ls K Hsh Hct Hord L0 HL0 k kx Hkx Hlt)
      as (it & n & k1 & Hrun & Hp & Hn & Hk1 & Hbefore).
    exists it. split; [done|]. split.
    + intros k' Hk' Hlt' Hnx.
      assert (k' = k1) as ->.
      { apply (idx_lower K (k + 1) n k1 k'); [done|done|lia| |by apply HK|lia|].
        - intros m km Hm Hmn. specialize (Hbefore m km Hm Hmn). lia.
        - intros x Hx Hle. apply Hnx; [by apply HK|lia]. }
      destruct (at_pos_key order t Ls K Hsh Hct L0 HL0 n it Hp)
        as (P & i & k2 & -> & _ & _ & Hk2 & Hd & _).
      assert (k2 = k1) as -> by congruence. split; [done|].
      destruct (find_pos order t Ls K Hsh Hct Hord L0 HL0 n k1 Hn) as (it2 & Hf2 & Hp2).
      by rewrite (at_pos_unique t L0 n _ _ Hp Hp2).
    + intros Hmax. apply HK in Hkx. specialize (Hmax kx Hkx). lia.
  - assert (∀ x, x ∈ K → x ≤ k) as Hall.
    { intros x Hx. destruct (decide (x ≤ k)) as [|Hgt]; [done|]. exfalso.
      apply Hnex, Exists_exists. exists x. split; [done|lia]. }
    exists make_end. split; [exact (upper_bound_past order t Ls K Hsh Hct Hord L0 HL0 k Hall)|].
    split; [|done]. intros k' Hk' Hlt. apply HK in Hk'. specialize (Hall k' Hk'). lia.
Qed.

Lemma upper_bound_is_the_next_greater_key_witness :
  let X : gset Z := list_to_set [8; 9; 17; 14; 1; 19; 6; 15; 12] in
  ∃ it, upper_bound 9 sample_cousins = Some (it, sample_cousins) ∧
    (∀ k', k' ∈ X → 9 < k' → (∀ x, x ∈ X → 9 < x → k' ≤ x) →
       deref it sample_cousins = Some (k', sample_cousins) ∧
       find k' sample_cousins = Some (it, sample_cousins)) ∧
    ((∀ x, x ∈ X → x ≤ 9) → it = make_end).
Proof.
  intros X. apply (upper_bound_is_the_next_greater_key 3 sample_cousins X 9).
  - apply (reach_sample 3 [8; 9; 17; 14; 1; 19; 6; 15; 12]). lia.
  - lia.
Defined.

Lemma reach_lower_bound
    (order : nat) (t : tree) (X : gset Z) (k k' : Z) :
  reach order t X → (2 ≤ order)%nat →
  k' ∈ X → k ≤ k' → (∀ x, x ∈ X → k ≤ x → k' ≤ x) →
  ∃ it, lower_bound k t = Some (it, t) ∧
    deref it t = Some (k', t) ∧ find k' t = Some (it, t).
Proof.
  intros Hr Hord Hk' Hle Hmin.
  destruct (reach_view order t X Hord Hr)
    as (Ls & K & Hsh & Hct & Hs & HK & [(-> & -> & Hroot & Hsz)|[L0 HL0]]).
  { apply HK in Hk'. by apply elem_of_nil in Hk'. }
  apply HK in Hk'.
  destruct (lower_bound_pos order t Ls K Hsh Hct Hord L0 HL0 k k' Hk' Hle)
    as (it & n & k1 & Hrun & Hp & Hn & Hk1 & Hbefore).
  exists it. split; [done|].
  assert (k' = k1) as ->.
  { apply (idx_lower K k n k1 k'); [done|done|done|done|done|done|].
    intros x Hx. apply Hmin. by apply HK. }
  destruct (at_pos_key order t Ls K Hsh Hct L0 HL0 n it Hp)
    as (P & i & k2 & -> & _ & _ & Hk2 & Hd & _).
  assert (k2 = k1) as -> by congruence. split; [done|].
  destruct (find_pos order t Ls K Hsh Hct Hord L0 HL0 n k1 Hn) as (it2 & Hf2 & Hp2).
  by rewrite (at_pos_unique t L0 n _ _ Hp Hp2).
Qed.

(** X15: when some stored key is not less than [k], [lower_bound(k)]
    returns the handle of the smallest such key. *)
Theorem lower_bound_is_the_first_key_not_less
    (order : nat) (t : tree) (X : gset Z) (k k' : Z) :
  reach order t X → (2 ≤ order)%nat →
  k' ∈ X → k ≤ k' → (∀ x, x ∈ X → k ≤ x → k' ≤ x) →
  ∃ it, lower_bound k t = Some (it, t) ∧
    deref it t = Some (k', t) ∧ find k' t = Some (it, t).
Proof.
  exact (reach_lower_bound order t X k k').
Qed.

Lemma lower_bound_is_the_first_key_not_less_witness :
  let X : gset Z := list_to_set [8; 9; 17; 14; 1; 19; 6; 15; 12] in
  (12 ∈ X ∧ ∀ x, x ∈ X → 10 ≤ x → 12 ≤ x) ∧
  ∃ it, lower_bound 10 sample_cousins = Some (it, sample_cousins) ∧
    deref it sample_cousins = Some (12, sample_cousins) ∧
    find 12 sample_cousins = Some (it, sample_cousins).
Proof.
  intros X. assert (H12 : 12 ∈ X) by (unfold X; simpl; set_solver).
  assert (Hmin : ∀ x, x ∈ X → 10 ≤ x → 12 ≤ x).
  { intros x Hx. unfold X in Hx. simpl in Hx. set_unfold in Hx. lia. }
  split; [split; [exact H12|exact Hmin]|].
  apply (lower_bound_is_the_first_key_not_less 3 sample_cousins X 10 12).
  - apply (reach_sample 3 [8; 9; 17; 14; 1; 19; 6; 15; 12]). lia.
  - lia.
  - exact H12.
  - lia.
  - exact Hmin.
Defined.

Lemma reach_lower_bound_past (order : nat) (t : tree) (X : gset Z) (k : Z) :
  reach order t X → (2 ≤ order)%nat → (∀ x, x ∈ X → x < k) →
  ∃ it, lower_bound k t = Some (it, t) ∧ deref it t = None ∧
    (it_eq it make_end = false ↔ ∃ r, m_root t = Some r ∧ leaf t r = true).
Proof.
  intros Hr Hord Hall.
  destruct (reach_view order t X Hord Hr)
    as (Ls & K & Hsh & Hct & Hs & HK & [(-> & -> & Hroot & Hsz)|[L0 HL0]]).
  { exists make_end. split.
    - unfold lower_bound, loop_bound, get_root.
      rewrite (bind_run _ _ t (S (base.size (heap t))) t eq_refl).
      rewrite (bind_run _ _ t (m_root t) t eq_refl). by rewrite Hroot.
    - split; [done|]. split; [done|]. intros (r & Hr' & _). congruence. }
  destruct (lower_bound_past order t Ls K Hsh Hct Hord L0 HL0 k) as (r & Hroot & Hrun).
  { intros x Hx. apply Hall. by apply HK. }
  destruct (root_key order t Ls K Hsh Hct Hord L0 HL0) as (r' & _ & _ & Hr' & Hlr & _).
  rewrite Hroot in Hr'. injection Hr' as <-.
  eexists. split; [exact Hrun|].
  destruct (leaf t r) eqn:El.
  - split; [by apply deref_past|]. split; [|done]. intros _. by exists r.
  - split; [done|]. split; [done|]. intros (r' & Hr' & Hl'). congruence.
Qed.



(** X17: for a stored key [k], [equal_range(k)] returns the handle of [k]
    and the handle after it, which compares equal to [upper_bound(k)]. *)
Theorem equal_range_of_a_stored_key (order : nat) (t : tree) (X : gset Z) (k : Z) :
  reach order t X → (2 ≤ order)%nat → k ∈ X →
  ∃ it it' ub, equal_range k t = Some ((it, it'), t) ∧
    find k t = Some (it, t) ∧ incr it t = Some (it', t) ∧
    upper_bound k t = Some (ub, t) ∧ it_eq it' ub = true.
Proof.
  intros Hr Hord Hk.
  destruct (reach_view order t X Hord Hr)
    as (Ls & K & Hsh & Hct & Hs & HK & [(-> & -> & Hroot & Hsz)|[L0 HL0]]).
  { apply HK in Hk. by apply elem_of_nil in Hk. }
  apply HK in Hk.
  destruct (lower_bound_pos order t Ls K Hsh Hct Hord L0 HL0 k k Hk ltac:(lia))
    as (it & n & k1 & Hrun & Hp & Hn & Hk1 & Hbefore).
  assert (k = k1) as <-.
  { apply (idx_lower K k n k1 k); [done|done|done|done|done|lia|]. intros x _ Hx. done. }
  destruct (find_pos order t Ls K Hsh Hct Hord L0 HL0 n k Hn) as (it2 & Hf2 & Hp2).
  rewrite <- (at_pos_unique t L0 n _ _ Hp Hp2) in Hf2.
  destruct (incr_pos order t Ls K Hsh Hct Hord L0 HL0 n it Hp) as (it' & Hi & Hnext).
  assert (equal_range k t = Some ((it, it'), t)) as Heq.
  { unfold equal_range. rewrite (bind_run _ _ _ _ _ Hrun), (bind_run _ _ _ _ _ Hi).
    by rewrite (bind_run _ _ _ _ _ Hrun). }
  destruct (decide (S n < length K)%nat) as [Hlt|Hge].
  - destruct (at_pos_key order t Ls K Hsh Hct L0 HL0 (S n) it' Hnext)
      as (P & i & k2 & -> & _ & _ & Hk2 & _).
    pose proof (sorted_lookup_lt K n (S n) k k2 Hs Hn Hk2 ltac:(lia)) as Hlt2.
    destruct (upper_bound_pos order t Ls K Hsh Hct Hord L0 HL0 k k2
                (list_elem_of_lookup_2 _ _ _ Hk2) Hlt2)
      as (ub & m & k3 & Hub & Hpu & Hm & Hk3 & Hbu).
    exists it, (mkIt true (Some P) i), ub.
    split; [done|]. split; [done|]. split; [done|]. split; [done|].
    assert (m = S n) as ->.
    { assert (n < m)%nat.
      { destruct (decide (n < m)%nat) as [|Hnm]; [done|]. exfalso.
        destruct (decide (m = n)) as [->|]; [rewrite Hn in Hm; injection Hm as ->; lia|].
        pose proof (sorted_lookup_lt K m n k3 k Hs Hm Hn ltac:(lia)). lia. }
      destruct (decide (m = S n)) as [|Hne]; [done|]. exfalso.
      specialize (Hbu (S n) k2 Hk2 ltac:(lia)). lia. }
    rewrite (at_pos_unique t L0 (S n) _ _ Hpu Hnext). apply it_eq_refl.
  - destruct Hnext as [Hnode Htree].
    exists it, it', make_end.
    split; [done|]. split; [done|]. split; [done|]. split; [|by apply it_eq_end].
    apply (upper_bound_past order t Ls K Hsh Hct Hord L0 HL0 k).
    intros x [j Hj]%list_elem_of_lookup.
    pose proof (lookup_lt_Some _ _ _ Hj).
    destruct (decide (j = n)) as [->|Hne]; [rewrite Hn in Hj; injection Hj as ->; lia|].
    pose proof (sorted_lookup_lt K j n x k Hs Hj Hn ltac:(lia)). lia.
Qed.

Lemma equal_range_of_a_stored_key_witness :
  let X : gset Z := list_to_set [8; 9; 17; 14; 1; 19; 6; 15; 12] in
  14 ∈ X ∧
  ∃ it it' ub, equal_range 14 sample_cousins = Some ((it, it'), sample_cousins) ∧
    find 14 sample_cousins = Some (it, sample_cousins) ∧
    incr it sample_cousins = Some (it', sample_cousins) ∧
    upper_bound 14 sample_cousins = Some (ub, sample_cousins) ∧ it_eq it' ub = true.
Proof.
  intros X. assert (H14 : 14 ∈ X) by (unfold X; simpl; set_solver).
  split; [exact H14|].
  apply (equal_range_of_a_stored_key 3 sample_cousins X 14).
  - apply (reach_sample 3 [8; 9; 17; 14; 1; 19; 6; 15; 12]). lia.
  - lia.
  - exact H14.
Defined.

(** X18: for a key [k] that is not stored but is less than some stored
    key, [equal_range(k)] is not an empty range: its first handle is that
    of the smallest stored key greater than [k] and its second handle is
    the first one incremented, which differs from it. *)
Theorem equal_range_of_an_absent_key_is_not_empty
    (order : nat) (t : tree) (X : gset Z) (k k' : Z) :
  reach order t X → (2 ≤ order)%nat →
  k ∉ X → k' ∈ X → k < k' → (∀ x, x ∈ X → k < x → k' ≤ x) →
  ∃ it it', equal_range k t = Some ((it, it'), t) ∧
    deref it t = Some (k', t) ∧ incr it t = Some (it', t) ∧ it_eq it it' = false.
Proof.
  intros Hr Hord Hk Hk' Hlt Hmin.
  destruct (reach_view order t X Hord Hr)
    as (Ls & K & Hsh & Hct & Hs & HK & [(-> & -> & Hroot & Hsz)|[L0 HL0]]).
  { apply HK in Hk'. by apply elem_of_nil in Hk'. }
  apply HK in Hk'.
  destruct (lower_bound_pos order t Ls K Hsh Hct Hord L0 HL0 k k' Hk' ltac:(lia))
    as (it & n & k1 & Hrun & Hp & Hn & Hk1 & Hbefore).
  assert (k' = k1) as <-.
  { apply (idx_lower K k n k1 k'); [done|done|done|done|done|lia|].
    intros x Hx Hle. apply Hmin; [by apply HK|].
    destruct (decide (x = k)) as [->|]; [|lia]. exfalso. by apply Hk, HK. }
  destruct (incr_pos order t Ls K Hsh Hct Hord L0 HL0 n it Hp) as (it' & Hi & Hnext).
  exists it, it'. split.
  { unfold equal_range. rewrite (bind_run _ _ _ _ _ Hrun), (bind_run _ _ _ _ _ Hi).
    by rewrite (bind_run _ _ _ _ _ Hrun). }
  destruct (at_pos_key order t Ls K Hsh Hct L0 HL0 n it Hp)
    as (P & i & k2 & -> & _ & Hrec & Hk2 & Hd & _).
  assert (k2 = k') as -> by congruence.
  split; [done|]. split; [done|].
  destruct (it_eq (mkIt true (Some P) i) it') eqn:E; [|done]. exfalso.
  apply it_eq_pos in E. subst it'.
  destruct (decide (S n < length K)%nat) as [Hlt'|Hge].
  - destruct (at_pos_key order t Ls K Hsh Hct L0 HL0 (S n) _ Hnext)
      as (P' & i' & k3 & Eit & _ & Hrec' & Hk3 & _).
    injection Eit as <- <-. rewrite Hrec in Hrec'. injection Hrec' as <-.
    pose proof (sorted_lookup_inj K _ _ k' Hs Hn Hk3). lia.
  - by destruct Hnext.
Qed.

Lemma equal_range_of_an_absent_key_is_not_empty_witness :
  let X : gset Z := list_to_set [8; 9; 17; 14; 1; 19; 6; 15; 12] in
  (10 ∉ X ∧ 12 ∈ X ∧ ∀ x, x ∈ X → 10 < x → 12 ≤ x) ∧
  ∃ it it', equal_range 10 sample_cousins = Some ((it, it'), sample_cousins) ∧
    deref it sample_cousins = Some (12, sample_cousins) ∧
    incr it sample_cousins = Some (it', sample_cousins) ∧ it_eq it it' = false.
Proof.
  intros X. assert (H10 : 10 ∉ X) by (unfold X; simpl; set_solver).
  assert (H12 : 12 ∈ X) by (unfold X; simpl; set_solver).
  assert (Hmin : ∀ x, x ∈ X → 10 < x → 12 ≤ x).
  { intros x Hx. unfold X in Hx. simpl in Hx. set_unfold in Hx. lia. }
  split; [split; [exact H10|split; [exact H12|exact Hmin]]|].
  apply (equal_range_of_an_absent_key_is_not_empty 3 sample_cousins X 10 12).
  - apply (reach_sample 3 [8; 9; 17; 14; 1; 19; 6; 15; 12]). lia.
  - lia.
  - exact H10.
  - exact H12.
  - lia.
  - exact Hmin.
Defined.

(** X19: on a tree with keys, [equal_range(k)] for a key greater than
    every stored key increments a handle that is at or past the end: its
    behaviour is undefined. *)
Theorem equal_range_above_the_keys_is_undefined
    (order : nat) (t : tree) (X : gset Z) (k : Z) :
  reach order t X → (2 ≤ order)%nat → X ≠ ∅ → (∀ x, x ∈ X → x < k) →
  equal_range k t = None.
Proof.
  intros Hr Hord Hne Hall.
  destruct (reach_view order t X Hord Hr)
    as (Ls & K & Hsh & Hct & Hs & HK & [(-> & -> & Hroot & Hsz)|[L0 HL0]]).
  { exfalso. apply Hne. apply set_eq. intros x. rewrite <- HK. set_solver. }
  destruct (lower_bound_past order t Ls K Hsh Hct Hord L0 HL0 k) as (r & Hroot & Hrun).
  { intros x Hx. apply Hall. by apply HK. }
  destruct (root_key order t Ls K Hsh Hct Hord L0 HL0) as (r' & _ & _ & Hr' & Hlr & _).
  rewrite Hroot in Hr'. injection Hr' as <-.
  assert (m_root t ≠ None) as Hnn by congruence.
  unfold equal_range. rewrite (bind_run _ _ _ _ _ Hrun).
  destruct (leaf t r).
  - unfold bind at 1. by rewrite (incr_past t r Hnn Hlr).
  - unfold bind at 1. by rewrite (incr_end t 0%nat Hnn : incr make_end t = None).
Qed.

Lemma equal_range_above_the_keys_is_undefined_witness :
  let X : gset Z := list_to_set [8; 9; 17; 14; 1; 19; 6; 15; 12] in
  (X ≠ ∅ ∧ ∀ x, x ∈ X → x < 20) ∧ equal_range 20 sample_cousins = None.
Proof.
  intros X. assert (Hne : X ≠ ∅) by (unfold X; simpl; set_solver).
  assert (Hall : ∀ x, x ∈ X → x < 20).
  { intros x Hx. unfold X in Hx. simpl in Hx. set_unfold in Hx. lia. }
  split; [split; [exact Hne|exact Hall]|].
  apply (equal_range_above_the_keys_is_undefined 3 sample_cousins X 20).
  - apply (reach_sample 3 [8; 9; 17; 14; 1; 19; 6; 15; 12]). lia.
  - lia.
  - exact Hne.
  - exact Hall.
Defined.

(** ** The nodes under the root *)

Lemma in_tree_depth t a : in_tree t a → ∃ d, depth t a d.
Proof.
  induction 1 as [r Hr|a r c _ [d IH] Hr Hc].
  - exists 0%nat. by constructor.
  - exists (S d). by econstructor.
Qed.

Section Nodes.

Context (order : nat) (t : tree) (Ls : list (list nat)) (K : list Z).
Context (Hsh : shape t Ls) (Hct : content order None None 2 t Ls K).
Context (Hord : (2 ≤ order)%nat).

Lemma depth_level a d :
  depth t a d → ∃ j L, Ls !! j = Some L ∧ a ∈ L ∧ (j + d + 1 = length Ls)%nat.
Proof.
  induction 1 as [r Hr|a d r c _ (j & L & HL & Ha & Hlen) Hr Hc].
  - assert (Ls ≠ []) as Hne.
    { intros E. rewrite (sh_root _ _ Hsh), E in Hr. done. }
    destruct (root_node order None 2 t Ls K Hsh Hct Hord ltac:(lia) Hne)
      as (r' & kr & Htop & Hr' & _).
    assert (r' = r) as -> by congruence.
    exists (length Ls - 1)%nat, [r]. split; [done|]. split; [set_solver|].
    apply lookup_lt_Some in Htop. lia.
  - destruct (kid_level order None None 2 t Ls K Hct j L a r c HL Ha Hr Hc)
      as (j' & lo & -> & Hlo & Hin & _).
    exists j', lo. split; [done|]. split; [done|]. lia.
Qed.

Lemma in_tree_level a : in_tree t a → ∃ j L, Ls !! j = Some L ∧ a ∈ L.
Proof.
  intros [d Hd]%in_tree_depth.
  destruct (depth_level a d Hd) as (j & L & HL & Ha & _). by exists j, L.
Qed.

Lemma level_in_tree n : ∀ j L a,
  Ls !! j = Some L → a ∈ L → (j + n + 1 = length Ls)%nat → in_tree t a.
Proof.
  induction n as [|n IH]; intros j L a HL Ha Hlen.
  - destruct (top_level t Ls Hsh j L HL ltac:(lia)) as (r & -> & Hr & _).
    apply list_elem_of_singleton in Ha as ->. by constructor.
  - destruct (lookup_lt_is_Some_2 Ls (S j)) as [up Hup]; [lia|].
    pose proof (ct_fam _ _ _ _ _ _ _ Hct _ _ _ Hup HL) as Hf.
    destruct (fam_child _ _ _ _ _ _ Hf Ha) as (p & rs1 & k & rs2 & Hp & Ers & _).
    change (erecs None t p) with (recs t p) in Ers.
    apply (in_tree_child t p (k, Some a) a); [|rewrite Ers; set_solver|done].
    apply (IH (S j) up p Hup Hp). lia.
Qed.

Lemma node_records a r :
  in_tree t a → r ∈ recs t a →
  if leaf t a then r.2 = None
  else ∃ c, r.2 = Some c ∧ live t c ∧ par t c = Some a ∧ last_key (recs t c) = Some r.1.
Proof.
  intros (j & L & HL & Ha)%in_tree_level Hr.
  rewrite (sh_leaf _ _ Hsh _ _ _ HL Ha).
  destruct j as [|j].
  - rewrite bool_decide_eq_true_2 by done.
    exact (ct_leaves _ _ _ _ _ _ _ Hct _ _ _ HL Ha Hr).
  - rewrite bool_decide_eq_false_2 by done.
    destruct (lookup_lt_is_Some_2 Ls j) as [lo Hlo]; [apply lookup_lt_Some in HL; lia|].
    pose proof (ct_fam _ _ _ _ _ _ _ Hct _ _ _ HL Hlo) as Hf.
    assert (r.2 ∈ Some <$> lo) as Hin.
    { rewrite <- (fam_kids _ _ _ _ _ Hf). apply elem_of_concat.
      exists (kids (recs t a)). split; [by apply list_elem_of_fmap_2|].
      apply list_elem_of_fmap. by exists a. }
    apply list_elem_of_fmap in Hin as (c & Hc & Hclo).
    exists c. split; [done|]. split; [exact (sh_live _ _ Hsh _ _ _ Hlo Hclo)|].
    exact (fam_rec _ _ _ _ _ Hf a r c Ha Hr Hc).
Qed.

Lemma node_fill a :
  in_tree t a →
  (length (recs t a) ≤ order)%nat ∧ StronglySorted Z.lt (keys (recs t a)) ∧
  if decide (m_root t = Some a)
  then ((if leaf t a then 1 else 2) ≤ length (recs t a))%nat
  else (half_order order ≤ length (recs t a))%nat.
Proof.
  intros (j & L & HL & Ha)%in_tree_level.
  destruct (ct_fill _ _ _ _ _ _ _ Hct _ _ _ HL Ha) as [Hmax Hmin].
  rewrite decide_False in Hmax by done.
  split; [done|].
  split; [exact (node_sorted order None None 2 t Ls K Hsh Hct j L a HL Ha)|].
  rewrite (sh_leaf _ _ Hsh _ _ _ HL Ha).
  destruct (decide (m_root t = Some a)); [|done].
  destruct j; [by rewrite bool_decide_eq_true_2|by rewrite bool_decide_eq_false_2].
Qed.

Lemma leaf_depth a d :
  depth t a d → leaf t a = bool_decide (d + 1 = length Ls)%nat.
Proof.
  intros (j & L & HL & Ha & Hlen)%depth_level.
  rewrite (sh_leaf _ _ Hsh _ _ _ HL Ha). apply bool_decide_ext. lia.
Qed.

Lemma leaf_links a :
  in_tree t a → leaf t a = true →
  ∃ p n, prv t a = Some p ∧ nxt t p = Some a ∧ nxt t a = Some n ∧ prv t n = Some a ∧
    (p = header ∨ in_tree t p ∧ leaf t p = true) ∧
    (n = header ∨ in_tree t n ∧ leaf t n = true).
Proof.
  intros (j & L & HL & Ha)%in_tree_level Hleaf.
  rewrite (sh_leaf _ _ Hsh _ _ _ HL Ha) in Hleaf. apply bool_decide_eq_true in Hleaf.
  subst j. destruct (list_elem_of_split _ _ Ha) as (l1 & l2 & EL).
  pose proof HL as HL'. rewrite EL in HL'.
  pose proof (chain_prev t Ls 0 l1 a l2 Hsh HL') as Hp.
  pose proof (chain_next t Ls 0 l1 a l2 Hsh HL') as Hn.
  pose proof (sh_hdr_next _ _ Hsh) as Hhn. rewrite HL' in Hhn. simpl in Hhn.
  pose proof (sh_hdr_pre _ _ Hsh) as Hhp. rewrite HL' in Hhp. simpl in Hhp.
  assert (∀ x, x ∈ l1 ++ a :: l2 → in_tree t x ∧ leaf t x = true) as Hin.
  { intros x Hx. split.
    - apply (level_in_tree (length Ls - 1) 0 _ x HL' Hx).
      apply lookup_lt_Some in HL'. lia.
    - rewrite (sh_leaf _ _ Hsh _ _ _ HL' Hx). by rewrite bool_decide_eq_true_2. }
  assert (∃ p, prv t a = Some p ∧ nxt t p = Some a ∧
               (p = header ∨ in_tree t p ∧ leaf t p = true)) as (p & Hp1 & Hp2 & Hp3).
  { destruct l1 as [|q l1 _] using rev_ind.
    - exists header. simpl in Hp, Hhn. by rewrite Hp, Hhn; auto.
    - exists q. rewrite last_snoc in Hp. simpl in Hp. split; [done|]. split.
      + rewrite <- app_assoc in HL'. simpl in HL'.
        by rewrite (chain_next t Ls 0 l1 q (a :: l2) Hsh HL').
      + right. apply Hin. set_solver. }
  assert (∃ n, nxt t a = Some n ∧ prv t n = Some a ∧
               (n = header ∨ in_tree t n ∧ leaf t n = true)) as (n & Hn1 & Hn2 & Hn3).
  { destruct l2 as [|q l2].
    - exists header. simpl in Hn. rewrite last_snoc in Hhp. simpl in Hhp.
      by rewrite Hn, Hhp; auto.
    - exists q. simpl in Hn. split; [done|]. split.
      + assert (Ls !! 0%nat = Some ((l1 ++ [a]) ++ q :: l2)) as HL2
          by (by rewrite <- app_assoc).
        rewrite (chain_prev t Ls 0 (l1 ++ [a]) q l2 Hsh HL2). by rewrite last_snoc.
      + right. apply Hin. set_solver. }
  by exists p, n.
Qed.

End Nodes.

(** ** The shape of the tree in the states of a program *)

(** X20: in every node under the root of a state a program reaches, the
    records of a leaf have no child, and a record of an internal node has
    a child whose parent pointer is that node and whose last key is the
    key of the record. *)
Theorem records_point_to_children_with_their_last_key
    (order : nat) (t : tree) (X : gset Z) (a : addr) (r : RecordPair) :
  reach order t X → (2 ≤ order)%nat → in_tree t a → r ∈ recs t a →
  if leaf t a then r.2 = None
  else ∃ c, r.2 = Some c ∧ live t c ∧ par t c = Some a ∧ last_key (recs t c) = Some r.1.
Proof.
  intros Hr Hord Ha Hin.
  destruct (reach_WF order t X Hord Hr) as (Ls & K & [Hsh Hct] & _).
  exact (node_records order t Ls K Hsh Hct Hord a r Ha Hin).
Qed.

Lemma records_point_to_children_with_their_last_key_witness :
  (in_tree sample_cousins 7%nat ∧ (9, Some 6%nat) ∈ recs sample_cousins 7%nat) ∧
  if leaf sample_cousins 7%nat then (9, Some 6%nat).2 = None
  else ∃ c, (9, Some 6%nat).2 = Some c ∧ live sample_cousins c ∧
         par sample_cousins c = Some 7%nat ∧
         last_key (recs sample_cousins c) = Some (9, Some 6%nat).1.
Proof.
  assert (Ha : in_tree sample_cousins 7%nat).
  { apply in_tree_root. vm_compute. reflexivity. }
  assert (Hr : (9, Some 6%nat) ∈ recs sample_cousins 7%nat).
  { apply list_elem_of_lookup. exists 0%nat. vm_compute. reflexivity. }
  split; [split; [exact Ha|exact Hr]|].
  apply (records_point_to_children_with_their_last_key 3 sample_cousins
           (list_to_set [8; 9; 17; 14; 1; 19; 6; 15; 12]) 7%nat (9, Some 6%nat)).
  - apply (reach_sample 3 [8; 9; 17; 14; 1; 19; 6; 15; 12]). lia.
  - lia.
  - exact Ha.
  - exact Hr.
Defined.

(** X21: every node under the root holds at most [order] records, in
    strictly ascending order of their keys; a node other than the root
    holds at least [(order + 1) / 2] records, a root that is a leaf at
    least one and an internal root at least two. *)
Theorem nodes_are_filled_within_the_bounds
    (order : nat) (t : tree) (X : gset Z) (a : addr) :
  reach order t X → (2 ≤ order)%nat → in_tree t a →
  (length (recs t a) ≤ order)%nat ∧ StronglySorted Z.lt (keys (recs t a)) ∧
  if decide (m_root t = Some a)
  then ((if leaf t a then 1 else 2) ≤ length (recs t a))%nat
  else (half_order order ≤ length (recs t a))%nat.
Proof.
  intros Hr Hord Ha.
  destruct (reach_WF order t X Hord Hr) as (Ls & K & [Hsh Hct] & _).
  exact (node_fill order t Ls K Hsh Hct Hord a Ha).
Qed.

Lemma nodes_are_filled_within_the_bounds_witness :
  in_tree sample_cousins 6%nat ∧
  (length (recs sample_cousins 6%nat) ≤ 3)%nat ∧
  StronglySorted Z.lt (keys (recs sample_cousins 6%nat)) ∧
  if decide (m_root sample_cousins = Some 6%nat)
  then ((if leaf sample_cousins 6%nat then 1 else 2) ≤ length (recs sample_cousins 6%nat))%nat
  else (half_order 3 ≤ length (recs sample_cousins 6%nat))%nat.
Proof.
  assert (Ha : in_tree sample_cousins 6%nat).
  { apply (in_tree_child sample_cousins 7%nat (9, Some 6%nat) 6%nat).
    - apply in_tree_root. vm_compute. reflexivity.
    - apply list_elem_of_lookup. exists 0%nat. vm_compute. reflexivity.
    - reflexivity. }
  split; [exact Ha|].
  apply (nodes_are_filled_within_the_bounds 3 sample_cousins
           (list_to_set [8; 9; 17; 14; 1; 19; 6; 15; 12]) 6%nat).
  - apply (reach_sample 3 [8; 9; 17; 14; 1; 19; 6; 15; 12]). lia.
  - lia.
  - exact Ha.
Defined.

(** X22: the tree is balanced: all leaves are the same number of child
    pointers below the root, and the nodes at that depth are leaves. *)
Theorem leaves_are_at_the_same_depth
    (order : nat) (t : tree) (X : gset Z) (a b : addr) (d d' : nat) :
  reach order t X → (2 ≤ order)%nat → depth t a d → depth t b d' → leaf t a = true →
  leaf t b = bool_decide (d' = d).
Proof.
  intros Hr Hord Ha Hb Hleaf.
  destruct (reach_WF order t X Hord Hr) as (Ls & K & [Hsh Hct] & _).
  rewrite (leaf_depth order t Ls K Hsh Hct Hord a d Ha) in Hleaf.
  apply bool_decide_eq_true in Hleaf.
  rewrite (leaf_depth order t Ls K Hsh Hct Hord b d' Hb).
  apply bool_decide_ext. lia.
Qed.

Lemma leaves_are_at_the_same_depth_witness :
  (depth sample_cousins 2%nat 2 ∧ depth sample_cousins 5%nat 2 ∧
   leaf sample_cousins 2%nat = true) ∧
  leaf sample_cousins 5%nat = bool_decide (2%nat = 2%nat).
Proof.
  assert (H7 : depth sample_cousins 7%nat 0).
  { apply depth_root. vm_compute. reflexivity. }
  assert (H2 : depth sample_cousins 2%nat 2).
  { apply (depth_child sample_cousins 6%nat 1 (9, Some 2%nat) 2%nat).
    - apply (depth_child sample_cousins 7%nat 0 (9, Some 6%nat) 6%nat).
      + exact H7.
      + apply list_elem_of_lookup. exists 0%nat. vm_compute. reflexivity.
      + reflexivity.
    - apply list_elem_of_lookup. exists 1%nat. vm_compute. reflexivity.
    - reflexivity. }
  assert (H5 : depth sample_cousins 5%nat 2).
  { apply (depth_child sample_cousins 3%nat 1 (15, Some 5%nat) 5%nat).
    - apply (depth_child sample_cousins 7%nat 0 (19, Some 3%nat) 3%nat).
      + exact H7.
      + apply list_elem_of_lookup. exists 1%nat. vm_compute. reflexivity.
      + reflexivity.
    - apply list_elem_of_lookup. exists 0%nat. vm_compute. reflexivity.
    - reflexivity. }
  assert (Hl : leaf sample_cousins 2%nat = true) by (vm_compute; reflexivity).
  split; [split; [exact H2|split; [exact H5|exact Hl]]|].
  apply (leaves_are_at_the_same_depth 3 sample_cousins
           (list_to_set [8; 9; 17; 14; 1; 19; 6; 15; 12]) 2%nat 5%nat 2 2).
  - apply (reach_sample 3 [8; 9; 17; 14; 1; 19; 6; 15; 12]). lia.
  - lia.
  - exact H2.
  - exact H5.
  - exact Hl.
Defined.

(** X23: the leaves are doubly linked in a ring through the header: a
    leaf under the root has a predecessor whose [next] is the leaf and a
    successor whose [pre] is the leaf, and each of the two is the header
    or again a leaf under the root. *)
Theorem leaves_are_doubly_linked_through_the_header
    (order : nat) (t : tree) (X : gset Z) (a : addr) :
  reach order t X → (2 ≤ order)%nat → in_tree t a → leaf t a = true →
  ∃ p n, prv t a = Some p ∧ nxt t p = Some a ∧ nxt t a = Some n ∧ prv t n = Some a ∧
    (p = header ∨ in_tree t p ∧ leaf t p = true) ∧
    (n = header ∨ in_tree t n ∧ leaf t n = true).
Proof.
  intros Hr Hord Ha Hleaf.
  destruct (reach_WF order t X Hord Hr) as (Ls & K & [Hsh Hct] & _).
  exact (leaf_links order t Ls K Hsh Hct Hord a Ha Hleaf).
Qed.

Lemma leaves_are_doubly_linked_through_the_header_witness :
  (in_tree sample_cousins 2%nat ∧ leaf sample_cousins 2%nat = true) ∧
  ∃ p n, prv sample_cousins 2%nat = Some p ∧ nxt sample_cousins p = Some 2%nat ∧
    nxt sample_cousins 2%nat = Some n ∧ prv sample_cousins n = Some 2%nat ∧
    (p = header ∨ in_tree sample_cousins p ∧ leaf sample_cousins p = true) ∧
    (n = header ∨ in_tree sample_cousins n ∧ leaf sample_cousins n = true).
Proof.
  assert (Ha : in_tree sample_cousins 2%nat).
  { apply (in_tree_child sample_cousins 6%nat (9, Some 2%nat) 2%nat).
    - apply (in_tree_child sample_cousins 7%nat (9, Some 6%nat) 6%nat).
      + apply in_tree_root. vm_compute. reflexivity.
      + apply list_elem_of_lookup. exists 0%nat. vm_compute. reflexivity.
      + reflexivity.
    - apply list_elem_of_lookup. exists 1%nat. vm_compute. reflexivity.
    - reflexivity. }
  assert (Hl : leaf sample_cousins 2%nat = true) by (vm_compute; reflexivity).
  split; [split; [exact Ha|exact Hl]|].
  apply (leaves_are_doubly_linked_through_the_header 3 sample_cousins
           (list_to_set [8; 9; 17; 14; 1; 19; 6; 15; 12]) 2%nat).
  - apply (reach_sample 3 [8; 9; 17; 14; 1; 19; 6; 15; 12]). lia.
  - lia.
  - exact Ha.
  - exact Hl.
Defined.

(** X24: [main] of [example.cpp] as a sorting procedure: inserting any
    keys into the empty tree and then running the range-based [for] gives
    the inserted keys without repetition in strictly ascending order. *)
Theorem insert_then_traverse_sorts (order : nat) (ks : list Z) :
  (2 ≤ order)%nat →
  ∃ t K, insert_keys order ks empty_tree = Some (tt, t) ∧ traverse t = Some (K, t) ∧
    StronglySorted Z.lt K ∧ ∀ k, k ∈ K ↔ k ∈ ks.
Proof.
  intros Hord.
  destruct (reach_insert_keys order Hord ks empty_tree ∅ (reach_empty order))
    as (t & Hrun & Hr).
  destruct (reach_WF order t _ Hord Hr) as (Ls & K & Hwf & HK).
  exists t, K. split; [done|]. split; [exact (traverse_spec order t Ls K Hwf Hord)|].
  split; [exact (ct_sorted _ _ _ _ _ _ _ (proj2 Hwf))|].
  intros k. rewrite HK. rewrite elem_of_union, elem_of_list_to_set. set_solver.
Qed.

Lemma insert_then_traverse_sorts_witness :
  let ks := [8; 9; 17; 14; 1; 19; 6; 15; 12; 9; 1] in
  ∃ t K, insert_keys 3 ks empty_tree = Some (tt, t) ∧ traverse t = Some (K, t) ∧
    StronglySorted Z.lt K ∧ ∀ k, k ∈ K ↔ k ∈ ks.
Proof.
  intros ks. apply (insert_then_traverse_sorts 3 ks). lia.
Defined.

(** ** What [erase] returns *)

Lemma record_at_with_size p i n t r :
  record_at p i t = Some (r, t) → record_at p i (with_size n t) = Some (r, with_size n t).
Proof.
  unfold record_at, bind, load. destruct p as [a|]; [|done]. simpl.
  destruct (heap t !! a) as [nd|]; [|done].
  destruct (records nd !! i); [|done]. unfold ret. by intros [= ->].
Qed.

(** With two keys or more, the handle returned is [lower_bound] of the
    erased key on the tree after the removal. *)
Lemma erase_returns_lower_bound order pos t k c r t' :
  (2 ≤ m_size t)%nat → record_at (it_node pos) (it_rec pos) t = Some ((k, c), t) →
  erase order pos t = Some (erased r, t') → lower_bound k t' = Some (r, t').
Proof.
  intros Hsz Hrec. unfold erase, get_size.
  rewrite (bind_run _ _ t (m_size t) t eq_refl).
  rewrite bool_decide_eq_false_2 by lia. unfold put_size.
  rewrite (bind_run _ _ t tt (with_size (Nat.pred (m_size t)) t) eq_refl).
  rewrite bool_decide_eq_false_2 by lia.
  rewrite (bind_run _ _ _ _ _ (record_at_with_size _ _ (Nat.pred (m_size t)) t _ Hrec)).
  simpl. unfold loop_bound at 1.
  rewrite (bind_run _ _ _ _ _ eq_refl).
  intros H.
  apply bind_Some in H as (? & t1 & _ & H).
  apply bind_Some in H as (? & t2 & _ & H).
  apply bind_Some in H as (it & t3 & H3 & H).
  unfold ret in H. injection H as <- <-.
  by rewrite (readonly_lower_bound k _ _ _ H3) in H3 |- *.
Qed.

(** With one key, [erase] clears the tree and returns [end()]. *)
Lemma erase_only order t Ls K pos :
  shape t Ls → content order None None 2 t Ls K → m_size t = 1%nat →
  ∃ t', erase order pos t = Some (erased make_end, t') ∧ WF order t' [] [].
Proof.
  intros Hsh Hct Hsz.
  destruct (clear_spec order t Ls K (with_size 0 t) Hsh Hct eq_refl eq_refl)
    as (t' & Hrun & Hwf).
  exists t'. split; [|done].
  unfold erase, get_size. rewrite (bind_run _ _ t (m_size t) t eq_refl). rewrite Hsz.
  rewrite bool_decide_eq_false_2 by lia.
  rewrite (bind_run (put_size _) _ t tt (with_size 0 t) eq_refl).
  rewrite bool_decide_eq_true_2 by done.
  by rewrite (bind_run _ _ _ _ _ Hrun).
Qed.

Lemma two_keys (X : gset Z) k k' : k ∈ X → k' ∈ X → k ≠ k' → (2 ≤ base.size X)%nat.
Proof.
  intros Hk Hk' Hne.
  assert (base.size ({[k]} ∪ {[k']} : gset Z) = 2%nat) as <-.
  { rewrite size_union by set_solver. by rewrite !size_singleton. }
  apply subseteq_size. set_solver.
Qed.

(** The run of [erase] at the handle of a stored key of a tree with
    another key. *)
Lemma reach_erase_result order t X k k0 it :
  (2 ≤ order)%nat → reach order t X → find k t = Some (it, t) →
  k ∈ X → k0 ∈ X → k0 ≠ k →
  ∃ r t', erase order it t = Some (erased r, t') ∧ reach order t' (X ∖ {[k]}) ∧
    lower_bound k t' = Some (r, t').
Proof.
  intros Hord Hr Hf Hk Hk0 Hne.
  destruct (reach_find order Hord t X k Hr) as (it' & Hf' & Hcase).
  rewrite Hf in Hf'. injection Hf' as <-.
  destruct Hcase as [(_ & P & i & -> & Hl & Hrec)|[Hn _]]; [|done].
  destruct (reach_erase_run order Hord t X k _ Hr Hf) as (r & t' & Hrun & _);
    [exact (proj2 (deref_run t P i (k, None) true Hl Hrec))|].
  exists r, t'. split; [done|]. split.
  - apply (reach_erase order t X k _ (erased r) t' Hr Hf); [|done].
    exact (proj2 (deref_run t P i (k, None) true Hl Hrec)).
  - apply (erase_returns_lower_bound order (mkIt true (Some P) i) t k None r t'); [| |done].
    + rewrite (reach_size order Hord t X Hr). by apply (two_keys X k0 k).
    + simpl. by apply record_at_run.
Qed.

(** X25: when a key greater than [k] is stored, [erase] at the handle of
    the stored key [k] returns the handle of the smallest stored key
    greater than [k], valid in the tree after the removal. *)
Theorem erase_returns_the_next_key
    (order : nat) (t : tree) (X : gset Z) (k k' : Z) (it : iterator) :
  reach order t X → (2 ≤ order)%nat → find k t = Some (it, t) →
  k ∈ X → k' ∈ X → k < k' → (∀ x, x ∈ X → k < x → k' ≤ x) →
  ∃ r t', erase order it t = Some (erased r, t') ∧
    deref r t' = Some (k', t') ∧ find k' t' = Some (r, t').
Proof.
  intros Hr Hord Hf Hk Hk' Hlt Hmin.
  destruct (reach_erase_result order t X k k' it Hord Hr Hf Hk Hk' ltac:(lia))
    as (r & t' & Hrun & Hr' & Hlb).
  exists r, t'. split; [done|].
  destruct (reach_lower_bound order t' (X ∖ {[k]}) k k' Hr' Hord) as (r' & Hlb' & Hd & Hf').
  - set_solver by lia.
  - lia.
  - intros x [Hx Hxk%not_elem_of_singleton]%elem_of_difference Hle. apply Hmin; [done|lia].
  - rewrite Hlb in Hlb'. injection Hlb' as <-. done.
Qed.

Lemma erase_returns_the_next_key_witness :
  let X : gset Z := list_to_set [8; 9; 17; 14; 1; 19; 6; 15; 12] in
  let it := mkIt true (Some 2%nat) 1 in
  (find 9 sample_cousins = Some (it, sample_cousins) ∧ 9 ∈ X ∧ 12 ∈ X ∧
   ∀ x, x ∈ X → 9 < x → 12 ≤ x) ∧
  ∃ r t', erase 3 it sample_cousins = Some (erased r, t') ∧
    deref r t' = Some (12, t') ∧ find 12 t' = Some (r, t').
Proof.
  intros X it.
  assert (Hf : find 9 sample_cousins = Some (it, sample_cousins))
    by (vm_compute; reflexivity).
  assert (H9 : 9 ∈ X) by (unfold X; simpl; set_solver).
  assert (H12 : 12 ∈ X) by (unfold X; simpl; set_solver).
  assert (Hmin : ∀ x, x ∈ X → 9 < x → 12 ≤ x).
  { intros x Hx. unfold X in Hx. simpl in Hx. set_unfold in Hx. lia. }
  split; [split; [exact Hf|split; [exact H9|split; [exact H12|exact Hmin]]]|].
  apply (erase_returns_the_next_key 3 sample_cousins X 9 12 it).
  - apply (reach_sample 3 [8; 9; 17; 14; 1; 19; 6; 15; 12]). lia.
  - lia.
  - exact Hf.
  - exact H9.
  - exact H12.
  - lia.
  - exact Hmin.
Defined.

(** X26: [erase] at the handle of the greatest stored key of a tree with
    other keys returns a handle that cannot be dereferenced; it is
    [end()] unless the root of the tree after the removal is a leaf, and
    then it does not compare equal to [end()]. *)
Theorem erase_of_the_greatest_key
    (order : nat) (t : tree) (X : gset Z) (k k0 : Z) (it : iterator) :
  reach order t X → (2 ≤ order)%nat → find k t = Some (it, t) →
  k ∈ X → (∀ x, x ∈ X → x ≤ k) → k0 ∈ X → k0 ≠ k →
  ∃ r t', erase order it t = Some (erased r, t') ∧ deref r t' = None ∧
    (it_eq r make_end = false ↔ ∃ rt, m_root t' = Some rt ∧ leaf t' rt = true).
Proof.
  intros Hr Hord Hf Hk Hmax Hk0 Hne.
  destruct (reach_erase_result order t X k k0 it Hord Hr Hf Hk Hk0 Hne)
    as (r & t' & Hrun & Hr' & Hlb).
  exists r, t'. split; [done|].
  destruct (reach_lower_bound_past order t' (X ∖ {[k]}) k Hr' Hord) as (r' & Hlb' & Hd & He).
  - intros x [Hx Hxk%not_elem_of_singleton]%elem_of_difference. specialize (Hmax x Hx). lia.
  - rewrite Hlb in Hlb'. injection Hlb' as <-. done.
Qed.

Lemma erase_of_the_greatest_key_witness :
  let X : gset Z := list_to_set [1; 2] in
  let it := mkIt true (Some 1%nat) 1 in
  (find 2 sample_leaf = Some (it, sample_leaf) ∧ 2 ∈ X ∧ (∀ x, x ∈ X → x ≤ 2) ∧ 1 ∈ X) ∧
  ∃ r t', erase 3 it sample_leaf = Some (erased r, t') ∧ deref r t' = None ∧
    (it_eq r make_end = false ↔ ∃ rt, m_root t' = Some rt ∧ leaf t' rt = true).
Proof.
  intros X it.
  assert (Hf : find 2 sample_leaf = Some (it, sample_leaf)) by (vm_compute; reflexivity).
  assert (H2 : 2 ∈ X) by (unfold X; simpl; set_solver).
  assert (H1 : 1 ∈ X) by (unfold X; simpl; set_solver).
  assert (Hmax : ∀ x, x ∈ X → x ≤ 2).
  { intros x Hx. unfold X in Hx. simpl in Hx. set_unfold in Hx. lia. }
  split; [split; [exact Hf|split; [exact H2|split; [exact Hmax|exact H1]]]|].
  apply (erase_of_the_greatest_key 3 sample_leaf X 2 1 it).
  - apply (reach_sample 3 [1; 2]). lia.
  - lia.
  - exact Hf.
  - exact H2.
  - exact Hmax.
  - exact H1.
  - lia.
Defined.

(** X27: [erase] at the handle of the only stored key returns [end()] and
    leaves the tree as [clear()] does: a null root, size zero, and a
    header linked to itself. *)
Theorem erase_of_the_only_key
    (order : nat) (t : tree) (X : gset Z) (k : Z) (it : iterator) :
  reach order t X → (2 ≤ order)%nat → find k t = Some (it, t) →
  k ∈ X → (∀ x, x ∈ X → x = k) →
  ∃ t', erase order it t = Some (erased make_end, t') ∧
    m_root t' = None ∧ m_size t' = 0%nat ∧
    nxt t' header = Some header ∧ prv t' header = Some header.
Proof.
  intros Hr Hord Hf Hk Hall.
  destruct (reach_WF order t X Hord Hr) as (Ls & K & [Hsh Hct] & HK).
  assert (m_size t = 1%nat) as Hsz.
  { rewrite (reach_size order Hord t X Hr).
    assert (X = {[k]}) as -> by (apply set_eq; intros x; set_solver).
    apply size_singleton. }
  destruct (erase_only order t Ls K it Hsh Hct Hsz) as (t' & Hrun & [Hsh' Hct']).
  exists t'. split; [done|].
  split; [exact (sh_root _ _ Hsh')|]. split; [exact (ct_size _ _ _ _ _ _ _ Hct')|].
  split; [exact (sh_hdr_next _ _ Hsh')|exact (sh_hdr_pre _ _ Hsh')].
Qed.

Lemma erase_of_the_only_key_witness :
  let t := state_after (insert_keys 3 [5]) empty_tree in
  let X : gset Z := list_to_set [5] in
  let it := mkIt true (Some 1%nat) 0 in
  (find 5 t = Some (it, t) ∧ 5 ∈ X ∧ ∀ x, x ∈ X → x = 5) ∧
  ∃ t', erase 3 it t = Some (erased make_end, t') ∧
    m_root t' = None ∧ m_size t' = 0%nat ∧
    nxt t' header = Some header ∧ prv t' header = Some header.
Proof.
  intros t X it.
  assert (Hf : find 5 t = Some (it, t)) by (vm_compute; reflexivity).
  assert (H5 : 5 ∈ X) by (unfold X; simpl; set_solver).
  assert (Hall : ∀ x, x ∈ X → x = 5).
  { intros x Hx. unfold X in Hx. simpl in Hx. set_unfold in Hx. lia. }
  split; [split; [exact Hf|split; [exact H5|exact Hall]]|].
  apply (erase_of_the_only_key 3 t X 5 it).
  - apply (reach_sample 3 [5]). lia.
  - lia.
  - exact Hf.
  - exact H5.
  - exact Hall.
Defined.

(** X28: the handle that [insert(k)] returns, for a new key as for a
    stored one, is the handle that [find(k)] returns on the tree after
    the call. *)
Theorem insert_returns_the_handle_of_find (order : nat) (t : tree) (X : gset Z) (k : Z) :
  reach order t X → (2 ≤ order)%nat →
  ∃ it b t', insert order k t = Some ((it, b), t') ∧ find k t' = Some (it, t').
Proof.
  intros Hr Hord. destruct (reach_WF order t X Hord Hr) as (Ls & K & [Hsh Hct] & HK).
  destruct (insert_spec order t Ls K Hsh Hct Hord k)
    as (Q & i & b & t' & Ls' & K' & L0' & Hrun & [Hsh' Hct'] & HL0' & HQ & Hrec & _).
  exists (mkIt true (Some Q) i), b, t'. split; [done|].
  destruct (list_elem_of_split _ _ HQ) as (l1 & l2 & EL).
  pose proof (at_pos_of t' l1 Q l2 i ltac:(by apply lookup_lt_Some in Hrec)) as Hp.
  rewrite <- EL in Hp.
  destruct (at_pos_key order t' Ls' K' Hsh' Hct' L0' HL0' _ _ Hp)
    as (Q' & i' & k' & Eit & _ & Hrec' & Hk' & _).
  injection Eit as <- <-. rewrite Hrec in Hrec'. injection Hrec' as <-.
  destruct (find_pos order t' Ls' K' Hsh' Hct' Hord L0' HL0' _ k Hk') as (it2 & Hf & Hp2).
  by rewrite (at_pos_unique t' L0' _ _ _ Hp Hp2).
Qed.

Lemma insert_returns_the_handle_of_find_witness :
  ∃ it b t', insert 3 13 sample_cousins = Some ((it, b), t') ∧ find 13 t' = Some (it, t').
Proof.
  apply (insert_returns_the_handle_of_find 3 sample_cousins
           (list_to_set [8; 9; 17; 14; 1; 19; 6; 15; 12]) 13).
  - apply (reach_sample 3 [8; 9; 17; 14; 1; 19; 6; 15; 12]). lia.
  - lia.
Defined.

(** X29: every node under the root is allocated, is not the header and
    holds at least one record; the root has no parent, and a node is a
    leaf exactly when none of its records has a child pointer. *)
Theorem nodes_under_the_root_are_allocated
    (order : nat) (t : tree) (X : gset Z) (a : addr) :
  reach order t X → (2 ≤ order)%nat → in_tree t a →
  live t a ∧ a ≠ header ∧ recs t a ≠ [] ∧ (m_root t = Some a → par t a = None) ∧
  (leaf t a = true ↔ ∀ r, r ∈ recs t a → r.2 = None).
Proof.
  intros Hr Hord Ha.
  destruct (reach_WF order t X Hord Hr) as (Ls & K & [Hsh Hct] & _).
  destruct (in_tree_level order t Ls K Hsh Hct Hord a Ha) as (j & L & HL & HaL).
  pose proof (level_nonempty order None None 2 t Ls K Hct j L a Hord ltac:(lia) HL HaL)
    as Hne.
  split; [exact (sh_live _ _ Hsh _ _ _ HL HaL)|].
  split; [exact (level_not_header _ _ Hsh _ _ _ HL HaL)|].
  split; [done|]. split; [exact (sh_root_par _ _ Hsh a)|].
  split.
  - intros Hleaf r Hin.
    pose proof (node_records order t Ls K Hsh Hct Hord a r Ha Hin) as Hrec.
    by rewrite Hleaf in Hrec.
  - intros Hall. destruct (leaf t a) eqn:El; [done|]. exfalso.
    destruct (recs t a) as [|r rs] eqn:Er; [done|].
    assert (r ∈ recs t a) as Hin by (rewrite Er; set_solver).
    pose proof (node_records order t Ls K Hsh Hct Hord a r Ha Hin) as Hrec.
    rewrite El in Hrec. destruct Hrec as (c & Hc & _).
    rewrite (Hall r) in Hc; [done|]. rewrite <- Er. done.
Qed.

Lemma nodes_under_the_root_are_allocated_witness :
  in_tree sample_cousins 7%nat ∧
  (live sample_cousins 7%nat ∧ 7%nat ≠ header ∧ recs sample_cousins 7%nat ≠ [] ∧
   (m_root sample_cousins = Some 7%nat → par sample_cousins 7%nat = None) ∧
   (leaf sample_cousins 7%nat = true ↔ ∀ r, r ∈ recs sample_cousins 7%nat → r.2 = None)).
Proof.
  assert (Ha : in_tree sample_cousins 7%nat).
  { apply in_tree_root. vm_compute. reflexivity. }
  split; [exact Ha|].
  apply (nodes_under_the_root_are_allocated 3 sample_cousins
           (list_to_set [8; 9; 17; 14; 1; 19; 6; 15; 12]) 7%nat).
  - apply (reach_sample 3 [8; 9; 17; 14; 1; 19; 6; 15; 12]). lia.
  - lia.
  - exact Ha.
Defined.
